(** * broyale ECS core: ColumnStore, Archetype and World

    A shallow embedding of [src/ecs/columnStore.ts], [src/ecs/archetype.ts]
    and the World class, together with the part of the ECMAScript runtime
    those files rely on (numbers, typed arrays, [Map], [parseInt],
    [parseFloat], [Array.prototype.sort]). *)

From Stdlib Require Import Ascii String OrderedTypeEx.
From stdpp Require Import prelude strings sorting.
#[local] Open Scope Z_scope.

(** ** The JavaScript runtime used by the ECS sources *)

Module Js.

(** A JS number.  Finite non-zero values are [m * 2 ^ e] with [m] odd, so that
    a value has one representation whatever the width of the typed array it
    went through; [Finite 0 0] is [+0] and [NegZero] is [-0]. *)
Inductive number : Type :=
  | NaN
  | Infinity (neg : bool)
  | NegZero
  | Finite (m e : Z).

#[global] Instance number_eq_dec : EqDecision number.
Proof. solve_decision. Defined.

Fixpoint strip (p : positive) (e : Z) : positive * Z :=
  match p with
  | xO p' => strip p' (e + 1)
  | _ => (p, e)
  end.

(** [m * 2 ^ e] in canonical form. *)
Definition mk_finite (m e : Z) : number :=
  match m with
  | Z0 => Finite 0 0
  | Zpos p => let '(q, e') := strip p e in Finite (Zpos q) e'
  | Zneg p => let '(q, e') := strip p e in Finite (Zneg q) e'
  end.

Definition number_of_Z (z : Z) : number := mk_finite z 0.

(** Round [m * 2 ^ e] (with [m <> 0]) to the nearest value of the binary
    format with [prec] bits of precision, least exponent [emin] and values
    below [2 ^ emax], ties to even. *)
Definition round_finite (prec emin emax : Z) (m e : Z) : number :=
  let a := Z.abs m in
  let d := Z.log2 a + 1 in
  let qe := Z.max (d + e - prec) emin in
  if qe <=? e then
    if emax <? d + e then Infinity (m <? 0) else mk_finite m e
  else
    let sh := qe - e in
    let q := a / 2 ^ sh in
    let r := a mod 2 ^ sh in
    let half := 2 ^ (sh - 1) in
    let q' := if r <? half then q
              else if half <? r then q + 1
              else if Z.even q then q else q + 1 in
    if q' =? 0 then (if m <? 0 then NegZero else Finite 0 0)
    else if emax <? Z.log2 q' + 1 + qe then Infinity (m <? 0)
    else mk_finite (if m <? 0 then - q' else q') qe.

Definition round_number (prec emin emax : Z) (x : number) : number :=
  match x with
  | Finite m e => if m =? 0 then x else round_finite prec emin emax m e
  | _ => x
  end.

(** binary64, binary32 and binary16 *)
Definition to_double : number -> number := round_number 53 (-1074) 1024.
Definition fround : number -> number := round_number 24 (-149) 128.
Definition f16round : number -> number := round_number 11 (-24) 16.

(** The integer part of a number, truncated toward zero; [0] for [NaN],
    the infinities and the zeros (ToIntegerOrInfinity, as the integer
    conversions use it). *)
Definition trunc (x : number) : Z :=
  match x with
  | Finite m e => if 0 <=? e then m * 2 ^ e else Z.quot m (2 ^ (- e))
  | _ => 0
  end.

Definition wrap_unsigned (w : Z) (z : Z) : Z := z mod 2 ^ w.
Definition wrap_signed (w : Z) (z : Z) : Z :=
  let u := z mod 2 ^ w in
  if u <? 2 ^ (w - 1) then u else u - 2 ^ w.

(** ToUint8Clamp: clamp to [0, 255], round half to even. *)
Definition to_uint8_clamp (x : number) : Z :=
  match x with
  | NaN | NegZero => 0
  | Infinity neg => if neg then 0 else 255
  | Finite m e =>
      if m <=? 0 then 0
      else if 0 <=? e then Z.min (m * 2 ^ e) 255
      else
        let q := m / 2 ^ (- e) in
        let r := m mod 2 ^ (- e) in
        let half := 2 ^ (- e - 1) in
        let q' := if r <? half then q
                  else if half <? r then q + 1
                  else if Z.even q then q else q + 1 in
        Z.min q' 255
  end.

(** [x !== 0] on numbers *)
Definition number_is_zero (x : number) : bool :=
  match x with
  | NegZero => true
  | Finite m _ => m =? 0
  | _ => false
  end.

(** *** Strings: [includes], [parseInt(s, 10)], [parseFloat(s)] *)

Definition code (c : ascii) : Z := Z.of_N (N_of_ascii c).

Fixpoint includes_char (c : ascii) (s : string) : bool :=
  match s with
  | EmptyString => false
  | String c' s' => if Ascii.eqb c c' then true else includes_char c s'
  end.

Definition is_white_space (c : ascii) : bool :=
  let n := code c in
  ((9 <=? n) && (n <=? 13)) || (n =? 32) || (n =? 160).

Fixpoint skip_white_space (s : string) : string :=
  match s with
  | String c s' => if is_white_space c then skip_white_space s' else s
  | EmptyString => s
  end.

Definition read_sign (s : string) : bool * string :=
  match s with
  | String c s' =>
      if Ascii.eqb c "-" then (true, s')
      else if Ascii.eqb c "+" then (false, s')
      else (false, s)
  | EmptyString => (false, s)
  end.

(** Reads the longest prefix of decimal digits: the value accumulated on
    [acc], the number of digits read, and the rest of the string. *)
Fixpoint read_digits (s : string) (acc : Z) (n : Z) : Z * Z * string :=
  match s with
  | String c s' =>
      let d := code c - 48 in
      if (0 <=? d) && (d <=? 9) then read_digits s' (10 * acc + d) (n + 1)
      else (acc, n, s)
  | EmptyString => (acc, n, s)
  end.

Definition signed_zero (neg : bool) : number :=
  if neg then NegZero else Finite 0 0.

(** The double nearest to [n * 10 ^ ex], for [0 < n]. *)
Definition decimal_to_double (neg : bool) (n ex : Z) : number :=
  if n =? 0 then signed_zero neg
  else if 0 <=? ex then
    round_finite 53 (-1074) 1024 ((if neg then - n else n) * 10 ^ ex) 0
  else
    let d := 10 ^ (- ex) in
    let s := Z.max 0 (56 + Z.log2 d - Z.log2 n) in
    let q := (n * 2 ^ s) / d in
    let sticky := if (n * 2 ^ s) mod d =? 0 then 0 else 1 in
    let m := 2 * q + sticky in
    round_finite 53 (-1074) 1024 (if neg then - m else m) (- s - 1).

Definition parseInt10 (s : string) : number :=
  let '(neg, s1) := read_sign (skip_white_space s) in
  let '(v, n, _) := read_digits s1 0 0 in
  if n =? 0 then NaN else decimal_to_double neg v 0.

Definition parseFloat (s : string) : number :=
  let '(neg, s1) := read_sign (skip_white_space s) in
  if String.prefix "Infinity" s1 then Infinity neg
  else
    let '(ip, ni, s2) := read_digits s1 0 0 in
    let '(mant, nf, s3) :=
      match s2 with
      | String "."%char s2' => read_digits s2' ip 0
      | _ => (ip, 0, s2)
      end in
    if ni + nf =? 0 then NaN
    else
      let ex :=
        match s3 with
        | String c s4 =>
            if Ascii.eqb c "e" || Ascii.eqb c "E" then
              let '(eneg, s5) := read_sign s4 in
              let '(ev, ne, _) := read_digits s5 0 0 in
              if ne =? 0 then 0 else if eneg then - ev else ev
            else 0
        | EmptyString => 0
        end in
      decimal_to_double neg mant (ex - nf).

(** *** Values *)

(** What [typeof] distinguishes, as far as the sources look. *)
Inductive value : Type :=
  | VUndefined
  | VNull
  | VBoolean (b : bool)
  | VNumber (x : number)
  | VBigInt (z : Z)
  | VString (s : string)
  | VSymbol
  | VFunction
  | VObject.

#[global] Instance value_eq_dec : EqDecision value.
Proof. solve_decision. Defined.

(** [typeof v] *)
Definition typeof (v : value) : string :=
  match v with
  | VUndefined => "undefined"
  | VNull | VObject => "object"
  | VBoolean _ => "boolean"
  | VNumber _ => "number"
  | VBigInt _ => "bigint"
  | VString _ => "string"
  | VSymbol => "symbol"
  | VFunction => "function"
  end.

(** A plain object: its own properties in key order. *)
Definition object := list (string * value).

Fixpoint prop_get (o : object) (key : string) : value :=
  match o with
  | [] => VUndefined
  | (k, v) :: o' => if String.eqb k key then v else prop_get o' key
  end.

(** *** Errors and the state-and-exception monad *)

Inductive error : Type :=
  | RangeError (msg : string)
  | TypeError (msg : string)
  | UnsupportedFieldTypeError (msg : string)
  | Error (msg : string).

(** The outcome of a call: a value, an exception, or no outcome at all (the
    [while] loop of [ensureCapacity] does not exit when the capacity is not
    positive). *)
Inductive result (A : Type) : Type :=
  | Ok (a : A)
  | Throw (e : error)
  | Diverge.
Arguments Ok {A} a.
Arguments Throw {A} e.
Arguments Diverge {A}.

Definition from_ok {A} (d : A) (r : result A) : A :=
  match r with Ok a => a | _ => d end.
Definition is_ok {A} (r : result A) : Prop :=
  match r with Ok _ => True | _ => False end.

Definition result_bind {A B} (r : result A) (k : A -> result B) : result B :=
  match r with
  | Ok a => k a
  | Throw e => Throw e
  | Diverge => Diverge
  end.

(** A method of an object with state [S]: the state after the call and
    either the returned value or the exception thrown (mutations made before
    a [throw] stay). *)
Definition M (S A : Type) : Type := S -> S * result A.

Definition ret {S A} (a : A) : M S A := fun s => (s, Ok a).
Definition throw {S A} (e : error) : M S A := fun s => (s, Throw e).
Definition bind {S A B} (m : M S A) (k : A -> M S B) : M S B :=
  fun s => match m s with
           | (s', Ok a) => k a s'
           | (s', Throw e) => (s', Throw e)
           | (s', Diverge) => (s', Diverge)
           end.
Definition gets {S A} (f : S -> A) : M S A := fun s => (s, Ok (f s)).
Definition modify {S} (f : S -> S) : M S unit := fun s => (f s, Ok tt).
Definition lift_result {S A} (r : result A) : M S A := fun s => (s, r).

(** A loop that pushes one result per element, unless a step throws. *)
Fixpoint collect {A B} (f : A -> result B) (l : list A) : result (list B) :=
  match l with
  | [] => Ok []
  | x :: l' =>
      result_bind (f x) (fun y =>
        result_bind (collect f l') (fun ys => Ok (y :: ys)))
  end.

Fixpoint forM_ {S A} (l : list A) (body : A -> M S unit) : M S unit :=
  match l with
  | [] => ret tt
  | x :: l' => bind (body x) (fun _ => forM_ l' body)
  end.

(** *** [Array.prototype.sort] and string comparison *)

(** [sort] is stable; with a comparator that orders the elements
    consistently its result is the one of this insertion sort. *)
Fixpoint sort_insert {A} (compareFn : A -> A -> Z) (x : A) (l : list A) : list A :=
  match l with
  | [] => [x]
  | y :: l' => if compareFn x y <=? 0 then x :: l else y :: sort_insert compareFn x l'
  end.

Definition sort {A} (compareFn : A -> A -> Z) (l : list A) : list A :=
  foldr (sort_insert compareFn) [] l.

(** [x] may stay before [y]. *)
Definition before {A} (compareFn : A -> A -> Z) (x y : A) : Prop := compareFn x y <= 0.

(** The comparison [sort()] uses without a comparator: by code units. *)
Definition code_unit_compare (a b : string) : Z :=
  match String.compare a b with
  | Lt => -1
  | Eq => 0
  | Gt => 1
  end.

(** [String.prototype.localeCompare] depends on the locale of the host. *)
Class Collation : Type := localeCompare : string -> string -> Z.

(** What a collation gives: a total preorder on the strings.  Two different
    strings may compare equal (the collation of the host ignores some code
    points), so this is no order. *)
Class CollationOrder (C : Collation) : Prop := {
  localeCompare_total a b : localeCompare a b <= 0 \/ localeCompare b a <= 0;
  localeCompare_trans a b c :
    localeCompare a b <= 0 -> localeCompare b c <= 0 -> localeCompare a c <= 0
}.


(** [typeIds.join("|")] *)
Definition join (sep : string) (l : list string) : string := String.concat sep l.

End Js.

Export Js.

Declare Scope js_scope.
Delimit Scope js_scope with js.
Notation "'do' x <- m ; k" := (bind m (fun x => k))
  (at level 10, x name, m at level 100, k at level 200,
   format "'[v' 'do'  x  <-  m ; '/' k ']'") : js_scope.
Notation "'do' 'tt' <- m ; k" := (bind m (fun _ : unit => k))
  (at level 10, m at level 100, k at level 200,
   format "'[v' 'do'  'tt'  <-  m ; '/' k ']'") : js_scope.
#[local] Open Scope js_scope.

(** *** [Map]: insertion-ordered, iterated in insertion order *)

Module JsMap.
Section JsMap.
Context {K V : Type} `{EqDecision K}.

Definition t := list (K * V).

Definition empty : t := [].

Fixpoint get (m : t) (k : K) : option V :=
  match m with
  | [] => None
  | (k', v) :: m' => if decide (k' = k) then Some v else get m' k
  end.

(** [set] keeps the position of a key that is present and appends a new
    one. *)
Fixpoint set (m : t) (k : K) (v : V) : t :=
  match m with
  | [] => [(k, v)]
  | (k', v') :: m' =>
      if decide (k' = k) then (k, v) :: m' else (k', v') :: set m' k v
  end.

Fixpoint delete (m : t) (k : K) : t :=
  match m with
  | [] => []
  | (k', v') :: m' =>
      if decide (k' = k) then delete m' k else (k', v') :: delete m' k
  end.

Definition keys (m : t) : list K := map fst m.
Definition values (m : t) : list V := map snd m.
Definition entries (m : t) : list (K * V) := m.
End JsMap.
Arguments t : clear implicits.
End JsMap.

(** *** Typed arrays *)

Module TypedArray.

Inductive kind : Type :=
  | Float16Array | Float32Array | Float64Array
  | Int8Array | Int16Array | Int32Array
  | Uint8Array | Uint16Array | Uint32Array
  | Uint8ClampedArray
  | BigInt64Array | BigUint64Array.

#[global] Instance kind_eq_dec : EqDecision kind.
Proof. solve_decision. Defined.

(** An element as a read returns it: a number, or a bigint for the two
    64-bit integer kinds. *)
Inductive elem : Type :=
  | Num (x : number)
  | Big (z : Z).

#[global] Instance elem_eq_dec : EqDecision elem.
Proof. solve_decision. Defined.

Record t : Type := mk { kind_of : kind; data : list elem }.

Definition is_bigint (k : kind) : bool :=
  match k with
  | BigInt64Array | BigUint64Array => true
  | _ => false
  end.

Definition zero (k : kind) : elem :=
  if is_bigint k then Big 0 else Num (Finite 0 0).

(** [new K(length)] *)
Definition create (k : kind) (length : Z) : t :=
  {| kind_of := k; data := replicate (Z.to_nat length) (zero k) |}.

Definition length (arr : t) : Z := Z.of_nat (List.length (data arr)).

(** The element a number becomes when stored. *)
Definition convert_number (k : kind) (x : number) : number :=
  match k with
  | Float16Array => f16round x
  | Float32Array => fround x
  | Float64Array => x
  | Int8Array => number_of_Z (wrap_signed 8 (trunc x))
  | Int16Array => number_of_Z (wrap_signed 16 (trunc x))
  | Int32Array => number_of_Z (wrap_signed 32 (trunc x))
  | Uint8Array => number_of_Z (wrap_unsigned 8 (trunc x))
  | Uint16Array => number_of_Z (wrap_unsigned 16 (trunc x))
  | Uint32Array => number_of_Z (wrap_unsigned 32 (trunc x))
  | Uint8ClampedArray => number_of_Z (to_uint8_clamp x)
  | BigInt64Array | BigUint64Array => x
  end.

Definition convert_bigint (k : kind) (z : Z) : Z :=
  match k with
  | BigInt64Array => wrap_signed 64 z
  | _ => wrap_unsigned 64 z
  end.

(** [arr[index]]: [None] is [undefined], read outside the array. *)
Definition get (arr : t) (index : Z) : option elem :=
  if index <? 0 then None else data arr !! Z.to_nat index.

(** The conversion [arr[index] = v] starts with: ToBigInt for the 64-bit
    integer kinds, ToNumber for the others ([undefined] becomes [NaN]). *)
Definition convert (k : kind) (v : option elem) : result elem :=
  if is_bigint k then
    match v with
    | Some (Big z) => Ok (Big (convert_bigint k z))
    | Some (Num _) => Throw (TypeError "Cannot convert a number to a BigInt")
    | None => Throw (TypeError "Cannot convert undefined to a BigInt")
    end
  else
    match v with
    | Some (Num x) => Ok (Num (convert_number k x))
    | Some (Big _) => Throw (TypeError "Cannot convert a BigInt value to a number")
    | None => Ok (Num (convert_number k NaN))
    end.

(** [arr[index] = v]: the value is converted first, and a write outside the
    array is dropped. *)
Definition set (arr : t) (index : Z) (v : option elem) : result t :=
  result_bind (convert (kind_of arr) v) (fun x =>
    Ok (if (0 <=? index) && (index <? length arr)
        then {| kind_of := kind_of arr; data := <[Z.to_nat index := x]> (data arr) |}
        else arr)).

(** [target.set(source, 0)]: a byte copy between arrays of one kind, an
    element-wise conversion otherwise. *)
Definition set_from (target source : t) : result t :=
  if length target <? length source then
    Throw (RangeError "offset is out of bounds")
  else if negb (bool_decide (is_bigint (kind_of target) = is_bigint (kind_of source))) then
    Throw (TypeError "Cannot mix BigInt and other types")
  else
    let copied :=
      if decide (kind_of target = kind_of source) then data source
      else
        map (fun x => match x with
                      | Num n => Num (convert_number (kind_of target) n)
                      | Big z => Big (convert_bigint (kind_of target) z)
                      end) (data source) in
    Ok {| kind_of := kind_of target;
          data := copied ++ drop (List.length (data source)) (data target) |}.

End TypedArray.

(** ** [src/ecs/types.ts] and [src/ecs/columnStore.ts] *)

Module ColumnStore.
Import TypedArray.

(** [FieldType]; the kind ["bool"] is [bool_] here. *)
Inductive FieldType : Type :=
  | f16 | f32 | f64
  | i8 | i16 | i32
  | u8 | u16 | u32
  | u8c
  | bi64 | biu64
  | bool_.

#[global] Instance FieldType_eq_dec : EqDecision FieldType.
Proof. solve_decision. Defined.

(** [ComponentSchema]: the fields in the order [Object.keys] lists them. *)
Definition ComponentSchema := list (string * FieldType).

(** [schema[key]] *)
Definition schema_get (schema : ComponentSchema) (key : string) : option FieldType :=
  JsMap.get schema key.

Definition INITIAL_CAPACITY : Z := 8.

Record t : Type := mk {
  schema : ComponentSchema;
  typedArrayMap : JsMap.t string TypedArray.t;
  capacity : Z;
  size : Z
}.

Definition with_typedArrayMap (m : JsMap.t string TypedArray.t) (s : t) : t :=
  {| schema := schema s; typedArrayMap := m; capacity := capacity s; size := size s |}.
Definition with_capacity (c : Z) (s : t) : t :=
  {| schema := schema s; typedArrayMap := typedArrayMap s; capacity := c; size := size s |}.
Definition with_size (n : Z) (s : t) : t :=
  {| schema := schema s; typedArrayMap := typedArrayMap s; capacity := capacity s; size := n |}.

Definition array_kind (type : FieldType) : kind :=
  match type with
  | f16 => Float16Array
  | f32 => Float32Array
  | f64 => Float64Array
  | i8 => Int8Array
  | i16 => Int16Array
  | i32 => Int32Array
  | u8 | bool_ => Uint8Array
  | u16 => Uint16Array
  | u32 => Uint32Array
  | u8c => Uint8ClampedArray
  | bi64 => BigInt64Array
  | biu64 => BigUint64Array
  end.

(** [createArrayForType]; [None] stands for [undefined], what [schema[key]]
    is for a key the schema does not have, which reaches the [default]
    branch. *)
Definition createArrayForType (type : option FieldType) (length : Z) : result TypedArray.t :=
  match type with
  | Some ft => Ok (TypedArray.create (array_kind ft) length)
  | None => Throw (UnsupportedFieldTypeError "Unsupported field type: undefined")
  end.

(** [new ColumnStore(schema, initialCapacity)] *)
Definition new (schema : ComponentSchema) (initialCapacity : Z) : result t :=
  let capacity := Z.max initialCapacity 1 in
  let this := {| schema := schema; typedArrayMap := JsMap.empty;
                 capacity := capacity; size := 0 |} in
  match
    forM_ (JsMap.keys schema) (fun key =>
      do arr <- lift_result (createArrayForType (schema_get schema key) capacity);
      modify (fun s => with_typedArrayMap (JsMap.set (typedArrayMap s) key arr) s)) this
  with
  | (s, Ok _) => Ok s
  | (_, Throw e) => Throw e
  | (_, Diverge) => Diverge
  end.

(** [while (newCap < minCapacity) newCap *= 2] *)
Fixpoint grow (fuel : nat) (newCap minCapacity : Z) : option Z :=
  if newCap <? minCapacity then
    match fuel with
    | O => None
    | S fuel' => grow fuel' (newCap * 2) minCapacity
    end
  else Some newCap.

Definition resize_field (newCap : Z) (entry : string * TypedArray.t) : M t unit :=
  let '(key, oldArr) := entry in
  do ft <- gets (fun s => schema_get (schema s) key);
  do newArr <- lift_result (createArrayForType ft newCap);
  do filled <-
    (if is_bigint (kind_of newArr) && is_bigint (kind_of oldArr) then
       lift_result (set_from newArr oldArr)
     else if negb (is_bigint (kind_of newArr)) && negb (is_bigint (kind_of oldArr)) then
       lift_result (set_from newArr oldArr)
     else
       throw (UnsupportedFieldTypeError
                ("Mismatched array types during resize for field " ++ key)));
  modify (fun s => with_typedArrayMap (JsMap.set (typedArrayMap s) key filled) s).

Definition ensureCapacity (minCapacity : Z) : M t unit := fun s =>
  if minCapacity <=? capacity s then (s, Ok tt)
  else
    match grow (Z.to_nat minCapacity) (capacity s) minCapacity with
    | None => (s, Diverge)
    | Some newCap =>
        (do tt <- forM_ (JsMap.entries (typedArrayMap s)) (resize_field newCap);
         modify (with_capacity newCap)) s
    end.

(** [const arr = this.typedArrayMap.get(key); if (!arr) throw ...;] followed
    by a write into [arr], which the map keeps holding. *)
Definition with_array (key : string) (f : TypedArray.t -> result TypedArray.t) : M t unit :=
  fun s =>
    match JsMap.get (typedArrayMap s) key with
    | None => (s, Throw (Error ("Array for field " ++ key ++ " not found")))
    | Some arr =>
        match f arr with
        | Ok arr' => (with_typedArrayMap (JsMap.set (typedArrayMap s) key arr') s, Ok tt)
        | Throw e => (s, Throw e)
        | Diverge => (s, Diverge)
        end
    end.

(** The [switch (typeof raw)] of [set]: what is assigned to [arr[index]]. *)
Definition raw_element (key : string) (raw : value) : result elem :=
  match raw with
  | VBigInt z => Ok (Big z)
  | VString s =>
      if includes_char "." s || includes_char "e" s || includes_char "E" s
      then Ok (Num (parseFloat s))
      else Ok (Num (parseInt10 s))
  | VNumber x => Ok (Num x)
  | VBoolean b => Ok (Num (if b then Finite 1 0 else Finite 0 0))
  | VUndefined => Ok (Num (Finite 0 0))
  | VFunction | VObject | VNull | VSymbol =>
      Throw (UnsupportedFieldTypeError
               ("Unsupported value type for field " ++ key ++ ": " ++ typeof raw))
  end.

Definition set (index : Z) (value : object) : M t unit :=
  if index <? 0 then throw (RangeError "Index must be non-negative")
  else
    do tt <- (fun s => if capacity s <=? index then ensureCapacity (index + 1) s
                       else (s, Ok tt));
    do tt <- (fun s => forM_ (JsMap.keys (schema s)) (fun key =>
                with_array key (fun arr =>
                  result_bind (raw_element key (prop_get value key)) (fun x =>
                    TypedArray.set arr index (Some x)))) s);
    modify (fun s => if size s <=? index then with_size (index + 1) s else s).

(** [BigInt(raw)] *)
Definition to_BigInt (raw : option elem) : result Z :=
  match raw with
  | Some (Big z) => Ok z
  | Some (Num (Finite m e)) =>
      if 0 <=? e then Ok (m * 2 ^ e)
      else Throw (RangeError "The number cannot be converted to a BigInt")
  | Some (Num NegZero) => Ok 0
  | Some (Num _) => Throw (RangeError "The number cannot be converted to a BigInt")
  | None => Throw (TypeError "Cannot convert undefined to a BigInt")
  end.

Definition elem_value (raw : option elem) : value :=
  match raw with
  | Some (Num x) => VNumber x
  | Some (Big z) => VBigInt z
  | None => VUndefined
  end.

(** [raw !== 0] *)
Definition not_zero (raw : option elem) : bool :=
  match raw with
  | Some (Num x) => negb (number_is_zero x)
  | _ => true
  end.

(** The [switch (ft)] of [get]. *)
Definition decode (ft : option FieldType) (raw : option elem) : result value :=
  match ft with
  | Some (f16 | f32 | f64 | i8 | i16 | i32 | u8 | u16 | u32 | u8c) => Ok (elem_value raw)
  | Some bool_ => Ok (VBoolean (not_zero raw))
  | Some (bi64 | biu64) => result_bind (to_BigInt raw) (fun z => Ok (VBigInt z))
  | None => Throw (UnsupportedFieldTypeError "Unsupported field type: undefined")
  end.

Fixpoint get_fields (s : t) (index : Z) (keys : list string) : result object :=
  match keys with
  | [] => Ok []
  | key :: keys' =>
      match JsMap.get (typedArrayMap s) key with
      | None => Throw (Error ("Array for field " ++ key ++ " not found"))
      | Some arr =>
          let ft := schema_get (schema s) key in
          let raw := if index <? size s then TypedArray.get arr index
                     else Some (Num (Finite 0 0)) in
          result_bind (decode ft raw) (fun v =>
            result_bind (get_fields s index keys') (fun out => Ok ((key, v) :: out)))
      end
  end.

Definition get (s : t) (index : Z) : result object :=
  get_fields s index (JsMap.keys (schema s)).

Definition swapRemove (index : Z) : M t unit := fun s =>
  let last := size s - 1 in
  if (index <? 0) || (size s <=? index) then (s, Throw (Error "Index out of range"))
  else if index =? last then (with_size (size s - 1) s, Ok tt)
  else
    (do tt <- forM_ (JsMap.keys (schema s)) (fun key =>
                with_array key (fun arr =>
                  TypedArray.set arr index (TypedArray.get arr last)));
     modify (fun s' => with_size (size s' - 1) s')) s.

Definition copyFrom (indexTarget : Z) (other : t) (indexSrc : Z) : M t unit :=
  do tt <- (fun s => if capacity s <=? indexTarget then ensureCapacity (indexTarget + 1) s
                     else (s, Ok tt));
  if (indexSrc <? 0) || (size other <=? indexSrc) then
    throw (RangeError "Source index out of range")
  else
    do tt <- (fun s => forM_ (JsMap.keys (schema s)) (fun key =>
                with_array key (fun dst =>
                  match JsMap.get (typedArrayMap other) key with
                  | Some src => TypedArray.set dst indexTarget (TypedArray.get src indexSrc)
                  | None => Throw (Error ("Array for field " ++ key ++ " not found"))
                  end)) s);
    modify (fun s => if size s <=? indexTarget then with_size (indexTarget + 1) s else s).

End ColumnStore.


(** ** [src/ecs/types.ts]: component constructors, and entities *)

(** [ComponentConstructor]: the static [typeId] and [schema] of a component
    class, and the instance [new c()] makes. *)
Module ComponentConstructor.
Record t : Type := mk {
  typeId : string;
  schema : ColumnStore.ComponentSchema;
  construct : object
}.
End ComponentConstructor.

(** [Entity] is a [bigint]. *)
Definition Entity : Type := Z.

(** ** [src/ecs/archetype.ts] *)

Module Archetype.
Import ComponentConstructor.

Definition DEFAULT_CAPACITY : Z := 8.

Record t : Type := mk {
  typeIds : list string;
  ctors : list ComponentConstructor.t;
  entityIds : list Entity;
  indexByEntity : JsMap.t Entity Z;
  stores : JsMap.t string ColumnStore.t
}.

Definition with_stores (m : JsMap.t string ColumnStore.t) (a : t) : t :=
  {| typeIds := typeIds a; ctors := ctors a; entityIds := entityIds a;
     indexByEntity := indexByEntity a; stores := m |}.
Definition with_entities (ids : list Entity) (ix : JsMap.t Entity Z) (a : t) : t :=
  {| typeIds := typeIds a; ctors := ctors a; entityIds := ids;
     indexByEntity := ix; stores := stores a |}.

(** [new Archetype(ctors)] *)
Definition new `{Collation} (ctors : list ComponentConstructor.t) : result t :=
  let sorted := sort (fun a b => localeCompare (typeId a) (typeId b)) ctors in
  let this := {| typeIds := map typeId sorted; ctors := sorted; entityIds := [];
                 indexByEntity := JsMap.empty; stores := JsMap.empty |} in
  match
    forM_ sorted (fun c =>
      do store <- lift_result (ColumnStore.new (schema c) DEFAULT_CAPACITY);
      modify (fun a => with_stores (JsMap.set (stores a) (typeId c) store) a)) this
  with
  | (a, Ok _) => Ok a
  | (_, Throw e) => Throw e
  | (_, Diverge) => Diverge
  end.

Definition copyConstructorList (a : t) : list ComponentConstructor.t := ctors a.

Definition signature (a : t) : string := join "|" (typeIds a).

Definition containsTypeId (a : t) (typeId : string) : bool :=
  bool_decide (typeId ∈ typeIds a).

(** [const store = this.stores.get(key); if (!store) throw ...;] followed by
    a call of a method of [store]. *)
Definition with_store (key : string) (f : M ColumnStore.t unit) : M t unit := fun a =>
  match JsMap.get (stores a) key with
  | None => (a, Throw (Error ("Component store for " ++ key ++ " missing")))
  | Some store =>
      let '(store', r) := f store in
      (with_stores (JsMap.set (stores a) key store') a, r)
  end.

Definition addEntity (entity : Entity) (componentValues : JsMap.t string object) : M t unit :=
  fun a =>
    let index := Z.of_nat (length (entityIds a)) in
    (do tt <- modify (with_entities (entityIds a ++ [entity])
                        (JsMap.set (indexByEntity a) entity index));
     forM_ (ctors a) (fun c =>
       with_store (typeId c)
         (match JsMap.get componentValues (typeId c) with
          | None => ColumnStore.set index (construct c)
          | Some compRaw => ColumnStore.set index compRaw
          end))) a.

(** [for (const [_, store] of Array.from(this.stores.entries())) f(store)] *)
Fixpoint each_store (f : M ColumnStore.t unit) (l : JsMap.t string ColumnStore.t)
  : JsMap.t string ColumnStore.t * result unit :=
  match l with
  | [] => ([], Ok tt)
  | (key, store) :: l' =>
      match f store with
      | (store', Ok _) => let '(l'', r) := each_store f l' in ((key, store') :: l'', r)
      | (store', Throw e) => ((key, store') :: l', Throw e)
      | (store', Diverge) => ((key, store') :: l', Diverge)
      end
  end.

(** [removeEntity].  [indexByEntity] holds row numbers of [entityIds] only,
    so [entityIds[idx] = lastEntity] is a write inside the array. *)
Definition removeEntity (entity : Entity) : M t unit := fun a =>
  match JsMap.get (indexByEntity a) entity with
  | None => (a, Ok tt)
  | Some idx =>
      let last := Z.of_nat (length (entityIds a)) - 1 in
      let lastEntity := if last <? 0 then None else entityIds a !! Z.to_nat last in
      let swapped :=
        match lastEntity with
        | Some e => if idx <? 0 then entityIds a else <[Z.to_nat idx := e]> (entityIds a)
        | None => entityIds a
        end in
      let popped := removelast swapped in
      let deleted := JsMap.delete (indexByEntity a) entity in
      if negb (idx =? last) then
        let index' :=
          match lastEntity with
          | Some e => JsMap.set deleted e idx
          | None => deleted
          end in
        let '(stores', r) := each_store (ColumnStore.swapRemove idx) (stores a) in
        (with_stores stores' (with_entities popped index' a), r)
      else
        let '(stores', r) := each_store (ColumnStore.swapRemove last) (stores a) in
        (with_stores stores' (with_entities popped deleted a), r)
  end.

Definition indexOf (a : t) (entity : Entity) : option Z :=
  JsMap.get (indexByEntity a) entity.

Definition getComponentAt (a : t) (ctor : ComponentConstructor.t) (index : Z) : result object :=
  match JsMap.get (stores a) (typeId ctor) with
  | None => Throw (Error ("Component " ++ typeId ctor ++ " not in archetype"))
  | Some store => ColumnStore.get store index
  end.

Fixpoint copy_components (a : t) (indexSrc : Z) (targetCtors : list ComponentConstructor.t)
    (out : JsMap.t string object) : result (JsMap.t string object) :=
  match targetCtors with
  | [] => Ok out
  | c :: rest =>
      match JsMap.get (stores a) (typeId c) with
      | None => copy_components a indexSrc rest (JsMap.set out (typeId c) (construct c))
      | Some sourceStore =>
          result_bind (ColumnStore.get sourceStore indexSrc) (fun val =>
            copy_components a indexSrc rest (JsMap.set out (typeId c) val))
      end
  end.

Definition copyEntityTo (a : t) (indexSrc : Z) (target : t) : result (JsMap.t string object) :=
  copy_components a indexSrc (ctors target) JsMap.empty.

Definition size (a : t) : Z := Z.of_nat (length (entityIds a)).

(** The calls [forEachIndexed] makes: [(index, entityId)] row by row. *)
Definition forEachIndexed (a : t) : list (Z * Entity) :=
  imap (fun i e => (Z.of_nat i, e)) (entityIds a).

End Archetype.

(** ** The World class ([world.ts]) *)

Module World.
Import ComponentConstructor.

(** An [Archetype] object of a world is created in [getOrCreateArchetype]
    and registered at once in [archetypeBySignature], under a key that is
    never removed or overwritten; that key stands for the reference to the
    object, and [archetypeBySignature] is the store of the objects. *)
Definition ref : Type := string.

Record t : Type := mk {
  nextEntityId : Entity;
  entityArchetype : JsMap.t Entity ref;
  archetypeBySignature : JsMap.t string Archetype.t
}.

Definition with_entityArchetype (m : JsMap.t Entity ref) (w : t) : t :=
  {| nextEntityId := nextEntityId w; entityArchetype := m;
     archetypeBySignature := archetypeBySignature w |}.
Definition with_archetypes (m : JsMap.t string Archetype.t) (w : t) : t :=
  {| nextEntityId := nextEntityId w; entityArchetype := entityArchetype w;
     archetypeBySignature := m |}.

(** [new World()] *)
Definition new : t :=
  {| nextEntityId := 1; entityArchetype := JsMap.empty; archetypeBySignature := JsMap.empty |}.

Definition createEntity : M t Entity := fun w =>
  ({| nextEntityId := nextEntityId w + 1; entityArchetype := entityArchetype w;
      archetypeBySignature := archetypeBySignature w |}, Ok (nextEntityId w)).

(** The object a reference points at. *)
Definition deref (w : t) (r : ref) : result Archetype.t :=
  match JsMap.get (archetypeBySignature w) r with
  | Some a => Ok a
  | None => Throw (Error "no such archetype")
  end.

(** A call of a method of the archetype [r] points at. *)
Definition call {A} (r : ref) (m : M Archetype.t A) : M t A := fun w =>
  match JsMap.get (archetypeBySignature w) r with
  | Some a =>
      let '(a', x) := m a in
      (with_archetypes (JsMap.set (archetypeBySignature w) r a') w, x)
  | None => (w, Throw (Error "no such archetype"))
  end.

Section WithCollation.
Context `{Collation}.

Definition getOrCreateArchetype (ctors : list ComponentConstructor.t) : M t ref := fun w =>
let tmp := sort (fun a b => localeCompare (typeId a) (typeId b)) ctors in
let sig := join "|" (map typeId tmp) in
match JsMap.get (archetypeBySignature w) sig with
| Some existing => (w, Ok sig)
| None =>
    match Archetype.new tmp with
    | Ok archetype =>
        (with_archetypes (JsMap.set (archetypeBySignature w) sig archetype) w, Ok sig)
    | Throw e => (w, Throw e)
    | Diverge => (w, Diverge)
    end
end.

(** [components] is a [Map] from constructors to values. *)
Definition addEntityWithComponents (entity : Entity)
  (components : list (ComponentConstructor.t * object)) : M t unit :=
let ctors := map fst components in
do archetype <- getOrCreateArchetype ctors;
let mapValues :=
  foldl (fun m '(k, v) => JsMap.set m (typeId k) v) JsMap.empty components in
do tt <- call archetype (Archetype.addEntity entity mapValues);
modify (fun w => with_entityArchetype (JsMap.set (entityArchetype w) entity archetype) w).

(** The move both branches of [addComponent] make. *)
Definition move_with (entity : Entity) (current target : ref)
  (ctor : ComponentConstructor.t) (value : object) : M t unit :=
do cur <- (fun w => (w, deref w current));
do tgt <- (fun w => (w, deref w target));
match Archetype.indexOf cur entity with
| None => throw (Error "Entity index missing")
| Some idx =>
    do values <- lift_result (Archetype.copyEntityTo cur idx tgt);
    let values := JsMap.set values (typeId ctor) value in
    do tt <- call current (Archetype.removeEntity entity);
    do tt <- call target (Archetype.addEntity entity values);
    modify (fun w => with_entityArchetype (JsMap.set (entityArchetype w) entity target) w)
end.

Definition addComponent (entity : Entity) (ctor : ComponentConstructor.t) (value : object)
: M t unit := fun w =>
let current := JsMap.get (entityArchetype w) entity in
let curCtors :=
  match current with
  | Some r => match deref w r with
              | Ok a => Archetype.copyConstructorList a
              | _ => []
              end
  | None => []
  end in
let curCtors :=
  if existsb (fun c => String.eqb (typeId c) (typeId ctor)) curCtors then curCtors
  else curCtors ++ [ctor] in
(do target <- getOrCreateArchetype curCtors;
 match current with
 | None =>
     do tt <- call target (Archetype.addEntity entity (JsMap.set JsMap.empty (typeId ctor) value));
     modify (fun w => with_entityArchetype (JsMap.set (entityArchetype w) entity target) w)
 | Some current =>
     do cur <- (fun w => (w, deref w current));
     do tgt <- (fun w => (w, deref w target));
     if String.eqb (Archetype.signature cur) (Archetype.signature tgt)
     then move_with entity current target ctor value
     else move_with entity current target ctor value
 end) w.

Definition removeComponent (entity : Entity) (ctor : ComponentConstructor.t) : M t unit :=
fun w =>
match JsMap.get (entityArchetype w) entity with
| None => (w, Ok tt)
| Some current =>
    (do cur <- (fun w => (w, deref w current));
     if negb (Archetype.containsTypeId cur (typeId ctor)) then ret tt
     else
       let newCtors :=
         filter (fun c => typeId c ≠ typeId ctor) (Archetype.copyConstructorList cur) in
       do target <- getOrCreateArchetype newCtors;
       do tgt <- (fun w => (w, deref w target));
       match Archetype.indexOf cur entity with
       | None => ret tt
       | Some idx =>
           do values <- lift_result (Archetype.copyEntityTo cur idx tgt);
           do tt <- call current (Archetype.removeEntity entity);
           do tt <- call target (Archetype.addEntity entity values);
           modify (fun w =>
             with_entityArchetype (JsMap.set (entityArchetype w) entity target) w)
       end) w
end.

End WithCollation.

Definition destroyEntity (entity : Entity) : M t unit := fun w =>
  match JsMap.get (entityArchetype w) entity with
  | None => (w, Ok tt)
  | Some current =>
      (do tt <- call current (Archetype.removeEntity entity);
       modify (fun w => with_entityArchetype (JsMap.delete (entityArchetype w) entity) w)) w
  end.

(** One element of the result of [query]. *)
Record QueryResult : Type := mkResult {
  entity : Entity;
  components : list object
}.

(** The rows one archetype contributes to [query]. *)
Definition query_archetype (ctors : list ComponentConstructor.t) (archetype : Archetype.t)
  : result (list QueryResult) :=
  collect (fun '(index, entity) =>
             result_bind
               (collect (fun ctor => Archetype.getComponentAt archetype ctor index) ctors)
               (fun components => Ok {| entity := entity; components := components |}))
          (Archetype.forEachIndexed archetype).

Definition query (w : t) (ctors : list ComponentConstructor.t) : result (list QueryResult) :=
  let sigSet := sort code_unit_compare (map typeId ctors) in
  result_bind
    (collect (fun archetype =>
                let hasAll := forallb (fun s => Archetype.containsTypeId archetype s) sigSet in
                if negb hasAll then Ok [] else query_archetype ctors archetype)
             (JsMap.values (archetypeBySignature w)))
    (fun chunks => Ok (concat chunks)).

(** [undefined] is [None]. *)
Definition getComponent (w : t) (entity : Entity) (ctor : ComponentConstructor.t)
  : result (option object) :=
  match JsMap.get (entityArchetype w) entity with
  | None => Ok None
  | Some r =>
      result_bind (deref w r) (fun current =>
        match Archetype.indexOf current entity with
        | None => Ok None
        | Some idx =>
            if negb (Archetype.containsTypeId current (typeId ctor)) then Ok None
            else result_bind (Archetype.getComponentAt current ctor idx)
                             (fun v => Ok (Some v))
        end)
  end.

End World.


(** ** Invariants of the three structures *)

Module Wf.
Import TypedArray ColumnStore ComponentConstructor.

(** An element a typed array of kind [k] can hold: storing it again leaves
    it as it is. *)
Definition elem_ok (k : kind) (x : elem) : Prop := convert k (Some x) = Ok x.

(** The buffer of one schema field. *)
Definition array_ok (cap : Z) (f : string * FieldType) (e : string * TypedArray.t) : Prop :=
  e.1 = f.1 /\ kind_of e.2 = array_kind f.2 /\ TypedArray.length e.2 = cap
  /\ Forall (elem_ok (kind_of e.2)) (data e.2).

Record store (s : ColumnStore.t) : Prop := {
  store_capacity : 1 <= capacity s;
  store_size : 0 <= size s <= capacity s;
  store_keys : NoDup (JsMap.keys (ColumnStore.schema s));
  store_arrays : Forall2 (array_ok (capacity s)) (ColumnStore.schema s) (typedArrayMap s)
}.

(** The element [set] writes for the field [f] of [value], if the write
    goes through. *)
Definition field_elem (value : object) (f : string * FieldType) : option elem :=
  match result_bind (raw_element f.1 (prop_get value f.1))
                    (fun x => convert (array_kind f.2) (Some x)) with
  | Ok x => Some x
  | _ => None
  end.

(** [value] can be stored under [schema]: no field of it makes [set] throw. *)
Definition storable (schema : ComponentSchema) (value : object) : bool :=
  forallb (fun f => bool_decide (is_Some (field_elem value f))) schema.

(** The column store of one component type, in an archetype of [rows]
    entities. *)
Definition store_for (rows : Z) (c : ComponentConstructor.t) (e : string * ColumnStore.t) : Prop :=
  e.1 = typeId c /\ ColumnStore.schema e.2 = ComponentConstructor.schema c
  /\ store e.2 /\ size e.2 = rows.

(** Every entry of [indexByEntity] is the number of a row that holds the
    entity. *)
Definition index_sound (a : Archetype.t) : Prop :=
  forall e i, JsMap.get (Archetype.indexByEntity a) e = Some i ->
    0 <= i /\ Archetype.entityIds a !! Z.to_nat i = Some e.

(** Every row is the one [indexByEntity] gives for its entity; with
    [index_sound] this is the invariant of section 3 of the specification, and
    no entity occupies two rows. *)
Definition index_complete (a : Archetype.t) : Prop :=
  forall i e, Archetype.entityIds a !! i = Some e ->
    JsMap.get (Archetype.indexByEntity a) e = Some (Z.of_nat i).

Record archetype (a : Archetype.t) : Prop := {
  archetype_typeIds : Archetype.typeIds a = map typeId (Archetype.ctors a);
  archetype_distinct : NoDup (Archetype.typeIds a);
  archetype_stores : Forall2 (store_for (Archetype.size a)) (Archetype.ctors a) (Archetype.stores a);
  archetype_index : index_sound a
}.

(** The comparator [(a, b) => a.typeId.localeCompare(b.typeId)]. *)
Definition by_typeId `{Collation} (a b : ComponentConstructor.t) : Z :=
  localeCompare (typeId a) (typeId b).

(** Every archetype of the world is well formed. *)
Definition archetypes (w : World.t) : Prop :=
  Forall (fun e => archetype e.2) (World.archetypeBySignature w).

(** The registry holds a signature once, as a [Map] does, its archetypes are
    well formed, and the archetype an entity is filed under is one of
    them. *)
Record world (w : World.t) : Prop := {
  world_archetypes : archetypes w;
  world_keys : NoDup (JsMap.keys (World.archetypeBySignature w));
  world_refs : forall e r, JsMap.get (World.entityArchetype w) e = Some r ->
                 is_Some (JsMap.get (World.archetypeBySignature w) r)
}.

(** A type id that can be told apart in a signature: not empty, and without
    the separator. *)
Definition id_ok (id : string) : bool :=
  negb (String.eqb id "") && negb (includes_char "|" id).

(** The component classes [U] of a program: a type id names one class, the
    ids can be told apart in a signature, and a schema has a field once. *)
Record classes (U : ComponentConstructor.t -> Prop) : Prop := {
  class_of_id : forall c1 c2, U c1 -> U c2 -> typeId c1 = typeId c2 -> c1 = c2;
  class_id_ok : forall c, U c -> id_ok (typeId c) = true;
  class_schema : forall c, U c -> NoDup (JsMap.keys (ComponentConstructor.schema c))
}.

(** The registry files every archetype under its signature, and the types
    of its archetypes are classes of the program. *)
Definition registry (U : ComponentConstructor.t -> Prop) (w : World.t) : Prop :=
  forall k a, (k, a) ∈ World.archetypeBySignature w ->
    k = Archetype.signature a /\ Forall U (Archetype.ctors a).

(** Every entity the directory files has a row in the archetype it is filed
    under. *)
Definition filed_rows (w : World.t) : Prop :=
  forall e k a, JsMap.get (World.entityArchetype w) e = Some k ->
    JsMap.get (World.archetypeBySignature w) k = Some a ->
    e ∈ Archetype.entityIds a.

(** A method that leaves the counter of the entity ids as it is, whether it
    returns or throws. *)
Definition keeps_counter {A} (m : M World.t A) : Prop :=
  forall w, World.nextEntityId (m w).1 = World.nextEntityId w.

(** Every entity sits in one row only, the one of the archetype the world
    files it under. *)
Definition entity_rows (w : World.t) : Prop :=
  forall k a, (k, a) ∈ World.archetypeBySignature w ->
    index_complete a
    /\ forall e, e ∈ Archetype.entityIds a -> JsMap.get (World.entityArchetype w) e = Some k.

(** The state of a world between the calls of a program that uses the
    methods as intended. *)
Record consistent (U : ComponentConstructor.t -> Prop) (w : World.t) : Prop := {
  consistent_world : world w;
  consistent_registry : registry U w;
  consistent_rows : entity_rows w;
  consistent_filed : filed_rows w
}.

End Wf.

(** ** The effect of the methods, as functions of the state before *)

Module Effects.
Import TypedArray ColumnStore.

(** A buffer after growth: the old elements, then zeros. *)
Definition extend (newCap : Z) (arr : TypedArray.t) : TypedArray.t :=
  {| kind_of := kind_of arr;
     data := data arr
             ++ replicate (Z.to_nat newCap - List.length (data arr))%nat (zero (kind_of arr)) |}.

(** The capacity [ensureCapacity(minCapacity)] leaves. *)
Definition next_capacity (cap minCapacity : Z) : Z :=
  if minCapacity <=? cap then cap
  else default cap (grow (Z.to_nat minCapacity) cap minCapacity).

Definition grown (minCapacity : Z) (s : ColumnStore.t) : ColumnStore.t :=
  let newCap := next_capacity (capacity s) minCapacity in
  {| schema := schema s;
     typedArrayMap := map (fun e => (e.1, extend newCap e.2)) (typedArrayMap s);
     capacity := newCap;
     size := size s |}.

(** The store after [f] has been applied to every buffer. *)
Definition map_arrays (f : string -> TypedArray.t -> result TypedArray.t) (s : ColumnStore.t)
  : ColumnStore.t :=
  with_typedArrayMap (map (fun e => (e.1, from_ok e.2 (f e.1 e.2))) (typedArrayMap s)) s.

Definition write_field (index : Z) (value : object) (key : string) (arr : TypedArray.t)
  : result TypedArray.t :=
  result_bind (raw_element key (prop_get value key)) (fun x =>
    TypedArray.set arr index (Some x)).

(** The store after a [set(index, value)] that returns. *)
Definition after_set (index : Z) (value : object) (s : ColumnStore.t) : ColumnStore.t :=
  let s1 := grown (index + 1) s in
  let s2 := map_arrays (write_field index value) s1 in
  if size s2 <=? index then with_size (index + 1) s2 else s2.

(** The store after a [swapRemove(index)] that returns. *)
Definition after_swapRemove (index : Z) (s : ColumnStore.t) : ColumnStore.t :=
  if index =? size s - 1 then with_size (size s - 1) s
  else
    let s1 := map_arrays (fun _ arr =>
                TypedArray.set arr index (TypedArray.get arr (size s - 1))) s in
    with_size (size s1 - 1) s1.

(** The store [new ColumnStore(schema, initialCapacity)] makes. *)
Definition fresh_store (schema : ComponentSchema) (initialCapacity : Z) : ColumnStore.t :=
  {| schema := schema;
     typedArrayMap :=
       map (fun f => (f.1, create (array_kind f.2) (Z.max initialCapacity 1))) schema;
     capacity := Z.max initialCapacity 1;
     size := 0 |}.

(** The store after a [copyFrom(indexTarget, other, indexSrc)] that
    returns. *)
Definition after_copyFrom (indexTarget : Z) (other : ColumnStore.t) (indexSrc : Z)
    (s : ColumnStore.t) : ColumnStore.t :=
  let s1 := grown (indexTarget + 1) s in
  let s2 := map_arrays (fun key dst =>
              match JsMap.get (typedArrayMap other) key with
              | Some src => TypedArray.set dst indexTarget (TypedArray.get src indexSrc)
              | None => Throw (Error ("Array for field " ++ key ++ " not found"))
              end) s1 in
  if size s2 <=? indexTarget then with_size (indexTarget + 1) s2 else s2.


(** [raw] in [get]: what is read for the field [key] at [index]. *)
Definition cell (s : ColumnStore.t) (index : Z) (key : string) : option elem :=
  match JsMap.get (typedArrayMap s) key with
  | Some arr => if index <? size s then TypedArray.get arr index else Some (Num (Finite 0 0))
  | None => None
  end.

(** The value [get] returns for an element of a field of kind [ft]. *)
Definition decoded (ft : FieldType) (x : elem) : value :=
  from_ok VUndefined (decode (Some ft) (Some x)).

(** The value [get] returns for the field [f] once [value] has been stored. *)
Definition stored_value (value : object) (f : string * FieldType) : Js.value :=
  match Wf.field_elem value f with
  | Some x => decoded f.2 x
  | None => VUndefined
  end.

(** What [get] returns for a field of a row that was never written: [0],
    [false] or [0n]. *)
Definition default_value (ft : FieldType) : value :=
  match ft with
  | bool_ => VBoolean false
  | bi64 | biu64 => VBigInt 0
  | _ => VNumber (Finite 0 0)
  end.

Definition default_record (schema : ComponentSchema) : object :=
  map (fun f => (f.1, default_value f.2)) schema.

(** What [get] returns for a number or boolean field at a negative index,
    where the buffer reads [undefined]. *)
Definition outside_value (ft : FieldType) : value :=
  match ft with
  | bool_ => VBoolean true
  | _ => VUndefined
  end.

Definition is_bigint_field (ft : FieldType) : bool :=
  match ft with
  | bi64 | biu64 => true
  | _ => false
  end.


(** A record as [get] returns it from a store of this schema. *)
Definition is_record (schema : ComponentSchema) (o : object) : Prop :=
  exists xs, Forall2 (fun f x => Wf.elem_ok (array_kind f.2) x) schema xs
             /\ o = zip_with (fun f x => (f.1, decoded f.2 x)) schema xs.

(** The value [addEntity] stores for the component type [c]. *)
Definition component_value (componentValues : JsMap.t string object)
    (c : ComponentConstructor.t) : object :=
  match JsMap.get componentValues (ComponentConstructor.typeId c) with
  | None => ComponentConstructor.construct c
  | Some compRaw => compRaw
  end.

(** [addEntity(_, componentValues)] on [a] stores values that can be
    stored. *)
Definition all_storable (componentValues : JsMap.t string object) (a : Archetype.t) : Prop :=
  Forall (fun c => Wf.storable (ComponentConstructor.schema c)
                     (component_value componentValues c) = true)
         (Archetype.ctors a).

(** The value [copyEntityTo] takes for the component type [c] from row
    [indexSrc] of [a]: the record stored there, or a default instance where
    [a] has no store for the type. *)
Definition copied_value (a : Archetype.t) (indexSrc : Z) (c : ComponentConstructor.t)
  : object :=
  match JsMap.get (Archetype.stores a) (ComponentConstructor.typeId c) with
  | None => ComponentConstructor.construct c
  | Some sourceStore => from_ok [] (ColumnStore.get sourceStore indexSrc)
  end.

(** The map [copyEntityTo(indexSrc, target)] returns. *)
Definition copied_values (a : Archetype.t) (indexSrc : Z) (target : Archetype.t)
  : JsMap.t string object :=
  map (fun c => (ComponentConstructor.typeId c, copied_value a indexSrc c))
      (Archetype.ctors target).

(** The archetype [new Archetype(ctors)] makes, for [ctors] in order. *)
Definition fresh_archetype (sorted : list ComponentConstructor.t) : Archetype.t :=
  {| Archetype.typeIds := map ComponentConstructor.typeId sorted;
     Archetype.ctors := sorted;
     Archetype.entityIds := [];
     Archetype.indexByEntity := JsMap.empty;
     Archetype.stores :=
       map (fun c => (ComponentConstructor.typeId c,
                      fresh_store (ComponentConstructor.schema c) Archetype.DEFAULT_CAPACITY))
           sorted |}.

(** The archetype after an [addEntity(entity, componentValues)] that
    returns. *)
Definition after_addEntity (entity : Entity) (componentValues : JsMap.t string object)
    (a : Archetype.t) : Archetype.t :=
  let index := Archetype.size a in
  {| Archetype.typeIds := Archetype.typeIds a;
     Archetype.ctors := Archetype.ctors a;
     Archetype.entityIds := Archetype.entityIds a ++ [entity];
     Archetype.indexByEntity := JsMap.set (Archetype.indexByEntity a) entity index;
     Archetype.stores :=
       zip_with (fun c e => (e.1, after_set index (component_value componentValues c) e.2))
                (Archetype.ctors a) (Archetype.stores a) |}.

(** A removal: the archetype, the entity removed, its row and the entity of
    the last row. *)
Definition removal (a : Archetype.t) (entity : Entity) (idx : Z) (le : Entity) : Prop :=
  Wf.archetype a
  /\ JsMap.get (Archetype.indexByEntity a) entity = Some idx
  /\ Archetype.entityIds a !! Z.to_nat (Archetype.size a - 1) = Some le.

(** The archetype after a [removeEntity(entity)] that returns, for an entity
    filed at row [idx] of an archetype whose last row holds [lastEntity]. *)
Definition after_removeEntity (entity : Entity) (idx : Z) (lastEntity : Entity)
    (a : Archetype.t) : Archetype.t :=
  let deleted := JsMap.delete (Archetype.indexByEntity a) entity in
  {| Archetype.typeIds := Archetype.typeIds a;
     Archetype.ctors := Archetype.ctors a;
     Archetype.entityIds := removelast (<[Z.to_nat idx := lastEntity]> (Archetype.entityIds a));
     Archetype.indexByEntity :=
       if idx =? Archetype.size a - 1 then deleted else JsMap.set deleted lastEntity idx;
     Archetype.stores :=
       map (fun e => (e.1, after_swapRemove idx e.2)) (Archetype.stores a) |}.

(** [hasAll] in [query]. *)
Definition matches (ctors : list ComponentConstructor.t) (a : Archetype.t) : bool :=
  forallb (fun c => Archetype.containsTypeId a (ComponentConstructor.typeId c)) ctors.

(** The results [query] pushes for one archetype: one for each row, with the
    components in the order of [ctors]. *)
Definition row_results (ctors : list ComponentConstructor.t) (a : Archetype.t)
  : list World.QueryResult :=
  imap (fun i e =>
          {| World.entity := e;
             World.components :=
               map (fun c => from_ok [] (Archetype.getComponentAt a c (Z.of_nat i))) ctors |})
       (Archetype.entityIds a).

(** The array [query] returns when no read throws. *)
Definition query_results (w : World.t) (ctors : list ComponentConstructor.t)
  : list World.QueryResult :=
  concat (map (row_results ctors)
              (filter (fun a => matches ctors a = true)
                      (JsMap.values (World.archetypeBySignature w)))).

(** A call of a public method of [World] that changes the world. *)
Inductive call : Type :=
  | CreateEntity
  | AddEntityWithComponents (entity : Entity)
      (components : list (ComponentConstructor.t * object))
  | AddComponent (entity : Entity) (ctor : ComponentConstructor.t) (value : object)
  | RemoveComponent (entity : Entity) (ctor : ComponentConstructor.t)
  | DestroyEntity (entity : Entity).

(** The world after a sequence of calls, with the ids [createEntity]
    returned on the way; a caller that catches an exception goes on with the
    world as the call left it. *)
Fixpoint run_calls `{Collation} (calls : list call) (w : World.t)
  : World.t * list Entity :=
  match calls with
  | [] => (w, [])
  | CreateEntity :: rest =>
      let '(w', ids) := run_calls rest (World.createEntity w).1 in
      (w', World.nextEntityId w :: ids)
  | AddEntityWithComponents entity components :: rest =>
      run_calls rest (World.addEntityWithComponents entity components w).1
  | AddComponent entity ctor value :: rest =>
      run_calls rest (World.addComponent entity ctor value w).1
  | RemoveComponent entity ctor :: rest =>
      run_calls rest (World.removeComponent entity ctor w).1
  | DestroyEntity entity :: rest =>
      run_calls rest (World.destroyEntity entity w).1
  end.

(** A call as a program makes it that uses the methods as intended: the
    types are classes of the program, the values can be stored, and
    [addEntityWithComponents] is given distinct types and an entity that has
    no components yet. *)
Definition admissible_call (U : ComponentConstructor.t -> Prop) (c : call) (w : World.t)
  : Prop :=
  match c with
  | CreateEntity | RemoveComponent _ _ | DestroyEntity _ => True
  | AddEntityWithComponents entity components =>
      JsMap.get (World.entityArchetype w) entity = None
      /\ Forall U (map fst components)
      /\ NoDup (map ComponentConstructor.typeId (map fst components))
      /\ Forall (fun p => Wf.storable (ComponentConstructor.schema p.1) p.2 = true)
                components
  | AddComponent entity ctor value =>
      U ctor /\ Wf.storable (ComponentConstructor.schema ctor) value = true
  end.

(** The call returns. *)
Definition returns `{Collation} (c : call) (w : World.t) : Prop :=
  match c with
  | CreateEntity => (World.createEntity w).2 = Ok (World.nextEntityId w)
  | AddEntityWithComponents entity components =>
      (World.addEntityWithComponents entity components w).2 = Ok tt
  | AddComponent entity ctor value => (World.addComponent entity ctor value w).2 = Ok tt
  | RemoveComponent entity ctor => (World.removeComponent entity ctor w).2 = Ok tt
  | DestroyEntity entity => (World.destroyEntity entity w).2 = Ok tt
  end.

Fixpoint admissible `{Collation} (U : ComponentConstructor.t -> Prop) (calls : list call)
    (w : World.t) : Prop :=
  match calls with
  | [] => True
  | c :: rest => admissible_call U c w /\ admissible U rest (run_calls [c] w).1
  end.

Fixpoint all_return `{Collation} (calls : list call) (w : World.t) : Prop :=
  match calls with
  | [] => True
  | c :: rest => returns c w /\ all_return rest (run_calls [c] w).1
  end.

End Effects.

(** ** The component classes of the test files *)

Module Examples.
Import ColumnStore ComponentConstructor.

Definition num (z : Z) : value := VNumber (number_of_Z z).

(** The schema of the ColumnStore tests. *)
Definition comp_schema : ComponentSchema :=
  [("x", f32); ("flag", bool_); ("id", bi64); ("name", i32)]%string.

Definition comp (x : number) (flag : bool) (id : Z) (name : Z) : object :=
  [("x", VNumber x); ("flag", VBoolean flag); ("id", VBigInt id); ("name", num name)]%string.

Definition comp_store (initialCapacity : Z) : ColumnStore.t :=
  Effects.fresh_store comp_schema initialCapacity.

Definition Position : ComponentConstructor.t :=
  {| typeId := "Position"; schema := [("x", f32); ("y", f32)]%string;
     construct := [("x", num 0); ("y", num 0)]%string |}.
Definition Velocity : ComponentConstructor.t :=
  {| typeId := "Velocity"; schema := [("vx", f32); ("vy", f32)]%string;
     construct := [("vx", num 0); ("vy", num 0)]%string |}.
Definition Health : ComponentConstructor.t :=
  {| typeId := "Health"; schema := [("hp", f32)]%string;
     construct := [("hp", num 100)]%string |}.

Definition position (x y : Z) : object := [("x", num x); ("y", num y)]%string.
Definition velocity (vx vy : Z) : object := [("vx", num vx); ("vy", num vy)]%string.
Definition health (hp : Z) : object := [("hp", num hp)]%string.

(** The archetype of the removal test: three entities with a position. *)
Definition three_positions : Archetype.t :=
  Effects.after_addEntity 3 [("Position", position 30 0)]%string
    (Effects.after_addEntity 2 [("Position", position 20 0)]%string
       (Effects.after_addEntity 1 [("Position", position 10 0)]%string
          (Effects.fresh_archetype [Position]))).

(** The world of the query test: two entities with a position and a
    velocity. *)
Definition two_movers : World.t :=
  {| World.nextEntityId := 3;
     World.entityArchetype := [(1, "Position|Velocity"); (2, "Position|Velocity")]%string;
     World.archetypeBySignature :=
       [("Position|Velocity"%string,
         Effects.after_addEntity 2
           [("Position", position 2 2); ("Velocity", velocity 6 6)]%string
           (Effects.after_addEntity 1
              [("Position", position 1 1); ("Velocity", velocity 5 5)]%string
              (Effects.fresh_archetype [Position; Velocity])))] |}.

(** The component classes of the examples. *)
Definition is_class (c : ComponentConstructor.t) : Prop :=
  c ∈ [Position; Velocity; Health].

(** A collation for the examples: the order of the code units. *)
Definition code_unit_collation : Collation := code_unit_compare.

(** The world of an entity that was given its components twice: the calls
    [createEntity()], which returns 1, and [addEntityWithComponents] for the
    entity 1 and a position, two times. *)
Definition twice_added : World.t :=
  (Effects.run_calls (H := code_unit_collation)
     [Effects.CreateEntity;
      Effects.AddEntityWithComponents 1 [(Position, position 5 7)];
      Effects.AddEntityWithComponents 1 [(Position, position 6 8)]]
     World.new).1.




(** A component class whose type id holds the separator of the signatures:
    its id is the signature of the three classes above. *)
Definition Combined : ComponentConstructor.t :=
  {| typeId := "Health|Position|Velocity"; schema := [("n", i32)]%string;
     construct := [("n", num 0)]%string |}.

(** A world with the entity 1, which has a position and a velocity, and the
    entity 2, which has a component of the class [Combined]. *)
Definition with_combined : World.t :=
  (Effects.run_calls (H := code_unit_collation)
     [Effects.CreateEntity;
      Effects.AddEntityWithComponents 1 [(Position, position 1 2); (Velocity, velocity 3 4)];
      Effects.CreateEntity;
      Effects.AddEntityWithComponents 2 [(Combined, [("n", num 7)]%string)]]
     World.new).1.

(** The state a sequence of calls leaves, if every call returns. *)
Definition run {S A} (m : M S A) (s : S) : option S :=
  match m s with
  | (s', Ok _) => Some s'
  | _ => None
  end.

End Examples.
Lemma strip_spec p : forall e,
  match strip p e with
  | (q, e') => e <= e' /\ Z.pos p = Z.pos q * 2 ^ (e' - e)
               /\ Z.odd (Z.pos q) = true /\ forall e2, strip q e2 = (q, e2)
  end.
Proof.
  induction p as [p IH|p IH|]; intros e; simpl.
  - split; [lia|]. rewrite Z.sub_diag. repeat split; lia.
  - specialize (IH (e + 1)). destruct (strip p (e + 1)) as [q e'].
    destruct IH as (Hle & Hv & Hodd & Hc). split; [lia|]. split; [|done].
    replace (e' - e) with (Z.succ (e' - (e + 1))) by lia.
    rewrite Z.pow_succ_r by lia. lia.
  - split; [lia|]. rewrite Z.sub_diag. repeat split; lia.
Qed.

Lemma mk_finite_zero e : mk_finite 0 e = Finite 0 0.
Proof. done. Qed.

Lemma mk_finite_spec m e :
  m <> 0 ->
  exists m' e', mk_finite m e = Finite m' e' /\ e <= e' /\ m = m' * 2 ^ (e' - e)
    /\ Z.odd m' = true /\ mk_finite m' e' = Finite m' e' /\ (m < 0 <-> m' < 0).
Proof.
  intros Hm. destruct m as [|p|p]; [done| |]; simpl;
    pose proof (strip_spec p e) as Hs; destruct (strip p e) as [q e'];
    destruct Hs as (Hle & Hv & Hodd & Hc).
  - exists (Z.pos q), e'. simpl. rewrite Hc. repeat split; try done; lia.
  - exists (Z.neg q), e'. simpl. rewrite Hc. repeat split; try done; lia.
Qed.

Lemma trunc_number_of_Z z : trunc (number_of_Z z) = z.
Proof.
  unfold number_of_Z. destruct (decide (z = 0)) as [->|Hz]; [done|].
  destruct (mk_finite_spec z 0 Hz) as (m' & e' & -> & Hle & Hv & _).
  simpl. rewrite Z.sub_0_r in Hv. destruct (Z.leb_spec 0 e'); lia.
Qed.

Lemma log2_scaled a k : 0 < a -> 0 <= k -> Z.log2 (a * 2 ^ k) = Z.log2 a + k.
Proof. intros. rewrite Z.log2_mul_pow2 by lia. lia. Qed.

Lemma round_finite_exact prec emin emax m e :
  m <> 0 -> Z.odd m = true \/ True ->
  Z.max (Z.log2 (Z.abs m) + 1 + e - prec) emin <= e ->
  Z.log2 (Z.abs m) + 1 + e <= emax ->
  round_finite prec emin emax m e = mk_finite m e.
Proof.
  intros Hm _ Hq Ho. unfold round_finite.
  destruct (Z.leb_spec (Z.max (Z.log2 (Z.abs m) + 1 + e - prec) emin) e); [|lia].
  destruct (Z.ltb_spec emax (Z.log2 (Z.abs m) + 1 + e)); [lia|done].
Qed.

Lemma round_number_idem prec emin emax x :
  1 <= prec ->
  round_number prec emin emax (round_number prec emin emax x)
  = round_number prec emin emax x.
Proof.
  intros Hp. destruct x as [| | |m e]; try done. simpl.
  destruct (Z.eqb_spec m 0) as [->|Hm]; [done|].
  unfold round_finite.
  set (a := Z.abs m). set (d := Z.log2 a + 1). set (qe := Z.max (d + e - prec) emin).
  assert (Ha : 0 < a) by (unfold a; lia).
  destruct (Z.leb_spec qe e) as [Hqe|Hqe].
  - destruct (Z.ltb_spec emax (d + e)) as [|Hov]; [done|].
    destruct (mk_finite_spec m e Hm) as (m' & e' & Hmk & Hle & Hv & Hodd & Hc & Hs).
    rewrite Hmk. simpl.
    assert (Hm' : m' <> 0) by (intros ->; lia).
    destruct (Z.eqb_spec m' 0); [done|].
    assert (Hlog : Z.log2 (Z.abs m') + (e' - e) = Z.log2 a).
    { unfold a. rewrite Hv, Z.abs_mul, (Z.abs_eq (2 ^ _)) by (apply Z.pow_nonneg; lia).
      rewrite log2_scaled; lia. }
    rewrite round_finite_exact; [done|done|by right| |]; unfold qe, d in *; lia.
  - set (sh := qe - e). set (q := a / 2 ^ sh).
    set (q' := if a mod 2 ^ sh <? 2 ^ (sh - 1) then q
               else if 2 ^ (sh - 1) <? a mod 2 ^ sh then q + 1
               else if Z.even q then q else q + 1).
    assert (Hsh : 0 < sh) by (unfold sh; lia).
    assert (Hpow : 0 < 2 ^ sh) by (apply Z.pow_pos_nonneg; lia).
    assert (Hq0 : 0 <= q) by (apply Z.div_pos; lia).
    assert (Hq'range : q <= q' <= q + 1).
    { unfold q'. repeat case_match; lia. }
    assert (Hqb : q < 2 ^ prec).
    { destruct (Z.log2_spec a Ha) as [_ Hub].
      assert (a < 2 ^ d) by (unfold d; replace (Z.log2 a + 1) with (Z.succ (Z.log2 a)) by lia; done).
      apply Z.div_lt_upper_bound; [lia|].
      rewrite <- Z.pow_add_r by lia.
      eapply Z.lt_le_trans; [done|]. apply Z.pow_le_mono_r; [lia|]. unfold sh, qe. lia. }
    destruct (Z.eqb_spec q' 0) as [|Hq'0].
    { destruct (m <? 0); done. }
    destruct (Z.ltb_spec emax (Z.log2 q' + 1 + qe)) as [|Hov]; [done|].
    set (sq := if m <? 0 then - q' else q').
    assert (Hsq : sq <> 0 /\ Z.abs sq = q') by (unfold sq; destruct (m <? 0); lia).
    destruct Hsq as [Hsq Habs].
    destruct (mk_finite_spec sq qe Hsq) as (m' & e' & Hmk & Hle & Hv & Hodd & Hc & Hs).
    rewrite Hmk. simpl.
    assert (Hm' : m' <> 0) by (intros ->; lia).
    destruct (Z.eqb_spec m' 0); [done|].
    assert (Hq'v : q' = Z.abs m' * 2 ^ (e' - qe)).
    { rewrite <- Habs, Hv, Z.abs_mul, (Z.abs_eq (2 ^ _)) by (apply Z.pow_nonneg; lia). done. }
    assert (Hlog : Z.log2 (Z.abs m') + (e' - qe) = Z.log2 q').
    { rewrite <- log2_scaled by lia. by rewrite <- Hq'v. }
    assert (Hk : Z.log2 q' + 1 - prec <= e' - qe).
    { destruct (decide (q' = 2 ^ prec)) as [Heq|Hne].
      - rewrite Heq, Z.log2_pow2 by lia.
        destruct (decide (e' - qe = 0)) as [Hk0|]; [|lia].
        rewrite Hk0, Z.pow_0_r, Z.mul_1_r in Hq'v.
        assert (Hodd2 : Z.odd (2 ^ prec) = true).
        { rewrite <- Heq, Hq'v. destruct m'; try done; by rewrite ?Z.odd_opp. }
        replace prec with (Z.succ (prec - 1)) in Hodd2 by lia.
        rewrite Z.pow_succ_r, Z.odd_mul in Hodd2 by lia. done.
      - assert (q' < 2 ^ prec) by lia.
        assert (Z.log2 q' < prec) by (apply Z.log2_lt_pow2; lia). lia. }
    rewrite round_finite_exact; [done|done|by right| |]; unfold qe in *; lia.
Qed.

Lemma wrap_signed_idem w z :
  1 <= w -> wrap_signed w (wrap_signed w z) = wrap_signed w z.
Proof.
  intros Hw. unfold wrap_signed.
  assert (Hp : 0 < 2 ^ (w - 1)) by (apply Z.pow_pos_nonneg; lia).
  assert (H2 : 2 ^ w = 2 * 2 ^ (w - 1)).
  { replace w with (Z.succ (w - 1)) at 1 by lia. rewrite Z.pow_succ_r; lia. }
  pose proof (Z.mod_pos_bound z (2 ^ w) ltac:(lia)) as Hb.
  set (u := z mod 2 ^ w) in *.
  destruct (Z.ltb_spec u (2 ^ (w - 1))).
  - rewrite Z.mod_small by lia. destruct (Z.ltb_spec u (2 ^ (w - 1))); [done|lia].
  - replace ((u - 2 ^ w) mod 2 ^ w) with u.
    + destruct (Z.ltb_spec u (2 ^ (w - 1))); [lia|done].
    + rewrite <- (Z.mod_small u (2 ^ w)) at 1 by lia.
      rewrite <- (Z.mod_add u (-1) (2 ^ w)) by lia. f_equal; lia.
Qed.

Lemma wrap_unsigned_idem w z :
  0 <= w -> wrap_unsigned w (wrap_unsigned w z) = wrap_unsigned w z.
Proof.
  intros Hw. unfold wrap_unsigned. apply Z.mod_mod.
  assert (0 < 2 ^ w) by (apply Z.pow_pos_nonneg; lia). lia.
Qed.

Lemma to_uint8_clamp_range x : 0 <= to_uint8_clamp x <= 255.
Proof.
  destruct x as [|[]| |m e]; simpl; try lia.
  destruct (Z.leb_spec m 0); [lia|].
  destruct (Z.leb_spec 0 e).
  - assert (0 < 2 ^ e) by (apply Z.pow_pos_nonneg; lia). nia.
  - assert (0 < 2 ^ (- e)) by (apply Z.pow_pos_nonneg; lia).
    assert (0 <= m `div` 2 ^ (- e)) by (apply Z.div_pos; lia).
    repeat case_match; lia.
Qed.

Lemma to_uint8_clamp_number_of_Z z :
  0 <= z <= 255 -> to_uint8_clamp (number_of_Z z) = z.
Proof.
  intros Hz. unfold number_of_Z. destruct (decide (z = 0)) as [->|Hne]; [done|].
  destruct (mk_finite_spec z 0 Hne) as (m' & e' & -> & Hle & Hv & _).
  rewrite Z.sub_0_r in Hv. simpl.
  assert (0 < 2 ^ e') by (apply Z.pow_pos_nonneg; lia).
  destruct (Z.leb_spec m' 0); [nia|].
  destruct (Z.leb_spec 0 e'); lia.
Qed.

Lemma convert_number_idem k x :
  TypedArray.convert_number k (TypedArray.convert_number k x)
  = TypedArray.convert_number k x.
Proof.
  destruct k; simpl; try done;
    try (apply round_number_idem; lia);
    rewrite ?trunc_number_of_Z, ?wrap_signed_idem, ?wrap_unsigned_idem by lia;
    try done.
  by rewrite to_uint8_clamp_number_of_Z by apply to_uint8_clamp_range.
Qed.

Lemma convert_bigint_idem k z :
  TypedArray.convert_bigint k (TypedArray.convert_bigint k z)
  = TypedArray.convert_bigint k z.
Proof.
  destruct k; simpl; rewrite ?wrap_signed_idem, ?wrap_unsigned_idem by lia; done.
Qed.

Lemma convert_idem k v x :
  TypedArray.convert k v = Ok x -> TypedArray.convert k (Some x) = Ok x.
Proof.
  unfold TypedArray.convert. destruct (TypedArray.is_bigint k).
  - destruct v as [[|z]|]; intros [= <-]. by rewrite convert_bigint_idem.
  - destruct v as [[y|]|]; intros [= <-]; by rewrite convert_number_idem.
Qed.


(** ** [Map] lemmas *)

Section JsMapLemmas.
Context {K V : Type} `{EqDecision K}.
Implicit Types (m : JsMap.t K V) (k : K) (v : V).

Lemma get_set_eq m k v : JsMap.get (JsMap.set m k v) k = Some v.
Proof.
  induction m as [|[k' v'] m IH]; simpl.
  - by rewrite decide_True.
  - destruct (decide (k' = k)) as [->|Hne]; simpl.
    + by rewrite decide_True.
    + by rewrite decide_False.
Qed.

Lemma get_set_ne m k k' v : k ≠ k' -> JsMap.get (JsMap.set m k v) k' = JsMap.get m k'.
Proof.
  intros Hne. induction m as [|[k0 v0] m IH]; simpl.
  - by rewrite decide_False.
  - destruct (decide (k0 = k)) as [->|Hne0]; simpl.
    + by rewrite !decide_False.
    + destruct (decide (k0 = k')); done.
Qed.

Lemma get_delete_eq m k : JsMap.get (JsMap.delete m k) k = None.
Proof.
  induction m as [|[k' v'] m IH]; simpl; [done|].
  destruct (decide (k' = k)); simpl; [done|]. by rewrite decide_False.
Qed.

Lemma get_delete_ne m k k' : k ≠ k' -> JsMap.get (JsMap.delete m k) k' = JsMap.get m k'.
Proof.
  intros Hne. induction m as [|[k0 v0] m IH]; simpl; [done|].
  destruct (decide (k0 = k)) as [->|Hne0]; simpl.
  - by rewrite decide_False.
  - destruct (decide (k0 = k')); done.
Qed.

Lemma get_None m k : JsMap.get m k = None <-> k ∉ JsMap.keys m.
Proof.
  induction m as [|[k' v'] m IH]; simpl.
  - split; [intros _; apply not_elem_of_nil|done].
  - rewrite not_elem_of_cons. destruct (decide (k' = k)) as [->|Hne].
    + split; [done|]. intros [? _]. done.
    + rewrite IH. split; [by intros ?|by intros [_ ?]].
Qed.

Lemma get_Some_elem m k v : JsMap.get m k = Some v -> (k, v) ∈ m.
Proof.
  induction m as [|[k' v'] m IH]; simpl; [done|].
  destruct (decide (k' = k)) as [->|Hne].
  - intros [= ->]. apply elem_of_cons. by left.
  - intros Hg. apply elem_of_cons. right. by apply IH.
Qed.

Lemma elem_get m k v : NoDup (JsMap.keys m) -> (k, v) ∈ m -> JsMap.get m k = Some v.
Proof.
  induction m as [|[k' v'] m IH]; simpl.
  - intros _ Hin. by apply elem_of_nil in Hin.
  - intros Hnd Hin. apply NoDup_cons in Hnd as [Hk Hnd].
    apply elem_of_cons in Hin as [[= -> ->]|Hin].
    + by rewrite decide_True.
    + destruct (decide (k' = k)) as [->|Hne]; [|by apply IH].
      exfalso. apply Hk. apply list_elem_of_fmap. by exists (k, v).
Qed.

(** A key in the middle of the map, once the keys before it are done. *)
Lemma get_middle (done_ todo : JsMap.t K V) k v :
  k ∉ JsMap.keys done_ -> JsMap.get (done_ ++ (k, v) :: todo) k = Some v.
Proof.
  induction done_ as [|[k' v'] d IH]; simpl; intros Hk.
  - by rewrite decide_True.
  - apply not_elem_of_cons in Hk as [Hne Hk]. rewrite decide_False by done. by apply IH.
Qed.

Lemma set_middle (done_ todo : JsMap.t K V) k v v' :
  k ∉ JsMap.keys done_ ->
  JsMap.set (done_ ++ (k, v) :: todo) k v' = done_ ++ (k, v') :: todo.
Proof.
  induction done_ as [|[k0 v0] d IH]; simpl; intros Hk.
  - by rewrite decide_True.
  - apply not_elem_of_cons in Hk as [Hne Hk]. rewrite decide_False by done.
    by rewrite IH.
Qed.

Lemma keys_set_present m k v :
  k ∈ JsMap.keys m -> JsMap.keys (JsMap.set m k v) = JsMap.keys m.
Proof.
  induction m as [|[k' v'] m IH]; simpl; intros Hin.
  - by apply elem_of_nil in Hin.
  - destruct (decide (k' = k)) as [->|Hne]; simpl; [done|].
    apply elem_of_cons in Hin as [->|Hin]; [done|]. by rewrite IH.
Qed.

Lemma set_absent m k v : k ∉ JsMap.keys m -> JsMap.set m k v = m ++ [(k, v)].
Proof.
  induction m as [|[k' v'] m IH]; simpl; intros Hk; [done|].
  apply not_elem_of_cons in Hk as [Hne Hk]. rewrite decide_False by done. by rewrite IH.
Qed.
End JsMapLemmas.

(** ** The monad *)

Lemma forM__app {S A} (l1 l2 : list A) (body : A -> M S unit) s :
  forM_ (l1 ++ l2) body s =
  match forM_ l1 body s with
  | (s', Ok _) => forM_ l2 body s'
  | r => r
  end.
Proof.
  revert s. induction l1 as [|x l1 IH]; intros s; simpl; [done|].
  unfold bind. destruct (body x s) as [s' [[]|e|]]; simpl; [|done|done].
  apply IH.
Qed.

Lemma is_ok_from_ok {A} (d : A) r : is_ok r -> r = Ok (from_ok d r).
Proof. by destruct r. Qed.

(** Two lists that go field by field: the second one is a [Map] keyed by the
    first. *)
Section Aligned.
Context {X K V : Type} `{EqDecision K} (kf : X -> K) (P : X -> K * V -> Prop).
Hypothesis P_key : forall x e, P x e -> e.1 = kf x.

Lemma aligned_keys l1 l2 : Forall2 P l1 l2 -> JsMap.keys l2 = map kf l1.
Proof.
  induction 1 as [|x e l1 l2 HP _ IH]; simpl; [done|].
  by rewrite (P_key _ _ HP), IH.
Qed.

Lemma aligned_get_l l1 l2 x :
  Forall2 P l1 l2 -> NoDup (map kf l1) -> x ∈ l1 ->
  exists v, JsMap.get l2 (kf x) = Some v /\ P x (kf x, v).
Proof.
  induction 1 as [|x0 [k v] l1 l2 HP HF IH]; simpl; intros Hnd Hin.
  - by apply elem_of_nil in Hin.
  - apply NoDup_cons in Hnd as [Hk Hnd]. pose proof (P_key _ _ HP) as Hkey.
    simpl in Hkey. subst k.
    apply elem_of_cons in Hin as [->|Hin].
    + exists v. by rewrite decide_True.
    + rewrite decide_False; [by apply IH|].
      intros Heq. apply Hk. rewrite Heq. by apply list_elem_of_fmap_2.
Qed.

Lemma aligned_get_r l1 l2 k v :
  Forall2 P l1 l2 -> NoDup (map kf l1) -> (k, v) ∈ l2 ->
  exists x, x ∈ l1 /\ kf x = k /\ P x (k, v) /\ JsMap.get l2 k = Some v.
Proof.
  intros HF Hnd Hin.
  assert (Hnd2 : NoDup (JsMap.keys l2)) by (by rewrite (aligned_keys _ _ HF)).
  apply list_elem_of_lookup in Hin as [i Hi].
  destruct (Forall2_lookup_r _ _ _ _ _ HF Hi) as (x & Hx & HP).
  exists x. pose proof (P_key _ _ HP) as Hkey. simpl in Hkey.
  split; [by eapply list_elem_of_lookup_2|]. split; [done|]. split; [done|].
  apply elem_get; [done|]. by eapply list_elem_of_lookup_2.
Qed.
End Aligned.

(** ** Typed arrays *)

Section TypedArrayLemmas.
Import TypedArray Wf Effects.

Lemma zero_ok k : elem_ok k (zero k).
Proof. by destruct k. Qed.

Lemma convert_ok k v x : convert k v = Ok x -> elem_ok k x.
Proof. apply convert_idem. Qed.

Lemma set_from_create arr newCap :
  TypedArray.length arr <= newCap ->
  set_from (create (kind_of arr) newCap) arr = Ok (extend newCap arr).
Proof.
  intros Hlen. unfold set_from, create, TypedArray.length in *. simpl.
  rewrite length_replicate.
  destruct (Z.ltb_spec (Z.of_nat (Z.to_nat newCap)) (Z.of_nat (List.length (data arr)))); [lia|].
  rewrite bool_decide_true by done. simpl. rewrite decide_True by done.
  by rewrite drop_replicate.
Qed.

Lemma length_extend arr newCap :
  TypedArray.length arr <= newCap -> TypedArray.length (extend newCap arr) = newCap.
Proof.
  unfold TypedArray.length, extend. simpl. rewrite length_app, length_replicate. lia.
Qed.

Lemma get_extend arr newCap j :
  j < TypedArray.length arr -> get (extend newCap arr) j = get arr j.
Proof.
  unfold get, extend, TypedArray.length. simpl. intros Hj.
  destruct (Z.ltb_spec j 0); [done|]. apply lookup_app_l. lia.
Qed.

Lemma extend_ok arr newCap :
  Forall (elem_ok (kind_of arr)) (data arr) ->
  Forall (elem_ok (kind_of arr)) (data (extend newCap arr)).
Proof.
  intros Hok. unfold extend. simpl. apply Forall_app. split; [done|].
  apply Forall_replicate, zero_ok.
Qed.

(** What a write leaves in the array. *)
Lemma set_Ok arr index v x :
  convert (kind_of arr) v = Ok x -> 0 <= index < TypedArray.length arr ->
  TypedArray.set arr index v
  = Ok {| kind_of := kind_of arr; data := <[Z.to_nat index := x]> (data arr) |}.
Proof.
  intros Hc Hi. unfold TypedArray.set. rewrite Hc. simpl.
  destruct (Z.leb_spec 0 index); [|lia].
  destruct (Z.ltb_spec index (TypedArray.length arr)); [done|lia].
Qed.

Lemma get_in_range arr index :
  0 <= index < TypedArray.length arr -> is_Some (get arr index).
Proof.
  unfold get, TypedArray.length. intros Hi. destruct (Z.ltb_spec index 0); [lia|].
  apply lookup_lt_is_Some. lia.
Qed.

Lemma get_ok arr index x :
  Forall (elem_ok (kind_of arr)) (data arr) -> get arr index = Some x ->
  elem_ok (kind_of arr) x.
Proof.
  unfold get. intros Hok. destruct (index <? 0); [done|]. intros Hl.
  eapply Forall_lookup_1 in Hok; done.
Qed.
End TypedArrayLemmas.

(** ** ColumnStore *)

Section ColumnStoreLemmas.
Import TypedArray ColumnStore Wf Effects.
Implicit Types (s : ColumnStore.t).

Lemma array_ok_key cap f e : array_ok cap f e -> e.1 = f.1.
Proof. by intros [? _]. Qed.

Lemma store_map_keys s :
  Wf.store s -> JsMap.keys (typedArrayMap s) = JsMap.keys (schema s).
Proof. intros Hwf. eapply aligned_keys; [apply array_ok_key|apply Hwf]. Qed.

Lemma store_field s f :
  Wf.store s -> f ∈ schema s ->
  exists arr, JsMap.get (typedArrayMap s) f.1 = Some arr
              /\ schema_get (schema s) f.1 = Some f.2
              /\ array_ok (capacity s) f (f.1, arr).
Proof.
  intros Hwf Hin.
  destruct (aligned_get_l fst _ (array_ok_key (capacity s)) _ _ f
              (store_arrays _ Hwf) (store_keys _ Hwf) Hin) as (arr & Hg & Hok).
  exists arr. split; [done|]. split; [|done].
  unfold schema_get. apply elem_get; [apply Hwf|]. by destruct f.
Qed.

Lemma store_array s k arr :
  Wf.store s -> (k, arr) ∈ typedArrayMap s ->
  exists ft, (k, ft) ∈ schema s /\ schema_get (schema s) k = Some ft
             /\ array_ok (capacity s) (k, ft) (k, arr)
             /\ JsMap.get (typedArrayMap s) k = Some arr.
Proof.
  intros Hwf Hin.
  destruct (aligned_get_r fst _ (array_ok_key (capacity s)) _ _ k arr
              (store_arrays _ Hwf) (store_keys _ Hwf) Hin) as ([k' ft] & Hx & Hk & Hok & Hg).
  simpl in Hk. subst k'. exists ft. split; [done|]. split; [|done].
  unfold schema_get. apply elem_get; [apply Hwf|done].
Qed.

(** A loop over the fields that rewrites every buffer. *)
Lemma forM_with_array_from s f (done_ todo : JsMap.t string TypedArray.t) :
  typedArrayMap s = done_ ++ todo ->
  NoDup (JsMap.keys (done_ ++ todo)) ->
  Forall (fun e => is_ok (f e.1 e.2)) todo ->
  forM_ (JsMap.keys todo) (fun key => with_array key (f key)) s
  = (with_typedArrayMap
       (done_ ++ map (fun e => (e.1, from_ok e.2 (f e.1 e.2))) todo) s, Ok tt).
Proof.
  revert s done_. induction todo as [|[k a] todo IH]; intros s done_ Hm Hnd Hok; simpl.
  - rewrite app_nil_r in *. unfold ret. destruct s; simpl in *. by subst.
  - apply Forall_cons in Hok as [Ha Hok]. simpl in Ha.
    assert (Hk : k ∉ JsMap.keys done_).
    { unfold JsMap.keys in *. rewrite fmap_app in Hnd. apply NoDup_app in Hnd as (_ & Hd & _).
      intros Hin. apply (Hd k Hin). simpl. apply elem_of_cons. by left. }
    unfold bind, with_array at 1. rewrite Hm, get_middle by done.
    destruct (f k a) as [a'| |] eqn:Hf; [|done|done]. simpl.
    rewrite set_middle by done.
    rewrite (IH _ (done_ ++ [(k, a')])); simpl.
    + by rewrite <- app_assoc.
    + by rewrite <- app_assoc.
    + unfold JsMap.keys in *. rewrite <- app_assoc. simpl.
      by rewrite fmap_app in *.
    + done.
Qed.

Lemma forM_with_array s f :
  NoDup (JsMap.keys (typedArrayMap s)) ->
  Forall (fun e => is_ok (f e.1 e.2)) (typedArrayMap s) ->
  forM_ (JsMap.keys (typedArrayMap s)) (fun key => with_array key (f key)) s
  = (map_arrays f s, Ok tt).
Proof. intros Hnd Hok. by apply (forM_with_array_from s f []). Qed.

(** *** [ensureCapacity] *)

Lemma grow_spec minCapacity : forall fuel cap,
  1 <= cap -> minCapacity - cap <= Z.of_nat fuel ->
  exists k, 0 <= k /\ grow fuel cap minCapacity = Some (cap * 2 ^ k)
            /\ minCapacity <= cap * 2 ^ k
            /\ forall j, 0 <= j < k -> cap * 2 ^ j < minCapacity.
Proof.
  induction fuel as [|fuel IH]; intros cap Hcap Hfuel; simpl.
  - destruct (Z.ltb_spec cap minCapacity); [lia|].
    exists 0. rewrite Z.pow_0_r, Z.mul_1_r. repeat split; try done; lia.
  - destruct (Z.ltb_spec cap minCapacity) as [Hlt|Hge].
    + destruct (IH (cap * 2)) as (k & Hk & Hg & Hmin & Hsmall); [lia|lia|].
      exists (k + 1). rewrite Z.pow_add_r, Z.pow_1_r by lia.
      split; [lia|]. split; [rewrite Hg; f_equal; lia|]. split; [lia|].
      intros j Hj. destruct (decide (j = 0)) as [->|Hj0].
      * rewrite Z.pow_0_r. lia.
      * specialize (Hsmall (j - 1) ltac:(lia)).
        replace j with (Z.succ (j - 1)) by lia. rewrite Z.pow_succ_r by lia. lia.
    + exists 0. rewrite Z.pow_0_r, Z.mul_1_r. repeat split; try done; lia.
Qed.

Lemma next_capacity_spec cap minCapacity :
  1 <= cap ->
  exists k, 0 <= k /\ next_capacity cap minCapacity = cap * 2 ^ k
            /\ minCapacity <= cap * 2 ^ k
            /\ (forall j, 0 <= j < k -> cap * 2 ^ j < minCapacity)
            /\ (cap < minCapacity ->
                grow (Z.to_nat minCapacity) cap minCapacity = Some (cap * 2 ^ k)).
Proof.
  intros Hcap. unfold next_capacity. destruct (Z.leb_spec minCapacity cap).
  - exists 0. rewrite Z.pow_0_r, Z.mul_1_r. repeat split; try done; lia.
  - destruct (grow_spec minCapacity (Z.to_nat minCapacity) cap) as (k & Hk & Hg & Hmin & Hs);
      [lia|lia|].
    exists k. rewrite Hg. simpl. repeat split; try done.
Qed.

Lemma next_capacity_ge cap minCapacity :
  1 <= cap -> cap <= next_capacity cap minCapacity /\ minCapacity <= next_capacity cap minCapacity.
Proof.
  intros Hcap. destruct (next_capacity_spec cap minCapacity Hcap) as (k & Hk & -> & Hmin & _).
  split; [|done]. assert (0 < 2 ^ k) by (apply Z.pow_pos_nonneg; lia). nia.
Qed.

Lemma extend_same arr : extend (TypedArray.length arr) arr = arr.
Proof.
  destruct arr as [k d]. unfold extend, TypedArray.length. simpl.
  rewrite Nat2Z.id, Nat.sub_diag. simpl. by rewrite app_nil_r.
Qed.

Lemma grown_same s minCapacity :
  Wf.store s -> minCapacity <= capacity s -> grown minCapacity s = s.
Proof.
  intros Hwf Hle. unfold grown, next_capacity.
  destruct (Z.leb_spec minCapacity (capacity s)); [|lia].
  destruct s as [sch m cap sz]. simpl in *. f_equal.
  pose proof (store_arrays _ Hwf) as HF. simpl in HF.
  clear -HF. induction HF as [|f [k a] l1 l2 (_ & _ & Hlen & _) _ IH]; simpl; [done|].
  simpl in Hlen. rewrite IH. by rewrite <- Hlen, extend_same.
Qed.

Lemma array_ok_extend cap newCap f e :
  cap <= newCap -> array_ok cap f e -> array_ok newCap f (e.1, extend newCap e.2).
Proof.
  intros Hle (Hk & Hkind & Hlen & Hok). split; [done|]. simpl.
  split; [done|]. split; [apply length_extend; lia|]. by apply extend_ok.
Qed.

Lemma grown_wf s minCapacity : Wf.store s -> Wf.store (grown minCapacity s).
Proof.
  intros Hwf. destruct (next_capacity_ge (capacity s) minCapacity (store_capacity _ Hwf)) as [Hc1 Hc2].
  pose proof (store_capacity _ Hwf). pose proof (store_size _ Hwf).
  split; simpl; [lia|lia|apply Hwf|].
  apply Forall2_fmap_r. eapply Forall2_impl; [apply Hwf|].
  intros f e Hok. apply (array_ok_extend (capacity s)); [lia|done].
Qed.

Lemma forM_resize_from s newCap (done_ todo : JsMap.t string TypedArray.t) :
  typedArrayMap s = done_ ++ todo ->
  NoDup (JsMap.keys (done_ ++ todo)) ->
  Forall (fun e => exists ft, schema_get (schema s) e.1 = Some ft
                     /\ kind_of e.2 = array_kind ft
                     /\ TypedArray.length e.2 <= newCap) todo ->
  forM_ todo (resize_field newCap) s
  = (with_typedArrayMap (done_ ++ map (fun e => (e.1, extend newCap e.2)) todo) s, Ok tt).
Proof.
  revert s done_. induction todo as [|[k a] todo IH]; intros s done_ Hm Hnd Hok; simpl.
  - rewrite app_nil_r in *. unfold ret. destruct s; simpl in *. by subst.
  - apply Forall_cons in Hok as [(ft & Hft & Hkind & Hlen) Hok]. simpl in *.
    assert (Hk : k ∉ JsMap.keys done_).
    { unfold JsMap.keys in *. rewrite fmap_app in Hnd. apply NoDup_app in Hnd as (_ & Hd & _).
      intros Hin. apply (Hd k Hin). simpl. apply elem_of_cons. by left. }
    unfold bind at 1. unfold bind at 1. unfold gets. rewrite Hft. simpl.
    unfold bind at 1. unfold lift_result at 1. unfold bind at 1. simpl.
    rewrite <- Hkind.
    assert (Hset : (if is_bigint (kind_of a) && is_bigint (kind_of a)
                    then lift_result (set_from (create (kind_of a) newCap) a)
                    else if negb (is_bigint (kind_of a)) && negb (is_bigint (kind_of a))
                         then lift_result (set_from (create (kind_of a) newCap) a)
                         else throw (UnsupportedFieldTypeError
                                ("Mismatched array types during resize for field " ++ k))) s
                   = (s, Ok (extend newCap a))).
    { rewrite set_from_create by done. by destruct (is_bigint (kind_of a)). }
    rewrite Hset. unfold modify. rewrite Hm, set_middle by done.
    rewrite (IH _ (done_ ++ [(k, extend newCap a)])); simpl.
    + by rewrite <- app_assoc.
    + by rewrite <- app_assoc.
    + unfold JsMap.keys in *. rewrite <- app_assoc. simpl. by rewrite fmap_app in *.
    + done.
Qed.

Lemma ensureCapacity_spec s minCapacity :
  Wf.store s -> ensureCapacity minCapacity s = (grown minCapacity s, Ok tt).
Proof.
  intros Hwf. unfold ensureCapacity.
  destruct (Z.leb_spec minCapacity (capacity s)) as [Hle|Hlt].
  { by rewrite grown_same. }
  destruct (next_capacity_spec (capacity s) minCapacity (store_capacity _ Hwf))
    as (k & Hk & Hnext & Hmin & _ & Hgrow).
  rewrite (Hgrow Hlt). unfold bind.
  unfold JsMap.entries.
  rewrite (forM_resize_from s _ []); [| done | simpl; rewrite store_map_keys by done; apply Hwf |].
  - unfold modify, grown. simpl. by rewrite Hnext.
  - apply Forall_forall. intros [k' a] Hin.
    destruct (store_array s k' a Hwf Hin) as (ft & _ & Hft & (_ & Hkind & Hlen & _) & _).
    exists ft. simpl in *. split; [done|]. split; [done|]. lia.
Qed.
End ColumnStoreLemmas.

Section ColumnStoreMethods.
Import TypedArray ColumnStore Wf Effects.
Implicit Types (s : ColumnStore.t).

Lemma storable_field schema value f :
  storable schema value = true -> f ∈ schema -> is_Some (field_elem value f).
Proof.
  unfold storable. rewrite forallb_forall. intros Hall Hin.
  apply list_elem_of_In in Hin. specialize (Hall _ Hin).
  by apply bool_decide_eq_true in Hall.
Qed.

Lemma field_elem_Some value f x :
  field_elem value f = Some x ->
  exists y, raw_element f.1 (prop_get value f.1) = Ok y
            /\ convert (array_kind f.2) (Some y) = Ok x.
Proof.
  unfold field_elem. destruct (raw_element _ _) as [y| |]; simpl; [|done|done].
  destruct (convert _ _) as [x'| |] eqn:Hc; [|done|done]. intros [= ->]. by exists y.
Qed.

Lemma keys_map_values {V W} (g : string -> V -> W) (m : JsMap.t string V) :
  JsMap.keys (map (fun e => (e.1, g e.1 e.2)) m) = JsMap.keys m.
Proof. induction m as [|[k v] m IH]; simpl; [done|]. by rewrite IH. Qed.

Lemma Forall2_map_values {X V} (P P' : X -> string * V -> Prop) (Q : string * V -> Prop)
    (g : string -> V -> V) l1 (l2 : JsMap.t string V) :
  Forall2 P l1 l2 -> Forall Q l2 ->
  (forall x e, P x e -> Q e -> P' x (e.1, g e.1 e.2)) ->
  Forall2 P' l1 (map (fun e => (e.1, g e.1 e.2)) l2).
Proof.
  intros HF HQ Himp. induction HF as [|x e l1 l2 HP _ IH]; simpl; [done|].
  apply Forall_cons in HQ as [He HQ]. constructor; [by apply Himp|by apply IH].
Qed.

(** The buffer of a field after [f] went over the store. *)
Lemma map_arrays_get f s k arr :
  NoDup (JsMap.keys (typedArrayMap s)) ->
  JsMap.get (typedArrayMap s) k = Some arr ->
  JsMap.get (typedArrayMap (map_arrays f s)) k = Some (from_ok arr (f k arr)).
Proof.
  intros Hnd Hg. simpl. apply get_Some_elem in Hg. apply elem_get.
  - by rewrite (keys_map_values (fun k a => from_ok a (f k a))).
  - apply list_elem_of_fmap. by exists (k, arr).
Qed.

Lemma map_arrays_wf f s :
  Wf.store s ->
  (forall ft k arr, (k, arr) ∈ typedArrayMap s -> array_ok (capacity s) (k, ft) (k, arr) ->
     array_ok (capacity s) (k, ft) (k, from_ok arr (f k arr))) ->
  Wf.store (map_arrays f s).
Proof.
  intros Hwf Hf. split; simpl; [apply Hwf|apply Hwf|apply Hwf|].
  apply (Forall2_map_values (array_ok (capacity s)) _ (fun e => e ∈ typedArrayMap s)
           (fun k a => from_ok a (f k a))); [apply Hwf|by apply Forall_forall|].
  intros [k ft] [k' arr] Hok Hin. pose proof (array_ok_key _ _ _ Hok) as Hk. simpl in Hk.
  subst k'. simpl. by apply Hf.
Qed.

Lemma with_size_wf n s :
  Wf.store s -> 0 <= n <= capacity s -> Wf.store (with_size n s).
Proof. intros Hwf Hn. split; simpl; [apply Hwf|done|apply Hwf|apply Hwf]. Qed.

Lemma array_ok_write cap f arr index v x :
  convert (kind_of arr) v = Ok x ->
  array_ok cap f (f.1, arr) ->
  array_ok cap f (f.1, from_ok arr (TypedArray.set arr index v))
  /\ (0 <= index < cap -> TypedArray.get (from_ok arr (TypedArray.set arr index v)) index = Some x)
  /\ (forall j, j ≠ index -> TypedArray.get (from_ok arr (TypedArray.set arr index v)) j = TypedArray.get arr j).
Proof.
  intros Hc (Hk & Hkind & Hlen & Hok). simpl in *. unfold TypedArray.set. rewrite Hc. simpl.
  destruct ((0 <=? index) && (index <? TypedArray.length arr)) eqn:Hr.
  - apply andb_true_iff in Hr as [H0 H1]. apply Z.leb_le in H0. apply Z.ltb_lt in H1.
    split; [|split].
    + split; [done|]. simpl. split; [done|]. unfold TypedArray.length in *. simpl.
      rewrite length_insert. split; [done|]. apply Forall_insert; [done|].
      by eapply convert_ok.
    + intros _. unfold TypedArray.get. simpl. destruct (Z.ltb_spec index 0); [lia|].
      apply list_lookup_insert_eq. unfold TypedArray.length in *. lia.
    + intros j Hj. unfold TypedArray.get. simpl. destruct (Z.ltb_spec j 0); [done|].
      apply list_lookup_insert_ne. lia.
  - split; [done|]. split; [|done]. intros Hi.
    apply andb_false_iff in Hr as [H0|H1]; [apply Z.leb_gt in H0|apply Z.ltb_ge in H1]; lia.
Qed.

(** *** [set] *)

Lemma write_field_ok s index value k arr :
  Wf.store s -> storable (schema s) value = true -> (k, arr) ∈ typedArrayMap s ->
  exists ft x, (k, ft) ∈ schema s /\ field_elem value (k, ft) = Some x
    /\ array_ok (capacity s) (k, ft) (k, arr)
    /\ exists y, write_field index value k arr = TypedArray.set arr index (Some y)
                 /\ convert (kind_of arr) (Some y) = Ok x.
Proof.
  intros Hwf Hst Hin.
  destruct (store_array s k arr Hwf Hin) as (ft & Hf & _ & Hok & _).
  destruct (storable_field _ _ _ Hst Hf) as [x Hx].
  exists ft, x. do 3 (split; [done|]).
  destruct (field_elem_Some _ _ _ Hx) as (y & Hraw & Hc). simpl in *.
  exists y. unfold write_field. rewrite Hraw. simpl. split; [done|].
  destruct Hok as (_ & Hkind & _). simpl in Hkind. by rewrite Hkind.
Qed.

Lemma set_spec s index value :
  Wf.store s -> 0 <= index -> storable (schema s) value = true ->
  ColumnStore.set index value s = (after_set index value s, Ok tt).
Proof.
  intros Hwf Hi Hst. unfold ColumnStore.set.
  destruct (Z.ltb_spec index 0); [lia|]. unfold bind at 1.
  assert (Hgrow : (if capacity s <=? index then ensureCapacity (index + 1) s else (s, Ok tt))
                  = (grown (index + 1) s, Ok tt)).
  { destruct (Z.leb_spec (capacity s) index).
    - by apply ensureCapacity_spec.
    - rewrite grown_same; [done|done|lia]. }
  rewrite Hgrow. pose proof (grown_wf s (index + 1) Hwf) as Hwf1.
  set (s1 := grown (index + 1) s) in *.
  assert (Hloop : forM_ (JsMap.keys (schema s1)) (fun key =>
                    with_array key (fun arr =>
                      result_bind (raw_element key (prop_get value key)) (fun x =>
                        TypedArray.set arr index (Some x)))) s1
                  = (map_arrays (write_field index value) s1, Ok tt)).
  { rewrite <- (store_map_keys s1 Hwf1).
    apply (forM_with_array s1 (write_field index value)).
    - rewrite store_map_keys by done. apply Hwf1.
    - apply Forall_forall. intros [k arr] Hin. simpl.
      destruct (write_field_ok s1 index value k arr Hwf1 Hst Hin)
        as (ft & x & _ & _ & _ & y & -> & Hc).
      unfold TypedArray.set. by rewrite Hc. }
  unfold bind at 1. cbv beta. rewrite Hloop. done.
Qed.

Lemma after_set_size s index value :
  size (after_set index value s) = Z.max (size s) (index + 1).
Proof.
  unfold after_set. simpl. destruct (Z.leb_spec (size s) index); simpl; lia.
Qed.


Lemma after_set_schema s index value : schema (after_set index value s) = schema s.
Proof. unfold after_set. simpl. by destruct (size s <=? index). Qed.

Lemma after_set_wf s index value :
  Wf.store s -> 0 <= index -> storable (schema s) value = true ->
  Wf.store (after_set index value s).
Proof.
  intros Hwf Hi Hst. pose proof (grown_wf s (index + 1) Hwf) as Hwf1.
  assert (Hwf2 : Wf.store (map_arrays (write_field index value) (grown (index + 1) s))).
  { apply map_arrays_wf; [done|]. intros ft k arr Hin Hok.
    destruct (write_field_ok _ index value k arr Hwf1 Hst Hin)
      as (ft' & x & _ & _ & _ & y & -> & Hc).
    by apply (array_ok_write _ (k, ft) arr index (Some y) x). }
  unfold after_set.
  destruct (next_capacity_ge (capacity s) (index + 1) (store_capacity _ Hwf)).
  destruct (Z.leb_spec (size (map_arrays (write_field index value) (grown (index + 1) s))) index);
    [|done].
  apply with_size_wf; [done|]. simpl. lia.
Qed.
End ColumnStoreMethods.

Section ColumnStoreReads.
Import TypedArray ColumnStore Wf Effects.
Implicit Types (s : ColumnStore.t).
#[local] Arguments decode : simpl never.
#[local] Arguments cell : simpl never.

Lemma collect_ext {A B} (f g : A -> result B) l :
  (forall x, x ∈ l -> f x = g x) -> collect f l = collect g l.
Proof.
  induction l as [|x l IH]; simpl; intros Hfg; [done|].
  rewrite Hfg by (apply elem_of_cons; by left).
  rewrite IH; [done|]. intros y Hy. apply Hfg. apply elem_of_cons. by right.
Qed.

Lemma collect_Ok {A B} (f : A -> result B) (g : A -> B) l :
  (forall x, x ∈ l -> f x = Ok (g x)) -> collect f l = Ok (map g l).
Proof.
  induction l as [|x l IH]; simpl; intros Hfg; [done|].
  rewrite Hfg by (apply elem_of_cons; by left). simpl.
  rewrite IH; [done|]. intros y Hy. apply Hfg. apply elem_of_cons. by right.
Qed.

(** *** [get] *)

Lemma get_fields_spec s index l :
  Wf.store s -> (forall f, f ∈ l -> f ∈ schema s) ->
  get_fields s index (map fst l)
  = collect (fun f => result_bind (decode (Some f.2) (cell s index f.1))
                                  (fun v => Ok (f.1, v))) l.
Proof.
  intros Hwf. induction l as [|f l IH]; intros Hsub; [done|]. simpl.
  destruct (store_field s f Hwf) as (arr & Hg & Hft & _).
  { apply Hsub. apply elem_of_cons. by left. }
  rewrite Hg, Hft. unfold cell at 1. rewrite Hg.
  destruct (decode _ _) as [v| |]; simpl; [|done|done].
  rewrite IH; [done|].
  intros f' Hf'. apply Hsub. apply elem_of_cons. by right.
Qed.

Lemma get_spec s index :
  Wf.store s ->
  ColumnStore.get s index
  = collect (fun f => result_bind (decode (Some f.2) (cell s index f.1))
                                  (fun v => Ok (f.1, v))) (schema s).
Proof. intros Hwf. by apply get_fields_spec. Qed.

Lemma decode_elem_ok ft x :
  elem_ok (array_kind ft) x -> decode (Some ft) (Some x) = Ok (decoded ft x).
Proof.
  unfold elem_ok, convert, decoded. intros Hok.
  destruct ft; simpl in *; try done; by destruct x.
Qed.

Lemma decode_default ft :
  decode (Some ft) (Some (Num (Finite 0 0))) = Ok (decoded ft (zero (array_kind ft))).
Proof. by destruct ft. Qed.

(** What a field reads as, at a row of the store or beyond its size. *)
Lemma cell_decode s index f :
  Wf.store s -> f ∈ schema s -> 0 <= index \/ size s <= index ->
  exists x, elem_ok (array_kind f.2) x
            /\ decode (Some f.2) (cell s index f.1) = Ok (decoded f.2 x)
            /\ (index < size s -> cell s index f.1 = Some x).
Proof.
  intros Hwf Hin Hi. destruct (store_field s f Hwf Hin) as (arr & Hg & _ & _ & Hkind & Hlen & Hok).
  simpl in *. unfold cell. rewrite Hg. destruct (Z.ltb_spec index (size s)) as [Hlt|Hge].
  - pose proof (store_size _ Hwf).
    destruct (get_in_range arr index) as [x Hx]; [lia|].
    exists x. rewrite Hx. pose proof (get_ok _ _ _ Hok Hx) as Hxok. rewrite Hkind in Hxok.
    split; [done|]. split; [|done]. by apply decode_elem_ok.
  - exists (zero (array_kind f.2)). split; [apply zero_ok|]. split; [apply decode_default|lia].
Qed.

Lemma collect_record s index l :
  Wf.store s -> 0 <= index \/ size s <= index -> (forall f, f ∈ l -> f ∈ schema s) ->
  exists o, collect (fun f => result_bind (decode (Some f.2) (cell s index f.1))
                                          (fun v => Ok (f.1, v))) l = Ok o
            /\ is_record l o.
Proof.
  intros Hwf Hi. unfold is_record. induction l as [|f l IH]; intros Hsub.
  - exists []. split; [done|]. by exists [].
  - destruct IH as (o & Ho & xs & Hxs & ->).
    { intros f' Hf'. apply Hsub. apply elem_of_cons. by right. }
    destruct (cell_decode s index f Hwf) as (x & Hx & Hd & _); [|done|].
    { apply Hsub. apply elem_of_cons. by left. }
    simpl. rewrite Hd. simpl. rewrite Ho. simpl.
    eexists. split; [done|]. exists (x :: xs). split; [by constructor|done].
Qed.

Lemma get_total s index :
  Wf.store s -> 0 <= index \/ size s <= index ->
  exists o, ColumnStore.get s index = Ok o /\ is_record (schema s) o.
Proof. intros Hwf Hi. rewrite get_spec by done. by apply collect_record. Qed.

Lemma get_cells s1 s2 i j :
  Wf.store s1 -> Wf.store s2 -> schema s1 = schema s2 ->
  (forall f, f ∈ schema s1 -> cell s1 i f.1 = cell s2 j f.1) ->
  ColumnStore.get s1 i = ColumnStore.get s2 j.
Proof.
  intros Hwf1 Hwf2 Hsch Hcell. rewrite !get_spec by done. rewrite <- Hsch.
  apply collect_ext. intros f Hf. by rewrite Hcell.
Qed.

(** *** Cells after growth and after [set] *)

Lemma cell_grown s minCapacity index key :
  Wf.store s -> cell (grown minCapacity s) index key = cell s index key.
Proof.
  intros Hwf. unfold cell. simpl.
  destruct (JsMap.get (typedArrayMap s) key) as [arr|] eqn:Hg.
  - assert (Hg' : JsMap.get (map (fun e => (e.1, extend (next_capacity (capacity s) minCapacity) e.2))
                               (typedArrayMap s)) key
                  = Some (extend (next_capacity (capacity s) minCapacity) arr)).
    { apply elem_get.
      - rewrite (keys_map_values (fun _ a => extend _ a)).
        rewrite store_map_keys by done. apply Hwf.
      - apply list_elem_of_fmap. exists (key, arr). split; [done|]. by apply get_Some_elem. }
    rewrite Hg'. destruct (Z.ltb_spec index (size s)); [|done].
    apply get_extend.
    destruct (store_array s key arr Hwf (get_Some_elem _ _ _ Hg)) as (ft & _ & _ & (_ & _ & Hlen & _) & _).
    simpl in Hlen. pose proof (store_size _ Hwf). lia.
  - apply get_None in Hg.
    assert (Hg' : JsMap.get (map (fun e => (e.1, extend (next_capacity (capacity s) minCapacity) e.2))
                               (typedArrayMap s)) key = None).
    { apply get_None. by rewrite (keys_map_values (fun _ a => extend _ a)). }
    by rewrite Hg'.
Qed.

Lemma get_grown s minCapacity index :
  Wf.store s -> ColumnStore.get (grown minCapacity s) index = ColumnStore.get s index.
Proof.
  intros Hwf. apply get_cells; [by apply grown_wf|done|done|].
  intros f _. by apply cell_grown.
Qed.

Lemma cell_after_set s index value f :
  Wf.store s -> 0 <= index -> storable (schema s) value = true -> f ∈ schema s ->
  cell (after_set index value s) index f.1 = field_elem value f
  /\ forall j, j ≠ index -> j < size s ->
       cell (after_set index value s) j f.1 = cell s j f.1.
Proof.
  intros Hwf Hi Hst Hf.
  pose proof (grown_wf s (index + 1) Hwf) as Hwf1.
  destruct (next_capacity_ge (capacity s) (index + 1) (store_capacity _ Hwf)) as [Hc1 Hc2].
  destruct (store_field _ f Hwf1 Hf) as (arr & Hg & _ & Hok).
  destruct (write_field_ok _ index value f.1 arr Hwf1 Hst (get_Some_elem _ _ _ Hg))
    as (ft & x & Hf' & Hx & _ & y & Hw & Hc).
  assert (ft = f.2) as ->.
  { destruct f as [k ft0]. simpl in *.
    pose proof (elem_get _ _ _ (store_keys _ Hwf) Hf) as E1.
    pose proof (elem_get _ _ _ (store_keys _ Hwf) Hf') as E2. congruence. }
  assert (Hfx : field_elem value f = Some x) by (by destruct f).
  destruct (array_ok_write _ f arr index (Some y) x Hc Hok) as (_ & Hread & Hother).
  assert (Hcell : forall j,
            cell (after_set index value s) j f.1
            = if j <? Z.max (size s) (index + 1)
              then TypedArray.get (from_ok arr (TypedArray.set arr index (Some y))) j
              else Some (Num (Finite 0 0))).
  { intros j. unfold cell. rewrite after_set_size.
    replace (JsMap.get (typedArrayMap (after_set index value s)) f.1)
      with (Some (from_ok arr (write_field index value f.1 arr))); [by rewrite Hw|].
    symmetry. unfold after_set.
    rewrite <- (map_arrays_get (write_field index value) _ _ _
                  (eq_ind_r (fun l => NoDup l) (store_keys _ Hwf1) (store_map_keys _ Hwf1)) Hg).
    by destruct (_ <=? index). }
  split.
  - rewrite Hcell. destruct (Z.ltb_spec index (Z.max (size s) (index + 1))); [|lia].
    rewrite Hread by (simpl; lia). done.
  - intros j Hj Hlt. rewrite Hcell.
    destruct (Z.ltb_spec j (Z.max (size s) (index + 1))); [|lia].
    rewrite Hother by done. rewrite <- (cell_grown s (index + 1)) by done.
    unfold cell. rewrite Hg. simpl. destruct (Z.ltb_spec j (size s)); [done|lia].
Qed.
End ColumnStoreReads.

Section ColumnStoreRoundTrip.
Import TypedArray ColumnStore Wf Effects.
Implicit Types (s : ColumnStore.t).
#[local] Arguments decode : simpl never.
#[local] Arguments cell : simpl never.

Lemma field_elem_ok value f x : field_elem value f = Some x -> elem_ok (array_kind f.2) x.
Proof.
  intros Hx. destruct (field_elem_Some _ _ _ Hx) as (y & _ & Hc). by eapply convert_ok.
Qed.

(** [get] right after [set], at the same index. *)
Lemma get_after_set s index value :
  Wf.store s -> 0 <= index -> storable (schema s) value = true ->
  ColumnStore.get (after_set index value s) index
  = Ok (map (fun f => (f.1, stored_value value f)) (schema s)).
Proof.
  intros Hwf Hi Hst. rewrite get_spec by (by apply after_set_wf).
  rewrite after_set_schema. apply collect_Ok. intros f Hf.
  destruct (cell_after_set s index value f Hwf Hi Hst Hf) as [-> _].
  destruct (storable_field _ _ _ Hst Hf) as [x Hx]. unfold stored_value. rewrite Hx.
  by rewrite (decode_elem_ok _ _ (field_elem_ok _ _ _ Hx)).
Qed.

(** [set] leaves the other rows as they read. *)
Lemma get_after_set_other s index value j :
  Wf.store s -> 0 <= index -> storable (schema s) value = true ->
  j ≠ index -> j < size s ->
  ColumnStore.get (after_set index value s) j = ColumnStore.get s j.
Proof.
  intros Hwf Hi Hst Hj Hlt.
  apply get_cells; [by apply after_set_wf|done|by apply after_set_schema|].
  intros f Hf. rewrite after_set_schema in Hf.
  destruct (cell_after_set s index value f Hwf Hi Hst Hf) as [_ Hother]. by apply Hother.
Qed.

(** *** Records read from a store can be stored back *)

Lemma roundtrip_elem key ft x :
  elem_ok (array_kind ft) x ->
  exists x', result_bind (raw_element key (decoded ft x))
               (fun y => convert (array_kind ft) (Some y)) = Ok x'
             /\ decoded ft x' = decoded ft x.
Proof.
  unfold elem_ok. intros Hok.
  destruct ft; destruct x as [n|z]; try done.
  all: try (exists (Num n); split; [exact Hok|done]).
  all: try (exists (Big z); split; [exact Hok|done]).
  unfold decoded, decode. simpl. destruct (number_is_zero n); simpl; eexists; split; done.
Qed.

Lemma prop_get_here key v (o : object) : prop_get ((key, v) :: o) key = v.
Proof. simpl. by rewrite String.eqb_refl. Qed.

Lemma prop_get_later k key v (o : object) :
  k ≠ key -> prop_get ((k, v) :: o) key = prop_get o key.
Proof. intros Hne. simpl. by apply String.eqb_neq in Hne as ->. Qed.

Lemma record_fields schema o :
  is_record schema o -> NoDup (JsMap.keys schema) ->
  JsMap.keys o = JsMap.keys schema
  /\ forall f, f ∈ schema ->
       exists x, elem_ok (array_kind f.2) x /\ prop_get o f.1 = decoded f.2 x.
Proof.
  intros (xs & HF & ->). induction HF as [|f x schema xs Hx HF IH]; intros Hnd; simpl.
  - split; [done|]. intros f Hf. by apply elem_of_nil in Hf.
  - apply NoDup_cons in Hnd as [Hk Hnd]. destruct (IH Hnd) as [Hkeys Hfields].
    split; [by rewrite Hkeys|]. intros f' Hf'. apply elem_of_cons in Hf' as [->|Hf'].
    + exists x. split; [done|]. by rewrite String.eqb_refl.
    + destruct (Hfields f' Hf') as (x' & Hx' & Hp). exists x'. split; [done|].
      assert (Hne : f.1 ≠ f'.1).
      { intros Heq. apply Hk. rewrite Heq. by apply list_elem_of_fmap_2. }
      by apply String.eqb_neq in Hne as ->.
Qed.

Lemma record_stored schema o f :
  is_record schema o -> NoDup (JsMap.keys schema) -> f ∈ schema ->
  is_Some (field_elem o f) /\ stored_value o f = prop_get o f.1.
Proof.
  intros Hrec Hnd Hf. destruct (record_fields _ _ Hrec Hnd) as [_ Hfields].
  destruct (Hfields f Hf) as (x & Hx & Hp).
  destruct (roundtrip_elem f.1 f.2 x Hx) as (x' & Hrt & Hd).
  unfold stored_value, field_elem. rewrite Hp, Hrt. split; [by eexists|done].
Qed.

Lemma record_storable schema o :
  is_record schema o -> NoDup (JsMap.keys schema) -> storable schema o = true.
Proof.
  intros Hrec Hnd. unfold storable. apply forallb_forall. intros f Hf.
  apply list_elem_of_In in Hf. apply bool_decide_eq_true.
  by apply (record_stored schema o f).
Qed.

Lemma record_map schema o :
  is_record schema o -> NoDup (JsMap.keys schema) ->
  map (fun f => (f.1, prop_get o f.1)) schema = o.
Proof.
  intros (xs & HF & ->). induction HF as [|f x schema xs Hx HF IH]; intros Hnd; simpl; [done|].
  apply NoDup_cons in Hnd as [Hk Hnd]. rewrite String.eqb_refl. f_equal.
  etrans; [|apply (IH Hnd)]. apply map_ext_in. intros f' Hf'. f_equal.
  assert (Hne : f.1 ≠ f'.1).
  { intros Heq. apply Hk. rewrite Heq. apply list_elem_of_fmap_2. by apply list_elem_of_In. }
  by apply String.eqb_neq in Hne as ->.
Qed.

(** A record read from a store of the schema reads back as it is. *)
Lemma get_after_set_record s index o :
  Wf.store s -> 0 <= index -> is_record (schema s) o ->
  ColumnStore.get (after_set index o s) index = Ok o.
Proof.
  intros Hwf Hi Hrec. pose proof (store_keys _ Hwf) as Hnd.
  rewrite get_after_set by (done || by apply record_storable). f_equal.
  etrans; [|apply (record_map _ _ Hrec Hnd)]. apply map_ext_in. intros f Hf. f_equal.
  apply list_elem_of_In in Hf. by apply (record_stored (schema s) o f).
Qed.
End ColumnStoreRoundTrip.

Section ColumnStoreRemoveCopy.
Import TypedArray ColumnStore Wf Effects.
Implicit Types (s : ColumnStore.t).
#[local] Arguments decode : simpl never.
#[local] Arguments cell : simpl never.

(** *** [swapRemove] *)

Lemma last_element s k arr :
  Wf.store s -> 1 <= size s -> (k, arr) ∈ typedArrayMap s ->
  exists ft x, array_ok (capacity s) (k, ft) (k, arr)
               /\ TypedArray.get arr (size s - 1) = Some x
               /\ convert (kind_of arr) (Some x) = Ok x.
Proof.
  intros Hwf Hsz Hin. pose proof (store_size _ Hwf).
  destruct (store_array s k arr Hwf Hin) as (ft & _ & _ & Hok & _).
  pose proof Hok as (_ & _ & Hlen & Helems). simpl in *.
  destruct (get_in_range arr (size s - 1)) as [x Hx]; [lia|].
  exists ft, x. split; [done|]. split; [done|]. by eapply get_ok.
Qed.

Lemma swapRemove_spec s index :
  Wf.store s -> 0 <= index < size s ->
  swapRemove index s = (after_swapRemove index s, Ok tt).
Proof.
  intros Hwf Hi. unfold swapRemove, after_swapRemove.
  destruct (Z.ltb_spec index 0); [lia|]. destruct (Z.leb_spec (size s) index); [lia|]. simpl.
  destruct (Z.eqb_spec index (size s - 1)); [done|].
  unfold bind. rewrite <- (store_map_keys s Hwf).
  rewrite (forM_with_array s (fun _ arr => TypedArray.set arr index (TypedArray.get arr (size s - 1)))).
  - done.
  - rewrite store_map_keys by done. apply Hwf.
  - apply Forall_forall. intros [k arr] Hin. simpl.
    destruct (last_element s k arr Hwf ltac:(lia) Hin) as (ft & x & _ & -> & Hc).
    unfold TypedArray.set. by rewrite Hc.
Qed.

Lemma after_swapRemove_size s index : size (after_swapRemove index s) = size s - 1.
Proof. unfold after_swapRemove. by destruct (index =? size s - 1). Qed.

Lemma after_swapRemove_schema s index : schema (after_swapRemove index s) = schema s.
Proof. unfold after_swapRemove. by destruct (index =? size s - 1). Qed.

Lemma swapped_wf s index :
  Wf.store s -> 1 <= size s ->
  Wf.store (map_arrays (fun _ arr =>
              TypedArray.set arr index (TypedArray.get arr (size s - 1))) s).
Proof.
  intros Hwf Hsz. apply map_arrays_wf; [done|]. intros ft k arr Hin Hok.
  destruct (last_element s k arr Hwf Hsz Hin) as (ft' & x & _ & -> & Hc).
  by apply (array_ok_write _ (k, ft) arr index (Some x) x).
Qed.

Lemma after_swapRemove_wf s index :
  Wf.store s -> 0 <= index < size s -> Wf.store (after_swapRemove index s).
Proof.
  intros Hwf Hi. pose proof (store_size _ Hwf). unfold after_swapRemove.
  destruct (index =? size s - 1).
  - apply with_size_wf; [done|lia].
  - apply with_size_wf; [apply swapped_wf; [done|lia]|]. simpl. lia.
Qed.

(** The row that was last is now at [index]; the rows before it are as
    they were. *)
Lemma cell_after_swapRemove s index j f :
  Wf.store s -> 0 <= index < size s -> f ∈ schema s -> 0 <= j < size s - 1 ->
  cell (after_swapRemove index s) j f.1
  = cell s (if j =? index then size s - 1 else j) f.1.
Proof.
  intros Hwf Hi Hf Hj. pose proof (store_size _ Hwf).
  destruct (store_field s f Hwf Hf) as (arr & Hg & _ & Hok).
  unfold after_swapRemove. destruct (Z.eqb_spec index (size s - 1)) as [->|Hne].
  - destruct (Z.eqb_spec j (size s - 1)); [lia|].
    unfold cell. simpl. rewrite Hg.
    destruct (Z.ltb_spec j (size s - 1)); [|lia]. destruct (Z.ltb_spec j (size s)); [done|lia].
  - destruct (last_element s f.1 arr Hwf ltac:(lia) (get_Some_elem _ _ _ Hg))
      as (ft & x & _ & Hx & Hc).
    destruct (array_ok_write _ f arr index (Some x) x Hc Hok) as (_ & Hread & Hother).
    pose proof Hok as (_ & _ & Hlen & _). simpl in Hlen.
    assert (Hnd : NoDup (JsMap.keys (typedArrayMap s))).
    { rewrite store_map_keys by done. apply Hwf. }
    pose proof (map_arrays_get (fun _ a => TypedArray.set a index (TypedArray.get a (size s - 1)))
                  s f.1 arr Hnd Hg) as Hg'.
    unfold cell. simpl in *. rewrite Hg', Hg, Hx.
    destruct (Z.ltb_spec j (size s - 1)); [|lia].
    destruct (Z.eqb_spec j index) as [->|Hji].
    + rewrite Hread by lia. destruct (Z.ltb_spec (size s - 1) (size s)); [done|lia].
    + rewrite Hother by done. destruct (Z.ltb_spec j (size s)); [done|lia].
Qed.

Lemma get_after_swapRemove s index j :
  Wf.store s -> 0 <= index < size s -> 0 <= j < size s - 1 ->
  ColumnStore.get (after_swapRemove index s) j
  = ColumnStore.get s (if j =? index then size s - 1 else j).
Proof.
  intros Hwf Hi Hj.
  apply get_cells; [by apply after_swapRemove_wf|done|by apply after_swapRemove_schema|].
  intros f Hf. rewrite after_swapRemove_schema in Hf. by apply cell_after_swapRemove.
Qed.

(** *** [copyFrom] *)

Lemma copy_element s other indexSrc k dst :
  Wf.store s -> Wf.store other -> schema other = schema s ->
  0 <= indexSrc < size other -> (k, dst) ∈ typedArrayMap s ->
  exists src x, JsMap.get (typedArrayMap other) k = Some src
                /\ TypedArray.get src indexSrc = Some x
                /\ convert (kind_of dst) (Some x) = Ok x.
Proof.
  intros Hwf Hwfo Hsch Hi Hin. pose proof (store_size _ Hwfo).
  destruct (store_array s k dst Hwf Hin) as (ft & Hf & _ & (_ & Hkd & _) & _).
  rewrite <- Hsch in Hf.
  destruct (store_field other (k, ft) Hwfo Hf) as (src & Hg & _ & _ & Hks & Hlen & Helems).
  simpl in *. destruct (get_in_range src indexSrc) as [x Hx]; [lia|].
  exists src, x. split; [done|]. split; [done|].
  rewrite Hkd, <- Hks. by eapply get_ok.
Qed.

Lemma copyFrom_spec s other indexTarget indexSrc :
  Wf.store s -> Wf.store other -> schema other = schema s -> 0 <= indexTarget ->
  copyFrom indexTarget other indexSrc s
  = if (indexSrc <? 0) || (size other <=? indexSrc)
    then (grown (indexTarget + 1) s, Throw (RangeError "Source index out of range"))
    else (after_copyFrom indexTarget other indexSrc s, Ok tt).
Proof.
  intros Hwf Hwfo Hsch Hi. unfold copyFrom. unfold bind at 1.
  assert (Hgrow : (if capacity s <=? indexTarget then ensureCapacity (indexTarget + 1) s
                   else (s, Ok tt)) = (grown (indexTarget + 1) s, Ok tt)).
  { destruct (Z.leb_spec (capacity s) indexTarget).
    - by apply ensureCapacity_spec.
    - rewrite grown_same; [done|done|lia]. }
  rewrite Hgrow. pose proof (grown_wf s (indexTarget + 1) Hwf) as Hwf1.
  set (s1 := grown (indexTarget + 1) s) in *.
  destruct ((indexSrc <? 0) || (size other <=? indexSrc)) eqn:Hrange; [done|].
  apply orb_false_iff in Hrange as [H0 H1]. apply Z.ltb_ge in H0. apply Z.leb_gt in H1.
  unfold bind at 1. cbv beta. rewrite <- (store_map_keys s1 Hwf1).
  rewrite (forM_with_array s1 (fun key dst =>
             match JsMap.get (typedArrayMap other) key with
             | Some src => TypedArray.set dst indexTarget (TypedArray.get src indexSrc)
             | None => Throw (Error ("Array for field " ++ key ++ " not found"))
             end)).
  - done.
  - rewrite store_map_keys by done. apply Hwf1.
  - apply Forall_forall. intros [k dst] Hin. simpl.
    destruct (copy_element s1 other indexSrc k dst Hwf1 Hwfo Hsch ltac:(lia) Hin)
      as (src & x & -> & -> & Hc).
    unfold TypedArray.set. by rewrite Hc.
Qed.
End ColumnStoreRemoveCopy.

Section ColumnStoreConstruction.
Import TypedArray ColumnStore Wf Effects.
Implicit Types (s : ColumnStore.t).

(** The store [new ColumnStore(schema, initialCapacity)] makes. *)
Lemma new_loop schema cap (done_ todo : ComponentSchema) s :
  schema = done_ ++ todo -> NoDup (JsMap.keys schema) ->
  typedArrayMap s = map (fun f => (f.1, create (array_kind f.2) cap)) done_ ->
  forM_ (JsMap.keys todo) (fun key =>
    do arr <- lift_result (createArrayForType (schema_get schema key) cap);
    modify (fun s => with_typedArrayMap (JsMap.set (typedArrayMap s) key arr) s)) s
  = (with_typedArrayMap (map (fun f => (f.1, create (array_kind f.2) cap)) schema) s, Ok tt).
Proof.
  revert done_ s. induction todo as [|[k ft] todo IH]; intros done_ s Hsch Hnd Hm; simpl.
  - rewrite app_nil_r in Hsch. subst schema. rewrite <- Hm. by destruct s.
  - assert (Hg : schema_get schema k = Some ft).
    { unfold schema_get. apply elem_get; [done|]. subst schema.
      apply elem_of_app. right. apply elem_of_cons. by left. }
    assert (Hk : k ∉ JsMap.keys (typedArrayMap s)).
    { rewrite Hm, (keys_map_values (fun _ ft => create (array_kind ft) cap)).
      subst schema. unfold JsMap.keys in *. rewrite fmap_app in Hnd.
      apply NoDup_app in Hnd as (_ & Hd & _). intros Hin. apply (Hd k Hin).
      simpl. apply elem_of_cons. by left. }
    unfold bind at 1. unfold bind at 1. unfold lift_result at 1. rewrite Hg. simpl.
    unfold modify at 1. rewrite set_absent by done.
    rewrite (IH (done_ ++ [(k, ft)])); simpl.
    + done.
    + by rewrite <- app_assoc.
    + done.
    + by rewrite Hm, map_app.
Qed.

Lemma new_spec schema initialCapacity :
  NoDup (JsMap.keys schema) ->
  ColumnStore.new schema initialCapacity = Ok (fresh_store schema initialCapacity).
Proof.
  intros Hnd. unfold ColumnStore.new.
  rewrite (new_loop schema _ [] schema); try done.
Qed.

Lemma fresh_store_wf schema initialCapacity :
  NoDup (JsMap.keys schema) -> Wf.store (fresh_store schema initialCapacity).
Proof.
  intros Hnd. split; simpl; [lia|lia|done|].
  apply Forall2_fmap_r. apply Forall_Forall2_diag. apply Forall_forall. intros f _.
  split; [done|]. simpl. split; [done|]. split.
  - unfold TypedArray.length. simpl. rewrite length_replicate. lia.
  - apply Forall_replicate, zero_ok.
Qed.

(** *** A [set] that returns stored every field *)

Lemma forM_with_array_inv s f (done_ todo : JsMap.t string TypedArray.t) s' :
  typedArrayMap s = done_ ++ todo ->
  NoDup (JsMap.keys (done_ ++ todo)) ->
  forM_ (JsMap.keys todo) (fun key => with_array key (f key)) s = (s', Ok tt) ->
  Forall (fun e => is_ok (f e.1 e.2)) todo.
Proof.
  revert s done_. induction todo as [|[k a] todo IH]; intros s done_ Hm Hnd Hrun; [done|].
  simpl in Hrun.
  assert (Hk : k ∉ JsMap.keys done_).
  { unfold JsMap.keys in *. rewrite fmap_app in Hnd. apply NoDup_app in Hnd as (_ & Hd & _).
    intros Hin. apply (Hd k Hin). simpl. apply elem_of_cons. by left. }
  unfold bind, with_array at 1 in Hrun. rewrite Hm, get_middle in Hrun by done.
  destruct (f k a) as [a'| |] eqn:Hf; [|done|done]. simpl in Hrun.
  rewrite set_middle in Hrun by done. constructor; [simpl; by rewrite Hf|].
  apply (IH (with_typedArrayMap (done_ ++ (k, a') :: todo) s) (done_ ++ [(k, a')])); simpl.
  - by rewrite <- app_assoc.
  - unfold JsMap.keys in *. rewrite <- app_assoc. simpl. by rewrite fmap_app in *.
  - done.
Qed.

Lemma set_Ok_storable s index value s' :
  Wf.store s -> 0 <= index ->
  ColumnStore.set index value s = (s', Ok tt) -> storable (schema s) value = true.
Proof.
  intros Hwf Hi. unfold ColumnStore.set.
  destruct (Z.ltb_spec index 0); [lia|]. unfold bind at 1.
  assert (Hgrow : (if capacity s <=? index then ensureCapacity (index + 1) s else (s, Ok tt))
                  = (grown (index + 1) s, Ok tt)).
  { destruct (Z.leb_spec (capacity s) index).
    - by apply ensureCapacity_spec.
    - rewrite grown_same; [done|done|lia]. }
  rewrite Hgrow. pose proof (grown_wf s (index + 1) Hwf) as Hwf1.
  set (s1 := grown (index + 1) s) in *. unfold bind at 1. cbv beta.
  destruct (forM_ _ _ s1) as [s2 [[]| |]] eqn:Hloop; [|done|done]. intros _.
  rewrite <- (store_map_keys s1 Hwf1) in Hloop.
  apply (forM_with_array_inv s1 (write_field index value) []) in Hloop;
    [|done|cbn [app]; rewrite store_map_keys by done; apply Hwf1].
  unfold storable. apply forallb_forall. intros f Hf. apply list_elem_of_In in Hf.
  apply bool_decide_eq_true.
  destruct (store_field s1 f Hwf1 Hf) as (arr & Hg & _ & _ & Hkind & _).
  rewrite Forall_forall in Hloop. specialize (Hloop _ (get_Some_elem _ _ _ Hg)).
  simpl in *. unfold write_field, field_elem in *.
  destruct (raw_element _ _) as [y| |]; simpl in *; [|done|done].
  unfold TypedArray.set in Hloop. rewrite Hkind in Hloop.
  destruct (convert _ _); [by eexists|done|done].
Qed.

End ColumnStoreConstruction.

(** *** [get] outside the rows *)

Section ColumnStoreEdges.
Import TypedArray ColumnStore Wf Effects.
Implicit Types (s : ColumnStore.t).

Lemma get_beyond_size s index :
  Wf.store s -> size s <= index ->
  ColumnStore.get s index = Ok (default_record (schema s)).
Proof.
  intros Hwf Hi. rewrite get_spec by done. apply collect_Ok. intros f Hf.
  destruct (store_field s f Hwf Hf) as (arr & Hg & _). unfold cell. rewrite Hg.
  destruct (Z.ltb_spec index (size s)); [lia|]. by destruct f as [k []].
Qed.

Lemma cell_negative s index f :
  Wf.store s -> f ∈ schema s -> index < 0 -> cell s index f.1 = None.
Proof.
  intros Hwf Hf Hi. destruct (store_field s f Hwf Hf) as (arr & Hg & _).
  unfold cell. rewrite Hg. pose proof (store_size _ Hwf).
  destruct (Z.ltb_spec index (size s)); [|lia].
  unfold TypedArray.get. by destruct (Z.ltb_spec index 0); [|lia].
Qed.

Lemma collect_Throw {A B} (f : A -> result B) (e : error) l :
  (forall x, x ∈ l -> is_ok (f x) \/ f x = Throw e) ->
  (exists x, x ∈ l /\ f x = Throw e) ->
  collect f l = Throw e.
Proof.
  induction l as [|x l IH]; intros Hall (y & Hy & Hthrow).
  - by apply elem_of_nil in Hy.
  - simpl. destruct (Hall x) as [Hok|Hx]; [apply elem_of_cons; by left| |by rewrite Hx].
    destruct (f x) as [b| |] eqn:Hfx; try done. simpl.
    rewrite IH; [done| |].
    + intros z Hz. apply Hall. apply elem_of_cons. by right.
    + apply elem_of_cons in Hy as [->|Hy]; [congruence|]. by exists y.
Qed.
End ColumnStoreEdges.

(** *** The row [copyFrom] writes *)

Section ColumnStoreCopy.
Import TypedArray ColumnStore Wf Effects.
Implicit Types (s : ColumnStore.t).

Lemma after_copyFrom_size s other indexTarget indexSrc :
  size (after_copyFrom indexTarget other indexSrc s) = Z.max (size s) (indexTarget + 1).
Proof.
  unfold after_copyFrom. simpl. destruct (Z.leb_spec (size s) indexTarget); simpl; lia.
Qed.

Lemma after_copyFrom_schema s other indexTarget indexSrc :
  schema (after_copyFrom indexTarget other indexSrc s) = schema s.
Proof. unfold after_copyFrom. simpl. by destruct (size s <=? indexTarget). Qed.

Lemma after_copyFrom_capacity s other indexTarget indexSrc :
  capacity (after_copyFrom indexTarget other indexSrc s)
  = next_capacity (capacity s) (indexTarget + 1).
Proof. unfold after_copyFrom. simpl. by destruct (size s <=? indexTarget). Qed.

Lemma after_copyFrom_wf s other indexTarget indexSrc :
  Wf.store s -> Wf.store other -> schema other = schema s ->
  0 <= indexTarget -> 0 <= indexSrc < size other ->
  Wf.store (after_copyFrom indexTarget other indexSrc s).
Proof.
  intros Hwf Hwfo Hsch Hi Hsrc. pose proof (grown_wf s (indexTarget + 1) Hwf) as Hwf1.
  unfold after_copyFrom. cbv zeta.
  match goal with |- Wf.store (if _ then with_size _ ?s2 else _) =>
    assert (Hwf2 : Wf.store s2) end.
  { apply map_arrays_wf; [done|]. intros ft k dst Hin Hok.
    destruct (copy_element _ other indexSrc k dst Hwf1 Hwfo Hsch Hsrc Hin)
      as (src & x & -> & -> & Hc).
    by apply (array_ok_write _ (k, ft) dst indexTarget (Some x) x). }
  destruct (next_capacity_ge (capacity s) (indexTarget + 1) (store_capacity _ Hwf)).
  match goal with |- Wf.store (if ?b then _ else _) => destruct b end; [|done].
  apply with_size_wf; [done|]. simpl. lia.
Qed.

Lemma cell_after_copyFrom s other indexTarget indexSrc f :
  Wf.store s -> Wf.store other -> schema other = schema s ->
  0 <= indexTarget -> 0 <= indexSrc < size other -> f ∈ schema s ->
  cell (after_copyFrom indexTarget other indexSrc s) indexTarget f.1 = cell other indexSrc f.1
  /\ forall j, j ≠ indexTarget -> j < size s ->
       cell (after_copyFrom indexTarget other indexSrc s) j f.1 = cell s j f.1.
Proof.
  intros Hwf Hwfo Hsch Hi Hsrc Hf.
  pose proof (grown_wf s (indexTarget + 1) Hwf) as Hwf1.
  destruct (next_capacity_ge (capacity s) (indexTarget + 1) (store_capacity _ Hwf)) as [Hc1 Hc2].
  destruct (store_field _ f Hwf1 Hf) as (dst & Hg & _ & Hok).
  destruct (copy_element _ other indexSrc f.1 dst Hwf1 Hwfo Hsch Hsrc (get_Some_elem _ _ _ Hg))
    as (src & x & Hgo & Hx & Hc).
  destruct (array_ok_write _ f dst indexTarget (Some x) x Hc Hok) as (_ & Hread & Hother).
  assert (Hcell : forall j,
            cell (after_copyFrom indexTarget other indexSrc s) j f.1
            = if j <? Z.max (size s) (indexTarget + 1)
              then TypedArray.get (from_ok dst (TypedArray.set dst indexTarget (Some x))) j
              else Some (Num (Finite 0 0))).
  { intros j. unfold cell. rewrite after_copyFrom_size.
    replace (JsMap.get (typedArrayMap (after_copyFrom indexTarget other indexSrc s)) f.1)
      with (Some (from_ok dst (TypedArray.set dst indexTarget (Some x)))); [done|].
    symmetry. unfold after_copyFrom. cbv zeta.
    match goal with |- JsMap.get (typedArrayMap (if _ then with_size _ ?s2 else _)) _ = _ =>
      assert (Hs2 : JsMap.get (typedArrayMap s2) f.1
                    = Some (from_ok dst (TypedArray.set dst indexTarget (Some x)))) end.
    { rewrite (map_arrays_get _ _ _ dst
                 (eq_ind_r (fun l => NoDup l) (store_keys _ Hwf1) (store_map_keys _ Hwf1)) Hg).
      by rewrite Hgo, Hx. }
    by destruct (_ <=? indexTarget). }
  split.
  - rewrite Hcell. destruct (Z.ltb_spec indexTarget (Z.max (size s) (indexTarget + 1))); [|lia].
    rewrite Hread by (simpl; lia). unfold cell. rewrite Hgo.
    destruct (Z.ltb_spec indexSrc (size other)); [done|lia].
  - intros j Hj Hlt. rewrite Hcell.
    destruct (Z.ltb_spec j (Z.max (size s) (indexTarget + 1))); [|lia].
    rewrite Hother by done. rewrite <- (cell_grown s (indexTarget + 1)) by done.
    unfold cell. rewrite Hg. simpl. destruct (Z.ltb_spec j (size s)); [done|lia].
Qed.

Lemma get_after_copyFrom s other indexTarget indexSrc :
  Wf.store s -> Wf.store other -> schema other = schema s ->
  0 <= indexTarget -> 0 <= indexSrc < size other ->
  ColumnStore.get (after_copyFrom indexTarget other indexSrc s) indexTarget
  = ColumnStore.get other indexSrc
  /\ forall j, j ≠ indexTarget -> j < size s ->
       ColumnStore.get (after_copyFrom indexTarget other indexSrc s) j = ColumnStore.get s j.
Proof.
  intros Hwf Hwfo Hsch Hi Hsrc.
  pose proof (after_copyFrom_wf s other indexTarget indexSrc Hwf Hwfo Hsch Hi Hsrc) as Hwf'.
  split.
  - apply get_cells; [done|done|by rewrite after_copyFrom_schema|].
    intros f Hf. rewrite after_copyFrom_schema in Hf.
    by apply cell_after_copyFrom.
  - intros j Hj Hlt. apply get_cells; [done|done|by rewrite after_copyFrom_schema|].
    intros f Hf. rewrite after_copyFrom_schema in Hf.
    by apply cell_after_copyFrom.
Qed.
End ColumnStoreCopy.

(** *** A [set] that throws *)

Section ColumnStoreFailure.
Import TypedArray ColumnStore Wf Effects.
Implicit Types (s : ColumnStore.t).

Lemma Forall2_set {X} (P : X -> string * TypedArray.t -> Prop) l
    (m : JsMap.t string TypedArray.t) k arr' :
  Forall2 P l m ->
  (forall x arr, (k, arr) ∈ m -> P x (k, arr) -> P x (k, arr')) ->
  k ∈ JsMap.keys m ->
  Forall2 P l (JsMap.set m k arr').
Proof.
  intros Hall. induction Hall as [|x [k0 a0] l m Hx Hall IH]; intros Hstep Hin.
  - by apply elem_of_nil in Hin.
  - simpl. destruct (decide (k0 = k)) as [->|Hne].
    + constructor; [|done]. apply (Hstep x a0); [apply elem_of_cons; by left|done].
    + constructor; [done|]. apply IH.
      * intros y arr Hy. apply Hstep. apply elem_of_cons. by right.
      * simpl in Hin. apply elem_of_cons in Hin as [?|?]; [congruence|done].
Qed.

(** Whatever the loop of [set] does before it stops, the store stays well
    formed and the other rows stay as they are. *)
Lemma write_loop_frame (index : Z) (value : object) s0 : forall keys s,
  Wf.store s -> size s = size s0 -> schema s = schema s0 -> capacity s = capacity s0 ->
  (forall j key, j ≠ index -> cell s j key = cell s0 j key) ->
  exists s' r,
    forM_ keys (fun key =>
      with_array key (fun arr =>
        result_bind (raw_element key (prop_get value key)) (fun x =>
          TypedArray.set arr index (Some x)))) s = (s', r)
    /\ r ≠ Diverge
    /\ Wf.store s' /\ size s' = size s0 /\ schema s' = schema s0
    /\ capacity s' = capacity s0
    /\ forall j key, j ≠ index -> cell s' j key = cell s0 j key.
Proof.
  induction keys as [|k keys IH]; intros s Hwf Hsz Hsch Hcap Hcells.
  - exists s, (Ok tt). split; [done|]. split; [done|]. by repeat (split; [done|]).
  - simpl. unfold bind at 1. unfold with_array at 1.
    destruct (JsMap.get (typedArrayMap s) k) as [arr|] eqn:Hg.
    2: { eexists _, _. split; [done|]. split; [done|]. by repeat (split; [done|]). }
    destruct (raw_element k (prop_get value k)) as [y| |] eqn:Hraw; simpl.
    2: { eexists _, _. split; [done|]. split; [done|]. by repeat (split; [done|]). }
    2: { unfold raw_element in Hraw. destruct (prop_get value k); try done.
         by destruct (_ || _). }
    unfold TypedArray.set.
    destruct (convert (kind_of arr) (Some y)) as [x| |] eqn:Hc; simpl.
    2: { eexists _, _. split; [done|]. split; [done|]. by repeat (split; [done|]). }
    2: { unfold convert in Hc. by destruct (is_bigint (kind_of arr)), y. }
    match goal with |- context [JsMap.set _ k ?a] => set (arr' := a) end.
    assert (Harr' : arr' = from_ok arr (TypedArray.set arr index (Some y))).
    { unfold TypedArray.set. by rewrite Hc. }
    apply IH; simpl; try done.
    + split; simpl; [apply Hwf|apply Hwf|apply Hwf|].
      apply Forall2_set; [apply Hwf| |].
      * intros f a Hin Hok.
        assert (a = arr) as ->.
        { pose proof (elem_get _ _ _ (eq_ind_r (fun l => NoDup l) (store_keys _ Hwf)
                                        (store_map_keys _ Hwf)) Hin). congruence. }
        pose proof (array_ok_key _ _ _ Hok) as Hk. simpl in Hk. subst k.
        rewrite Harr'. by apply (array_ok_write _ f arr index (Some y) x).
      * apply get_Some_elem in Hg. by apply (list_elem_of_fmap_2 fst _ (k, arr)).
    + intros j key Hj. rewrite <- Hcells by done. unfold cell. simpl.
      destruct (decide (key = k)) as [->|Hne].
      * rewrite get_set_eq, Hg. destruct (j <? size s); [|done].
        rewrite Harr'. unfold TypedArray.set. rewrite Hc. simpl.
        destruct ((0 <=? index) && (index <? TypedArray.length arr)) eqn:Hr; [|done].
        apply andb_true_iff in Hr as [Hr _]. apply Z.leb_le in Hr.
        unfold TypedArray.get. simpl. destruct (j <? 0) eqn:Hj0; [done|].
        apply Z.ltb_ge in Hj0. apply list_lookup_insert_ne. lia.
      * by rewrite get_set_ne.
Qed.
End ColumnStoreFailure.

(** ** Sorting *)

Section Sorting.
Context {A : Type} (compareFn : A -> A -> Z).
Implicit Types (l : list A).

Lemma sort_insert_perm x l : sort_insert compareFn x l ≡ₚ x :: l.
Proof.
  induction l as [|y l IH]; simpl; [done|].
  destruct (compareFn x y <=? 0); [done|]. rewrite IH. apply Permutation_swap.
Qed.

Lemma sort_perm l : sort compareFn l ≡ₚ l.
Proof.
  induction l as [|x l IH]; simpl; [done|]. by rewrite sort_insert_perm, IH.
Qed.

Hypothesis total : forall x y, before compareFn x y \/ before compareFn y x.

Lemma sort_insert_sorted x l : Sorted (before compareFn) l -> Sorted (before compareFn) (sort_insert compareFn x l).
Proof.
  induction l as [|y l IH]; simpl; intros Hs.
  - by repeat constructor.
  - destruct (Z.leb_spec (compareFn x y) 0) as [Hle|Hgt].
    + constructor; [done|]. by constructor.
    + apply Sorted_inv in Hs as [Hs Hhd]. constructor; [by apply IH|].
      assert (Hyx : before compareFn y x) by (destruct (total x y); unfold before in *; [lia|done]).
      destruct l as [|z l]; simpl.
      * by constructor.
      * destruct (compareFn x z <=? 0); constructor; [done|]. by inversion Hhd.
Qed.

Lemma sort_sorted l : Sorted (before compareFn) (sort compareFn l).
Proof. induction l as [|x l IH]; simpl; [constructor|by apply sort_insert_sorted]. Qed.

(** A sorted array is left as it is. *)
Lemma sort_of_sorted l : Sorted (before compareFn) l -> sort compareFn l = l.
Proof.
  induction l as [|x l IH]; simpl; intros Hs; [done|].
  apply Sorted_inv in Hs as [Hs Hhd]. rewrite IH by done.
  destruct Hhd as [|y l Hxy]; simpl; [done|].
  unfold before in Hxy. by destruct (Z.leb_spec (compareFn x y) 0); [|lia].
Qed.
End Sorting.

Lemma sort_map {A B} (f : A -> B) (compareFn : B -> B -> Z) (l : list A) :
  map f (sort (fun a b => compareFn (f a) (f b)) l) = sort compareFn (map f l).
Proof.
  induction l as [|x l IH]; simpl; [done|]. rewrite <- IH.
  generalize (sort (fun a b => compareFn (f a) (f b)) l). intros l'.
  induction l' as [|y l' IH']; simpl; [done|].
  destruct (compareFn (f x) (f y) <=? 0); simpl; [done|]. by rewrite IH'.
Qed.


Section Collation.
Context `{CollationOrder}.

#[local] Instance before_trans : Transitive (before localeCompare).
Proof. intros a b c. apply localeCompare_trans. Qed.



End Collation.

(** ** Archetype *)

Section ArchetypeLemmas.
Import ColumnStore ComponentConstructor Wf Effects.
Implicit Types (a : Archetype.t) (c : ComponentConstructor.t).

Lemma store_for_key rows c e : store_for rows c e -> e.1 = typeId c.
Proof. by intros [? _]. Qed.

Lemma archetype_store_keys a :
  Wf.archetype a -> JsMap.keys (Archetype.stores a) = Archetype.typeIds a.
Proof.
  intros Hwf. rewrite (archetype_typeIds _ Hwf).
  eapply aligned_keys; [apply store_for_key|apply Hwf].
Qed.

Lemma archetype_ctor_ids a : Wf.archetype a -> NoDup (map typeId (Archetype.ctors a)).
Proof. intros Hwf. rewrite <- (archetype_typeIds _ Hwf). apply Hwf. Qed.

(** The store of a component type of the archetype. *)
Lemma archetype_store a c :
  Wf.archetype a -> c ∈ Archetype.ctors a ->
  exists st, JsMap.get (Archetype.stores a) (typeId c) = Some st
             /\ store_for (Archetype.size a) c (typeId c, st).
Proof.
  intros Hwf Hin.
  apply (aligned_get_l typeId _ (store_for_key (Archetype.size a)) _ _ c
           (archetype_stores _ Hwf) (archetype_ctor_ids _ Hwf) Hin).
Qed.

Lemma archetype_store_by_id a id :
  Wf.archetype a -> id ∈ Archetype.typeIds a ->
  exists c st, c ∈ Archetype.ctors a /\ typeId c = id
               /\ JsMap.get (Archetype.stores a) id = Some st
               /\ store_for (Archetype.size a) c (id, st).
Proof.
  intros Hwf Hin. rewrite (archetype_typeIds _ Hwf) in Hin.
  apply list_elem_of_fmap in Hin as (c & -> & Hc).
  destruct (archetype_store a c Hwf Hc) as (st & Hg & Hst). by exists c, st.
Qed.

Lemma archetype_no_store a id :
  Wf.archetype a -> id ∉ Archetype.typeIds a -> JsMap.get (Archetype.stores a) id = None.
Proof. intros Hwf Hid. apply get_None. by rewrite archetype_store_keys. Qed.

(** A loop over the component types that calls a method of every
    store. *)
Lemma forM_with_store_from a cs (done_ todo : JsMap.t string ColumnStore.t)
    (F : ComponentConstructor.t -> M ColumnStore.t unit)
    (G : ComponentConstructor.t -> ColumnStore.t -> ColumnStore.t) :
  Archetype.stores a = done_ ++ todo ->
  NoDup (JsMap.keys (done_ ++ todo)) ->
  Forall2 (fun c e => e.1 = typeId c /\ F c e.2 = (G c e.2, Ok tt)) cs todo ->
  forM_ cs (fun c => Archetype.with_store (typeId c) (F c)) a
  = (Archetype.with_stores (done_ ++ zip_with (fun c e => (e.1, G c e.2)) cs todo) a, Ok tt).
Proof.
  intros Hm Hnd HF. revert a done_ Hm Hnd.
  induction HF as [|c [k st] cs todo [Hk HFc] HF IH]; intros a done_ Hm Hnd; simpl.
  - rewrite app_nil_r in *. unfold ret. destruct a; simpl in *. by subst.
  - simpl in Hk, HFc. subst k.
    assert (Hk : typeId c ∉ JsMap.keys done_).
    { unfold JsMap.keys in *. rewrite fmap_app in Hnd. apply NoDup_app in Hnd as (_ & Hd & _).
      intros Hin. apply (Hd _ Hin). simpl. apply elem_of_cons. by left. }
    unfold bind, Archetype.with_store at 1. rewrite Hm, get_middle by done.
    rewrite HFc. rewrite set_middle by done.
    rewrite (IH _ (done_ ++ [(typeId c, G c st)])); simpl.
    + by rewrite <- app_assoc.
    + by rewrite <- app_assoc.
    + unfold JsMap.keys in *. rewrite <- app_assoc. simpl. by rewrite fmap_app in *.
Qed.

(** *** [new Archetype(ctors)] *)

Lemma new_archetype_loop (sorted done_ todo : list ComponentConstructor.t) a :
  sorted = done_ ++ todo -> NoDup (map typeId sorted) ->
  Forall (fun c => NoDup (JsMap.keys (schema c))) todo ->
  Archetype.stores a
  = map (fun c => (typeId c, fresh_store (schema c) Archetype.DEFAULT_CAPACITY)) done_ ->
  forM_ todo (fun c =>
    do store <- lift_result (ColumnStore.new (schema c) Archetype.DEFAULT_CAPACITY);
    modify (fun a => Archetype.with_stores (JsMap.set (Archetype.stores a) (typeId c) store) a)) a
  = (Archetype.with_stores
       (map (fun c => (typeId c, fresh_store (schema c) Archetype.DEFAULT_CAPACITY)) sorted) a,
     Ok tt).
Proof.
  revert done_ a. induction todo as [|c todo IH]; intros done_ a Hs Hnd Hsch Hm; simpl.
  - rewrite app_nil_r in Hs. subst sorted. rewrite <- Hm. by destruct a.
  - apply Forall_cons in Hsch as [Hc Hsch].
    assert (Hk : typeId c ∉ JsMap.keys (Archetype.stores a)).
    { rewrite Hm. unfold JsMap.keys. rewrite map_map. simpl.
      subst sorted. rewrite fmap_app in Hnd. apply NoDup_app in Hnd as (_ & Hd & _).
      intros Hin. apply (Hd _ Hin). simpl. apply elem_of_cons. by left. }
    unfold bind at 1. unfold bind at 1. unfold lift_result at 1.
    rewrite new_spec by done. unfold modify at 1. rewrite set_absent by done.
    rewrite (IH (done_ ++ [c])
               (Archetype.with_stores
                  (Archetype.stores a
                   ++ [(typeId c, fresh_store (schema c) Archetype.DEFAULT_CAPACITY)]) a));
      [by destruct a|by rewrite <- app_assoc|done|done|].
    simpl. by rewrite Hm, map_app.
Qed.

Lemma new_archetype_spec `{Collation} (ctors : list ComponentConstructor.t) :
  NoDup (map typeId ctors) -> Forall (fun c => NoDup (JsMap.keys (schema c))) ctors ->
  Archetype.new ctors = Ok (fresh_archetype (sort by_typeId ctors)).
Proof.
  intros Hnd Hsch. unfold Archetype.new.
  change (fun x y : ComponentConstructor.t => localeCompare (typeId x) (typeId y)) with by_typeId.
  rewrite (new_archetype_loop (sort by_typeId ctors) [] (sort by_typeId ctors)
             {| Archetype.typeIds := map typeId (sort by_typeId ctors);
                Archetype.ctors := sort by_typeId ctors;
                Archetype.entityIds := [];
                Archetype.indexByEntity := JsMap.empty;
                Archetype.stores := JsMap.empty |}); [done|done| | |done].
  - by rewrite sort_perm.
  - by rewrite sort_perm.
Qed.

Lemma fresh_archetype_wf (sorted : list ComponentConstructor.t) :
  NoDup (map typeId sorted) -> Forall (fun c => NoDup (JsMap.keys (schema c))) sorted ->
  Wf.archetype (fresh_archetype sorted).
Proof.
  intros Hnd Hsch. split; simpl; [done|done| |done].
  apply Forall2_fmap_r. apply Forall_Forall2_diag.
  eapply Forall_impl; [apply Hsch|]. intros c Hc.
  split; [done|]. split; [done|]. split; [by apply fresh_store_wf|done].
Qed.
End ArchetypeLemmas.

Section ArchetypeAdd.
Import ColumnStore ComponentConstructor Wf Effects.
Implicit Types (a : Archetype.t) (c : ComponentConstructor.t).

Lemma Forall2_and_l {X Y} (P : X -> Y -> Prop) (Q : X -> Prop) l1 l2 :
  Forall2 P l1 l2 -> Forall Q l1 -> Forall2 (fun x y => P x y /\ Q x) l1 l2.
Proof.
  induction 1 as [|x y l1 l2 HP _ IH]; intros HQ; [constructor|].
  apply Forall_cons in HQ as [Hx HQ]. constructor; [done|by apply IH].
Qed.

Lemma Forall2_zip_with {X Y Z'} (P : X -> Y -> Prop) (P' : X -> Z' -> Prop) (h : X -> Y -> Z')
    l1 l2 :
  Forall2 P l1 l2 -> (forall x y, P x y -> P' x (h x y)) -> Forall2 P' l1 (zip_with h l1 l2).
Proof.
  intros HF Himp. induction HF as [|x y l1 l2 HP _ IH]; simpl; [constructor|].
  constructor; [by apply Himp|done].
Qed.

Lemma get_zip_with {V} (G : ComponentConstructor.t -> V -> V) cs (m : JsMap.t string V) c v :
  Forall2 (fun c e => e.1 = typeId c) cs m -> NoDup (map typeId cs) -> c ∈ cs ->
  JsMap.get m (typeId c) = Some v ->
  JsMap.get (zip_with (fun c e => (e.1, G c e.2)) cs m) (typeId c) = Some (G c v).
Proof.
  induction 1 as [|c0 [k v0] cs m Hk _ IH]; simpl; intros Hnd Hin Hg.
  - by apply elem_of_nil in Hin.
  - simpl in Hk. subst k. apply NoDup_cons in Hnd as [Hc0 Hnd].
    apply elem_of_cons in Hin as [->|Hin].
    + rewrite decide_True in * by done. by injection Hg as ->.
    + assert (Hne : typeId c0 ≠ typeId c).
      { intros Heq. apply Hc0. rewrite Heq. by apply list_elem_of_fmap_2. }
      rewrite decide_False in * by done. by apply IH.
Qed.

Lemma get_map_values {V} (G : V -> V) (m : JsMap.t string V) k :
  JsMap.get (map (fun e => (e.1, G e.2)) m) k = G <$> JsMap.get m k.
Proof.
  induction m as [|[k' v] m IH]; simpl; [done|]. by destruct (decide (k' = k)).
Qed.

Lemma archetype_stores_keyed a :
  Wf.archetype a -> Forall2 (fun c e => e.1 = typeId c) (Archetype.ctors a) (Archetype.stores a).
Proof.
  intros Hwf. eapply Forall2_impl; [apply Hwf|]. intros c e. apply store_for_key.
Qed.

(** *** [addEntity] *)

Lemma size_nonneg a : 0 <= Archetype.size a.
Proof. unfold Archetype.size. lia. Qed.

Lemma addEntity_spec a entity componentValues :
  Wf.archetype a -> all_storable componentValues a ->
  Archetype.addEntity entity componentValues a
  = (after_addEntity entity componentValues a, Ok tt).
Proof.
  intros Hwf Hst. unfold Archetype.addEntity, bind, modify.
  rewrite (forM_with_store_from _ (Archetype.ctors a) [] (Archetype.stores a) _
             (fun c st => after_set (Archetype.size a) (component_value componentValues c) st)).
  - done.
  - done.
  - simpl. rewrite archetype_store_keys by done. apply Hwf.
  - eapply Forall2_impl; [apply (Forall2_and_l _ _ _ _ (archetype_stores _ Hwf) Hst)|].
    intros c [k st] [(Hk & Hsch & Hwfs & Hsz) Hc]. simpl in *. split; [done|].
    fold (Archetype.size a).
    replace (match JsMap.get componentValues (typeId c) with
             | Some compRaw => ColumnStore.set (Archetype.size a) compRaw
             | None => ColumnStore.set (Archetype.size a) (construct c)
             end) with (ColumnStore.set (Archetype.size a) (component_value componentValues c)).
    + apply set_spec; [done|apply size_nonneg|by rewrite Hsch].
    + unfold component_value. by destruct (JsMap.get _ _).
Qed.

Lemma after_addEntity_size a entity componentValues :
  Archetype.size (after_addEntity entity componentValues a) = Archetype.size a + 1.
Proof. unfold Archetype.size. simpl. rewrite length_app. simpl. lia. Qed.

Lemma index_sound_add a entity componentValues :
  index_sound a -> index_sound (after_addEntity entity componentValues a).
Proof.
  intros Hs e i. simpl. destruct (decide (entity = e)) as [->|Hne].
  - rewrite get_set_eq. intros [= <-]. split; [apply size_nonneg|].
    unfold Archetype.size. rewrite Nat2Z.id. by apply list_lookup_middle.
  - rewrite get_set_ne by done. intros Hg. destruct (Hs e i Hg) as [Hi Hl].
    split; [done|]. by apply lookup_app_l_Some.
Qed.

Lemma index_complete_add a entity componentValues :
  index_complete a -> entity ∉ Archetype.entityIds a ->
  index_complete (after_addEntity entity componentValues a).
Proof.
  intros Hc Hnew i e. simpl. intros Hl. apply lookup_app_Some in Hl as [Hl|[Hlen Hl]].
  - rewrite get_set_ne; [by apply Hc|]. intros ->. apply Hnew. by eapply list_elem_of_lookup_2.
  - apply list_lookup_singleton_Some in Hl as [Hi <-]. rewrite get_set_eq.
    unfold Archetype.size. do 2 f_equal. lia.
Qed.

Lemma after_addEntity_wf a entity componentValues :
  Wf.archetype a -> all_storable componentValues a ->
  Wf.archetype (after_addEntity entity componentValues a).
Proof.
  intros Hwf Hst. split; [apply Hwf|apply Hwf| |by apply index_sound_add, Hwf].
  rewrite after_addEntity_size. simpl.
  apply (Forall2_zip_with
           (fun c e => store_for (Archetype.size a) c e
                       /\ storable (schema c) (component_value componentValues c) = true)).
  - by apply Forall2_and_l; [apply Hwf|].
  - intros c [k st] [(Hk & Hsch & Hwfs & Hsz) Hc]. simpl in *.
    split; [done|]. simpl. split; [by rewrite after_set_schema|].
    split; [apply after_set_wf; [done|apply size_nonneg|by rewrite Hsch]|].
    rewrite after_set_size. lia.
Qed.

Lemma after_addEntity_store a entity componentValues c st :
  Wf.archetype a -> c ∈ Archetype.ctors a ->
  JsMap.get (Archetype.stores a) (typeId c) = Some st ->
  JsMap.get (Archetype.stores (after_addEntity entity componentValues a)) (typeId c)
  = Some (after_set (Archetype.size a) (component_value componentValues c) st).
Proof.
  intros Hwf Hc Hg. simpl.
  apply (get_zip_with (fun c st => after_set (Archetype.size a) (component_value componentValues c) st));
    [by apply archetype_stores_keyed|by apply archetype_ctor_ids|done|done].
Qed.

(** What the new row and the old rows read as. *)
Lemma getComponentAt_after_add a entity componentValues c :
  Wf.archetype a -> all_storable componentValues a -> c ∈ Archetype.ctors a ->
  Archetype.getComponentAt (after_addEntity entity componentValues a) c (Archetype.size a)
  = Ok (map (fun f => (f.1, stored_value (component_value componentValues c) f)) (schema c))
  /\ forall j, j < Archetype.size a ->
       Archetype.getComponentAt (after_addEntity entity componentValues a) c j
       = Archetype.getComponentAt a c j.
Proof.
  intros Hwf Hst Hc. destruct (archetype_store a c Hwf Hc) as (st & Hg & _ & Hsch & Hwfs & Hsz).
  simpl in *. unfold Archetype.getComponentAt.
  rewrite (after_addEntity_store a entity componentValues c st Hwf Hc Hg), Hg.
  unfold all_storable in Hst. rewrite Forall_forall in Hst.
  specialize (Hst c Hc).
  rewrite <- Hsch in *. split.
  - apply get_after_set; [done|apply size_nonneg|done].
  - intros j Hj. apply get_after_set_other; [done|apply size_nonneg|done|lia|lia].
Qed.
End ArchetypeAdd.

Section ArchetypeRemove.
Import ColumnStore ComponentConstructor Wf Effects.
Implicit Types (a : Archetype.t) (c : ComponentConstructor.t).

Lemma each_store_spec (f : M ColumnStore.t unit) (g : ColumnStore.t -> ColumnStore.t)
    (l : JsMap.t string ColumnStore.t) :
  Forall (fun e => f e.2 = (g e.2, Ok tt)) l ->
  Archetype.each_store f l = (map (fun e => (e.1, g e.2)) l, Ok tt).
Proof.
  induction 1 as [|[k st] l Hf _ IH]; simpl; [done|]. simpl in Hf. by rewrite Hf, IH.
Qed.

(** The rows after a swap-remove at [idx]. *)
Lemma lookup_swap_remove (ids : list Entity) (idx : nat) (le : Entity) (j : nat) :
  (idx < length ids)%nat ->
  removelast (<[idx := le]> ids) !! j
  = if decide (j < length ids - 1)%nat
    then (if decide (j = idx) then Some le else ids !! j)
    else None.
Proof.
  intros Hidx.
  assert (Hrl : forall l : list Entity, removelast l = take (length l - 1) l).
  { induction l as [|x [|y l] IH]; simpl in *; [done|done|].
    rewrite IH. simpl. by rewrite Nat.sub_0_r. }
  rewrite Hrl, length_insert. destruct (decide (j < length ids - 1)%nat) as [Hj|Hj].
  - rewrite lookup_take_lt by done. destruct (decide (j = idx)) as [->|Hne].
    + by rewrite list_lookup_insert_eq.
    + by rewrite list_lookup_insert_ne.
  - apply lookup_take_ge. lia.
Qed.

Lemma length_swap_remove (ids : list Entity) (idx : nat) (le : Entity) :
  length (removelast (<[idx := le]> ids)) = (length ids - 1)%nat.
Proof.
  assert (Hrl : forall l : list Entity, length (removelast l) = (length l - 1)%nat).
  { induction l as [|x [|y l] IH]; simpl in *; [done|done|]. rewrite IH. lia. }
  by rewrite Hrl, length_insert.
Qed.

(** *** [removeEntity] *)

Lemma indexed_row a entity idx :
  Wf.archetype a -> JsMap.get (Archetype.indexByEntity a) entity = Some idx ->
  0 <= idx < Archetype.size a /\ Archetype.entityIds a !! Z.to_nat idx = Some entity.
Proof.
  intros Hwf Hg. destruct (archetype_index _ Hwf _ _ Hg) as [H0 Hl].
  split; [|done]. apply lookup_lt_Some in Hl. unfold Archetype.size. lia.
Qed.

Lemma removeEntity_spec a entity idx :
  Wf.archetype a -> JsMap.get (Archetype.indexByEntity a) entity = Some idx ->
  exists lastEntity,
    Archetype.entityIds a !! Z.to_nat (Archetype.size a - 1) = Some lastEntity
    /\ Archetype.removeEntity entity a
       = (after_removeEntity entity idx lastEntity a, Ok tt).
Proof.
  intros Hwf Hg. destruct (indexed_row a entity idx Hwf Hg) as [Hi Hrow].
  destruct (lookup_lt_is_Some_2 (Archetype.entityIds a) (Z.to_nat (Archetype.size a - 1)))
    as [le Hle]; [unfold Archetype.size in *; lia|].
  exists le. split; [done|].
  unfold Archetype.removeEntity. rewrite Hg. fold (Archetype.size a).
  destruct (Z.ltb_spec (Archetype.size a - 1) 0); [lia|]. rewrite Hle.
  destruct (Z.ltb_spec idx 0); [lia|].
  assert (Hstores : forall i, i = idx ->
            Archetype.each_store (swapRemove i) (Archetype.stores a)
            = (map (fun e => (e.1, after_swapRemove idx e.2)) (Archetype.stores a), Ok tt)).
  { intros i ->. apply each_store_spec. apply Forall_forall. intros [k st] Hin.
    destruct (aligned_get_r typeId _ (store_for_key (Archetype.size a)) _ _ k st
                (archetype_stores _ Hwf) (archetype_ctor_ids _ Hwf) Hin)
      as (c & _ & _ & (_ & _ & Hwfs & Hsz) & _).
    simpl in *. apply swapRemove_spec; [done|lia]. }
  unfold after_removeEntity. destruct (Z.eqb_spec idx (Archetype.size a - 1)) as [Heq|Hne]; simpl.
  - rewrite (Hstores _ (eq_sym Heq)). done.
  - rewrite (Hstores _ eq_refl). done.
Qed.

Lemma after_removeEntity_size a entity idx le :
  Archetype.size (after_removeEntity entity idx le a) = Z.max (Archetype.size a - 1) 0.
Proof. unfold Archetype.size. simpl. rewrite length_swap_remove. lia. Qed.

Lemma index_after_remove a entity idx le :
  Archetype.indexByEntity (after_removeEntity entity idx le a)
  = if idx =? Archetype.size a - 1
    then JsMap.delete (Archetype.indexByEntity a) entity
    else JsMap.set (JsMap.delete (Archetype.indexByEntity a) entity) le idx.
Proof. done. Qed.

Lemma row_after_remove a entity idx le j :
  removal a entity idx le ->
  Archetype.entityIds (after_removeEntity entity idx le a) !! j
  = if decide (Z.of_nat j < Archetype.size a - 1)
    then (if decide (Z.of_nat j = idx) then Some le else Archetype.entityIds a !! j)
    else None.
Proof.
  intros (Hwf & Hg & Hle).
  destruct (indexed_row a entity idx Hwf Hg) as [Hi Hrow]. simpl.
  rewrite lookup_swap_remove by (unfold Archetype.size in *; lia).
  unfold Archetype.size in *.
  repeat case_decide; try done; lia.
Qed.

Lemma index_sound_remove a entity idx le :
  removal a entity idx le -> index_sound (after_removeEntity entity idx le a).
Proof.
  intros Hrem. pose proof Hrem as (Hwf & Hg & Hle).
  destruct (indexed_row a entity idx Hwf Hg) as [Hi Hrow].
  pose proof (archetype_index _ Hwf) as Hs.
  assert (Hother : forall k i, k ≠ entity -> k ≠ le \/ idx = Archetype.size a - 1 ->
            JsMap.get (Archetype.indexByEntity a) k = Some i ->
            0 <= i /\ Archetype.entityIds (after_removeEntity entity idx le a) !! Z.to_nat i = Some k).
  { intros k i Hk Hkl Hgk. destruct (Hs k i Hgk) as [H0 Hl]. split; [done|].
    rewrite row_after_remove by done.
    assert (Hlt : i < Archetype.size a)
      by (apply lookup_lt_Some in Hl; unfold Archetype.size; lia).
    assert (Hni : i ≠ idx).
    { intros ->. rewrite Hrow in Hl. by injection Hl. }
    assert (Hnl : i ≠ Archetype.size a - 1).
    { intros ->. rewrite Hle in Hl. injection Hl as ->. destruct Hkl; [done|lia]. }
    rewrite decide_True by lia. rewrite decide_False by lia. done. }
  intros k i. rewrite index_after_remove.
  destruct (Z.eqb_spec idx (Archetype.size a - 1)) as [Heq|Hne].
  - destruct (decide (k = entity)) as [->|Hk]; [by rewrite get_delete_eq|].
    rewrite get_delete_ne by done. apply Hother; [done|by right].
  - destruct (decide (le = k)) as [->|Hkl].
    + rewrite get_set_eq. intros [= <-]. split; [lia|].
      rewrite row_after_remove by done. rewrite decide_True by lia. by rewrite decide_True by lia.
    + rewrite get_set_ne by done.
      destruct (decide (k = entity)) as [->|Hk]; [by rewrite get_delete_eq|].
      rewrite get_delete_ne by done. apply Hother; [done|by left].
Qed.

Lemma index_complete_remove a entity idx le :
  removal a entity idx le ->
  index_complete a -> index_complete (after_removeEntity entity idx le a).
Proof.
  intros Hrem Hc j k. pose proof Hrem as (Hwf & Hg & Hle).
  destruct (indexed_row a entity idx Hwf Hg) as [Hi Hrow].
  rewrite row_after_remove by done. case_decide as Hj; [|done].
  assert (Hlast : JsMap.get (Archetype.indexByEntity a) le = Some (Archetype.size a - 1)).
  { rewrite (Hc _ _ Hle). f_equal. lia. }
  rewrite index_after_remove. case_decide as Hji.
  - intros [= <-]. destruct (Z.eqb_spec idx (Archetype.size a - 1)); [lia|].
    rewrite get_set_eq. by f_equal.
  - intros Hl. pose proof (Hc _ _ Hl) as Hgk.
    assert (Hk : k ≠ entity).
    { intros ->. rewrite Hg in Hgk. injection Hgk as ->. done. }
    assert (Hkl : k ≠ le).
    { intros ->. rewrite Hlast in Hgk. injection Hgk as Heq. lia. }
    destruct (Z.eqb_spec idx (Archetype.size a - 1)).
    + by rewrite get_delete_ne.
    + rewrite get_set_ne by done. by rewrite get_delete_ne.
Qed.

Lemma after_removeEntity_wf a entity idx le :
  removal a entity idx le -> Wf.archetype (after_removeEntity entity idx le a).
Proof.
  intros Hrem. pose proof Hrem as (Hwf & Hg & Hle).
  destruct (indexed_row a entity idx Hwf Hg) as [Hi Hrow].
  split; [apply Hwf|apply Hwf| |by apply index_sound_remove].
  rewrite after_removeEntity_size. simpl.
  apply Forall2_fmap_r. eapply Forall2_impl; [apply Hwf|].
  intros c [k st] (Hk & Hsch & Hwfs & Hsz). simpl in *.
  split; [done|]. simpl. split; [by rewrite after_swapRemove_schema|].
  split; [apply after_swapRemove_wf; [done|lia]|].
  rewrite after_swapRemove_size. lia.
Qed.

(** A row of the archetype after the removal reads as the row it came
    from. *)
Lemma getComponentAt_after_remove a entity idx le c j :
  removal a entity idx le ->
  0 <= j < Archetype.size a - 1 ->
  Archetype.getComponentAt (after_removeEntity entity idx le a) c j
  = Archetype.getComponentAt a c (if j =? idx then Archetype.size a - 1 else j).
Proof.
  intros (Hwf & Hg & Hle) Hj. destruct (indexed_row a entity idx Hwf Hg) as [Hi Hrow].
  unfold Archetype.getComponentAt. simpl.
  rewrite (get_map_values (after_swapRemove idx)).
  destruct (JsMap.get (Archetype.stores a) (typeId c)) as [st|] eqn:Hst; simpl; [|done].
  destruct (aligned_get_r typeId _ (store_for_key (Archetype.size a)) _ _ (typeId c) st
              (archetype_stores _ Hwf) (archetype_ctor_ids _ Hwf) (get_Some_elem _ _ _ Hst))
    as (c' & _ & _ & (_ & _ & Hwfs & Hsz) & _).
  simpl in *. rewrite <- Hsz in *. by apply get_after_swapRemove.
Qed.
(** No entity occupies two rows. *)
Lemma complete_row a i j e :
  index_complete a -> Archetype.entityIds a !! i = Some e ->
  Archetype.entityIds a !! j = Some e -> i = j.
Proof.
  intros Hc Hi Hj. pose proof (Hc _ _ Hi) as H1. pose proof (Hc _ _ Hj) as H2.
  rewrite H1 in H2. injection H2. lia.
Qed.

(** The entity removed is in no row afterwards. *)
Lemma removed_entity_gone a entity idx le :
  removal a entity idx le -> index_complete a ->
  entity ∉ Archetype.entityIds (after_removeEntity entity idx le a).
Proof.
  intros Hrem Hc Hin. pose proof Hrem as (Hwf & Hg & Hle).
  destruct (indexed_row a entity idx Hwf Hg) as [Hi Hrow].
  apply list_elem_of_lookup in Hin as [j Hj].
  rewrite row_after_remove in Hj by done. case_decide as Hlt; [|done].
  case_decide as Hji.
  - injection Hj as ->. pose proof (complete_row _ _ _ _ Hc Hle Hrow). lia.
  - pose proof (complete_row _ _ _ _ Hc Hj Hrow). lia.
Qed.
End ArchetypeRemove.

(** ** World *)

Section QueryLemmas.
Import ColumnStore ComponentConstructor Wf Effects.

Lemma forallb_perm {A} (f : A -> bool) (l1 l2 : list A) :
  l1 ≡ₚ l2 -> forallb f l1 = forallb f l2.
Proof.
  induction 1 as [|x l1 l2 _ IH|x y l|l1 l2 l3 _ IH1 _ IH2]; simpl.
  - done.
  - by rewrite IH.
  - destruct (f x), (f y); done.
  - by rewrite IH1.
Qed.

Lemma hasAll_matches ctors a :
  forallb (fun s => Archetype.containsTypeId a s) (sort code_unit_compare (map typeId ctors))
  = matches ctors a.
Proof.
  rewrite (forallb_perm _ _ (map typeId ctors)) by apply sort_perm.
  unfold matches. induction ctors as [|c ctors IH]; simpl; [done|]. by rewrite IH.
Qed.

Lemma collect_imap_from {A B} (f : Z * A -> result B) (g : nat -> A -> B) (l : list A) n :
  (forall i x, l !! i = Some x -> f (Z.of_nat (n + i), x) = Ok (g (n + i)%nat x)) ->
  collect f (imap (fun i x => (Z.of_nat (n + i), x)) l)
  = Ok (imap (fun i => g (n + i)%nat) l).
Proof.
  revert n. induction l as [|x l IH]; intros n Hf; simpl; [done|].
  rewrite (Hf 0%nat x) by done. simpl.
  rewrite (imap_ext _ (fun i y => (Z.of_nat (S n + i), y)) l)
    by (intros i y _; simpl; do 2 f_equal; lia).
  rewrite (IH (S n)).
  - simpl. do 2 f_equal. apply imap_ext. intros i y _. simpl. f_equal. lia.
  - intros i y Hi. replace (S n + i)%nat with (n + S i)%nat by lia. by apply Hf.
Qed.

Lemma collect_imap {A B} (f : Z * A -> result B) (g : nat -> A -> B) (l : list A) :
  (forall i x, l !! i = Some x -> f (Z.of_nat i, x) = Ok (g i x)) ->
  collect f (imap (fun i x => (Z.of_nat i, x)) l) = Ok (imap g l).
Proof. intros Hf. by apply (collect_imap_from f g l 0). Qed.

(** The rows of one archetype, when every read returns. *)
Lemma query_archetype_spec ctors a :
  (forall i c, 0 <= i < Archetype.size a -> c ∈ ctors ->
     is_ok (Archetype.getComponentAt a c i)) ->
  World.query_archetype ctors a = Ok (row_results ctors a).
Proof.
  intros Hok. unfold World.query_archetype, Archetype.forEachIndexed, row_results.
  apply collect_imap. intros i e Hi.
  rewrite (collect_Ok _ (fun c => from_ok [] (Archetype.getComponentAt a c (Z.of_nat i)))).
  - done.
  - intros c Hc. apply is_ok_from_ok. apply Hok; [|done].
    apply lookup_lt_Some in Hi. unfold Archetype.size. lia.
Qed.

Lemma matched_read a ctors i c :
  Wf.archetype a -> matches ctors a = true -> 0 <= i -> c ∈ ctors ->
  is_ok (Archetype.getComponentAt a c i).
Proof.
  intros Hwf Hm Hi Hc. unfold matches in Hm. rewrite forallb_forall in Hm.
  specialize (Hm c ltac:(by apply list_elem_of_In)).
  apply bool_decide_eq_true in Hm.
  destruct (archetype_store_by_id a _ Hwf Hm) as (c0 & st & _ & _ & Hst & _ & _ & Hwfs & _).
  unfold Archetype.getComponentAt. rewrite Hst. simpl in Hwfs.
  by destruct (get_total st i Hwfs ltac:(lia)) as (o & -> & _).
Qed.

Lemma query_collect ctors (l : list Archetype.t) :
  Forall Wf.archetype l ->
  collect (fun archetype =>
             let hasAll := forallb (fun s => Archetype.containsTypeId archetype s)
                             (sort code_unit_compare (map typeId ctors)) in
             if negb hasAll then Ok [] else World.query_archetype ctors archetype) l
  = Ok (map (fun a => if matches ctors a then row_results ctors a else []) l).
Proof.
  intros Hwf. apply collect_Ok. intros a Ha. cbv zeta. rewrite hasAll_matches.
  destruct (matches ctors a) eqn:Hm; simpl; [|done].
  apply query_archetype_spec. intros i c Hi Hc.
  rewrite list.Forall_forall in Hwf. apply (matched_read a ctors); [by apply Hwf|done|lia|done].
Qed.

Lemma concat_filter_rows ctors (l : list Archetype.t) :
  concat (map (fun a => if matches ctors a then row_results ctors a else []) l)
  = concat (map (row_results ctors) (filter (fun a => matches ctors a = true) l)).
Proof.
  induction l as [|a l IH]; simpl; [done|]. rewrite filter_cons.
  destruct (matches ctors a) eqn:Hm.
  - rewrite decide_True by done. simpl. by rewrite IH.
  - rewrite decide_False by done. by rewrite IH.
Qed.

Lemma archetypes_values w : Wf.archetypes w -> Forall Wf.archetype (JsMap.values (World.archetypeBySignature w)).
Proof. intros Hwf. by apply Forall_fmap. Qed.

Lemma query_spec w ctors :
  Wf.archetypes w -> World.query w ctors = Ok (query_results w ctors).
Proof.
  intros Hwf. unfold World.query. cbv zeta.
  rewrite query_collect by (by apply archetypes_values). simpl.
  by rewrite concat_filter_rows.
Qed.

(** The entities of the results are the entities of the rows. *)
Lemma imap_entities (F : nat -> Entity -> list object) (l : list Entity) :
  map World.entity (imap (fun i e => {| World.entity := e; World.components := F i e |}) l) = l.
Proof.
  revert F. induction l as [|e l IH]; intros F; simpl; [done|].
  f_equal. apply (IH (fun i => F (S i))).
Qed.

Lemma row_results_entities ctors a :
  map World.entity (row_results ctors a) = Archetype.entityIds a.
Proof. apply imap_entities. Qed.

Lemma elem_of_concat {A} (x : A) (ls : list (list A)) :
  x ∈ concat ls -> exists l, x ∈ l /\ l ∈ ls.
Proof.
  induction ls as [|l ls IH]; simpl; intros Hx.
  - by apply elem_of_nil in Hx.
  - apply elem_of_app in Hx as [Hx|Hx].
    + exists l. split; [done|]. apply elem_of_cons. by left.
    + destruct (IH Hx) as (l' & Hl' & Hin). exists l'. split; [done|].
      apply elem_of_cons. by right.
Qed.

Lemma query_results_entities w ctors e :
  e ∈ map World.entity (query_results w ctors) ->
  exists k a, (k, a) ∈ World.archetypeBySignature w /\ e ∈ Archetype.entityIds a.
Proof.
  unfold query_results. intros He. apply list_elem_of_fmap in He as (res & -> & Hres).
  apply elem_of_concat in Hres as (rows & Hres & Hrows).
  apply list_elem_of_fmap in Hrows as (a & -> & Ha).
  apply list_elem_of_filter in Ha as [_ Ha].
  apply list_elem_of_fmap in Ha as ([k a'] & -> & Hin).
  exists k, a'. split; [done|]. rewrite <- (row_results_entities ctors).
  by apply list_elem_of_fmap_2.
Qed.
End QueryLemmas.

Section Canonical.
Import ComponentConstructor Wf Effects.

Lemma new_store_total schema initialCapacity :
  exists s, ColumnStore.new schema initialCapacity = Ok s.
Proof.
  unfold ColumnStore.new.
  assert (Hloop : forall keys s, (forall k, k ∈ keys -> k ∈ JsMap.keys schema) ->
            exists s', forM_ keys (fun key =>
              do arr <- lift_result (ColumnStore.createArrayForType (ColumnStore.schema_get schema key)
                                       (Z.max initialCapacity 1));
              modify (fun s => ColumnStore.with_typedArrayMap (JsMap.set (ColumnStore.typedArrayMap s) key arr) s)) s
            = (s', Ok tt)).
  { induction keys as [|k keys IH]; intros s Hsub; simpl; [by eexists|].
    unfold bind at 1. unfold bind at 1. unfold lift_result at 1.
    destruct (ColumnStore.schema_get schema k) as [ft|] eqn:Hg.
    - simpl. unfold modify at 1. apply IH. intros k' Hk'. apply Hsub, elem_of_cons. by right.
    - exfalso. apply get_None in Hg. apply Hg, Hsub, elem_of_cons. by left. }
  destruct (Hloop (JsMap.keys schema)
              (ColumnStore.mk schema JsMap.empty (Z.max initialCapacity 1) 0)) as [s' Hs']; [done|].
  rewrite Hs'. by eexists.
Qed.

Context `{Collation}.

(** [new Archetype(ctors)] returns for every list of types. *)
Lemma new_archetype_total (ctors : list ComponentConstructor.t) :
  exists a, Archetype.new ctors = Ok a
            /\ Archetype.typeIds a = map typeId (sort by_typeId ctors)
            /\ Archetype.ctors a = sort by_typeId ctors
            /\ Archetype.entityIds a = [].
Proof.
  unfold Archetype.new.
  change (fun x y : ComponentConstructor.t => localeCompare (typeId x) (typeId y)) with by_typeId.
  assert (Hloop : forall l a0,
            exists a', forM_ l (fun c =>
              do store <- lift_result (ColumnStore.new (schema c) Archetype.DEFAULT_CAPACITY);
              modify (fun a => Archetype.with_stores
                                 (JsMap.set (Archetype.stores a) (typeId c) store) a)) a0
            = (a', Ok tt)
            /\ Archetype.typeIds a' = Archetype.typeIds a0
            /\ Archetype.ctors a' = Archetype.ctors a0
            /\ Archetype.entityIds a' = Archetype.entityIds a0).
  { induction l as [|c l IH]; intros a0; simpl; [by eexists|].
    unfold bind at 1. unfold bind at 1. unfold lift_result at 1.
    destruct (new_store_total (schema c) Archetype.DEFAULT_CAPACITY) as [s ->].
    unfold modify at 1.
    destruct (IH (Archetype.with_stores (JsMap.set (Archetype.stores a0) (typeId c) s) a0))
      as (a' & -> & ? & ? & ?). by exists a'. }
  destruct (Hloop (sort by_typeId ctors)
              {| Archetype.typeIds := map typeId (sort by_typeId ctors);
                 Archetype.ctors := sort by_typeId ctors;
                 Archetype.entityIds := [];
                 Archetype.indexByEntity := JsMap.empty;
                 Archetype.stores := JsMap.empty |}) as (a' & Hrun & ? & ? & ?).
  rewrite Hrun. by exists a'.
Qed.

(** [getOrCreateArchetype] returns the key of the sorted type ids, and the
    archetype is registered under it from then on. *)
Lemma getOrCreateArchetype_total (ctors : list ComponentConstructor.t) (w : World.t) :
  let sig := join "|" (map typeId (sort by_typeId ctors)) in
  exists w' a,
    World.getOrCreateArchetype ctors w = (w', Ok sig)
    /\ JsMap.get (World.archetypeBySignature w') sig = Some a
    /\ World.entityArchetype w' = World.entityArchetype w
    /\ World.nextEntityId w' = World.nextEntityId w
    /\ match JsMap.get (World.archetypeBySignature w) sig with
       | Some existing => w' = w /\ a = existing
       | None =>
           Archetype.new (sort by_typeId ctors) = Ok a
           /\ World.archetypeBySignature w' = World.archetypeBySignature w ++ [(sig, a)]
       end.
Proof.
  intros sig. unfold World.getOrCreateArchetype.
  change (fun x y : ComponentConstructor.t => localeCompare (typeId x) (typeId y)) with by_typeId.
  fold sig. destruct (JsMap.get (World.archetypeBySignature w) sig) as [existing|] eqn:Hg.
  - exists w, existing. by rewrite Hg.
  - destruct (new_archetype_total (sort by_typeId ctors)) as (a & Hnew & _).
    rewrite Hnew. eexists _, a. split; [done|]. simpl. rewrite get_set_eq.
    repeat split; try done. apply set_absent. by apply get_None.
Qed.
End Canonical.

(** ** The order of the code units is a collation order *)

Lemma code_unit_compare_le (a b : string) :
  code_unit_compare a b <= 0 <-> String.compare a b <> Gt.
Proof. unfold code_unit_compare. destruct (String.compare a b); split; (done || lia). Qed.

Lemma code_unit_collation_order : CollationOrder Examples.code_unit_collation.
Proof.
  split; unfold localeCompare, Examples.code_unit_collation; intros a b.
  - rewrite !code_unit_compare_le, (String.compare_antisym b a).
    destruct (String.compare a b); simpl; [left|left|right]; done.
  - intros c. rewrite !code_unit_compare_le. intros Hab Hbc.
    destruct (String.compare a b) eqn:Eab; [|clear Hab|done].
    { apply String.compare_eq_iff in Eab as ->. done. }
    destruct (String.compare b c) eqn:Ebc; [|clear Hbc|done].
    { apply String.compare_eq_iff in Ebc as <-. by rewrite Eab. }
    apply String_as_OT.cmp_lt in Eab, Ebc.
    pose proof (String_as_OT.lt_trans _ _ _ Eab Ebc) as Hac.
    apply String_as_OT.cmp_lt in Hac. unfold String_as_OT.cmp in Hac. by rewrite Hac.
Qed.



(** ** The registry of a world *)

Section Registry.
Context {K V : Type} `{EqDecision K}.
Implicit Types (m : JsMap.t K V) (k : K) (v : V).

Lemma elem_of_set m k v k' v' :
  NoDup (JsMap.keys m) -> (k', v') ∈ JsMap.set m k v ->
  (k' = k /\ v' = v) \/ (k' ≠ k /\ (k', v') ∈ m).
Proof.
  induction m as [|[k0 v0] m IH]; simpl; intros Hnd Hin.
  - apply list_elem_of_singleton in Hin. injection Hin as -> ->. by left.
  - apply NoDup_cons in Hnd as [Hk0 Hnd]. destruct (decide (k0 = k)) as [->|Hne].
    + apply elem_of_cons in Hin as [[= -> ->]|Hin]; [by left|]. right. split.
      * intros ->. apply Hk0. by apply (list_elem_of_fmap_2 fst _ (k, v')).
      * apply elem_of_cons. by right.
    + apply elem_of_cons in Hin as [[= -> ->]|Hin].
      * right. split; [done|]. apply elem_of_cons. by left.
      * destruct (IH Hnd Hin) as [?|[? ?]]; [by left|]. right. split; [done|].
        apply elem_of_cons. by right.
Qed.

Lemma Forall_set (P : K * V -> Prop) m k v :
  Forall P m -> P (k, v) -> Forall P (JsMap.set m k v).
Proof.
  intros Hm Hkv. induction Hm as [|[k0 v0] m H0 Hm IH]; simpl.
  - by constructor.
  - destruct (decide (k0 = k)); by constructor.
Qed.

Lemma keys_set m k v :
  JsMap.keys (JsMap.set m k v)
  = if decide (k ∈ JsMap.keys m) then JsMap.keys m else JsMap.keys m ++ [k].
Proof.
  case_decide as Hin.
  - by apply keys_set_present.
  - rewrite set_absent by done. unfold JsMap.keys. by rewrite map_app.
Qed.

Lemma NoDup_keys_set m k v :
  NoDup (JsMap.keys m) -> NoDup (JsMap.keys (JsMap.set m k v)).
Proof.
  intros Hnd. rewrite keys_set. case_decide as Hin; [done|].
  apply NoDup_app. split; [done|]. split; [|apply NoDup_singleton].
  intros x Hx Hx'. apply list_elem_of_singleton in Hx' as ->. done.
Qed.
End Registry.

Section WorldLemmas.
Import ComponentConstructor Wf Effects.

Lemma call_spec {A} (r : World.ref) (m : M Archetype.t A) (w : World.t) a a' x :
  JsMap.get (World.archetypeBySignature w) r = Some a -> m a = (a', x) ->
  World.call r m w
  = (World.with_archetypes (JsMap.set (World.archetypeBySignature w) r a') w, x).
Proof. intros Hg Hm. unfold World.call. by rewrite Hg, Hm. Qed.

Lemma registered_wf w k a :
  Wf.archetypes w -> (k, a) ∈ World.archetypeBySignature w -> Wf.archetype a.
Proof.
  intros Hwf Hin. unfold Wf.archetypes in Hwf.
  rewrite list.Forall_forall in Hwf. apply (Hwf _ Hin).
Qed.

(** [removeEntity] of a well-formed archetype whose rows are indexed leaves
    the entity in no row. *)
Lemma removeEntity_gone a entity :
  Wf.archetype a -> index_complete a ->
  exists a', Archetype.removeEntity entity a = (a', Ok tt)
             /\ Wf.archetype a' /\ entity ∉ Archetype.entityIds a'.
Proof.
  intros Hwf Hc. destruct (JsMap.get (Archetype.indexByEntity a) entity) as [idx|] eqn:Hg.
  - destruct (removeEntity_spec a entity idx Hwf Hg) as (le & Hle & Hrun).
    assert (Hrem : removal a entity idx le) by done.
    exists (after_removeEntity entity idx le a). split; [done|].
    split; [by apply after_removeEntity_wf|by apply removed_entity_gone].
  - exists a. split; [unfold Archetype.removeEntity; by rewrite Hg|]. split; [done|].
    intros Hin. apply list_elem_of_lookup in Hin as [j Hj]. by rewrite (Hc _ _ Hj) in Hg.
Qed.
End WorldLemmas.

(** ** [getComponentAt] and [copyEntityTo] *)

Section ArchetypeReads.
Import ColumnStore ComponentConstructor Wf Effects.
Implicit Types (a : Archetype.t) (c : ComponentConstructor.t).

Lemma getComponentAt_same_id a c c' index :
  typeId c = typeId c' ->
  Archetype.getComponentAt a c index = Archetype.getComponentAt a c' index.
Proof. intros Hid. unfold Archetype.getComponentAt. by rewrite Hid. Qed.

(** A row of a component type of the archetype reads as a record of its
    schema. *)
Lemma getComponentAt_total a c index :
  Wf.archetype a -> c ∈ Archetype.ctors a -> 0 <= index \/ Archetype.size a <= index ->
  exists o, Archetype.getComponentAt a c index = Ok o /\ is_record (schema c) o.
Proof.
  intros Hwf Hc Hi. destruct (archetype_store a c Hwf Hc) as (st & Hst & _ & Hsch & Hwfs & Hsz).
  simpl in *. unfold Archetype.getComponentAt. rewrite Hst.
  destruct (get_total st index Hwfs) as (o & Ho & Hrec); [lia|].
  exists o. split; [done|]. by rewrite <- Hsch.
Qed.

Lemma copied_value_spec a c index :
  Wf.archetype a -> 0 <= index \/ Archetype.size a <= index ->
  if decide (typeId c ∈ Archetype.typeIds a)
  then Archetype.getComponentAt a c index = Ok (copied_value a index c)
  else copied_value a index c = construct c.
Proof.
  intros Hwf Hi. unfold copied_value. case_decide as Hin.
  - destruct (archetype_store_by_id a _ Hwf Hin) as (c' & st & Hc' & Hid & Hst & _).
    destruct (getComponentAt_total a c' index Hwf Hc' Hi) as (o & Ho & _).
    rewrite (getComponentAt_same_id a c c') by done. rewrite Ho.
    unfold Archetype.getComponentAt in Ho. rewrite Hid, Hst in Ho. by rewrite Hst, Ho.
  - by rewrite (archetype_no_store a).
Qed.

Lemma copy_components_spec a index : forall cs out,
  Wf.archetype a -> 0 <= index \/ Archetype.size a <= index ->
  NoDup (JsMap.keys out ++ map typeId cs) ->
  Archetype.copy_components a index cs out
  = Ok (out ++ map (fun c => (typeId c, copied_value a index c)) cs).
Proof.
  induction cs as [|c cs IH]; intros out Hwf Hi Hnd; simpl.
  - by rewrite app_nil_r.
  - assert (Hk : typeId c ∉ JsMap.keys out).
    { apply NoDup_app in Hnd as (_ & Hd & _). intros Hin. apply (Hd _ Hin).
      apply elem_of_cons. by left. }
    assert (Hnd' : NoDup (JsMap.keys (out ++ [(typeId c, copied_value a index c)])
                          ++ map typeId cs)).
    { unfold JsMap.keys in *. rewrite map_app. simpl. by rewrite <- app_assoc. }
    pose proof (copied_value_spec a c index Hwf Hi) as Hv. unfold copied_value in *.
    destruct (JsMap.get (Archetype.stores a) (typeId c)) as [st|] eqn:Hst.
    + case_decide as Hin.
      * unfold Archetype.getComponentAt in Hv. rewrite Hst in Hv. rewrite Hv. simpl.
        rewrite set_absent by done. rewrite IH by done.
        by rewrite <- app_assoc.
      * exfalso. apply Hin. rewrite <- archetype_store_keys by done.
        apply get_Some_elem in Hst. by apply (list_elem_of_fmap_2 fst _ (typeId c, st)).
    + rewrite set_absent by done. rewrite IH by done. by rewrite <- app_assoc.
Qed.

Lemma copyEntityTo_spec a index target :
  Wf.archetype a -> 0 <= index \/ Archetype.size a <= index ->
  NoDup (map typeId (Archetype.ctors target)) ->
  Archetype.copyEntityTo a index target = Ok (copied_values a index target).
Proof.
  intros Hwf Hi Hnd. unfold Archetype.copyEntityTo.
  by rewrite copy_components_spec.
Qed.
End ArchetypeReads.

(** ** Signatures *)

Section Signatures.
Import ComponentConstructor Wf Effects.

Lemma includes_char_app c s1 s2 :
  includes_char c (s1 ++ s2) = includes_char c s1 || includes_char c s2.
Proof.
  induction s1 as [|c' s1 IH]; simpl; [done|]. by destruct (Ascii.eqb c c').
Qed.

(** Two strings without the separator that are followed by it split a
    string at the same place. *)
Lemma split_at_separator (x y r1 r2 : string) :
  includes_char "|" x = false -> includes_char "|" y = false ->
  (x ++ String "|" r1 = y ++ String "|" r2)%string -> x = y /\ r1 = r2.
Proof.
  revert y. induction x as [|c x IH]; intros [|d y] Hx Hy Heq;
    cbn [includes_char String.append] in *.
  - by injection Heq.
  - injection Heq as Hd _. subst d. by rewrite Ascii.eqb_refl in Hy.
  - injection Heq as Hc _. subst c. by rewrite Ascii.eqb_refl in Hx.
  - injection Heq as -> Heq.
    destruct (Ascii.eqb "|" d); [done|].
    destruct (IH y Hx Hy Heq) as [-> ->]. done.
Qed.

Lemma id_ok_spec id : id_ok id = true -> id ≠ ""%string /\ includes_char "|" id = false.
Proof.
  unfold id_ok. intros H. apply andb_true_iff in H as [H1 H2].
  apply negb_true_iff in H1, H2. split; [|done]. intros ->. done.
Qed.

(** A signature determines its type ids. *)
Lemma join_inj (l1 l2 : list string) :
  Forall (fun id => id_ok id = true) l1 -> Forall (fun id => id_ok id = true) l2 ->
  join "|" l1 = join "|" l2 -> l1 = l2.
Proof.
  unfold join. intros H1. revert l2.
  induction H1 as [|x l1 Hx H1 IH]; intros l2 H2 Heq.
  - destruct H2 as [|y l2 Hy H2]; [done|]. apply id_ok_spec in Hy as [Hy _].
    exfalso. simpl in Heq. destruct l2; [by subst|]. by destruct y.
  - destruct H2 as [|y l2 Hy H2].
    { apply id_ok_spec in Hx as [Hx _]. exfalso. simpl in Heq.
      destruct l1; [by subst|]. by destruct x. }
    apply id_ok_spec in Hx as [Hx0 Hx]. apply id_ok_spec in Hy as [Hy0 Hy].
    destruct l1 as [|x' l1], l2 as [|y' l2].
    + simpl in Heq. by subst.
    + exfalso. cbn [String.concat] in Heq. subst x.
      rewrite includes_char_app in Hx. simpl in Hx. by rewrite orb_true_r in Hx.
    + exfalso. cbn [String.concat] in Heq. subst y.
      rewrite includes_char_app in Hy. simpl in Hy. by rewrite orb_true_r in Hy.
    + cbn [String.concat] in Heq. cbn [String.append] in Heq.
      destruct (split_at_separator _ _ _ _ Hx Hy Heq) as [-> Hrest].
      f_equal. by apply IH.
Qed.

(** Classes of the program with the same type ids, in order, are the same
    classes. *)
Lemma classes_by_ids U (l1 l2 : list ComponentConstructor.t) :
  classes U -> Forall U l1 -> Forall U l2 -> map typeId l1 = map typeId l2 -> l1 = l2.
Proof.
  intros HU H1. revert l2. induction H1 as [|c l1 Hc H1 IH]; intros [|d l2] H2 Heq;
    simpl in *; try done.
  apply Forall_cons in H2 as [Hd H2]. injection Heq as Hid Heq.
  f_equal; [by apply (class_of_id U HU)|by apply IH].
Qed.
End Signatures.

(** ** [getOrCreateArchetype] in a well-formed world *)

Section RegistryLemmas.
Import ComponentConstructor Wf Effects.
Context `{CollationOrder}.

Lemma get_app_Some {K V} `{EqDecision K} (m m' : JsMap.t K V) k v :
  JsMap.get m k = Some v -> JsMap.get (m ++ m') k = Some v.
Proof.
  induction m as [|[k0 v0] m IH]; simpl; [done|]. by destruct (decide (k0 = k)).
Qed.

Lemma sort_idem (l : list ComponentConstructor.t) :
  sort by_typeId (sort by_typeId l) = sort by_typeId l.
Proof.
  apply sort_of_sorted, sort_sorted. intros x y. apply localeCompare_total.
Qed.

Lemma classes_ids_ok U (l : list ComponentConstructor.t) :
  classes U -> Forall U l -> Forall (fun id => id_ok id = true) (map typeId l).
Proof.
  intros HU Hl. apply Forall_fmap. eapply Forall_impl; [done|].
  intros c Hc. by apply (class_id_ok U HU).
Qed.

(** The archetype filed under the signature of [ctors] has these types, in
    sorted order. *)
Lemma registered_ctors U (ctors : list ComponentConstructor.t) w a :
  classes U -> Wf.archetypes w -> registry U w -> Forall U ctors ->
  JsMap.get (World.archetypeBySignature w) (join "|" (map typeId (sort by_typeId ctors)))
  = Some a ->
  Archetype.ctors a = sort by_typeId ctors.
Proof.
  intros HU Hwf Hreg Hctors Hg. apply get_Some_elem in Hg.
  destruct (Hreg _ _ Hg) as [Hsig Ha].
  pose proof (registered_wf w _ a Hwf Hg) as Hwfa.
  assert (Hsorted : Forall U (sort by_typeId ctors)) by (by rewrite sort_perm).
  apply (classes_by_ids U); [done|done|done|].
  unfold Archetype.signature in Hsig. rewrite (archetype_typeIds _ Hwfa) in Hsig.
  symmetry. apply join_inj; [by apply (classes_ids_ok U)|by apply (classes_ids_ok U)|done].
Qed.

Lemma getOrCreateArchetype_spec U (ctors : list ComponentConstructor.t) (w : World.t) :
  classes U -> Wf.world w -> registry U w ->
  Forall U ctors -> NoDup (map typeId ctors) ->
  exists w' a,
    World.getOrCreateArchetype ctors w
    = (w', Ok (join "|" (map typeId (sort by_typeId ctors))))
    /\ JsMap.get (World.archetypeBySignature w') (join "|" (map typeId (sort by_typeId ctors)))
       = Some a
    /\ Archetype.ctors a = sort by_typeId ctors
    /\ Wf.world w' /\ registry U w'
    /\ World.entityArchetype w' = World.entityArchetype w
    /\ World.nextEntityId w' = World.nextEntityId w
    /\ (forall k a0, JsMap.get (World.archetypeBySignature w) k = Some a0 ->
          JsMap.get (World.archetypeBySignature w') k = Some a0)
    /\ (forall k a0, (k, a0) ∈ World.archetypeBySignature w' ->
          (k, a0) ∈ World.archetypeBySignature w \/ Archetype.entityIds a0 = []).
Proof.
  intros HU Hwf Hreg Hctors Hnd.
  destruct (getOrCreateArchetype_total ctors w) as (w' & a & Hrun & Hget & Hents & Hnext & Hcase).
  cbv zeta in *. set (sig := join "|" (map typeId (sort by_typeId ctors))) in *.
  exists w', a. split; [done|]. split; [done|].
  destruct (JsMap.get (World.archetypeBySignature w) sig) as [existing|] eqn:Hg.
  - destruct Hcase as [-> ->].
    split; [by apply (registered_ctors U _ w); [|apply Hwf|..]|].
    repeat (split; [done|]). intros k a0 Hin. by left.
  - destruct Hcase as [Hnew Happ].
    assert (Hnds : NoDup (map typeId (sort by_typeId ctors))) by (by rewrite sort_perm).
    assert (Hus : Forall U (sort by_typeId ctors)) by (by rewrite sort_perm).
    assert (Hschs : Forall (fun c => NoDup (JsMap.keys (schema c))) (sort by_typeId ctors)).
    { eapply Forall_impl; [exact Hus|]. intros c Hc. by apply (class_schema U HU). }
    rewrite new_archetype_spec, sort_idem in Hnew by done. injection Hnew as <-.
    pose proof (fresh_archetype_wf _ Hnds Hschs) as Hwfa.
    split; [done|]. split.
    { destruct Hwf as [Hars Hkeys Hrefs]. split.
      - unfold Wf.archetypes. rewrite Happ. apply Forall_app. split; [done|].
        by constructor.
      - rewrite Happ. unfold JsMap.keys. rewrite map_app. apply NoDup_app.
        split; [done|]. split; [|apply NoDup_singleton].
        intros k Hk Hk'. apply list_elem_of_singleton in Hk'. subst k.
        by apply get_None in Hg.
      - intros e r Hr. rewrite Hents in Hr. destruct (Hrefs e r Hr) as [a0 Ha0].
        exists a0. rewrite Happ. by apply get_app_Some. }
    split.
    { intros k a0 Hin. rewrite Happ in Hin. apply elem_of_app in Hin as [Hin|Hin].
      - by apply Hreg.
      - apply list_elem_of_singleton in Hin. injection Hin as -> ->. by split. }
    split; [done|]. split; [done|]. split.
    + intros k a0 Hk. rewrite Happ. by apply get_app_Some.
    + intros k a0 Hin. rewrite Happ in Hin. apply elem_of_app in Hin as [Hin|Hin].
      * by left.
      * apply list_elem_of_singleton in Hin. injection Hin as -> ->. by right.
Qed.
End RegistryLemmas.

(** ** What a change of one entity leaves of the others *)

Section Frames.
Import ComponentConstructor Wf Effects.
Implicit Types (a : Archetype.t) (c : ComponentConstructor.t) (w : World.t).

Lemma getComponentAt_after_add_frame a entity componentValues c j :
  Wf.archetype a -> all_storable componentValues a -> j < Archetype.size a ->
  Archetype.getComponentAt (after_addEntity entity componentValues a) c j
  = Archetype.getComponentAt a c j.
Proof.
  intros Hwf Hst Hj.
  destruct (decide (typeId c ∈ Archetype.typeIds a)) as [Hin|Hout].
  - destruct (archetype_store_by_id a _ Hwf Hin) as (c' & st & Hc' & Hid & _).
    rewrite !(getComponentAt_same_id _ c c') by done.
    destruct (getComponentAt_after_add a entity componentValues c' Hwf Hst Hc') as [_ Hframe].
    by apply Hframe.
  - pose proof (after_addEntity_wf a entity componentValues Hwf Hst) as Hwf'.
    unfold Archetype.getComponentAt.
    by rewrite (archetype_no_store _ _ Hwf'), (archetype_no_store a).
Qed.

(** The rows after a removal: the others, each once. *)
Lemma entities_after_remove a entity idx le r :
  removal a entity idx le -> index_complete a ->
  r ∈ Archetype.entityIds (after_removeEntity entity idx le a)
  <-> r ∈ Archetype.entityIds a /\ r ≠ entity.
Proof.
  intros Hrem Hc. pose proof Hrem as (Hwf & Hg & Hle).
  destruct (indexed_row a entity idx Hwf Hg) as [Hi Hrow]. split.
  - intros Hr. split.
    + apply list_elem_of_lookup in Hr as [j Hj].
      rewrite row_after_remove in Hj by done. case_decide as Hlt; [|done].
      case_decide as Hji; [injection Hj as <-|]; by eapply list_elem_of_lookup_2.
    + intros ->. by apply (removed_entity_gone a entity idx le).
  - intros [Hr Hne]. apply list_elem_of_lookup in Hr as [j Hj].
    assert (Hjlt : Z.of_nat j < Archetype.size a)
      by (apply lookup_lt_Some in Hj; unfold Archetype.size; lia).
    assert (Hjidx : Z.of_nat j ≠ idx).
    { intros <-. rewrite Nat2Z.id in Hrow. congruence. }
    destruct (decide (Z.of_nat j = Archetype.size a - 1)) as [Hlast|Hnl].
    + apply (list_elem_of_lookup_2 _ (Z.to_nat idx)). rewrite row_after_remove by done.
      rewrite decide_True by lia. rewrite decide_True by lia.
      rewrite <- Hlast, Nat2Z.id in Hle. congruence.
    + apply (list_elem_of_lookup_2 _ j). rewrite row_after_remove by done.
      rewrite decide_True by lia. by rewrite decide_False.
Qed.

(** [removeEntity] leaves every other entity with an index where its
    components read as before. *)
Lemma removeEntity_others a entity :
  Wf.archetype a -> index_complete a ->
  exists a', Archetype.removeEntity entity a = (a', Ok tt)
    /\ Wf.archetype a' /\ index_complete a'
    /\ Archetype.ctors a' = Archetype.ctors a
    /\ Archetype.typeIds a' = Archetype.typeIds a
    /\ (forall r, r ∈ Archetype.entityIds a' <-> r ∈ Archetype.entityIds a /\ r ≠ entity)
    /\ forall r, r ≠ entity ->
         match Archetype.indexOf a r with
         | None => Archetype.indexOf a' r = None
         | Some i0 =>
             exists i, Archetype.indexOf a' r = Some i
               /\ forall c, Archetype.getComponentAt a' c i = Archetype.getComponentAt a c i0
         end.
Proof.
  intros Hwf Hc. unfold Archetype.indexOf.
  destruct (JsMap.get (Archetype.indexByEntity a) entity) as [idx|] eqn:Hg.
  2: { exists a. split; [unfold Archetype.removeEntity; by rewrite Hg|].
       do 4 (split; [done|]). split.
       - intros r. split; [|by intros [? _]]. intros Hr. split; [done|]. intros ->.
         apply list_elem_of_lookup in Hr as [j Hj]. by rewrite (Hc _ _ Hj) in Hg.
       - intros r _. destruct (JsMap.get (Archetype.indexByEntity a) r) as [i0|]; [|done].
         by exists i0. }
  destruct (removeEntity_spec a entity idx Hwf Hg) as (le & Hle & Hrun).
  assert (Hrem : removal a entity idx le) by done.
  destruct (indexed_row a entity idx Hwf Hg) as [Hi Hrow].
  exists (after_removeEntity entity idx le a). split; [done|].
  split; [by apply after_removeEntity_wf|]. split; [by apply index_complete_remove|].
  split; [done|]. split; [done|].
  split; [intros r; by apply entities_after_remove|].
  assert (Hlast : JsMap.get (Archetype.indexByEntity a) le = Some (Archetype.size a - 1)).
  { rewrite (Hc _ _ Hle). f_equal. lia. }
  intros r Hne. rewrite index_after_remove.
  destruct (JsMap.get (Archetype.indexByEntity a) r) as [i0|] eqn:Hr.
  - destruct (indexed_row a r i0 Hwf Hr) as [Hi0 Hrow0].
    assert (Hi0idx : i0 ≠ idx) by (intros ->; congruence).
    destruct (Z.eqb_spec idx (Archetype.size a - 1)) as [Hidx|Hidx].
    + exists i0. rewrite get_delete_ne by done. split; [done|]. intros c.
      rewrite getComponentAt_after_remove by (done || lia).
      by destruct (Z.eqb_spec i0 idx).
    + destruct (decide (r = le)) as [->|Hrle].
      * exists idx. rewrite get_set_eq. split; [done|]. intros c.
        rewrite getComponentAt_after_remove by (done || lia).
        rewrite Z.eqb_refl. congruence.
      * exists i0. rewrite get_set_ne, get_delete_ne by done. split; [done|]. intros c.
        assert (i0 ≠ Archetype.size a - 1).
        { intros ->. congruence. }
        rewrite getComponentAt_after_remove by (done || lia).
        by destruct (Z.eqb_spec i0 idx).
  - destruct (Z.eqb_spec idx (Archetype.size a - 1)) as [Hidx|Hidx].
    + by rewrite get_delete_ne.
    + rewrite get_set_ne, get_delete_ne; [done|done|]. intros ->. congruence.
Qed.

(** [getComponent] reads the same where the archetype of the entity reads
    the same. *)
Lemma getComponent_ext w w' r T :
  Wf.world w ->
  JsMap.get (World.entityArchetype w') r = JsMap.get (World.entityArchetype w) r ->
  (forall k a, JsMap.get (World.entityArchetype w) r = Some k ->
     JsMap.get (World.archetypeBySignature w) k = Some a ->
     exists a', JsMap.get (World.archetypeBySignature w') k = Some a'
       /\ Archetype.typeIds a' = Archetype.typeIds a
       /\ match Archetype.indexOf a r with
          | None => Archetype.indexOf a' r = None
          | Some i0 =>
              exists i, Archetype.indexOf a' r = Some i
                /\ Archetype.getComponentAt a' T i = Archetype.getComponentAt a T i0
          end) ->
  World.getComponent w' r T = World.getComponent w r T.
Proof.
  intros Hwf Hents Hsame. unfold World.getComponent, World.deref. rewrite Hents.
  destruct (JsMap.get (World.entityArchetype w) r) as [k|] eqn:Hk; [|done].
  destruct (world_refs _ Hwf r k Hk) as [a Ha].
  destruct (Hsame k a eq_refl Ha) as (a' & Ha' & Hids & Hrow).
  rewrite Ha, Ha'. simpl. unfold Archetype.containsTypeId. rewrite Hids.
  destruct (Archetype.indexOf a r) as [i0|].
  - destruct Hrow as (i & -> & ->). done.
  - by rewrite Hrow.
Qed.
End Frames.

(** ** What a move leaves of the other entities *)

Section TransferFrame.
Import ComponentConstructor Wf Effects.
Implicit Types (a : Archetype.t) (c : ComponentConstructor.t) (w : World.t).

Lemma transfer_frame w0 entity (r t : World.ref) cur tgt cur'
    (values : JsMap.t string object) :
  Wf.world w0 -> Wf.entity_rows w0 ->
  JsMap.get (World.entityArchetype w0) entity = Some r ->
  JsMap.get (World.archetypeBySignature w0) r = Some cur ->
  JsMap.get (World.archetypeBySignature w0) t = Some tgt ->
  Archetype.removeEntity entity cur = (cur', Ok tt) ->
  all_storable values tgt ->
  let w' := {| World.nextEntityId := World.nextEntityId w0;
               World.entityArchetype := JsMap.set (World.entityArchetype w0) entity t;
               World.archetypeBySignature :=
                 JsMap.set (JsMap.set (World.archetypeBySignature w0) r cur') t
                   (after_addEntity entity values (if decide (t = r) then cur' else tgt)) |} in
  Wf.entity_rows w'
  /\ (forall r0 T, r0 ≠ entity -> World.getComponent w' r0 T = World.getComponent w0 r0 T)
  /\ (Wf.filed_rows w0 -> Wf.filed_rows w').
Proof.
  intros Hwf Hrows He Hr Ht Hrem Hst. pose proof Hwf as [Hars Hkeys Hrefs].
  pose proof (get_Some_elem _ _ _ Hr) as Hinr. pose proof (get_Some_elem _ _ _ Ht) as Hint.
  pose proof (registered_wf w0 r cur Hars Hinr) as Hwfc.
  pose proof (registered_wf w0 t tgt Hars Hint) as Hwft.
  destruct (Hrows r cur Hinr) as [Hcc Hfilec]. destruct (Hrows t tgt Hint) as [Hct Hfilet].
  destruct (removeEntity_others cur entity Hwfc Hcc)
    as (cur'' & Hrem' & Hwfc' & Hcc' & Hctors' & Hids' & Hmem & Hothers).
  assert (cur'' = cur') as -> by congruence.
  set (tgt1 := if decide (t = r) then cur' else tgt).
  assert (Hsame : t = r -> tgt = cur) by (intros ->; congruence).
  assert (Hwf1 : Wf.archetype tgt1) by (unfold tgt1; by case_decide).
  assert (Hc1 : index_complete tgt1) by (unfold tgt1; by case_decide).
  assert (Hst1 : all_storable values tgt1).
  { unfold tgt1. case_decide as Htr; [|done]. rewrite (Hsame Htr) in Hst.
    unfold all_storable in *. by rewrite Hctors'. }
  assert (Hnot1 : entity ∉ Archetype.entityIds tgt1).
  { unfold tgt1. case_decide as Htr.
    - intros Hin. by apply Hmem in Hin as [_ ?].
    - intros Hin. pose proof (Hfilet _ Hin) as E. rewrite He in E. by injection E. }
  assert (Hfile1 : forall e, e ∈ Archetype.entityIds tgt1 ->
            JsMap.get (World.entityArchetype w0) e = Some t).
  { unfold tgt1. case_decide as Htr; [|done]. subst t.
    intros e Hin. apply Hmem in Hin as [Hin _]. by apply Hfilec. }
  cbv zeta. fold tgt1. split; [|split].
  - intros k a Hin. simpl in Hin.
    apply elem_of_set in Hin as [[-> ->]|[Hkt Hin]]; [| |by apply NoDup_keys_set].
    + split; [by apply index_complete_add|]. intros e Hin. simpl in *.
      apply elem_of_app in Hin as [Hin|Hin].
      * rewrite get_set_ne; [by apply Hfile1|]. by intros <-.
      * apply list_elem_of_singleton in Hin. subst e. by rewrite get_set_eq.
    + apply elem_of_set in Hin as [[-> ->]|[Hkr Hin]]; [| |done].
      * split; [done|]. intros e Hin. simpl. apply Hmem in Hin as [Hin Hne].
        rewrite get_set_ne by done. by apply Hfilec.
      * destruct (Hrows k a Hin) as [Hca Hfilea]. split; [done|].
        intros e Hin'. simpl. rewrite get_set_ne; [by apply Hfilea|].
        intros <-. pose proof (Hfilea _ Hin') as E. rewrite He in E. by injection E.
  - intros r0 T Hne. apply getComponent_ext; [done| |]; simpl.
    + by rewrite get_set_ne.
    + intros k a Hr0 Ha.
      assert (Hadd : forall i0, Archetype.indexOf tgt1 r0 = Some i0 ->
                Archetype.indexOf (after_addEntity entity values tgt1) r0 = Some i0
                /\ Archetype.getComponentAt (after_addEntity entity values tgt1) T i0
                   = Archetype.getComponentAt tgt1 T i0).
      { intros i0 Hi0. split.
        - unfold Archetype.indexOf in *. simpl. by rewrite get_set_ne.
        - apply getComponentAt_after_add_frame; [done|done|].
          destruct (indexed_row tgt1 r0 i0 Hwf1 Hi0) as [? _]. lia. }
      assert (Hadd0 : Archetype.indexOf tgt1 r0 = None ->
                Archetype.indexOf (after_addEntity entity values tgt1) r0 = None).
      { intros Hi0. unfold Archetype.indexOf in *. simpl. by rewrite get_set_ne. }
      destruct (decide (k = t)) as [->|Hkt].
      * assert (a = tgt) as -> by congruence.
        exists (after_addEntity entity values tgt1). rewrite get_set_eq.
        split; [done|]. split.
        { simpl. unfold tgt1. case_decide as Htr; [by rewrite (Hsame Htr)|done]. }
        unfold tgt1 in *. case_decide as Htr.
        -- rewrite (Hsame Htr). specialize (Hothers r0 Hne).
           destruct (Archetype.indexOf cur r0) as [i0|].
           ++ destruct Hothers as (i & Hi & Hread). exists i.
              destruct (Hadd i Hi) as [Hi' Hread']. split; [done|].
              by rewrite Hread', Hread.
           ++ by apply Hadd0.
        -- destruct (Archetype.indexOf tgt r0) as [i0|] eqn:Hi0.
           ++ exists i0. by apply Hadd.
           ++ by apply Hadd0.
      * rewrite get_set_ne by done. destruct (decide (k = r)) as [->|Hkr].
        -- assert (a = cur) as -> by congruence.
           exists cur'. rewrite get_set_eq. split; [done|]. split; [done|].
           specialize (Hothers r0 Hne). destruct (Archetype.indexOf cur r0) as [i0|]; [|done].
           destruct Hothers as (i & Hi & Hread). by exists i.
        -- exists a. rewrite get_set_ne by done. split; [done|]. split; [done|].
           destruct (Archetype.indexOf a r0) as [i0|]; [|done]. by exists i0.
  - intros Hfiled e0 k a. simpl. destruct (decide (e0 = entity)) as [->|Hne].
    + rewrite get_set_eq. intros [= <-]. rewrite get_set_eq. intros [= <-]. simpl.
      apply elem_of_app. right. apply list_elem_of_here.
    + rewrite get_set_ne by done. intros He0.
      destruct (Hrefs e0 k He0) as [a0 Ha0]. pose proof (Hfiled e0 k a0 He0 Ha0) as Hin0.
      destruct (decide (k = t)) as [->|Hkt].
      * rewrite get_set_eq. intros [= <-]. simpl. apply elem_of_app. left.
        assert (a0 = tgt) as -> by congruence.
        unfold tgt1. case_decide as Htr; [|done].
        apply Hmem. split; [|done]. by rewrite <- (Hsame Htr).
      * rewrite get_set_ne by done. destruct (decide (k = r)) as [->|Hkr].
        -- rewrite get_set_eq. intros [= <-]. assert (a0 = cur) as -> by congruence.
           by apply Hmem.
        -- rewrite get_set_ne by done. intros Ha. by apply (Hfiled e0 k a).
Qed.

(** [getOrCreateArchetype] changes nothing for the entities. *)
Lemma created_frame w w0 :
  Wf.world w -> Wf.entity_rows w ->
  World.entityArchetype w0 = World.entityArchetype w ->
  (forall k a0, JsMap.get (World.archetypeBySignature w) k = Some a0 ->
     JsMap.get (World.archetypeBySignature w0) k = Some a0) ->
  (forall k a0, (k, a0) ∈ World.archetypeBySignature w0 ->
     (k, a0) ∈ World.archetypeBySignature w \/ Archetype.entityIds a0 = []) ->
  Wf.entity_rows w0
  /\ (forall r0 T, World.getComponent w0 r0 T = World.getComponent w r0 T)
  /\ (Wf.filed_rows w -> Wf.filed_rows w0).
Proof.
  intros Hwf Hrows Hents Hkeep Hnew. split; [|split].
  - intros k a Hin. destruct (Hnew k a Hin) as [Hold|Hempty].
    + rewrite Hents. by apply Hrows.
    + split; [intros i e; by rewrite Hempty|]. rewrite Hempty.
      intros e He. by apply elem_of_nil in He.
  - intros r0 T. apply getComponent_ext; [done|by rewrite Hents|].
    intros k a Hr0 Ha. exists a. split; [by apply Hkeep|]. split; [done|].
    destruct (Archetype.indexOf a r0) as [i0|]; [|done]. by exists i0.
  - intros Hfiled e k a He Ha. rewrite Hents in He.
    destruct (world_refs _ Hwf e k He) as [a0 Ha0].
    rewrite (Hkeep _ _ Ha0) in Ha. injection Ha as <-. by apply (Hfiled e k).
Qed.
End TransferFrame.

(** ** Moving an entity between archetypes *)

Section Transfer.
Import ComponentConstructor Wf Effects.
Implicit Types (a : Archetype.t) (c : ComponentConstructor.t) (w : World.t).

(** A record stored by [addEntity] reads back as it is. *)
Lemma getComponentAt_after_add_record a entity componentValues c :
  Wf.archetype a -> c ∈ Archetype.ctors a ->
  is_record (schema c) (component_value componentValues c) ->
  Archetype.getComponentAt (after_addEntity entity componentValues a) c (Archetype.size a)
  = Ok (component_value componentValues c).
Proof.
  intros Hwf Hc Hrec.
  destruct (archetype_store a c Hwf Hc) as (st & Hst & _ & Hsch & Hwfs & _). simpl in *.
  unfold Archetype.getComponentAt.
  rewrite (after_addEntity_store a entity componentValues c st) by done.
  apply get_after_set_record; [done|apply size_nonneg|by rewrite Hsch].
Qed.

(** The world after the three steps that end a move: [removeEntity] from
    the current archetype, [addEntity] to the target (which may be the
    current one), and the update of the directory. *)
Lemma transfer_spec w entity (r t : World.ref) cur tgt idx
    (values : JsMap.t string object) :
  Wf.archetypes w ->
  JsMap.get (World.archetypeBySignature w) r = Some cur ->
  JsMap.get (World.archetypeBySignature w) t = Some tgt ->
  Archetype.indexOf cur entity = Some idx ->
  all_storable values tgt ->
  exists cur' tgt1,
    Archetype.removeEntity entity cur = (cur', Ok tt)
    /\ Wf.archetype cur'
    /\ Archetype.ctors cur' = Archetype.ctors cur
    /\ Archetype.typeIds cur' = Archetype.typeIds cur
    /\ tgt1 = (if decide (t = r) then cur' else tgt)
    /\ Wf.archetype tgt1
    /\ Archetype.ctors tgt1 = Archetype.ctors tgt
    /\ Archetype.typeIds tgt1 = Archetype.typeIds tgt
    /\ (do tt <- World.call r (Archetype.removeEntity entity);
        do tt <- World.call t (Archetype.addEntity entity values);
        modify (fun w => World.with_entityArchetype
                           (JsMap.set (World.entityArchetype w) entity t) w)) w
       = ({| World.nextEntityId := World.nextEntityId w;
             World.entityArchetype := JsMap.set (World.entityArchetype w) entity t;
             World.archetypeBySignature :=
               JsMap.set (JsMap.set (World.archetypeBySignature w) r cur') t
                 (after_addEntity entity values tgt1) |}, Ok tt).
Proof.
  intros Hwf Hr Ht Hidx Hst.
  pose proof (registered_wf w r cur Hwf (get_Some_elem _ _ _ Hr)) as Hwfc.
  pose proof (registered_wf w t tgt Hwf (get_Some_elem _ _ _ Ht)) as Hwft.
  destruct (removeEntity_spec cur entity idx Hwfc Hidx) as (le & Hle & Hrun).
  assert (Hrem : removal cur entity idx le) by done.
  pose proof (after_removeEntity_wf _ _ _ _ Hrem) as Hwfc'.
  set (cur' := after_removeEntity entity idx le cur) in *.
  set (tgt1 := if decide (t = r) then cur' else tgt).
  assert (Hwf1 : Wf.archetype tgt1) by (unfold tgt1; by case_decide).
  assert (Hst1 : all_storable values tgt1).
  { unfold tgt1. case_decide as Htr; [|done]. subst t.
    unfold all_storable in *. simpl. congruence. }
  assert (Hsame : t = r -> tgt = cur) by (intros ->; congruence).
  exists cur', tgt1. do 6 (split; [done|]).
  split; [unfold tgt1; case_decide as Htr; [by rewrite (Hsame Htr)|done]|].
  split; [unfold tgt1; case_decide as Htr; [by rewrite (Hsame Htr)|done]|].
  unfold bind at 1. rewrite (call_spec r _ w cur cur' (Ok tt) Hr Hrun).
  unfold bind at 1.
  assert (Ht1 : JsMap.get (World.archetypeBySignature
                  (World.with_archetypes (JsMap.set (World.archetypeBySignature w) r cur') w)) t
                = Some tgt1).
  { simpl. unfold tgt1. case_decide as Htr.
    - subst t. by rewrite get_set_eq.
    - by rewrite get_set_ne. }
  rewrite (call_spec t _ _ tgt1 (after_addEntity entity values tgt1) (Ok tt) Ht1
             (addEntity_spec tgt1 entity values Hwf1 Hst1)).
  done.
Qed.

Lemma is_Some_get_set {K V} `{EqDecision K} (m : JsMap.t K V) k k' v :
  is_Some (JsMap.get m k) -> is_Some (JsMap.get (JsMap.set m k' v) k).
Proof.
  intros Hk. destruct (decide (k' = k)) as [->|Hne].
  - rewrite get_set_eq. by eexists.
  - by rewrite get_set_ne.
Qed.

(** The invariants of the world after a move. *)
Lemma transferred_world w entity (r t : World.ref) cur' tgt' :
  Wf.world w -> Wf.archetype cur' -> Wf.archetype tgt' ->
  Wf.world {| World.nextEntityId := World.nextEntityId w;
              World.entityArchetype := JsMap.set (World.entityArchetype w) entity t;
              World.archetypeBySignature :=
                JsMap.set (JsMap.set (World.archetypeBySignature w) r cur') t tgt' |}.
Proof.
  intros [Hars Hkeys Hrefs] Hc Ht. split; simpl.
  - unfold Wf.archetypes. simpl. by repeat apply Forall_set.
  - by repeat apply NoDup_keys_set.
  - intros e k Hk. destruct (decide (entity = e)) as [->|Hne].
    + rewrite get_set_eq in Hk. injection Hk as <-. rewrite get_set_eq. by eexists.
    + rewrite get_set_ne in Hk by done. do 2 apply is_Some_get_set. by eapply Hrefs.
Qed.

Lemma transferred_registry U w entity (r t : World.ref) cur' tgt' :
  Wf.world w -> registry U w ->
  r = Archetype.signature cur' -> Forall U (Archetype.ctors cur') ->
  t = Archetype.signature tgt' -> Forall U (Archetype.ctors tgt') ->
  registry U {| World.nextEntityId := World.nextEntityId w;
                World.entityArchetype := JsMap.set (World.entityArchetype w) entity t;
                World.archetypeBySignature :=
                  JsMap.set (JsMap.set (World.archetypeBySignature w) r cur') t tgt' |}.
Proof.
  intros [Hars Hkeys Hrefs] Hreg Hr Hc Ht Htg k a Hin. simpl in Hin.
  apply elem_of_set in Hin as [[-> ->]|[_ Hin]]; [done| |by apply NoDup_keys_set].
  apply elem_of_set in Hin as [[-> ->]|[_ Hin]]; [done| |done].
  by apply Hreg.
Qed.

(** What [getComponent] reads for an entity filed at a row. *)
Lemma getComponent_filed w entity (r : World.ref) a idx T :
  JsMap.get (World.entityArchetype w) entity = Some r ->
  JsMap.get (World.archetypeBySignature w) r = Some a ->
  Archetype.indexOf a entity = Some idx ->
  World.getComponent w entity T
  = if Archetype.containsTypeId a (typeId T)
    then result_bind (Archetype.getComponentAt a T idx) (fun v => Ok (Some v))
    else Ok None.
Proof.
  intros He Hr Hi. unfold World.getComponent, World.deref. rewrite He, Hr. simpl.
  rewrite Hi. by destruct (Archetype.containsTypeId a (typeId T)).
Qed.
End Transfer.

(** ** A structural change: the target archetype, then the move *)

Section Migration.
Import ComponentConstructor Wf Effects.
Context `{CollationOrder}.
Implicit Types (a : Archetype.t) (c : ComponentConstructor.t) (w : World.t).

Lemma copied_values_get a idx tgt c :
  NoDup (map typeId (Archetype.ctors tgt)) -> c ∈ Archetype.ctors tgt ->
  JsMap.get (copied_values a idx tgt) (typeId c) = Some (copied_value a idx c).
Proof.
  intros Hnd Hc. apply elem_get.
  - unfold copied_values, JsMap.keys. rewrite map_map. by rewrite (map_ext _ typeId).
  - unfold copied_values. apply list_elem_of_fmap. by exists c.
Qed.

Lemma migrate_spec U w entity (r : World.ref) cur idx
    (l : list ComponentConstructor.t) (values : JsMap.t string object) :
  classes U -> Wf.world w -> registry U w ->
  JsMap.get (World.archetypeBySignature w) r = Some cur ->
  Archetype.indexOf cur entity = Some idx ->
  Forall U l -> NoDup (map typeId l) ->
  Forall (fun c => storable (schema c) (component_value values c) = true) l ->
  exists w0 tgt cur' tgt1,
    World.getOrCreateArchetype l w
    = (w0, Ok (join "|" (map typeId (sort by_typeId l))))
    /\ World.entityArchetype w0 = World.entityArchetype w
    /\ JsMap.get (World.archetypeBySignature w0) r = Some cur
    /\ JsMap.get (World.archetypeBySignature w0) (join "|" (map typeId (sort by_typeId l)))
       = Some tgt
    /\ Archetype.ctors tgt = sort by_typeId l
    /\ Wf.archetype tgt /\ Wf.archetype tgt1
    /\ Archetype.ctors tgt1 = sort by_typeId l
    /\ Archetype.ctors cur' = Archetype.ctors cur
    /\ all_storable values tgt1
    /\ let w' := {| World.nextEntityId := World.nextEntityId w0;
                    World.entityArchetype :=
                      JsMap.set (World.entityArchetype w0) entity
                        (join "|" (map typeId (sort by_typeId l)));
                    World.archetypeBySignature :=
                      JsMap.set (JsMap.set (World.archetypeBySignature w0) r cur')
                        (join "|" (map typeId (sort by_typeId l)))
                        (after_addEntity entity values tgt1) |} in
       (do tt <- World.call r (Archetype.removeEntity entity);
        do tt <- World.call (join "|" (map typeId (sort by_typeId l)))
                   (Archetype.addEntity entity values);
        modify (fun w => World.with_entityArchetype
                           (JsMap.set (World.entityArchetype w) entity
                              (join "|" (map typeId (sort by_typeId l)))) w)) w0
       = (w', Ok tt)
       /\ Wf.world w' /\ registry U w'
       /\ (JsMap.get (World.entityArchetype w) entity = Some r -> Wf.entity_rows w ->
           Wf.entity_rows w'
           /\ (forall r0 T, r0 ≠ entity ->
                 World.getComponent w' r0 T = World.getComponent w r0 T)
           /\ (Wf.filed_rows w -> Wf.filed_rows w')).
Proof.
  intros HU Hwf Hreg Hr Hidx Hl Hnd Hst.
  destruct (getOrCreateArchetype_spec U l w HU Hwf Hreg Hl Hnd)
    as (w0 & tgt & Hrun & Ht & Hctors & Hwf0 & Hreg0 & Hents & _ & Hkeep & Hnew).
  set (t := join "|" (map typeId (sort by_typeId l))) in *.
  pose proof (Hkeep _ _ Hr) as Hr0.
  pose proof (registered_wf w0 t tgt (world_archetypes _ Hwf0) (get_Some_elem _ _ _ Ht)) as Hwft.
  assert (Hstt : all_storable values tgt).
  { unfold all_storable. rewrite Hctors. by rewrite sort_perm. }
  destruct (transfer_spec w0 entity r t cur tgt idx values (world_archetypes _ Hwf0)
              Hr0 Ht Hidx Hstt)
    as (cur' & tgt1 & Hrem & Hwfc' & Hcc & Hct & Htgt1 & Hwf1 & Hc1 & Hi1 & Htransfer).
  assert (Hst1 : all_storable values tgt1).
  { unfold all_storable in *. by rewrite Hc1. }
  exists w0, tgt, cur', tgt1. do 7 (split; [done|]).
  split; [by rewrite Hc1|]. split; [done|]. split; [done|].
  cbv zeta. split; [done|].
  destruct (Hreg0 r cur (get_Some_elem _ _ _ Hr0)) as [Hsigr Hur].
  destruct (Hreg0 t tgt (get_Some_elem _ _ _ Ht)) as [Hsigt Hut].
  split; [|split].
  - apply transferred_world; [done|done|]. by apply after_addEntity_wf.
  - apply transferred_registry; try done.
    + unfold Archetype.signature in *. by rewrite Hct.
    + by rewrite Hcc.
    + unfold Archetype.signature in *. simpl. by rewrite Hi1.
    + simpl. by rewrite Hc1.
  - intros He Hrows.
    destruct (created_frame w w0 Hwf Hrows Hents Hkeep Hnew) as (Hrows0 & Hsame0 & Hfiled0).
    rewrite <- Hents in He.
    destruct (transfer_frame w0 entity r t cur tgt cur' values Hwf0 Hrows0 He Hr0 Ht
                Hrem Hstt) as (Hrows' & Hframe & Hfiled').
    rewrite <- Htgt1 in Hrows', Hframe, Hfiled'. split; [done|]. split.
    + intros r0 T Hne. by rewrite Hframe, Hsame0.
    + intros Hfiled. by apply Hfiled', Hfiled0.
Qed.
End Migration.

(** ** [addComponent] and [removeComponent] *)

Section StructuralChanges.
Import ComponentConstructor Wf Effects.
Context `{CollationOrder}.
Implicit Types (a : Archetype.t) (c : ComponentConstructor.t) (w : World.t).

Lemma existsb_typeId (l : list ComponentConstructor.t) ctor :
  existsb (fun c => String.eqb (typeId c) (typeId ctor)) l = bool_decide (typeId ctor ∈ map typeId l).
Proof.
  induction l as [|c l IH]; simpl; [done|].
  rewrite IH. destruct (String.eqb_spec (typeId c) (typeId ctor)) as [Heq|Hne]; simpl.
  - symmetry. apply bool_decide_eq_true. apply elem_of_cons. by left.
  - apply bool_decide_ext. rewrite elem_of_cons.
    split; [by right|intros [Heq|?]; [by symmetry in Heq|done]].
Qed.

Lemma filter_added (cs : list ComponentConstructor.t) ctor :
  typeId ctor ∉ map typeId cs ->
  filter (fun c => typeId c ≠ typeId ctor) (cs ++ [ctor]) = cs.
Proof.
  induction cs as [|c cs IH]; simpl; intros Hnot.
  - rewrite filter_cons_False; [done|]. by intros Hne.
  - apply not_elem_of_cons in Hnot as [Hne Hnot].
    rewrite filter_cons_True by (by intros Heq). by rewrite IH.
Qed.

(** The component of the type [c] in the values [addComponent] hands to the
    target. *)
Lemma merged_value a idx (sorted : list ComponentConstructor.t) ctor value c :
  NoDup (map typeId sorted) -> c ∈ sorted ->
  component_value
    (JsMap.set (map (fun c => (typeId c, copied_value a idx c)) sorted) (typeId ctor) value) c
  = if decide (typeId c = typeId ctor) then value else copied_value a idx c.
Proof.
  intros Hnd Hc. unfold component_value. case_decide as Hid.
  - by rewrite Hid, get_set_eq.
  - rewrite get_set_ne by done.
    rewrite (elem_get _ (typeId c) (copied_value a idx c)); [done| |].
    + unfold JsMap.keys. rewrite map_map. by rewrite (map_ext _ typeId).
    + apply list_elem_of_fmap. by exists c.
Qed.

(** A value copied from a row of a well-formed archetype is a record of its
    type. *)
Lemma copied_record U a idx c :
  classes U -> Wf.archetype a -> Forall U (Archetype.ctors a) -> U c ->
  0 <= idx -> typeId c ∈ Archetype.typeIds a ->
  c ∈ Archetype.ctors a
  /\ Archetype.getComponentAt a c idx = Ok (copied_value a idx c)
  /\ is_record (schema c) (copied_value a idx c).
Proof.
  intros HU Hwf Ha Hc Hi Hin.
  destruct (archetype_store_by_id a _ Hwf Hin) as (c' & st & Hc' & Hid & _).
  assert (c' = c) as ->.
  { apply (class_of_id U HU); [|done|done]. rewrite Forall_forall in Ha. by apply Ha. }
  split; [done|].
  pose proof (copied_value_spec a c idx Hwf (or_introl Hi)) as Hv.
  rewrite decide_True in Hv by done. split; [done|].
  destruct (getComponentAt_total a c idx Hwf Hc' (or_introl Hi)) as (o & Ho & Hrec).
  congruence.
Qed.

Lemma addComponent_spec U w entity ctor value (r : World.ref) cur idx :
  classes U -> U ctor -> Wf.world w -> registry U w ->
  JsMap.get (World.entityArchetype w) entity = Some r ->
  JsMap.get (World.archetypeBySignature w) r = Some cur ->
  Archetype.indexOf cur entity = Some idx ->
  storable (schema ctor) value = true ->
  exists w' t tgt' idx',
    World.addComponent entity ctor value w = (w', Ok tt)
    /\ Wf.world w' /\ registry U w'
    /\ JsMap.get (World.entityArchetype w') entity = Some t
    /\ JsMap.get (World.archetypeBySignature w') t = Some tgt'
    /\ Archetype.ctors tgt'
       = sort by_typeId (if bool_decide (typeId ctor ∈ map typeId (Archetype.ctors cur))
                         then Archetype.ctors cur else Archetype.ctors cur ++ [ctor])
    /\ Archetype.indexOf tgt' entity = Some idx'
    /\ Archetype.getComponentAt tgt' ctor idx'
       = Ok (map (fun f => (f.1, stored_value value f)) (schema ctor))
    /\ (forall c, c ∈ Archetype.ctors cur -> typeId c ≠ typeId ctor ->
          Archetype.getComponentAt tgt' c idx' = Archetype.getComponentAt cur c idx)
    /\ (Wf.entity_rows w ->
        Wf.entity_rows w'
        /\ (forall r0 T, r0 ≠ entity ->
              World.getComponent w' r0 T = World.getComponent w r0 T)
        /\ (Wf.filed_rows w -> Wf.filed_rows w')).
Proof.
  intros HU Hctor Hwf Hreg Hents Hr Hidx Hst.
  pose proof (registered_wf w r cur (world_archetypes _ Hwf) (get_Some_elem _ _ _ Hr)) as Hwfc.
  destruct (Hreg r cur (get_Some_elem _ _ _ Hr)) as [Hsig Hucur].
  destruct (archetype_index _ Hwfc _ _ Hidx) as [Hidx0 _].
  pose proof (archetype_ctor_ids _ Hwfc) as Hndc.
  set (l := if bool_decide (typeId ctor ∈ map typeId (Archetype.ctors cur))
            then Archetype.ctors cur else Archetype.ctors cur ++ [ctor]).
  assert (Hl : Forall U l /\ NoDup (map typeId l) /\ ctor ∈ l
               /\ forall c, c ∈ l -> typeId c ≠ typeId ctor -> c ∈ Archetype.ctors cur).
  { unfold l. case_bool_decide as Hin.
    - split; [done|]. split; [done|]. split; [|done].
      apply list_elem_of_fmap in Hin as (c & Hid & Hc).
      assert (c = ctor) as <-; [|done].
      apply (class_of_id U HU); [|done|done]. rewrite Forall_forall in Hucur. by apply Hucur.
    - split; [apply Forall_app; split; [done|by constructor]|]. split.
      + rewrite map_app. apply NoDup_app. split; [done|]. split; [|apply NoDup_singleton].
        intros x Hx Hx'. apply list_elem_of_singleton in Hx'. by subst x.
      + split; [apply elem_of_app; right; apply elem_of_cons; by left|].
        intros c Hc Hne. apply elem_of_app in Hc as [Hc|Hc]; [done|].
        apply list_elem_of_singleton in Hc. by subst c. }
  destruct Hl as (Hul & Hndl & Hctorl & Hothers).
  assert (Hnds : NoDup (map typeId (sort by_typeId l))) by (by rewrite sort_perm).
  set (values := JsMap.set (map (fun c => (typeId c, copied_value cur idx c))
                                (sort by_typeId l)) (typeId ctor) value).
  assert (Hvalue : forall c, c ∈ l ->
            component_value values c
            = if decide (typeId c = typeId ctor) then value else copied_value cur idx c).
  { intros c Hc. apply merged_value; [done|]. by rewrite sort_perm. }
  assert (Hcopied : forall c, c ∈ Archetype.ctors cur ->
            Archetype.getComponentAt cur c idx = Ok (copied_value cur idx c)
            /\ is_record (schema c) (copied_value cur idx c)).
  { intros c Hc. apply (copied_record U); try done.
    - rewrite Forall_forall in Hucur. by apply Hucur.
    - rewrite (archetype_typeIds _ Hwfc). by apply list_elem_of_fmap_2. }
  assert (Hstl : Forall (fun c => storable (schema c) (component_value values c) = true) l).
  { apply Forall_forall. intros c Hc. rewrite Hvalue by done. case_decide as Hid.
    - assert (c = ctor) as ->; [|done].
      apply (class_of_id U HU); [|done|done]. rewrite Forall_forall in Hul. by apply Hul.
    - apply record_storable; [by apply Hcopied, Hothers|].
      apply (class_schema U HU). rewrite Forall_forall in Hul. by apply Hul. }
  destruct (migrate_spec U w entity r cur idx l values HU Hwf Hreg Hr Hidx Hul Hndl Hstl)
    as (w0 & tgt & cur' & tgt1 & Hrun & Hents0 & Hr0 & Ht & Hctgt & Hwft & Hwf1 & Hc1 & _
        & Hst1 & Hmove & Hwf' & Hreg' & Hframe).
  set (t := join "|" (map typeId (sort by_typeId l))) in *.
  eexists _, t, (after_addEntity entity values tgt1), (Archetype.size tgt1).
  split.
  { match type of Hmove with _ = ?rhs =>
      assert (Hmw : World.move_with entity r t ctor value w0 = rhs) end.
    { unfold World.move_with, World.deref. unfold bind at 1. cbv beta. rewrite Hr0.
      unfold bind at 1. cbv beta. rewrite Ht. rewrite Hidx.
      unfold bind at 1. unfold lift_result at 1.
      rewrite copyEntityTo_spec; [|done|by left|by rewrite Hctgt].
      unfold copied_values. rewrite Hctgt. fold values. exact Hmove. }
    unfold World.addComponent, World.deref. rewrite Hents, Hr.
    unfold Archetype.copyConstructorList. rewrite existsb_typeId. fold l.
    unfold bind at 1. rewrite Hrun. fold t.
    unfold bind at 1. cbv beta. rewrite Hr0.
    unfold bind at 1. cbv beta. rewrite Ht.
    by destruct (String.eqb _ _). }
  split; [done|]. split; [done|].
  split; [simpl; by rewrite get_set_eq|]. split; [simpl; by rewrite get_set_eq|].
  split; [done|].
  split; [unfold Archetype.indexOf; simpl; by rewrite get_set_eq|].
  assert (Hin1 : forall c, c ∈ l -> c ∈ Archetype.ctors tgt1)
    by (intros c Hc; rewrite Hc1; by rewrite sort_perm).
  split; [|split; [|by apply Hframe]].
  - destruct (getComponentAt_after_add tgt1 entity values ctor Hwf1 Hst1 (Hin1 _ Hctorl))
      as [Hrow _].
    rewrite Hrow, Hvalue by done. by rewrite decide_True.
  - intros c Hc Hne.
    assert (Hcl : c ∈ l).
    { unfold l. case_bool_decide; [done|]. apply elem_of_app. by left. }
    destruct (Hcopied c Hc) as [Hread Hrec].
    rewrite Hread. rewrite <- (decide_False (P := typeId c = typeId ctor) value _ Hne).
    rewrite <- Hvalue by done.
    apply getComponentAt_after_add_record; [done|by apply Hin1|].
    rewrite Hvalue by done. by rewrite decide_False.
Qed.

Lemma removeComponent_spec U w entity ctor (r : World.ref) cur idx :
  classes U -> Wf.world w -> registry U w ->
  JsMap.get (World.entityArchetype w) entity = Some r ->
  JsMap.get (World.archetypeBySignature w) r = Some cur ->
  Archetype.indexOf cur entity = Some idx ->
  typeId ctor ∈ Archetype.typeIds cur ->
  exists w' t tgt' idx',
    World.removeComponent entity ctor w = (w', Ok tt)
    /\ Wf.world w' /\ registry U w'
    /\ JsMap.get (World.entityArchetype w') entity = Some t
    /\ JsMap.get (World.archetypeBySignature w') t = Some tgt'
    /\ Archetype.ctors tgt'
       = sort by_typeId (filter (fun c => typeId c ≠ typeId ctor) (Archetype.ctors cur))
    /\ Archetype.indexOf tgt' entity = Some idx'
    /\ (forall c, c ∈ Archetype.ctors cur -> typeId c ≠ typeId ctor ->
          Archetype.getComponentAt tgt' c idx' = Archetype.getComponentAt cur c idx)
    /\ (Wf.entity_rows w ->
        Wf.entity_rows w'
        /\ (forall r0 T, r0 ≠ entity ->
              World.getComponent w' r0 T = World.getComponent w r0 T)
        /\ (Wf.filed_rows w -> Wf.filed_rows w')).
Proof.
  intros HU Hwf Hreg Hents Hr Hidx Hin.
  pose proof (registered_wf w r cur (world_archetypes _ Hwf) (get_Some_elem _ _ _ Hr)) as Hwfc.
  destruct (Hreg r cur (get_Some_elem _ _ _ Hr)) as [Hsig Hucur].
  destruct (archetype_index _ Hwfc _ _ Hidx) as [Hidx0 _].
  pose proof (archetype_ctor_ids _ Hwfc) as Hndc.
  set (l := filter (fun c => typeId c ≠ typeId ctor) (Archetype.ctors cur)).
  assert (Hul : Forall U l).
  { apply Forall_forall. intros c Hc. apply list_elem_of_filter in Hc as [_ Hc].
    rewrite Forall_forall in Hucur. by apply Hucur. }
  assert (Hndl : NoDup (map typeId l)).
  { eapply sublist_NoDup; [exact Hndc|]. apply (fmap_sublist typeId), sublist_filter. }
  assert (Hnds : NoDup (map typeId (sort by_typeId l))) by (by rewrite sort_perm).
  set (values := map (fun c => (typeId c, copied_value cur idx c)) (sort by_typeId l)).
  assert (Hvalue : forall c, c ∈ l -> component_value values c = copied_value cur idx c).
  { intros c Hc. unfold component_value.
    rewrite (elem_get values (typeId c) (copied_value cur idx c)); [done| |].
    - unfold values, JsMap.keys. rewrite map_map. by rewrite (map_ext _ typeId).
    - apply list_elem_of_fmap. exists c. split; [done|]. by rewrite sort_perm. }
  assert (Hcopied : forall c, c ∈ Archetype.ctors cur ->
            Archetype.getComponentAt cur c idx = Ok (copied_value cur idx c)
            /\ is_record (schema c) (copied_value cur idx c)).
  { intros c Hc. apply (copied_record U); try done.
    - rewrite Forall_forall in Hucur. by apply Hucur.
    - rewrite (archetype_typeIds _ Hwfc). by apply list_elem_of_fmap_2. }
  assert (Hstl : Forall (fun c => storable (schema c) (component_value values c) = true) l).
  { apply Forall_forall. intros c Hc. rewrite Hvalue by done.
    apply list_elem_of_filter in Hc as [_ Hc].
    apply record_storable; [by apply Hcopied|].
    apply (class_schema U HU). rewrite Forall_forall in Hucur. by apply Hucur. }
  destruct (migrate_spec U w entity r cur idx l values HU Hwf Hreg Hr Hidx Hul Hndl Hstl)
    as (w0 & tgt & cur' & tgt1 & Hrun & Hents0 & Hr0 & Ht & Hctgt & Hwft & Hwf1 & Hc1 & _
        & Hst1 & Hmove & Hwf' & Hreg' & Hframe).
  set (t := join "|" (map typeId (sort by_typeId l))) in *.
  eexists _, t, (after_addEntity entity values tgt1), (Archetype.size tgt1).
  split.
  { unfold World.removeComponent, World.deref. rewrite Hents.
    unfold bind at 1. cbv beta. rewrite Hr.
    unfold Archetype.containsTypeId. rewrite bool_decide_eq_true_2 by done.
    cbn [negb]. unfold Archetype.copyConstructorList. fold l.
    unfold bind at 1. rewrite Hrun. fold t.
    unfold bind at 1. cbv beta. rewrite Ht. rewrite Hidx.
    unfold bind at 1. unfold lift_result at 1.
    rewrite copyEntityTo_spec; [|done|by left|by rewrite Hctgt].
    unfold copied_values. rewrite Hctgt. fold values. exact Hmove. }
  split; [done|]. split; [done|].
  split; [simpl; by rewrite get_set_eq|]. split; [simpl; by rewrite get_set_eq|].
  split; [done|].
  split; [unfold Archetype.indexOf; simpl; by rewrite get_set_eq|].
  split; [|by apply Hframe].
  intros c Hc Hne.
  assert (Hcl : c ∈ l) by (by apply list_elem_of_filter).
  destruct (Hcopied c Hc) as [Hread Hrec].
  rewrite Hread, <- Hvalue by done.
  apply getComponentAt_after_add_record; [done| |by rewrite Hvalue].
  rewrite Hc1. by rewrite sort_perm.
Qed.
End StructuralChanges.

(** ** [addEntityWithComponents] *)

Section NewEntities.
Import ComponentConstructor Wf Effects.
Context `{CollationOrder}.
Implicit Types (a : Archetype.t) (c : ComponentConstructor.t) (w : World.t).

(** [mapValues]: the values keyed by type id. *)
Lemma mapValues_spec (components : list (ComponentConstructor.t * object)) :
  forall m0 : JsMap.t string object,
  NoDup (JsMap.keys m0 ++ map typeId (map fst components)) ->
  foldl (fun m '(k, v) => JsMap.set m (typeId k) v) m0 components
  = m0 ++ map (fun p => (typeId p.1, p.2)) components.
Proof.
  induction components as [|[c v] components IH]; intros m0 Hnd; simpl.
  - by rewrite app_nil_r.
  - assert (Hk : typeId c ∉ JsMap.keys m0).
    { apply NoDup_app in Hnd as (_ & Hd & _). intros Hin. apply (Hd _ Hin).
      apply elem_of_cons. by left. }
    rewrite set_absent by done. rewrite IH.
    + by rewrite <- app_assoc.
    + unfold JsMap.keys in *. rewrite map_app. simpl. by rewrite <- app_assoc.
Qed.

Lemma addEntityWithComponents_spec U w entity
    (components : list (ComponentConstructor.t * object)) :
  classes U -> Wf.world w -> registry U w ->
  Forall U (map fst components) -> NoDup (map typeId (map fst components)) ->
  Forall (fun p => storable (schema p.1) p.2 = true) components ->
  exists w0 tgt,
    JsMap.get (World.archetypeBySignature w0)
      (join "|" (map typeId (sort by_typeId (map fst components)))) = Some tgt
    /\ Wf.archetype tgt
    /\ Archetype.ctors tgt = sort by_typeId (map fst components)
    /\ all_storable (map (fun p => (typeId p.1, p.2)) components) tgt
    /\ Wf.world w0 /\ registry U w0
    /\ World.entityArchetype w0 = World.entityArchetype w
    /\ (forall k a0, JsMap.get (World.archetypeBySignature w) k = Some a0 ->
          JsMap.get (World.archetypeBySignature w0) k = Some a0)
    /\ (forall k a0, (k, a0) ∈ World.archetypeBySignature w0 ->
          (k, a0) ∈ World.archetypeBySignature w \/ Archetype.entityIds a0 = [])
    /\ (forall c v, (c, v) ∈ components ->
          component_value (map (fun p => (typeId p.1, p.2)) components) c = v)
    /\ World.addEntityWithComponents entity components w
       = ({| World.nextEntityId := World.nextEntityId w0;
             World.entityArchetype :=
               JsMap.set (World.entityArchetype w0) entity
                 (join "|" (map typeId (sort by_typeId (map fst components))));
             World.archetypeBySignature :=
               JsMap.set (World.archetypeBySignature w0)
                 (join "|" (map typeId (sort by_typeId (map fst components))))
                 (after_addEntity entity (map (fun p => (typeId p.1, p.2)) components)
                    tgt) |}, Ok tt).
Proof.
  intros HU Hwf Hreg Hu Hnd Hst.
  destruct (getOrCreateArchetype_spec U _ w HU Hwf Hreg Hu Hnd)
    as (w0 & tgt & Hrun & Ht & Hctors & Hwf0 & Hreg0 & Hents & _ & Hkeep & Hnew).
  set (t := join "|" (map typeId (sort by_typeId (map fst components)))) in *.
  set (values := map (fun p => (typeId p.1, p.2)) components).
  pose proof (registered_wf w0 t tgt (world_archetypes _ Hwf0) (get_Some_elem _ _ _ Ht)) as Hwft.
  assert (Hvalue : forall c v, (c, v) ∈ components -> component_value values c = v).
  { intros c v Hcv. unfold component_value.
    rewrite (elem_get values (typeId c) v); [done| |].
    - unfold values, JsMap.keys. rewrite map_map. simpl.
      by rewrite <- (map_map fst typeId).
    - apply list_elem_of_fmap. by exists (c, v). }
  assert (Hstt : all_storable values tgt).
  { unfold all_storable. rewrite Hctors. rewrite sort_perm.
    apply Forall_fmap. rewrite Forall_forall in Hst. apply Forall_forall.
    intros [c v] Hcv. simpl. rewrite (Hvalue c v Hcv). by apply (Hst (c, v)). }
  exists w0, tgt. do 10 (split; [done|]).
  unfold World.addEntityWithComponents. unfold bind at 1. rewrite Hrun. fold t.
  rewrite (mapValues_spec components JsMap.empty) by done.
  change (JsMap.empty ++ map (fun p => (typeId p.1, p.2)) components) with values.
  unfold bind at 1.
  rewrite (call_spec t _ w0 tgt (after_addEntity entity values tgt) (Ok tt) Ht
             (addEntity_spec tgt entity values Hwft Hstt)).
  done.
Qed.
End NewEntities.

(** ** The classes and the worlds of the examples *)

Section ExampleWorlds.
Import ComponentConstructor Wf Effects.

Lemma example_classes : Wf.classes Examples.is_class.
Proof.
  split; unfold Examples.is_class.
  - intros c1 c2 H1 H2 Hid.
    repeat (apply elem_of_cons in H1 as [->|H1]); [| | |by apply elem_of_nil in H1];
      repeat (apply elem_of_cons in H2 as [->|H2]); try done;
      by apply elem_of_nil in H2.
  - intros c Hc.
    repeat (apply elem_of_cons in Hc as [->|Hc]); [by vm_compute..|].
    by apply elem_of_nil in Hc.
  - intros c Hc.
    repeat (apply elem_of_cons in Hc as [->|Hc]);
      [apply (bool_decide_unpack _); by vm_compute..|].
    by apply elem_of_nil in Hc.
Qed.

Lemma new_world_wf : Wf.world World.new /\ Wf.entity_rows World.new.
Proof.
  split.
  - split; [by constructor|by constructor|done].
  - intros k a Hin. by apply elem_of_nil in Hin.
Qed.

Lemma new_world_registry U : Wf.registry U World.new.
Proof. intros k a Hin. by apply elem_of_nil in Hin. Qed.

Local Ltac storable_row :=
  unfold all_storable; cbn [Archetype.ctors after_addEntity fresh_archetype];
  repeat (constructor; [by vm_compute|]); constructor.

Lemma two_movers_wf : Wf.archetypes Examples.two_movers.
Proof.
  unfold Wf.archetypes, Examples.two_movers. simpl. constructor; [|constructor]. simpl.
  repeat (apply after_addEntity_wf; [|storable_row]).
  apply fresh_archetype_wf; [apply (bool_decide_unpack _); by vm_compute|].
  repeat (constructor; [apply (bool_decide_unpack _); by vm_compute|]). constructor.
Qed.

Lemma two_movers_world : Wf.world Examples.two_movers /\ Wf.entity_rows Examples.two_movers.
Proof.
  split.
  - split; [apply two_movers_wf| |].
    + simpl. apply (bool_decide_unpack _). by vm_compute.
    + intros e r Hg. simpl in Hg.
      repeat case_decide; try done; injection Hg as <-; eexists; by vm_compute.
  - intros k a Hin. simpl in Hin. apply list_elem_of_singleton in Hin. injection Hin as -> ->.
    split.
    + repeat (apply index_complete_add; [|apply (bool_decide_unpack _); by vm_compute]).
      by intros i e.
    + intros e He. simpl in He.
      apply elem_of_cons in He as [->|He]; [done|].
      apply list_elem_of_singleton in He as ->. done.
Qed.

Lemma two_movers_filed : Wf.filed_rows Examples.two_movers.
Proof.
  intros e k a He Ha. simpl in He.
  repeat case_decide; try done; subst e; injection He as <-;
    simpl in Ha; injection Ha as <-; simpl;
    repeat first [apply list_elem_of_here | apply list_elem_of_further].
Qed.

(** The world where the entity 1 was given its position twice: its one
    archetype holds the entity in two rows. *)
Lemma twice_added_unfold :
  Examples.twice_added
  = {| World.nextEntityId := 2;
       World.entityArchetype := [(1, "Position"%string)];
       World.archetypeBySignature :=
         [("Position"%string,
           after_addEntity 1 [("Position"%string, Examples.position 6 8)]
             (after_addEntity 1 [("Position"%string, Examples.position 5 7)]
                (fresh_archetype [Examples.Position])))] |}.
Proof. by vm_compute. Qed.

Lemma twice_added_world : Wf.world Examples.twice_added.
Proof.
  rewrite twice_added_unfold. split.
  - unfold Wf.archetypes. simpl. constructor; [|constructor]. simpl.
    repeat (apply after_addEntity_wf; [|storable_row]).
    apply fresh_archetype_wf; [apply (bool_decide_unpack _); by vm_compute|].
    repeat (constructor; [apply (bool_decide_unpack _); by vm_compute|]). constructor.
  - simpl. apply (bool_decide_unpack _). by vm_compute.
  - intros e r Hg. simpl in Hg.
    repeat case_decide; try done; injection Hg as <-; eexists; by vm_compute.
Qed.

(** The world with the class [Combined] is well formed. *)
Lemma with_combined_unfold :
  Examples.with_combined
  = {| World.nextEntityId := 3;
       World.entityArchetype :=
         [(1, "Position|Velocity"%string); (2, "Health|Position|Velocity"%string)];
       World.archetypeBySignature :=
         [("Position|Velocity"%string,
           after_addEntity 1
             [("Position"%string, Examples.position 1 2);
              ("Velocity"%string, Examples.velocity 3 4)]
             (fresh_archetype [Examples.Position; Examples.Velocity]));
          ("Health|Position|Velocity"%string,
           after_addEntity 2
             [("Health|Position|Velocity"%string, [("n"%string, Examples.num 7)])]
             (fresh_archetype [Examples.Combined]))] |}.
Proof. by vm_compute. Qed.

Lemma with_combined_world : Wf.world Examples.with_combined.
Proof.
  rewrite with_combined_unfold. split.
  - unfold Wf.archetypes. simpl. constructor; [|constructor; [|constructor]]; simpl.
    + repeat (apply after_addEntity_wf; [|storable_row]).
      apply fresh_archetype_wf; [apply (bool_decide_unpack _); by vm_compute|].
      repeat (constructor; [apply (bool_decide_unpack _); by vm_compute|]). constructor.
    + repeat (apply after_addEntity_wf; [|storable_row]).
      apply fresh_archetype_wf; [apply (bool_decide_unpack _); by vm_compute|].
      repeat (constructor; [apply (bool_decide_unpack _); by vm_compute|]). constructor.
  - simpl. apply (bool_decide_unpack _). by vm_compute.
  - intros e r Hg. simpl in Hg.
    repeat case_decide; try done; injection Hg as <-; eexists; by vm_compute.
Qed.

Lemma two_movers_registry : registry Examples.is_class Examples.two_movers.
Proof.
  intros k a Hin. simpl in Hin. apply list_elem_of_singleton in Hin.
  injection Hin as -> ->. split; [by vm_compute|].
  simpl. unfold Examples.is_class.
  repeat (constructor;
          [repeat first [apply list_elem_of_here | apply list_elem_of_further]|]).
  constructor.
Qed.
End ExampleWorlds.

(** ** What [getComponent] reads after a structural change *)

Section StructuralReads.
Import ComponentConstructor Wf Effects.
Context `{CollationOrder}.
Implicit Types (a : Archetype.t) (c : ComponentConstructor.t) (w : World.t).

(** What [getComponent] reads for a type other than [ctor] when the entity
    has moved from [cur] to an archetype that reads the same for the types
    of [cur] other than [ctor], and has these types and at most [ctor]
    besides. *)
Lemma moved_reads w w' entity ctor (r t : World.ref) cur tgt' idx idx' T :
  Wf.archetype cur -> Wf.archetype tgt' ->
  JsMap.get (World.entityArchetype w) entity = Some r ->
  JsMap.get (World.archetypeBySignature w) r = Some cur ->
  Archetype.indexOf cur entity = Some idx ->
  JsMap.get (World.entityArchetype w') entity = Some t ->
  JsMap.get (World.archetypeBySignature w') t = Some tgt' ->
  Archetype.indexOf tgt' entity = Some idx' ->
  (forall c, c ∈ Archetype.ctors tgt' -> typeId c ≠ typeId ctor -> c ∈ Archetype.ctors cur) ->
  (forall c, c ∈ Archetype.ctors cur -> typeId c ≠ typeId ctor ->
     c ∈ Archetype.ctors tgt'
     /\ Archetype.getComponentAt tgt' c idx' = Archetype.getComponentAt cur c idx) ->
  typeId T ≠ typeId ctor ->
  World.getComponent w' entity T = World.getComponent w entity T.
Proof.
  intros Hwfc Hwft He Hr Hidx He' Ht Hidx' Hback Hread HT.
  rewrite (getComponent_filed w' entity t tgt' idx') by done.
  rewrite (getComponent_filed w entity r cur idx) by done.
  unfold Archetype.containsTypeId.
  destruct (decide (typeId T ∈ Archetype.typeIds cur)) as [Hin|Hout].
  - destruct (archetype_store_by_id cur _ Hwfc Hin) as (c & st & Hc & Hid & _).
    destruct (Hread c Hc) as [Hc' Hsame]; [congruence|].
    rewrite (bool_decide_eq_true_2 (typeId T ∈ Archetype.typeIds cur)) by done.
    rewrite bool_decide_eq_true_2.
    + rewrite !(getComponentAt_same_id _ T c) by done. by rewrite Hsame.
    + rewrite (archetype_typeIds _ Hwft), <- Hid. by apply list_elem_of_fmap_2.
  - rewrite (bool_decide_eq_false_2 (typeId T ∈ Archetype.typeIds cur)) by done.
    rewrite bool_decide_eq_false_2; [done|].
    intros Hin. rewrite (archetype_typeIds _ Hwft) in Hin.
    apply list_elem_of_fmap in Hin as (c & Hid & Hc).
    apply Hout. rewrite (archetype_typeIds _ Hwfc), Hid.
    apply list_elem_of_fmap_2. apply Hback; [done|congruence].
Qed.

Lemma addComponent_reads U w entity ctor value (r : World.ref) cur idx :
  classes U -> U ctor -> Wf.world w -> registry U w ->
  JsMap.get (World.entityArchetype w) entity = Some r ->
  JsMap.get (World.archetypeBySignature w) r = Some cur ->
  Archetype.indexOf cur entity = Some idx ->
  storable (schema ctor) value = true ->
  exists w' t tgt' idx',
    World.addComponent entity ctor value w = (w', Ok tt)
    /\ Wf.world w' /\ registry U w'
    /\ JsMap.get (World.entityArchetype w') entity = Some t
    /\ JsMap.get (World.archetypeBySignature w') t = Some tgt'
    /\ Archetype.indexOf tgt' entity = Some idx'
    /\ Archetype.ctors tgt'
       ≡ₚ (if bool_decide (typeId ctor ∈ map typeId (Archetype.ctors cur))
           then Archetype.ctors cur else Archetype.ctors cur ++ [ctor])
    /\ World.getComponent w' entity ctor
       = Ok (Some (map (fun f => (f.1, stored_value value f)) (schema ctor)))
    /\ (forall T, typeId T ≠ typeId ctor ->
          World.getComponent w' entity T = World.getComponent w entity T)
    /\ (Wf.entity_rows w ->
        Wf.entity_rows w'
        /\ (forall r0 T, r0 ≠ entity ->
              World.getComponent w' r0 T = World.getComponent w r0 T)
        /\ (Wf.filed_rows w -> Wf.filed_rows w')).
Proof.
  intros HU Hctor Hwf Hreg He Hr Hidx Hst.
  destruct (addComponent_spec U w entity ctor value r cur idx HU Hctor Hwf Hreg He Hr Hidx Hst)
    as (w' & t & tgt' & idx' & Hrun & Hwf' & Hreg' & He' & Ht & Hctors & Hidx' & Hnew & Hold & Hframe).
  pose proof (registered_wf w r cur (world_archetypes _ Hwf) (get_Some_elem _ _ _ Hr)) as Hwfc.
  pose proof (registered_wf w' t tgt' (world_archetypes _ Hwf') (get_Some_elem _ _ _ Ht))
    as Hwft.
  destruct (Hreg r cur (get_Some_elem _ _ _ Hr)) as [_ Hucur].
  assert (Hperm : Archetype.ctors tgt'
                  ≡ₚ (if bool_decide (typeId ctor ∈ map typeId (Archetype.ctors cur))
                      then Archetype.ctors cur else Archetype.ctors cur ++ [ctor])).
  { rewrite Hctors. apply sort_perm. }
  exists w', t, tgt', idx'. do 6 (split; [done|]). split; [done|].
  split; [|split; [|done]].
  - rewrite (getComponent_filed w' entity t tgt' idx') by done.
    unfold Archetype.containsTypeId. rewrite bool_decide_eq_true_2; [by rewrite Hnew|].
    rewrite (archetype_typeIds _ Hwft). apply list_elem_of_fmap. exists ctor.
    split; [done|]. rewrite Hperm. case_bool_decide as Hin.
    + apply list_elem_of_fmap in Hin as (c & Hid & Hc).
      assert (c = ctor) as <-; [|done].
      apply (class_of_id U HU); [|done|done]. rewrite Forall_forall in Hucur. by apply Hucur.
    + apply elem_of_app. right. apply list_elem_of_here.
  - intros T HT.
    apply (moved_reads w w' entity ctor r t cur tgt' idx idx'); try done.
    + intros c Hc Hne. rewrite Hperm in Hc. case_bool_decide; [done|].
      apply elem_of_app in Hc as [Hc|Hc]; [done|].
      apply list_elem_of_singleton in Hc. by subst c.
    + intros c Hc Hne. split; [|by apply Hold]. rewrite Hperm.
      case_bool_decide; [done|]. apply elem_of_app. by left.
Qed.

Lemma removeComponent_reads U w entity ctor (r : World.ref) cur idx :
  classes U -> Wf.world w -> registry U w ->
  JsMap.get (World.entityArchetype w) entity = Some r ->
  JsMap.get (World.archetypeBySignature w) r = Some cur ->
  Archetype.indexOf cur entity = Some idx ->
  typeId ctor ∈ Archetype.typeIds cur ->
  exists w' t tgt' idx',
    World.removeComponent entity ctor w = (w', Ok tt)
    /\ Wf.world w' /\ registry U w'
    /\ JsMap.get (World.entityArchetype w') entity = Some t
    /\ JsMap.get (World.archetypeBySignature w') t = Some tgt'
    /\ Archetype.indexOf tgt' entity = Some idx'
    /\ Archetype.ctors tgt'
       ≡ₚ filter (fun c => typeId c ≠ typeId ctor) (Archetype.ctors cur)
    /\ World.getComponent w' entity ctor = Ok None
    /\ (forall T, typeId T ≠ typeId ctor ->
          World.getComponent w' entity T = World.getComponent w entity T)
    /\ (Wf.entity_rows w ->
        Wf.entity_rows w'
        /\ (forall r0 T, r0 ≠ entity ->
              World.getComponent w' r0 T = World.getComponent w r0 T)
        /\ (Wf.filed_rows w -> Wf.filed_rows w')).
Proof.
  intros HU Hwf Hreg He Hr Hidx Hin.
  destruct (removeComponent_spec U w entity ctor r cur idx HU Hwf Hreg He Hr Hidx Hin)
    as (w' & t & tgt' & idx' & Hrun & Hwf' & Hreg' & He' & Ht & Hctors & Hidx' & Hold & Hframe).
  pose proof (registered_wf w r cur (world_archetypes _ Hwf) (get_Some_elem _ _ _ Hr)) as Hwfc.
  pose proof (registered_wf w' t tgt' (world_archetypes _ Hwf') (get_Some_elem _ _ _ Ht))
    as Hwft.
  assert (Hperm : Archetype.ctors tgt'
                  ≡ₚ filter (fun c => typeId c ≠ typeId ctor) (Archetype.ctors cur)).
  { rewrite Hctors. apply sort_perm. }
  exists w', t, tgt', idx'. do 6 (split; [done|]). split; [done|].
  split; [|split; [|done]].
  - rewrite (getComponent_filed w' entity t tgt' idx') by done.
    unfold Archetype.containsTypeId. rewrite bool_decide_eq_false_2; [done|].
    rewrite (archetype_typeIds _ Hwft). intros Hc.
    apply list_elem_of_fmap in Hc as (c & Hid & Hc). rewrite Hperm in Hc.
    apply list_elem_of_filter in Hc as [Hne _]. by apply Hne.
  - intros T HT.
    apply (moved_reads w w' entity ctor r t cur tgt' idx idx'); try done.
    + intros c Hc Hne. rewrite Hperm in Hc. by apply list_elem_of_filter in Hc as [_ Hc].
    + intros c Hc Hne. split; [|by apply Hold]. rewrite Hperm.
      by apply list_elem_of_filter.
Qed.
End StructuralReads.

(** ** The rows [query] returns, in a world where every entity has one row *)

Section QueryRows.
Import ComponentConstructor Wf Effects.
Implicit Types (a : Archetype.t) (c : ComponentConstructor.t) (w : World.t).

Lemma complete_NoDup a : index_complete a -> NoDup (Archetype.entityIds a).
Proof.
  intros Hc. apply NoDup_alt. intros i j e Hi Hj. by apply (complete_row a i j e).
Qed.

Lemma row_results_elem ctors a res :
  res ∈ row_results ctors a ->
  exists i, Archetype.entityIds a !! i = Some (World.entity res)
    /\ World.components res
       = map (fun c => from_ok [] (Archetype.getComponentAt a c (Z.of_nat i))) ctors.
Proof.
  unfold row_results. intros Hres. apply list_elem_of_lookup in Hres as [i Hi].
  rewrite list_lookup_imap in Hi.
  destruct (Archetype.entityIds a !! i) as [e|] eqn:He; [|done].
  simpl in Hi. injection Hi as <-. by exists i.
Qed.

(** The entities [query] returns are different ones. *)
Lemma query_entities_NoDup (file : Entity -> option World.ref) ctors
    (reg : JsMap.t string Archetype.t) :
  NoDup (JsMap.keys reg) ->
  (forall k a, (k, a) ∈ reg ->
     index_complete a /\ forall e, e ∈ Archetype.entityIds a -> file e = Some k) ->
  NoDup (map World.entity
           (concat (map (row_results ctors)
                        (filter (fun a => matches ctors a = true) (JsMap.values reg))))).
Proof.
  induction reg as [|[k a] reg IH]; intros Hnd Hrows; [constructor|].
  simpl in Hnd. apply NoDup_cons in Hnd as [Hk Hnd].
  assert (IH' : NoDup (map World.entity
                  (concat (map (row_results ctors)
                     (filter (fun a => matches ctors a = true) (JsMap.values reg)))))).
  { apply IH; [done|]. intros k' a' Hin. apply Hrows. apply elem_of_cons. by right. }
  simpl. rewrite filter_cons. case_decide as Hm; [|done].
  cbn [map concat]. rewrite map_app, row_results_entities.
  destruct (Hrows k a) as [Hc Hfile]; [apply elem_of_cons; by left|].
  apply NoDup_app. split; [by apply complete_NoDup|]. split; [|done].
  intros e He He'. apply list_elem_of_fmap in He' as (res & -> & Hres).
  apply elem_of_concat in Hres as (rows & Hres & Hrows').
  apply list_elem_of_fmap in Hrows' as (a' & -> & Ha').
  apply list_elem_of_filter in Ha' as [_ Ha'].
  apply list_elem_of_fmap in Ha' as ([k' a''] & -> & Hin'). simpl in *.
  destruct (Hrows k' a'') as [_ Hfile']; [apply elem_of_cons; by right|].
  assert (Hin_a' : World.entity res ∈ Archetype.entityIds a'').
  { rewrite <- (row_results_entities ctors). by apply list_elem_of_fmap_2. }
  pose proof (Hfile _ He) as E1. pose proof (Hfile' _ Hin_a') as E2.
  rewrite E1 in E2. injection E2 as ->. apply Hk.
  by apply (list_elem_of_fmap_2 fst _ (k', a'')).
Qed.

(** The entities [query] returns are those of the rows of the archetypes
    that have every type asked for. *)
Lemma query_results_elem w ctors e :
  e ∈ map World.entity (query_results w ctors)
  <-> exists a, a ∈ JsMap.values (World.archetypeBySignature w)
        /\ matches ctors a = true /\ e ∈ Archetype.entityIds a.
Proof.
  unfold query_results. split.
  - intros He. apply list_elem_of_fmap in He as (res & -> & Hres).
    apply elem_of_concat in Hres as (rows & Hres & Hrows).
    apply list_elem_of_fmap in Hrows as (a & -> & Ha).
    apply list_elem_of_filter in Ha as [Hm Ha].
    exists a. split; [done|]. split; [done|].
    rewrite <- (row_results_entities ctors). by apply list_elem_of_fmap_2.
  - intros (a & Ha & Hm & He). rewrite <- (row_results_entities ctors a) in He.
    apply list_elem_of_fmap in He as (res & -> & Hres). apply list_elem_of_fmap_2.
    apply list_elem_of_In, in_concat. exists (row_results ctors a).
    split; [|by apply list_elem_of_In]. apply in_map, list_elem_of_In.
    by apply list_elem_of_filter.
Qed.
End QueryRows.

(** ** The counter of the entity ids *)

Section Counter.
Import ComponentConstructor Wf Effects.
Context `{Collation}.

Lemma keeps_bind {A B} (m : M World.t A) (k : A -> M World.t B) :
  keeps_counter m -> (forall x, keeps_counter (k x)) -> keeps_counter (bind m k).
Proof.
  intros Hm Hk w. unfold bind. specialize (Hm w).
  destruct (m w) as [w' [x|e|]]; simpl in *; [|done|done].
  by rewrite Hk.
Qed.

Lemma keeps_call {A} (r : World.ref) (m : M Archetype.t A) : keeps_counter (World.call r m).
Proof.
  intros w. unfold World.call.
  destruct (JsMap.get (World.archetypeBySignature w) r); [|done]. by destruct (m _).
Qed.

Lemma keeps_filed entity (r : World.ref) :
  keeps_counter (modify (fun w => World.with_entityArchetype
                                    (JsMap.set (World.entityArchetype w) entity r) w)).
Proof. by intros w. Qed.

Lemma keeps_deref (r : World.ref) : keeps_counter (fun w => (w, World.deref w r)).
Proof. by intros w. Qed.

Lemma keeps_getOrCreateArchetype ctors : keeps_counter (World.getOrCreateArchetype ctors).
Proof.
  intros w. unfold World.getOrCreateArchetype. cbv zeta.
  destruct (JsMap.get _ _); [done|]. by destruct (Archetype.new _).
Qed.

Lemma keeps_transfer entity (r t : World.ref) values :
  keeps_counter
    (do tt <- World.call r (Archetype.removeEntity entity);
     do tt <- World.call t (Archetype.addEntity entity values);
     modify (fun w => World.with_entityArchetype
                        (JsMap.set (World.entityArchetype w) entity t) w)).
Proof.
  apply keeps_bind; [apply keeps_call|]. intros _.
  apply keeps_bind; [apply keeps_call|]. intros _. apply keeps_filed.
Qed.

Lemma keeps_move_with entity (r t : World.ref) ctor value :
  keeps_counter (World.move_with entity r t ctor value).
Proof.
  unfold World.move_with.
  apply keeps_bind; [apply keeps_deref|]. intros cur.
  apply keeps_bind; [apply keeps_deref|]. intros tgt.
  destruct (Archetype.indexOf cur entity); [|by intros w].
  apply keeps_bind; [by intros w|]. intros values. apply keeps_transfer.
Qed.

Lemma keeps_addEntityWithComponents entity components :
  keeps_counter (World.addEntityWithComponents entity components).
Proof.
  unfold World.addEntityWithComponents.
  apply keeps_bind; [apply keeps_getOrCreateArchetype|]. intros t.
  apply keeps_bind; [apply keeps_call|]. intros _. apply keeps_filed.
Qed.

Lemma keeps_addComponent entity ctor value :
  keeps_counter (World.addComponent entity ctor value).
Proof.
  intros w. unfold World.addComponent. cbv zeta.
  match goal with |- World.nextEntityId (bind ?m ?k w).1 = _ =>
    apply (keeps_bind m k) end; [apply keeps_getOrCreateArchetype|].
  intros t. destruct (JsMap.get (World.entityArchetype w) entity) as [r|].
  - apply keeps_bind; [apply keeps_deref|]. intros cur.
    apply keeps_bind; [apply keeps_deref|]. intros tgt.
    destruct (String.eqb _ _); apply keeps_move_with.
  - apply keeps_bind; [apply keeps_call|]. intros _. apply keeps_filed.
Qed.

Lemma keeps_removeComponent entity ctor :
  keeps_counter (World.removeComponent entity ctor).
Proof.
  intros w. unfold World.removeComponent.
  destruct (JsMap.get (World.entityArchetype w) entity) as [r|]; [|done].
  match goal with |- World.nextEntityId (bind ?m ?k w).1 = _ =>
    apply (keeps_bind m k) end; [apply keeps_deref|].
  intros cur. destruct (negb _); [by intros w'|]. cbv zeta.
  apply keeps_bind; [apply keeps_getOrCreateArchetype|]. intros t.
  apply keeps_bind; [apply keeps_deref|]. intros tgt.
  destruct (Archetype.indexOf cur entity); [|by intros w'].
  apply keeps_bind; [by intros w'|]. intros values. apply keeps_transfer.
Qed.

Lemma keeps_destroyEntity entity : keeps_counter (World.destroyEntity entity).
Proof.
  intros w. unfold World.destroyEntity.
  destruct (JsMap.get (World.entityArchetype w) entity) as [r|]; [|done].
  match goal with |- World.nextEntityId (bind ?m ?k w).1 = _ =>
    apply (keeps_bind m k) end; [apply keeps_call|].
  intros _. by intros w'.
Qed.
End Counter.

(** ** The invariant of the worlds a program reaches *)

Section Consistent.
Import ComponentConstructor Wf Effects.
Context `{CollationOrder}.
Implicit Types (a : Archetype.t) (c : ComponentConstructor.t) (w : World.t).

Lemma consistent_new U : consistent U World.new.
Proof.
  split.
  - split; simpl; [by constructor|by constructor|]. by intros e k Hk.
  - intros k a Hin. by apply elem_of_nil in Hin.
  - intros k a Hin. by apply elem_of_nil in Hin.
  - by intros e k a Hk.
Qed.

Lemma consistent_createEntity U w : consistent U w -> consistent U (World.createEntity w).1.
Proof. intros [[Hars Hkeys Hrefs] Hreg Hrows Hfiled]. by split; [split| | |]. Qed.

(** An entity the directory files sits at a row of its archetype. *)
Lemma filed_index U w entity (r : World.ref) cur :
  consistent U w ->
  JsMap.get (World.entityArchetype w) entity = Some r ->
  JsMap.get (World.archetypeBySignature w) r = Some cur ->
  exists i : nat, Archetype.indexOf cur entity = Some (Z.of_nat i).
Proof.
  intros [Hwf Hreg Hrows Hfiled] He Hr.
  pose proof (Hfiled entity r cur He Hr) as Hin.
  apply list_elem_of_lookup in Hin as [i Hi]. exists i.
  by apply (proj1 (Hrows r cur (get_Some_elem _ _ _ Hr)) i entity).
Qed.

Lemma consistent_destroyEntity U w e :
  consistent U w ->
  (World.destroyEntity e w).2 = Ok tt /\ consistent U (World.destroyEntity e w).1.
Proof.
  intros [Hwf Hreg Hrows Hfiled]. pose proof Hwf as [Hars Hkeys Hrefs].
  unfold World.destroyEntity.
  destruct (JsMap.get (World.entityArchetype w) e) as [k|] eqn:Hk; [|by split].
  destruct (Hrefs e k Hk) as [a Ha]. pose proof (get_Some_elem _ _ _ Ha) as Hin.
  destruct (removeEntity_others a e (registered_wf w k a Hars Hin) (proj1 (Hrows k a Hin)))
    as (a' & Hrun & Hwf' & Hc' & Hctors & Hids & Hmem & Hothers).
  unfold bind. rewrite (call_spec k _ w a a' (Ok tt) Ha Hrun). unfold modify. simpl.
  split; [done|]. split.
  - split; simpl.
    + unfold Wf.archetypes. simpl. by apply Forall_set.
    + by apply NoDup_keys_set.
    + intros r k' Hr. destruct (decide (e = r)) as [->|Hne].
      * by rewrite get_delete_eq in Hr.
      * rewrite get_delete_ne in Hr by done. apply is_Some_get_set. by eapply Hrefs.
  - intros k' a0 Hin'. simpl in Hin'.
    apply elem_of_set in Hin' as [[-> ->]|[Hne Hin']]; [| |done].
    + destruct (Hreg k a Hin) as [Hsig HU]. split; [|by rewrite Hctors].
      transitivity (Archetype.signature a); [done|].
      unfold Archetype.signature. by rewrite Hids.
    + by apply Hreg.
  - intros k' a0 Hin'. simpl in Hin'.
    apply elem_of_set in Hin' as [[-> ->]|[Hne Hin']]; [| |done].
    + split; [done|]. intros r Hr. simpl. apply Hmem in Hr as [Hr Hre].
      rewrite get_delete_ne by done. by apply (Hrows k a Hin).
    + destruct (Hrows k' a0 Hin') as [Hc0 Hfiled0]. split; [done|].
      intros r Hr. simpl. rewrite get_delete_ne; [by apply Hfiled0|].
      intros <-. rewrite (Hfiled0 e Hr) in Hk. by injection Hk.
  - intros e0 k0 a0. simpl. destruct (decide (e = e0)) as [->|Hne].
    + by rewrite get_delete_eq.
    + rewrite get_delete_ne by done. intros He0.
      destruct (decide (k0 = k)) as [->|Hkk].
      * rewrite get_set_eq. intros [= <-]. apply Hmem.
        split; [by apply (Hfiled e0 k a)|]. by intros ->.
      * rewrite get_set_ne by done. by apply Hfiled.
Qed.

Lemma consistent_addEntityWithComponents U w entity
    (components : list (ComponentConstructor.t * object)) :
  classes U -> consistent U w ->
  JsMap.get (World.entityArchetype w) entity = None ->
  Forall U (map fst components) -> NoDup (map typeId (map fst components)) ->
  Forall (fun p => storable (schema p.1) p.2 = true) components ->
  (World.addEntityWithComponents entity components w).2 = Ok tt
  /\ consistent U (World.addEntityWithComponents entity components w).1.
Proof.
  intros HU [Hwf Hreg Hrows Hfiled] Hnone Hu Hnd Hst.
  destruct (addEntityWithComponents_spec U w entity components HU Hwf Hreg Hu Hnd Hst)
    as (w0 & tgt & Ht & Hwft & Hctors & Hstt & Hwf0 & Hreg0 & Hents & Hkeep & Hnew
        & Hvalue & Hrun).
  rewrite Hrun. clear Hrun.
  set (t := join "|" (map typeId (sort by_typeId (map fst components)))) in *.
  set (values := map (fun p => (typeId p.1, p.2)) components) in *.
  pose proof (after_addEntity_wf tgt entity values Hwft Hstt) as Hwft'.
  cbn [fst snd]. split; [done|]. split.
  - destruct Hwf0 as [Hars Hkeys Hrefs]. split; simpl.
    + unfold Wf.archetypes. simpl. by apply Forall_set.
    + by apply NoDup_keys_set.
    + intros e k Hk. destruct (decide (entity = e)) as [->|Hne].
      * rewrite get_set_eq in Hk. injection Hk as <-. rewrite get_set_eq. by eexists.
      * rewrite get_set_ne in Hk by done. apply is_Some_get_set. by eapply Hrefs.
  - intros k a Hin. simpl in Hin.
    apply elem_of_set in Hin as [[-> ->]|[_ Hin]]; [|by apply Hreg0|apply Hwf0].
    destruct (Hreg0 t tgt (get_Some_elem _ _ _ Ht)) as [Hsig Hut]. by split.
  - assert (Hrows0 : forall k a, (k, a) ∈ World.archetypeBySignature w0 ->
              index_complete a
              /\ (entity ∉ Archetype.entityIds a)
              /\ forall e, e ∈ Archetype.entityIds a ->
                   JsMap.get (World.entityArchetype w) e = Some k).
    { intros k a Hin. destruct (Hnew k a Hin) as [Hold|Hempty].
      - destruct (Hrows k a Hold) as [Hc Hf]. split; [done|]. split; [|done].
        intros He. rewrite (Hf entity He) in Hnone. done.
      - split; [intros i e; by rewrite Hempty|].
        rewrite Hempty. split; [apply not_elem_of_nil|].
        intros e He. by apply elem_of_nil in He. }
    intros k a Hin. simpl in Hin.
    apply elem_of_set in Hin as [[-> ->]|[Hkt Hin]]; [| |apply Hwf0].
    + destruct (Hrows0 t tgt (get_Some_elem _ _ _ Ht)) as (Hc & Hnot & Hfiled0).
      split; [by apply index_complete_add|]. intros e He. simpl in *.
      apply elem_of_app in He as [He|He].
      * rewrite get_set_ne; [rewrite Hents; by apply Hfiled0|]. by intros <-.
      * apply list_elem_of_singleton in He. subst e. by rewrite get_set_eq.
    + destruct (Hrows0 k a Hin) as (Hc & Hnot & Hfiled0). split; [done|].
      intros e He. simpl. rewrite get_set_ne; [rewrite Hents; by apply Hfiled0|].
      by intros <-.
  - intros e0 k0 a0. simpl. destruct (decide (entity = e0)) as [->|Hne].
    + rewrite get_set_eq. intros [= <-]. rewrite get_set_eq. intros [= <-]. simpl.
      apply elem_of_app. right. apply list_elem_of_here.
    + rewrite get_set_ne by done. rewrite Hents. intros He0.
      destruct (world_refs _ Hwf e0 k0 He0) as [a1 Ha1].
      pose proof (Hfiled e0 k0 a1 He0 Ha1) as Hin1. pose proof (Hkeep _ _ Ha1) as Ha10.
      destruct (decide (k0 = t)) as [->|Hkt].
      * rewrite get_set_eq. intros [= <-]. simpl. apply elem_of_app. left.
        by assert (a1 = tgt) as <- by congruence.
      * rewrite get_set_ne by done. intros Ha0.
        by assert (a0 = a1) as -> by congruence.
Qed.

Lemma consistent_addComponent U w entity ctor value :
  classes U -> consistent U w -> U ctor -> storable (schema ctor) value = true ->
  (World.addComponent entity ctor value w).2 = Ok tt
  /\ consistent U (World.addComponent entity ctor value w).1.
Proof.
  intros HU Hcons Hctor Hst. pose proof Hcons as [Hwf Hreg Hrows Hfiled].
  destruct (JsMap.get (World.entityArchetype w) entity) as [r|] eqn:He.
  - destruct (world_refs _ Hwf entity r He) as [cur Hr].
    destruct (filed_index U w entity r cur Hcons He Hr) as [i Hidx].
    destruct (addComponent_spec U w entity ctor value r cur (Z.of_nat i) HU Hctor Hwf Hreg
                He Hr Hidx Hst)
      as (w' & t & tgt' & idx' & Hrun & Hwf' & Hreg' & _ & _ & _ & _ & _ & _ & Hframe).
    rewrite Hrun. cbn [fst snd]. split; [done|].
    destruct (Hframe Hrows) as (Hrows' & _ & Hfiled'). split; [done|done|done|].
    by apply Hfiled'.
  - assert (World.addComponent entity ctor value w
            = World.addEntityWithComponents entity [(ctor, value)] w) as ->.
    { unfold World.addComponent, World.addEntityWithComponents. by rewrite He. }
    apply consistent_addEntityWithComponents; try done.
    + by repeat constructor.
    + simpl. apply NoDup_singleton.
    + by repeat constructor.
Qed.

Lemma consistent_removeComponent U w entity ctor :
  classes U -> consistent U w ->
  (World.removeComponent entity ctor w).2 = Ok tt
  /\ consistent U (World.removeComponent entity ctor w).1.
Proof.
  intros HU Hcons. pose proof Hcons as [Hwf Hreg Hrows Hfiled].
  destruct (JsMap.get (World.entityArchetype w) entity) as [r|] eqn:He.
  2: { unfold World.removeComponent. by rewrite He. }
  destruct (world_refs _ Hwf entity r He) as [cur Hr].
  destruct (Archetype.containsTypeId cur (typeId ctor)) eqn:Hin.
  2: { assert (World.removeComponent entity ctor w = (w, Ok tt)) as ->; [|done].
       unfold World.removeComponent, World.deref. rewrite He.
       unfold bind at 1. cbv beta. by rewrite Hr, Hin. }
  apply bool_decide_eq_true in Hin.
  destruct (filed_index U w entity r cur Hcons He Hr) as [i Hidx].
  destruct (removeComponent_spec U w entity ctor r cur (Z.of_nat i) HU Hwf Hreg He Hr Hidx Hin)
    as (w' & t & tgt' & idx' & Hrun & Hwf' & Hreg' & _ & _ & _ & _ & _ & Hframe).
  rewrite Hrun. cbn [fst snd]. split; [done|].
  destruct (Hframe Hrows) as (Hrows' & _ & Hfiled'). split; [done|done|done|].
  by apply Hfiled'.
Qed.

(** One admissible call. *)
Lemma consistent_call U (c : call) w :
  classes U -> consistent U w -> admissible_call U c w ->
  returns c w /\ consistent U (run_calls [c] w).1.
Proof.
  intros HU Hcons Hc. destruct c as [|e comps|e c v|e c|e]; simpl in *.
  - split; [done|]. by apply consistent_createEntity.
  - destruct Hc as (Hnone & Hu & Hnd & Hst). by apply consistent_addEntityWithComponents.
  - destruct Hc as [Hu Hst]. by apply consistent_addComponent.
  - by apply consistent_removeComponent.
  - by apply consistent_destroyEntity.
Qed.

Lemma run_calls_cons (c : call) (calls : list call) w :
  (run_calls (c :: calls) w).1 = (run_calls calls (run_calls [c] w).1).1.
Proof.
  destruct c; cbn [run_calls fst]; try done.
  by destruct (run_calls calls (World.createEntity w).1).
Qed.
End Consistent.

(** ** The claims about ColumnStore *)

Section ColumnStoreClaims.
Import TypedArray ColumnStore Wf Effects.


Lemma comp_store_wf initialCapacity : Wf.store (Examples.comp_store initialCapacity).
Proof. apply fresh_store_wf. apply (bool_decide_unpack _). by vm_compute. Qed.






(** C8.  [copyFrom(indexTarget, other, indexSrc)] between two stores of one
    schema, with [indexTarget >= 0], throws the range error exactly when
    [indexSrc] is outside [0, other.size) and returns otherwise.  The check
    of the range comes after the growth of the buffers.  When it throws,
    the schema and the size of the destination are unchanged, the store is
    well formed and every [get] on it returns what it returned before; the
    destination is as it was when [indexTarget] is below its capacity, and
    otherwise every buffer has been replaced by a longer one already and
    the capacity is the old one times the least power of two that makes it
    greater than [indexTarget]. *)
Theorem copyFrom_source_range (this other : ColumnStore.t) (indexTarget indexSrc : Z) :
  Wf.store this -> Wf.store other -> schema other = schema this -> 0 <= indexTarget ->
  exists this' r, copyFrom indexTarget other indexSrc this = (this', r)
    /\ (r = Throw (RangeError "Source index out of range")
        <-> indexSrc < 0 \/ size other <= indexSrc)
    /\ (0 <= indexSrc < size other <-> r = Ok tt)
    /\ (indexSrc < 0 \/ size other <= indexSrc ->
          size this' = size this
          /\ schema this' = schema this
          /\ Wf.store this'
          /\ (forall j, ColumnStore.get this' j = ColumnStore.get this j)
          /\ (indexTarget < capacity this -> this' = this)
          /\ (capacity this <= indexTarget ->
                this' ≠ this
                /\ Forall (fun e => TypedArray.length e.2 = capacity this')
                          (typedArrayMap this')
                /\ exists k, 0 < k /\ capacity this' = capacity this * 2 ^ k
                     /\ indexTarget < capacity this * 2 ^ k
                     /\ forall j, 0 <= j < k -> capacity this * 2 ^ j <= indexTarget)).
Proof.
  intros Hwf Hwfo Hsch Hi. rewrite copyFrom_spec by done.
  destruct ((indexSrc <? 0) || (size other <=? indexSrc)) eqn:Hrange.
  - apply orb_true_iff in Hrange.
    assert (Hout : indexSrc < 0 \/ size other <= indexSrc).
    { destruct Hrange as [H|H]; [left; by apply Z.ltb_lt|right; by apply Z.leb_le]. }
    do 2 eexists. split; [done|]. split; [done|]. split; [split; [lia|done]|].
    intros _. pose proof (grown_wf this (indexTarget + 1) Hwf) as Hwf'.
    split; [done|]. split; [done|]. split; [done|].
    split; [intros j; by apply get_grown|]. split.
    + intros Hlt. apply grown_same; [done|lia].
    + intros Hge. pose proof (store_capacity _ Hwf) as Hcap.
      destruct (next_capacity_spec (capacity this) (indexTarget + 1) Hcap)
        as (k & Hk & Hnext & Hmin & Hsmall & _).
      assert (Hk0 : 0 < k).
      { destruct (decide (k = 0)) as [->|]; [|lia]. rewrite Z.pow_0_r in Hmin. lia. }
      assert (Hbig : capacity this < capacity this * 2 ^ k).
      { assert (2 ^ 1 <= 2 ^ k) by (apply Z.pow_le_mono_r; lia). nia. }
      split; [|split].
      * intros Heq. apply (f_equal capacity) in Heq. simpl in Heq. lia.
      * pose proof (store_arrays _ Hwf') as HF.
        apply Forall2_Forall_r
          with (Q := fun e => TypedArray.length e.2
                              = capacity (grown (indexTarget + 1) this)) in HF; [done|].
        apply Forall_forall. by intros f _ e (_ & _ & Hlen & _).
      * exists k. split; [done|]. split; [done|]. split; [lia|].
        intros j Hj. specialize (Hsmall j Hj). lia.
  - apply orb_false_iff in Hrange as [H0 H1]. apply Z.ltb_ge in H0. apply Z.leb_gt in H1.
    do 2 eexists. split; [done|]. split; [|split].
    + split; [done|lia].
    + split; [done|lia].
    + lia.
Qed.

Lemma copyFrom_source_range_witness :
  let a := Examples.comp_store 4 in
  let b := after_set 0 (Examples.comp (Finite 19 (-1)) true 999 77) (Examples.comp_store 4) in
  (Wf.store a /\ Wf.store b /\ schema b = schema a /\ 0 <= 5)
  /\ exists a', copyFrom 5 b 1 a = (a', Throw (RangeError "Source index out of range"))
       /\ size a' = size a
       /\ (forall j, ColumnStore.get a' j = ColumnStore.get a j)
       /\ capacity a' = 8.
Proof.
  intros a b.
  assert (Hb : Wf.store b).
  { apply after_set_wf; [apply comp_store_wf|lia|by vm_compute]. }
  split.
  - split; [apply comp_store_wf|]. split; [exact Hb|]. split; [by vm_compute|lia].
  - destruct (copyFrom_source_range a b 5 1 (comp_store_wf 4) Hb) as (a' & r & Hrun & Hr & _ & Hfail);
      [by vm_compute|lia|].
    assert (Hout : 1 < 0 \/ size b <= 1) by (right; by vm_compute).
    apply Hr in Hout as Hthrow. subst r.
    destruct (Hfail Hout) as (Hsize & _ & _ & Hget & _ & _).
    exists a'. split; [exact Hrun|]. split; [exact Hsize|]. split; [exact Hget|].
    assert (Hc : copyFrom 5 b 1 a
                 = (grown 6 a, Throw (RangeError "Source index out of range")))
      by (by vm_compute).
    rewrite Hc in Hrun. injection Hrun as <-. by vm_compute.
Defined.

(** The call that throws has changed the destination before: a store of
    capacity 4 has capacity 8, and buffers of 8 elements in the place of
    those of 4, after [copyFrom(5, b, 1)] has thrown the range error. *)
Lemma copyFrom_failure_grows_counterexample :
  let a := Examples.comp_store 4 in
  let b := after_set 0 (Examples.comp (Finite 19 (-1)) true 999 77) (Examples.comp_store 4) in
  exists a', copyFrom 5 b 1 a = (a', Throw (RangeError "Source index out of range"))
    /\ capacity a = 4 /\ capacity a' = 8
    /\ map (fun e => TypedArray.length e.2) (typedArrayMap a) = [4; 4; 4; 4]
    /\ map (fun e => TypedArray.length e.2) (typedArrayMap a') = [8; 8; 8; 8]
    /\ a' ≠ a.
Proof.
  intros a b. eexists. split; [by vm_compute|]. split; [by vm_compute|].
  split; [by vm_compute|]. split; [by vm_compute|]. split; [by vm_compute|].
  intros Heq. apply (f_equal capacity) in Heq. by vm_compute in Heq.
Qed.
End ColumnStoreClaims.

(** ** The claims about Archetype *)

Section ArchetypeClaims.
Import ColumnStore ComponentConstructor Wf Effects.

(** C1, amended.  In an archetype that satisfies its invariant (the stores
    go with the rows, and every row is the one [indexByEntity] gives for its
    entity, so that no entity occupies two rows), [removeEntity(entity)] of
    an entity of the archetype returns, the size decreases by exactly 1, the
    invariant holds again, the entities left are the others, and for each
    of them [indexOf] gives the one row that holds it, where every component
    type of the archetype reads as it did at the row of the entity
    before. *)
Theorem removeEntity_keeps_rows (a : Archetype.t) (entity : Entity) :
  Wf.archetype a -> index_complete a -> entity ∈ Archetype.entityIds a ->
  exists a', Archetype.removeEntity entity a = (a', Ok tt)
    /\ Archetype.size a' = Archetype.size a - 1
    /\ Wf.archetype a' /\ index_complete a'
    /\ (forall r, r ∈ Archetype.entityIds a' <-> r ∈ Archetype.entityIds a /\ r ≠ entity)
    /\ forall r, r ∈ Archetype.entityIds a -> r ≠ entity ->
         exists i i0, Archetype.indexOf a' r = Some i /\ Archetype.indexOf a r = Some i0
           /\ 0 <= i
           /\ (forall j, Archetype.entityIds a' !! j = Some r <-> j = Z.to_nat i)
           /\ forall c, typeId c ∈ Archetype.typeIds a ->
                is_ok (Archetype.getComponentAt a c i0)
                /\ Archetype.getComponentAt a' c i = Archetype.getComponentAt a c i0.
Proof.
  intros Hwf Hc Hin. apply list_elem_of_lookup in Hin as [j0 Hj0].
  pose proof (Hc _ _ Hj0) as Hg.
  destruct (removeEntity_spec a entity _ Hwf Hg) as (le & Hle & Hrun).
  assert (Hrem : removal a entity (Z.of_nat j0) le) by done.
  destruct (indexed_row a entity _ Hwf Hg) as [Hidx _].
  set (a' := after_removeEntity entity (Z.of_nat j0) le a) in *.
  pose proof (after_removeEntity_wf _ _ _ _ Hrem) as Hwf'.
  pose proof (index_complete_remove _ _ _ _ Hrem Hc) as Hc'.
  (* the row an entity that stays moves to *)
  assert (Hmove : forall r j, Archetype.entityIds a !! j = Some r -> r ≠ entity ->
            let j' := if decide (Z.of_nat j = Archetype.size a - 1) then j0 else j in
            Archetype.entityIds a' !! j' = Some r
            /\ Z.of_nat j' < Archetype.size a - 1
            /\ (if Z.of_nat j' =? Z.of_nat j0 then Archetype.size a - 1 else Z.of_nat j')
               = Z.of_nat j).
  { intros r j Hj Hne.
    assert (Hjj0 : j ≠ j0) by (intros ->; rewrite Hj0 in Hj; by injection Hj).
    assert (Hjlt : Z.of_nat j < Archetype.size a)
      by (apply lookup_lt_Some in Hj; unfold Archetype.size; lia).
    cbv zeta. unfold a'. case_decide as Hlast; rewrite row_after_remove by done.
    - replace j with (Z.to_nat (Archetype.size a - 1)) in Hj by lia.
      rewrite Hle in Hj. injection Hj as ->.
      rewrite decide_True by lia. rewrite decide_True by done.
      rewrite Z.eqb_refl. split; [done|]. split; lia.
    - rewrite decide_True by lia. rewrite decide_False by lia.
      destruct (Z.eqb_spec (Z.of_nat j) (Z.of_nat j0)); [lia|]. split; [done|]. split; lia. }
  exists a'. split; [done|]. split.
  { unfold a'. rewrite after_removeEntity_size. lia. }
  split; [done|]. split; [done|]. split.
  - intros r. split.
    + intros Hr. apply list_elem_of_lookup in Hr as [j Hj]. unfold a' in Hj.
      rewrite row_after_remove in Hj by done. case_decide as Hlt; [|done].
      case_decide as Hjj0.
      * injection Hj as <-. split; [by eapply list_elem_of_lookup_2|].
        intros ->. pose proof (complete_row _ _ _ _ Hc Hle Hj0). lia.
      * split; [by eapply list_elem_of_lookup_2|].
        intros ->. pose proof (complete_row _ _ _ _ Hc Hj Hj0). lia.
    + intros [Hr Hne]. apply list_elem_of_lookup in Hr as [j Hj].
      destruct (Hmove r j Hj Hne) as [Hrow _]. by eapply list_elem_of_lookup_2.
  - intros r Hr Hne. apply list_elem_of_lookup in Hr as [j Hj].
    destruct (Hmove r j Hj Hne) as (Hrow & Hlt & Hsrc).
    set (j' := if decide (Z.of_nat j = Archetype.size a - 1) then j0 else j) in *.
    exists (Z.of_nat j'), (Z.of_nat j). unfold Archetype.indexOf.
    split; [by apply Hc'|]. split; [by apply Hc|]. split; [lia|]. split.
    + intros i. rewrite Nat2Z.id. split; [|by intros ->].
      intros Hi. by apply (complete_row a' _ _ r).
    + intros c Hcid.
      destruct (archetype_store_by_id a _ Hwf Hcid) as (c0 & st & _ & _ & Hst & _ & _ & Hwfs & _).
      split.
      * unfold Archetype.getComponentAt. rewrite Hst. simpl in Hwfs.
        destruct (get_total st (Z.of_nat j) Hwfs ltac:(lia)) as (o & -> & _). done.
      * unfold a'. rewrite getComponentAt_after_remove by (done || lia). by rewrite Hsrc.
Qed.

Local Ltac storable_row :=
  unfold all_storable; cbn [Archetype.ctors after_addEntity fresh_archetype];
  constructor; [by vm_compute|constructor].

Lemma three_positions_wf :
  Wf.archetype Examples.three_positions /\ index_complete Examples.three_positions.
Proof.
  assert (H0 : Wf.archetype (fresh_archetype [Examples.Position])).
  { apply fresh_archetype_wf; [apply (bool_decide_unpack _); by vm_compute|].
    constructor; [|constructor]. apply (bool_decide_unpack _). by vm_compute. }
  assert (C0 : index_complete (fresh_archetype [Examples.Position])) by (by intros i e).
  unfold Examples.three_positions. split.
  - repeat (apply after_addEntity_wf; [|storable_row]). done.
  - repeat (apply index_complete_add;
            [|apply (bool_decide_unpack _); by vm_compute]). done.
Qed.

Lemma removeEntity_keeps_rows_witness :
  (Wf.archetype Examples.three_positions /\ index_complete Examples.three_positions
   /\ 2 ∈ Archetype.entityIds Examples.three_positions)
  /\ exists a', Archetype.removeEntity 2 Examples.three_positions = (a', Ok tt)
       /\ Archetype.size a' = 2
       /\ Archetype.indexOf a' 3 = Some 1
       /\ Archetype.getComponentAt a' Examples.Position 1 = Ok (Examples.position 30 0).
Proof.
  destruct three_positions_wf as [Hwf Hc].
  assert (Hin : 2 ∈ Archetype.entityIds Examples.three_positions).
  { apply (bool_decide_unpack _). by vm_compute. }
  split; [done|].
  destruct (removeEntity_keeps_rows Examples.three_positions 2 Hwf Hc Hin)
    as (a' & Hrun & Hsize & _).
  exists a'. split; [done|]. split; [done|].
  assert (Ha' : a' = (Archetype.removeEntity 2 Examples.three_positions).1) by (by rewrite Hrun).
  rewrite Ha'. split; by vm_compute.
Defined.

(** C1 as stated fails when an entity was added twice: [addEntity] makes no
    check, the entity then sits in two rows, and after [removeEntity] it is
    still in [entityIds] while [indexOf] does not find it. *)
Lemma removeEntity_twice_added_counterexample :
  exists a0 a1 a a',
    Archetype.new (H := Examples.code_unit_collation) [Examples.Position] = Ok a0
    /\ Archetype.addEntity 5 [("Position"%string, Examples.position 10 0)] a0 = (a1, Ok tt)
    /\ Archetype.addEntity 5 [("Position"%string, Examples.position 20 0)] a1 = (a, Ok tt)
    /\ Archetype.size a = 2 /\ 5 ∈ Archetype.entityIds a
    /\ Archetype.removeEntity 5 a = (a', Ok tt)
    /\ Archetype.size a' = 1
    /\ ~ (forall r, r ∈ Archetype.entityIds a' ->
            exists i, Archetype.indexOf a' r = Some i
                      /\ Archetype.entityIds a' !! Z.to_nat i = Some r).
Proof.
  do 4 eexists. split; [by vm_compute|]. split; [by vm_compute|]. split; [by vm_compute|].
  split; [by vm_compute|]. split; [apply (bool_decide_unpack _); by vm_compute|].
  split; [by vm_compute|]. split; [by vm_compute|].
  intros Hall. destruct (Hall 5) as (i & Hi & _).
  - apply (bool_decide_unpack _). by vm_compute.
  - by vm_compute in Hi.
Qed.
End ArchetypeClaims.

(** ** The claims about [query] *)

Section QueryClaims.
Import ColumnStore ComponentConstructor Wf Effects.

Lemma matches_spec ctors a :
  matches ctors a = true <-> forall c, c ∈ ctors -> typeId c ∈ Archetype.typeIds a.
Proof.
  unfold matches. rewrite forallb_forall. split.
  - intros Hall c Hc. apply list_elem_of_In in Hc.
    specialize (Hall c Hc). by apply bool_decide_eq_true in Hall.
  - intros Hall c Hc. apply list_elem_of_In in Hc. apply bool_decide_eq_true. by apply Hall.
Qed.

Lemma swapped_rows (A B : ComponentConstructor.t) (l : list Archetype.t) :
  Forall2 (fun r1 r2 => World.entity r1 = World.entity r2
                        /\ World.components r1 = reverse (World.components r2))
    (concat (map (row_results [A; B]) (filter (fun a => matches [A; B] a = true) l)))
    (concat (map (row_results [B; A]) (filter (fun a => matches [B; A] a = true) l))).
Proof.
  induction l as [|a l IH]; [constructor|]. rewrite !filter_cons.
  assert (Hm : matches [B; A] a = matches [A; B] a).
  { unfold matches. simpl. rewrite !andb_true_r. apply andb_comm. }
  rewrite Hm. destruct (matches [A; B] a) eqn:HAB.
  - rewrite !decide_True by done. cbn [map concat]. apply Forall2_app; [|done].
    unfold row_results.
    assert (Hrows : forall (h : nat -> Z) (ids : list Entity),
              Forall2 (fun r1 r2 => World.entity r1 = World.entity r2
                         /\ World.components r1 = reverse (World.components r2))
                (imap (fun i e => {| World.entity := e;
                         World.components :=
                           map (fun c => from_ok [] (Archetype.getComponentAt a c (h i))) [A; B] |}) ids)
                (imap (fun i e => {| World.entity := e;
                         World.components :=
                           map (fun c => from_ok [] (Archetype.getComponentAt a c (h i))) [B; A] |}) ids)).
    { intros h ids. revert h. induction ids as [|e ids IHids]; intros h; simpl.
      - constructor.
      - constructor; [done|]. apply (IHids (h ∘ S)). }
    apply Hrows.
  - rewrite !decide_False by done. done.
Qed.

(** C6.  In a well-formed world where no entity occupies two rows (every
    row is the one [indexByEntity] gives for its entity, and its entity is
    filed under that archetype), [query] of a non-empty list of types
    returns: for every archetype, in the order of [archetypeBySignature],
    whose type ids include every requested one (and for no other), one
    result for each row, in row order, with the entity of the row and the
    components [getComponentAt] returns there for the requested types, in
    the order they were passed; no entity has two results, and the entities
    of the results are exactly the entities of those archetypes; so
    [query(A, B)] and [query(B, A)] return the same entities, result by
    result, with the two components swapped. *)
Theorem query_rows_in_argument_order (w : World.t) (ctors : list ComponentConstructor.t) :
  Wf.world w -> Wf.entity_rows w -> ctors ≠ [] ->
  World.query w ctors
  = Ok (concat (map (row_results ctors)
                    (filter (fun a => matches ctors a = true)
                            (JsMap.values (World.archetypeBySignature w)))))
  /\ (forall a, matches ctors a = true
                <-> forall c, c ∈ ctors -> typeId c ∈ Archetype.typeIds a)
  /\ (forall a, map World.entity (row_results ctors a) = Archetype.entityIds a)
  /\ (forall a i e, Archetype.entityIds a !! i = Some e ->
        exists res, row_results ctors a !! i = Some res
          /\ World.entity res = e
          /\ length (World.components res) = length ctors
          /\ forall n c, ctors !! n = Some c ->
               a ∈ JsMap.values (World.archetypeBySignature w) -> matches ctors a = true ->
               exists v, Archetype.getComponentAt a c (Z.of_nat i) = Ok v
                         /\ World.components res !! n = Some v)
  /\ NoDup (map World.entity (query_results w ctors))
  /\ (forall e, e ∈ map World.entity (query_results w ctors)
        <-> exists a, a ∈ JsMap.values (World.archetypeBySignature w)
              /\ matches ctors a = true /\ e ∈ Archetype.entityIds a)
  /\ forall A B, Forall2 (fun r1 r2 => World.entity r1 = World.entity r2
                            /\ World.components r1 = reverse (World.components r2))
                   (query_results w [A; B]) (query_results w [B; A]).
Proof.
  intros [Hwf Hkeys Hrefs] Hrows Hne.
  split; [by apply query_spec|]. split; [intros a; apply matches_spec|].
  split; [intros a; apply row_results_entities|]. split.
  { intros a i e Hi. unfold row_results. rewrite list_lookup_imap, Hi. simpl.
    eexists. split; [done|]. split; [done|]. split; [simpl; by rewrite length_map|].
    intros n c Hn Ha Hm. cbn [World.components]. rewrite list_lookup_fmap, Hn. simpl.
    assert (Hok : is_ok (Archetype.getComponentAt a c (Z.of_nat i))).
    { apply (matched_read a ctors); [|done|lia|by eapply list_elem_of_lookup_2].
      apply list_elem_of_fmap in Ha as ([k a'] & -> & Hin).
      unfold Wf.archetypes in Hwf. rewrite list.Forall_forall in Hwf. by apply (Hwf _ Hin). }
    destruct (Archetype.getComponentAt a c (Z.of_nat i)) as [v| |]; [|done|done].
    by exists v. }
  split.
  { apply (query_entities_NoDup (fun e => JsMap.get (World.entityArchetype w) e));
      [done|]. intros k a Hin. by apply Hrows. }
  split; [intros e; apply query_results_elem|].
  intros A B. apply swapped_rows.
Qed.

Lemma query_rows_in_argument_order_witness :
  (Wf.world Examples.two_movers /\ Wf.entity_rows Examples.two_movers
   /\ [Examples.Velocity; Examples.Position] ≠ [])
  /\ World.query Examples.two_movers [Examples.Velocity; Examples.Position]
     = Ok [ {| World.entity := 1;
               World.components := [Examples.velocity 5 5; Examples.position 1 1] |};
            {| World.entity := 2;
               World.components := [Examples.velocity 6 6; Examples.position 2 2] |} ].
Proof.
  split; [split; [apply two_movers_world|split; [apply two_movers_world|done]]|].
  destruct (query_rows_in_argument_order Examples.two_movers
              [Examples.Velocity; Examples.Position]
              (proj1 two_movers_world) (proj2 two_movers_world) ltac:(done)) as [-> _].
  by vm_compute.
Defined.

(** The condition on the rows is needed.  The world where the entity 1 was
    given its position twice is reached by calls of the public methods and
    is well formed, its one archetype has the entity 1 and no other, and
    [query(Position)] returns two results for the entity. *)
Lemma query_twice_added_counterexample :
  Wf.world Examples.twice_added
  /\ (exists a, JsMap.values (World.archetypeBySignature Examples.twice_added) = [a]
        /\ matches [Examples.Position] a = true
        /\ Archetype.entityIds a = [1; 1])
  /\ World.query Examples.twice_added [Examples.Position]
     = Ok [ {| World.entity := 1; World.components := [Examples.position 5 7] |};
            {| World.entity := 1; World.components := [Examples.position 6 8] |} ].
Proof.
  split; [apply twice_added_world|]. split; [|by vm_compute].
  eexists. split; [by vm_compute|]. split; by vm_compute.
Qed.

(** C9.  [query()] without types returns, whether the archetypes are well
    formed or not, one result with no components for each row of each
    archetype of the world, so the entities of the results are the entities
    stored in some archetype.  In a well-formed world where no entity
    occupies two rows, no entity has two results; and where, moreover,
    every entity the world files has a row in its archetype, the entities of
    the results are exactly the entities the world files under an
    archetype: those [addEntityWithComponents] or [addComponent] filed and
    [destroyEntity] has not taken out since. *)
Theorem query_without_types (w : World.t) :
  exists results,
    World.query w [] = Ok results
    /\ results
       = concat (map (fun a => map (fun e => {| World.entity := e; World.components := [] |})
                                  (Archetype.entityIds a))
                    (JsMap.values (World.archetypeBySignature w)))
    /\ (forall e, e ∈ map World.entity results
          <-> exists k a, (k, a) ∈ World.archetypeBySignature w
                          /\ e ∈ Archetype.entityIds a)
    /\ (Wf.world w -> Wf.entity_rows w ->
        NoDup (map World.entity results)
        /\ (Wf.filed_rows w ->
            forall e, e ∈ map World.entity results
                      <-> is_Some (JsMap.get (World.entityArchetype w) e))).
Proof.
  assert (Hrows : forall a, row_results [] a
            = map (fun e => {| World.entity := e; World.components := [] |})
                  (Archetype.entityIds a)).
  { intros a. unfold row_results. simpl. apply imap_const. }
  assert (Hall : forall l : list Archetype.t,
            concat (map (row_results []) (filter (fun a => matches [] a = true) l))
            = concat (map (fun a => map (fun e => {| World.entity := e;
                                                     World.components := [] |})
                                        (Archetype.entityIds a)) l)).
  { induction l as [|a l IH]; [done|]. rewrite filter_cons.
    rewrite decide_True by done. cbn [map concat]. by rewrite IH, Hrows. }
  assert (Hres : query_results w []
            = concat (map (fun a => map (fun e => {| World.entity := e;
                                                     World.components := [] |})
                                        (Archetype.entityIds a))
                          (JsMap.values (World.archetypeBySignature w)))).
  { apply Hall. }
  exists (query_results w []). split.
  { rewrite Hres. unfold World.query. cbv zeta. simpl.
    rewrite (collect_Ok _ (fun a => map (fun e => {| World.entity := e;
                                                      World.components := [] |})
                                        (Archetype.entityIds a))); [done|].
    intros a _. rewrite query_archetype_spec by (intros i c _ Hc; by apply elem_of_nil in Hc).
    f_equal. apply Hrows. }
  split; [done|].
  assert (Hstored : forall e, e ∈ map World.entity (query_results w [])
            <-> exists k a, (k, a) ∈ World.archetypeBySignature w
                            /\ e ∈ Archetype.entityIds a).
  { intros e. rewrite query_results_elem. split.
    - intros (a & Ha & _ & He). apply list_elem_of_fmap in Ha as ([k a'] & -> & Hin).
      by exists k, a'.
    - intros (k & a & Hin & He). exists a.
      split; [by apply (list_elem_of_fmap_2 snd _ (k, a))|]. by split. }
  split; [done|]. intros [Hwf Hkeys Hrefs] Hone. split.
  { apply (query_entities_NoDup (fun e => JsMap.get (World.entityArchetype w) e));
      [done|]. intros k a Hin. by apply Hone. }
  intros Hfiled e. rewrite Hstored. split.
  - intros (k & a & Hin & He). exists k. by apply (Hone k a Hin).
  - intros [k Hk]. destruct (Hrefs e k Hk) as [a Ha]. exists k, a.
    split; [by apply get_Some_elem|]. by apply (Hfiled e k a).
Qed.

Lemma query_without_types_witness :
  (Wf.world Examples.two_movers /\ Wf.entity_rows Examples.two_movers
   /\ Wf.filed_rows Examples.two_movers)
  /\ World.query Examples.two_movers []
     = Ok [ {| World.entity := 1; World.components := [] |};
            {| World.entity := 2; World.components := [] |} ]
  /\ forall e, e ∈ [1; 2] <-> is_Some (JsMap.get (World.entityArchetype Examples.two_movers) e).
Proof.
  split; [split; [apply two_movers_world|split; [apply two_movers_world|apply two_movers_filed]]|].
  destruct (query_without_types Examples.two_movers)
    as (results & Hq & -> & _ & Hone).
  destruct (Hone (proj1 two_movers_world) (proj2 two_movers_world)) as [_ Hfiled].
  split; [exact Hq|]. exact (Hfiled two_movers_filed).
Defined.

(** The condition on the rows is needed.  In the world where the entity 1
    was given its position twice, [query()] returns the entity twice, and
    after [destroyEntity(1)], which removes the row [indexByEntity] knows
    and the entry of the directory, [query()] still returns it. *)
Lemma query_without_types_twice_added_counterexample :
  Wf.world Examples.twice_added
  /\ World.query Examples.twice_added []
     = Ok [ {| World.entity := 1; World.components := [] |};
            {| World.entity := 1; World.components := [] |} ]
  /\ exists w', World.destroyEntity 1 Examples.twice_added = (w', Ok tt)
       /\ JsMap.get (World.entityArchetype w') 1 = None
       /\ World.query w' [] = Ok [ {| World.entity := 1; World.components := [] |} ].
Proof.
  split; [apply twice_added_world|]. split; [by vm_compute|].
  eexists. split; [by vm_compute|]. split; by vm_compute.
Qed.

(** C10.  [addEntityWithComponents] makes no check: called twice with the
    entity 1 and the type [Position], it leaves the entity in two rows of
    the archetype, [indexByEntity] pointing at the later one, and [query]
    returns two results for it. *)
Theorem entity_added_twice_has_two_rows :
  exists w a,
    Examples.run
      (do e <- World.createEntity;
       do tt <- World.addEntityWithComponents (H := Examples.code_unit_collation) e
                  [(Examples.Position, Examples.position 5 7)];
       World.addEntityWithComponents (H := Examples.code_unit_collation) e
         [(Examples.Position, Examples.position 6 8)])
      World.new = Some w
    /\ JsMap.get (World.archetypeBySignature w) "Position"%string = Some a
    /\ JsMap.values (World.archetypeBySignature w) = [a]
    /\ Archetype.entityIds a = [1; 1]
    /\ Archetype.indexByEntity a = [(1, 1)]
    /\ World.query w [Examples.Position]
       = Ok [ {| World.entity := 1; World.components := [Examples.position 5 7] |};
              {| World.entity := 1; World.components := [Examples.position 6 8] |} ].
Proof.
  do 2 eexists. split; [by vm_compute|]. split; [by vm_compute|].
  split; [by vm_compute|]. split; [by vm_compute|]. split; by vm_compute.
Qed.
End QueryClaims.
(** * Canonical archetypes *)

Section CanonicalClaims.
Import ComponentConstructor Wf Effects.



End CanonicalClaims.
(** * The claims about World *)

Section WorldClaims.
Import ComponentConstructor Wf Effects.

(** C5.  Migration keeps the components an entity had.  In a well-formed
    world of component classes whose type ids are not empty, hold no "|"
    and belong to one class each, take an entity filed at a row of its
    archetype, whose types are [CA] and [CB] and whose components read [a]
    and [b], a third type [CC] and a value [c] that can be stored.  Then
    [addComponent(e, CC, c)] returns, and [getComponent] reads [a], [b] and
    the stored [c]; [removeComponent(e, CC)] returns after it, and
    [getComponent] reads [a] and [b] again and is [undefined] for [CC]; and
    the world is well formed at the end. *)
Theorem migration_round_trip_keeps_components `{CollationOrder}
    (U : ComponentConstructor.t -> Prop) (w : World.t) (e : Entity)
    (CA CB CC : ComponentConstructor.t) (a b c : object)
    (r : World.ref) (cur : Archetype.t) (idx : Z) :
  classes U -> U CC -> Wf.world w -> registry U w ->
  JsMap.get (World.entityArchetype w) e = Some r ->
  JsMap.get (World.archetypeBySignature w) r = Some cur ->
  Archetype.indexOf cur e = Some idx ->
  Archetype.typeIds cur ≡ₚ [typeId CA; typeId CB] ->
  typeId CC ∉ [typeId CA; typeId CB] ->
  World.getComponent w e CA = Ok (Some a) ->
  World.getComponent w e CB = Ok (Some b) ->
  storable (schema CC) c = true ->
  exists w1 w2,
    World.addComponent e CC c w = (w1, Ok tt)
    /\ World.getComponent w1 e CA = Ok (Some a)
    /\ World.getComponent w1 e CB = Ok (Some b)
    /\ World.getComponent w1 e CC
       = Ok (Some (map (fun f => (f.1, stored_value c f)) (schema CC)))
    /\ World.removeComponent e CC w1 = (w2, Ok tt)
    /\ World.getComponent w2 e CA = Ok (Some a)
    /\ World.getComponent w2 e CB = Ok (Some b)
    /\ World.getComponent w2 e CC = Ok None
    /\ Wf.world w2 /\ registry U w2.
Proof.
  intros HU HCC Hwf Hreg He Hr Hidx Hids Hnew HA HB Hst.
  assert (HneA : typeId CA ≠ typeId CC).
  { intros Heq. apply Hnew. rewrite <- Heq. apply list_elem_of_here. }
  assert (HneB : typeId CB ≠ typeId CC).
  { intros Heq. apply Hnew. rewrite <- Heq. apply list_elem_of_further, list_elem_of_here. }
  pose proof (registered_wf w r cur (world_archetypes _ Hwf) (get_Some_elem _ _ _ Hr)) as Hwfc.
  destruct (addComponent_reads U w e CC c r cur idx HU HCC Hwf Hreg He Hr Hidx Hst)
    as (w1 & t1 & a1 & idx1 & Hrun1 & Hwf1 & Hreg1 & He1 & Ht1 & Hidx1 & Hperm1 & Hnew1 & Hold1
        & _).
  rewrite bool_decide_eq_false_2 in Hperm1
    by (by rewrite <- (archetype_typeIds _ Hwfc), Hids).
  pose proof (registered_wf w1 t1 a1 (world_archetypes _ Hwf1) (get_Some_elem _ _ _ Ht1))
    as Hwfa1.
  assert (Hin1 : typeId CC ∈ Archetype.typeIds a1).
  { rewrite (archetype_typeIds _ Hwfa1). apply list_elem_of_fmap_2. rewrite Hperm1.
    apply elem_of_app. right. apply list_elem_of_here. }
  destruct (removeComponent_reads U w1 e CC t1 a1 idx1 HU Hwf1 Hreg1 He1 Ht1 Hidx1 Hin1)
    as (w2 & t2 & a2 & idx2 & Hrun2 & Hwf2 & Hreg2 & _ & _ & _ & _ & Hgone2 & Hold2 & _).
  exists w1, w2. split; [done|].
  split; [by rewrite Hold1|]. split; [by rewrite Hold1|]. split; [done|]. split; [done|].
  split; [by rewrite Hold2, Hold1|]. split; [by rewrite Hold2, Hold1|]. done.
Qed.

Local Ltac class_member :=
  unfold Examples.is_class;
  repeat first [apply list_elem_of_here | apply list_elem_of_further].

Lemma migration_round_trip_keeps_components_witness :
  let cur := Effects.after_addEntity 2
               [("Position", Examples.position 2 2); ("Velocity", Examples.velocity 6 6)]%string
               (Effects.after_addEntity 1
                  [("Position", Examples.position 1 1); ("Velocity", Examples.velocity 5 5)]%string
                  (Effects.fresh_archetype [Examples.Position; Examples.Velocity])) in
  (classes Examples.is_class /\ Examples.is_class Examples.Health
   /\ Wf.world Examples.two_movers /\ registry Examples.is_class Examples.two_movers
   /\ JsMap.get (World.entityArchetype Examples.two_movers) 2 = Some "Position|Velocity"%string
   /\ JsMap.get (World.archetypeBySignature Examples.two_movers) "Position|Velocity"%string
      = Some cur
   /\ Archetype.indexOf cur 2 = Some 1
   /\ Archetype.typeIds cur ≡ₚ [typeId Examples.Position; typeId Examples.Velocity]
   /\ (typeId Examples.Health ∉ [typeId Examples.Position; typeId Examples.Velocity])
   /\ World.getComponent Examples.two_movers 2 Examples.Position
      = Ok (Some (Examples.position 2 2))
   /\ World.getComponent Examples.two_movers 2 Examples.Velocity
      = Ok (Some (Examples.velocity 6 6))
   /\ storable (schema Examples.Health) (Examples.health 50) = true)
  /\ exists w1 w2,
       World.addComponent (H := Examples.code_unit_collation) 2 Examples.Health
         (Examples.health 50) Examples.two_movers = (w1, Ok tt)
       /\ World.getComponent w1 2 Examples.Health = Ok (Some (Examples.health 50))
       /\ World.removeComponent (H := Examples.code_unit_collation) 2 Examples.Health w1
          = (w2, Ok tt)
       /\ World.getComponent w2 2 Examples.Position = Ok (Some (Examples.position 2 2))
       /\ World.getComponent w2 2 Examples.Velocity = Ok (Some (Examples.velocity 6 6))
       /\ World.getComponent w2 2 Examples.Health = Ok None.
Proof.
  intros cur.
  assert (Hh : Examples.is_class Examples.Health) by class_member.
  assert (Hnew : typeId Examples.Health
                 ∉ [typeId Examples.Position; typeId Examples.Velocity]).
  { apply (bool_decide_unpack _). by vm_compute. }
  split.
  { split; [apply example_classes|]. split; [exact Hh|]. split; [apply two_movers_world|].
    split; [apply two_movers_registry|]. do 3 (split; [by vm_compute|]).
    split; [done|]. split; [exact Hnew|]. repeat (split; [by vm_compute|]). by vm_compute. }
  destruct (migration_round_trip_keeps_components (H := code_unit_collation_order)
              Examples.is_class Examples.two_movers 2
              Examples.Position Examples.Velocity Examples.Health
              (Examples.position 2 2) (Examples.velocity 6 6) (Examples.health 50)
              "Position|Velocity"%string cur 1
              example_classes Hh (proj1 two_movers_world) two_movers_registry)
    as (w1 & w2 & Hrun1 & _ & _ & Hc1 & Hrun2 & Ha2 & Hb2 & Hc2 & _);
    [by vm_compute|by vm_compute|by vm_compute|done|exact Hnew|by vm_compute..|].
  exists w1, w2. split; [exact Hrun1|]. split; [rewrite Hc1; by vm_compute|].
  split; [exact Hrun2|]. by repeat split.
Defined.

(** The condition on the type ids is needed.  The type id of the class
    [Combined] is the signature of [Health], [Position] and [Velocity].  In
    a world where an entity 2 has a component of that class, the entity 1
    has a position and a velocity; [addComponent(1, Health, _)] finds the
    archetype of [Combined] under the signature of the three types and moves
    the entity there, [removeComponent(1, Health)] finds no such type in
    that archetype and returns, and the position and the velocity of the
    entity are lost. *)
Lemma migration_signature_collision_counterexample :
  let w := Examples.with_combined in
  (exists cur, JsMap.get (World.entityArchetype w) 1 = Some "Position|Velocity"%string
     /\ JsMap.get (World.archetypeBySignature w) "Position|Velocity"%string = Some cur
     /\ Archetype.typeIds cur = ["Position"; "Velocity"]%string
     /\ Archetype.indexOf cur 1 = Some 0)
  /\ Wf.world w
  /\ World.getComponent w 1 Examples.Position = Ok (Some (Examples.position 1 2))
  /\ World.getComponent w 1 Examples.Velocity = Ok (Some (Examples.velocity 3 4))
  /\ exists w1 w2,
       World.addComponent (H := Examples.code_unit_collation) 1 Examples.Health
         (Examples.health 50) w = (w1, Ok tt)
       /\ World.removeComponent (H := Examples.code_unit_collation) 1 Examples.Health w1
          = (w2, Ok tt)
       /\ World.getComponent w2 1 Examples.Position = Ok None
       /\ World.getComponent w2 1 Examples.Velocity = Ok None.
Proof.
  intros w. split; [eexists; repeat split; by vm_compute|].
  split; [apply with_combined_world|]. split; [by vm_compute|]. split; [by vm_compute|].
  do 2 eexists. split; [by vm_compute|]. split; [by vm_compute|]. split; by vm_compute.
Qed.

(** C7.  In a well-formed world where no entity occupies two rows (every
    row is the one [indexByEntity] gives for its entity, and its entity is
    filed under that archetype), [destroyEntity(e)] returns for every
    entity, and immediately afterwards: the world is well formed and no
    entity occupies two rows, as before; the world does not file [e] and no
    archetype has a row of it; [getComponent(e, T)] is [undefined] for
    every component type [T]; and [query] over any list of component types
    returns and has no result whose entity is [e]. *)
Theorem destroyEntity_hides_entity (w : World.t) (e : Entity) :
  Wf.world w -> Wf.entity_rows w ->
  exists w', World.destroyEntity e w = (w', Ok tt)
    /\ Wf.world w' /\ Wf.entity_rows w'
    /\ JsMap.get (World.entityArchetype w') e = None
    /\ (forall k a, (k, a) ∈ World.archetypeBySignature w' -> e ∉ Archetype.entityIds a)
    /\ (forall T, World.getComponent w' e T = Ok None)
    /\ forall ctors, exists results,
         World.query w' ctors = Ok results /\ e ∉ map World.entity results.
Proof.
  intros Hwf Hrows.
  assert (Hcore : exists w', World.destroyEntity e w = (w', Ok tt)
            /\ Wf.world w' /\ Wf.entity_rows w'
            /\ JsMap.get (World.entityArchetype w') e = None).
  { pose proof Hwf as [Hars Hkeys Hrefs]. unfold World.destroyEntity.
    destruct (JsMap.get (World.entityArchetype w) e) as [k|] eqn:Hk.
    2: { exists w. by rewrite Hk. }
    destruct (Hrefs e k Hk) as [a Ha]. pose proof (get_Some_elem _ _ _ Ha) as Hin.
    destruct (removeEntity_others a e (registered_wf w k a Hars Hin) (proj1 (Hrows k a Hin)))
      as (a' & Hrun & Hwf' & Hc' & _ & _ & Hmem & _).
    unfold bind. rewrite (call_spec k _ w a a' (Ok tt) Ha Hrun). unfold modify.
    eexists. split; [done|]. split; [|split].
    - split; simpl.
      + unfold Wf.archetypes. simpl. by apply Forall_set.
      + by apply NoDup_keys_set.
      + intros r k' Hr. destruct (decide (e = r)) as [->|Hne].
        * by rewrite get_delete_eq in Hr.
        * rewrite get_delete_ne in Hr by done. apply is_Some_get_set. by eapply Hrefs.
    - intros k' a0 Hin'. simpl in Hin'.
      apply elem_of_set in Hin' as [[-> ->]|[Hne Hin']]; [| |done].
      + split; [done|]. intros r Hr. simpl. apply Hmem in Hr as [Hr Hre].
        rewrite get_delete_ne by done. by apply (Hrows k a Hin).
      + destruct (Hrows k' a0 Hin') as [Hc0 Hfiled]. split; [done|].
        intros r Hr. simpl. rewrite get_delete_ne; [by apply Hfiled|].
        intros <-. rewrite (Hfiled e Hr) in Hk. by injection Hk.
    - simpl. apply get_delete_eq. }
  destruct Hcore as (w' & Hrun & Hwf' & Hrows' & Hnone).
  assert (Hnorow : forall k a, (k, a) ∈ World.archetypeBySignature w' ->
            e ∉ Archetype.entityIds a).
  { intros k a Hin He. rewrite (proj2 (Hrows' k a Hin) e He) in Hnone. done. }
  exists w'. do 5 (split; [done|]). split.
  - intros T. unfold World.getComponent. by rewrite Hnone.
  - intros ctors. exists (query_results w' ctors).
    split; [apply query_spec, Hwf'|].
    intros He. apply query_results_entities in He as (k & a & Hin & He).
    by apply (Hnorow k a Hin).
Qed.

Lemma destroyEntity_hides_entity_witness :
  (Wf.world Examples.two_movers /\ Wf.entity_rows Examples.two_movers)
  /\ exists w', World.destroyEntity 1 Examples.two_movers = (w', Ok tt)
       /\ World.entityArchetype w' = [(2, "Position|Velocity"%string)]
       /\ (forall T, World.getComponent w' 1 T = Ok None)
       /\ World.query w' [Examples.Position]
          = Ok [ {| World.entity := 2; World.components := [Examples.position 2 2] |} ]
       /\ forall ctors, exists results,
            World.query w' ctors = Ok results /\ 1 ∉ map World.entity results.
Proof.
  split; [apply two_movers_world|].
  destruct (destroyEntity_hides_entity Examples.two_movers 1
              (proj1 two_movers_world) (proj2 two_movers_world))
    as (w' & Hrun & _ & _ & _ & _ & Hget & Hquery).
  exists w'. assert (Hw' : w' = (World.destroyEntity 1 Examples.two_movers).1)
    by (by rewrite Hrun).
  split; [exact Hrun|]. split; [rewrite Hw'; by vm_compute|]. split; [exact Hget|].
  split; [rewrite Hw'; by vm_compute|]. exact Hquery.
Defined.

(** The condition on the rows is needed: for an entity that was given its
    components twice, [destroyEntity] removes the row [indexByEntity] knows,
    and the other row still shows in [query]. *)
Lemma destroyEntity_twice_added_example :
  exists w w' results,
    Examples.run
      (do e <- World.createEntity;
       do tt <- World.addEntityWithComponents (H := Examples.code_unit_collation) e
                  [(Examples.Position, Examples.position 5 7)];
       World.addEntityWithComponents (H := Examples.code_unit_collation) e
         [(Examples.Position, Examples.position 6 8)])
      World.new = Some w
    /\ is_Some (JsMap.get (World.entityArchetype w) 1)
    /\ World.destroyEntity 1 w = (w', Ok tt)
    /\ World.query w' [Examples.Position] = Ok results
    /\ 1 ∈ map World.entity results.
Proof.
  do 3 eexists. split; [by vm_compute|]. split; [eexists; by vm_compute|].
  split; [by vm_compute|]. split; [by vm_compute|].
  apply (bool_decide_unpack _). by vm_compute.
Qed.
End WorldClaims.

(** * Further properties of ColumnStore *)

Section ColumnStoreProperties.
Import TypedArray ColumnStore Wf Effects.

(** X1.  [new ColumnStore(schema, initialCapacity)] returns for every
    schema: the store is well formed, has no row, its capacity is
    [max(initialCapacity, 1)], it holds one zero-filled buffer of that length
    and of the field's array kind for each field of the schema, in the order
    of the schema, and [get] at any index from 0 on returns the record of
    the defaults. *)
Theorem new_store_is_empty (schema : ComponentSchema) (initialCapacity : Z) :
  NoDup (JsMap.keys schema) ->
  exists s, ColumnStore.new schema initialCapacity = Ok s
    /\ Wf.store s
    /\ ColumnStore.schema s = schema /\ size s = 0
    /\ capacity s = Z.max initialCapacity 1
    /\ typedArrayMap s
       = map (fun f => (f.1, TypedArray.create (array_kind f.2) (Z.max initialCapacity 1)))
             schema
    /\ forall index, 0 <= index -> ColumnStore.get s index = Ok (default_record schema).
Proof.
  intros Hnd. exists (fresh_store schema initialCapacity).
  split; [by apply new_spec|]. pose proof (fresh_store_wf schema initialCapacity Hnd) as Hwf.
  split; [done|]. do 4 (split; [done|]).
  intros index Hi. by rewrite get_beyond_size.
Qed.

Lemma new_store_is_empty_witness :
  NoDup (JsMap.keys Examples.comp_schema)
  /\ exists s, ColumnStore.new Examples.comp_schema 0 = Ok s
       /\ size s = 0 /\ capacity s = 1
       /\ ColumnStore.get s 3
          = Ok [("x", VNumber (Finite 0 0)); ("flag", VBoolean false);
                ("id", VBigInt 0); ("name", VNumber (Finite 0 0))]%string.
Proof.
  assert (Hnd : NoDup (JsMap.keys Examples.comp_schema))
    by (apply (bool_decide_unpack _); by vm_compute).
  split; [exact Hnd|].
  destruct (new_store_is_empty Examples.comp_schema 0 Hnd)
    as (s & Hnew & _ & _ & Hsize & Hcap & _ & Hget).
  exists s. split; [exact Hnew|]. split; [exact Hsize|]. split; [exact Hcap|].
  apply (Hget 3). lia.
Defined.

(** X2.  [get(index)] makes no bounds check.  On a well-formed store, at an
    index from [size] on it returns the record of the defaults ([0], [false],
    [0n]); at a negative index the buffers read [undefined], so a store
    without 64-bit integer fields returns [undefined] for its number fields
    and [true] for its boolean fields, and a store with a 64-bit integer
    field throws the TypeError of [BigInt(undefined)]. *)
Theorem get_outside_rows (s : ColumnStore.t) (index : Z) :
  Wf.store s ->
  (size s <= index -> ColumnStore.get s index = Ok (default_record (schema s)))
  /\ (index < 0 ->
      if forallb (fun f => negb (is_bigint_field f.2)) (schema s)
      then ColumnStore.get s index
           = Ok (map (fun f => (f.1, outside_value f.2)) (schema s))
      else ColumnStore.get s index
           = Throw (TypeError "Cannot convert undefined to a BigInt")).
Proof.
  intros Hwf. split; [by apply get_beyond_size|]. intros Hi.
  rewrite get_spec by done.
  destruct (forallb _ (schema s)) eqn:Hall.
  - apply collect_Ok. intros f Hf. rewrite cell_negative by done.
    rewrite forallb_forall in Hall. specialize (Hall f (proj1 (list_elem_of_In _ _) Hf)).
    by destruct f as [k []].
  - apply collect_Throw.
    + intros f Hf. rewrite cell_negative by done. destruct f as [k []]; simpl; auto.
    + apply (not_true_iff_false _) in Hall.
      destruct (decide (Exists (fun f => is_bigint_field f.2 = true) (schema s)))
        as [Hex|Hno].
      * apply Exists_exists in Hex as (f & Hf & Hbig). exists f. split; [done|].
        rewrite cell_negative by done. by destruct f as [k []].
      * exfalso. apply Hall, forallb_forall. intros f Hf.
        apply list_elem_of_In in Hf. destruct (is_bigint_field f.2) eqn:Hb; [|done].
        exfalso. apply Hno, Exists_exists. by exists f.
Qed.

Lemma get_outside_rows_witness :
  let s := Examples.comp_store 2 in
  Wf.store s
  /\ ColumnStore.get s 5 = Ok (default_record (schema s))
  /\ ColumnStore.get s (-1) = Throw (TypeError "Cannot convert undefined to a BigInt").
Proof.
  intros s. pose proof (comp_store_wf 2) as Hwf. split; [exact Hwf|].
  destruct (get_outside_rows s 5 Hwf) as [Hhigh _].
  destruct (get_outside_rows s (-1) Hwf) as [_ Hlow].
  split; [apply Hhigh; by vm_compute|]. apply Hlow. lia.
Defined.

(** X3.  [swapRemove(index)] on a well-formed store throws "Index out of
    range" and changes nothing when [index] is outside [0, size); otherwise
    it returns, the store stays well formed with its schema and capacity,
    [size] decreases by one, row [index] reads as the last row did and every
    other row left reads as before. *)
Theorem swapRemove_moves_last_row (s : ColumnStore.t) (index : Z) :
  Wf.store s ->
  (index < 0 \/ size s <= index ->
     swapRemove index s = (s, Throw (Error "Index out of range")))
  /\ (0 <= index < size s ->
      exists s', swapRemove index s = (s', Ok tt)
        /\ Wf.store s' /\ schema s' = schema s /\ capacity s' = capacity s
        /\ size s' = size s - 1
        /\ forall j, 0 <= j < size s - 1 ->
             ColumnStore.get s' j
             = ColumnStore.get s (if j =? index then size s - 1 else j)).
Proof.
  intros Hwf. split.
  - intros Hout. unfold swapRemove.
    destruct (Z.ltb_spec index 0), (Z.leb_spec (size s) index); simpl; try done; lia.
  - intros Hin. exists (after_swapRemove index s).
    split; [by apply swapRemove_spec|]. split; [by apply after_swapRemove_wf|].
    split; [by apply after_swapRemove_schema|]. split.
    + unfold after_swapRemove. by destruct (index =? size s - 1).
    + split; [by apply after_swapRemove_size|]. intros j Hj. by apply get_after_swapRemove.
Qed.

Lemma swapRemove_moves_last_row_witness :
  let s := after_set 2 (Examples.comp (Finite 3 0) true 30 3)
             (after_set 1 (Examples.comp (Finite 1 1) false 20 2)
                (after_set 0 (Examples.comp (Finite 1 0) true 10 1) (Examples.comp_store 4))) in
  Wf.store s
  /\ swapRemove 3 s = (s, Throw (Error "Index out of range"))
  /\ exists s', swapRemove 0 s = (s', Ok tt) /\ size s' = 2
       /\ ColumnStore.get s' 0 = ColumnStore.get s 2
       /\ ColumnStore.get s' 1 = ColumnStore.get s 1.
Proof.
  intros s.
  assert (Hwf : Wf.store s).
  { repeat (apply after_set_wf; [|lia|by vm_compute]). apply comp_store_wf. }
  split; [exact Hwf|].
  destruct (swapRemove_moves_last_row s 3 Hwf) as [Hout _].
  destruct (swapRemove_moves_last_row s 0 Hwf) as [_ Hin].
  split; [apply Hout; right; by vm_compute|].
  destruct Hin as (s' & Hrun & _ & _ & _ & Hsize & Hrows); [by vm_compute|].
  exists s'. split; [exact Hrun|]. split; [rewrite Hsize; by vm_compute|].
  split; [apply (Hrows 0)|apply (Hrows 1)]; by vm_compute.
Defined.

(** X4.  A [copyFrom(indexTarget, other, indexSrc)] between well-formed
    stores of one schema, with [indexTarget >= 0] and [indexSrc] a row of
    [other], returns; the destination stays well formed with its schema, its
    size is [max(size, indexTarget + 1)], row [indexTarget] reads as row
    [indexSrc] of [other] does, and every other row below the old size reads
    as before. *)
Theorem copyFrom_copies_row (this other : ColumnStore.t) (indexTarget indexSrc : Z) :
  Wf.store this -> Wf.store other -> schema other = schema this ->
  0 <= indexTarget -> 0 <= indexSrc < size other ->
  exists this', copyFrom indexTarget other indexSrc this = (this', Ok tt)
    /\ Wf.store this' /\ schema this' = schema this
    /\ size this' = Z.max (size this) (indexTarget + 1)
    /\ ColumnStore.get this' indexTarget = ColumnStore.get other indexSrc
    /\ forall j, j ≠ indexTarget -> j < size this ->
         ColumnStore.get this' j = ColumnStore.get this j.
Proof.
  intros Hwf Hwfo Hsch Hi Hsrc. exists (after_copyFrom indexTarget other indexSrc this).
  split.
  { rewrite copyFrom_spec by done.
    destruct (Z.ltb_spec indexSrc 0), (Z.leb_spec (size other) indexSrc); simpl; try lia.
    done. }
  split; [by apply after_copyFrom_wf|]. split; [by apply after_copyFrom_schema|].
  split; [by apply after_copyFrom_size|]. by apply get_after_copyFrom.
Qed.

Lemma copyFrom_copies_row_witness :
  let a := Examples.comp_store 4 in
  let b := after_set 0 (Examples.comp (Finite 19 (-1)) true 999 77) (Examples.comp_store 4) in
  (Wf.store a /\ Wf.store b /\ schema b = schema a /\ 0 <= 5 /\ 0 <= 0 < size b)
  /\ exists a', copyFrom 5 b 0 a = (a', Ok tt)
       /\ size a' = 6
       /\ ColumnStore.get a' 5
          = Ok (Examples.comp (Finite 19 (-1)) true 999 77).
Proof.
  intros a b.
  assert (Hb : Wf.store b).
  { apply after_set_wf; [apply comp_store_wf|lia|by vm_compute]. }
  split.
  - split; [apply comp_store_wf|]. split; [exact Hb|]. split; [by vm_compute|].
    split; [lia|by vm_compute].
  - destruct (copyFrom_copies_row a b 5 0)
      as (a' & Hrun & _ & _ & Hsize & Hrow & _);
      [apply comp_store_wf|exact Hb|by vm_compute|lia|by vm_compute|].
    exists a'. split; [exact Hrun|]. split; [rewrite Hsize; by vm_compute|].
    rewrite Hrow. by vm_compute.
Defined.

(** X5.  A record [get] returns can be stored back as it is: for two
    well-formed stores of one schema, [set(indexTarget, other.get(indexSrc))]
    returns, reads back at [indexTarget] as the very record that was read,
    and leaves a store that reads as the one [copyFrom(indexTarget, other,
    indexSrc)] leaves, at row [indexTarget] and at every row below the old
    size, with the same size. *)
Theorem set_of_get_is_copyFrom (this other : ColumnStore.t) (indexTarget indexSrc : Z) :
  Wf.store this -> Wf.store other -> schema other = schema this ->
  0 <= indexTarget -> 0 <= indexSrc < size other ->
  exists o s1 s2,
    ColumnStore.get other indexSrc = Ok o
    /\ ColumnStore.set indexTarget o this = (s1, Ok tt)
    /\ copyFrom indexTarget other indexSrc this = (s2, Ok tt)
    /\ ColumnStore.get s1 indexTarget = Ok o
    /\ size s1 = size s2
    /\ forall j, j = indexTarget \/ j < size this ->
         ColumnStore.get s1 j = ColumnStore.get s2 j.
Proof.
  intros Hwf Hwfo Hsch Hi Hsrc.
  destruct (get_total other indexSrc Hwfo ltac:(lia)) as (o & Ho & Hrec).
  rewrite Hsch in Hrec.
  pose proof (record_storable _ _ Hrec (store_keys _ Hwf)) as Hst.
  exists o, (after_set indexTarget o this), (after_copyFrom indexTarget other indexSrc this).
  split; [done|]. split; [by apply set_spec|]. split.
  { rewrite copyFrom_spec by done.
    destruct (Z.ltb_spec indexSrc 0), (Z.leb_spec (size other) indexSrc); simpl; try lia.
    done. }
  split; [by apply get_after_set_record|].
  split; [by rewrite after_set_size, after_copyFrom_size|].
  destruct (get_after_copyFrom this other indexTarget indexSrc Hwf Hwfo Hsch Hi Hsrc)
    as [Hrow Hframe].
  intros j Hj. destruct (decide (j = indexTarget)) as [->|Hne].
  - by rewrite Hrow, Ho, get_after_set_record.
  - destruct Hj as [?|Hlt]; [done|].
    by rewrite Hframe, get_after_set_other.
Qed.

Lemma set_of_get_is_copyFrom_witness :
  let a := Examples.comp_store 4 in
  let b := after_set 0 (Examples.comp (Finite 19 (-1)) true 999 77) (Examples.comp_store 4) in
  (Wf.store a /\ Wf.store b /\ schema b = schema a /\ 0 <= 1 /\ 0 <= 0 < size b)
  /\ exists o s1 s2,
       ColumnStore.get b 0 = Ok o
       /\ ColumnStore.set 1 o a = (s1, Ok tt)
       /\ copyFrom 1 b 0 a = (s2, Ok tt)
       /\ ColumnStore.get s1 1 = Ok o
       /\ size s1 = size s2
       /\ forall j, j = 1 \/ j < size a -> ColumnStore.get s1 j = ColumnStore.get s2 j.
Proof.
  intros a b.
  assert (Hb : Wf.store b).
  { apply after_set_wf; [apply comp_store_wf|lia|by vm_compute]. }
  split.
  - split; [apply comp_store_wf|]. split; [exact Hb|]. split; [by vm_compute|].
    split; [lia|by vm_compute].
  - apply (set_of_get_is_copyFrom a b 1 0);
      [apply comp_store_wf|exact Hb|by vm_compute|lia|by vm_compute].
Defined.

(** X6.  Two writes in a row: after [set(i, v)] and [set(j, w)] of values
    that can be stored, [size] is the greatest of the old size, [i + 1] and
    [j + 1], row [j] reads as [w] stored, and row [i], when it is another
    row, still reads as [v] stored; on the same row the last write wins. *)
Theorem set_then_set (s : ColumnStore.t) (i j : Z) (v w : object) :
  Wf.store s -> 0 <= i -> 0 <= j ->
  storable (schema s) v = true -> storable (schema s) w = true ->
  exists s1 s2,
    ColumnStore.set i v s = (s1, Ok tt) /\ ColumnStore.set j w s1 = (s2, Ok tt)
    /\ Wf.store s2
    /\ size s2 = Z.max (size s) (Z.max (i + 1) (j + 1))
    /\ ColumnStore.get s2 j = Ok (map (fun f => (f.1, stored_value w f)) (schema s))
    /\ (i ≠ j ->
        ColumnStore.get s2 i = Ok (map (fun f => (f.1, stored_value v f)) (schema s))).
Proof.
  intros Hwf Hi Hj Hv Hw.
  pose proof (after_set_wf s i v Hwf Hi Hv) as Hwf1.
  assert (Hw1 : storable (schema (after_set i v s)) w = true)
    by (by rewrite after_set_schema).
  exists (after_set i v s), (after_set j w (after_set i v s)).
  split; [by apply set_spec|]. split; [by apply set_spec|].
  split; [by apply after_set_wf|]. split; [rewrite !after_set_size; lia|]. split.
  - rewrite get_after_set by done. by rewrite after_set_schema.
  - intros Hne. rewrite get_after_set_other; [by apply get_after_set|done|done|done|done|].
    rewrite after_set_size. lia.
Qed.

Lemma set_then_set_witness :
  let s := Examples.comp_store 2 in
  let v := Examples.comp (Finite 3 (-1)) true 5 6 in
  let w := Examples.comp (Finite 1 2) false 7 8 in
  (Wf.store s /\ 0 <= 9 /\ 0 <= 0
   /\ storable (schema s) v = true /\ storable (schema s) w = true)
  /\ exists s1 s2,
       ColumnStore.set 9 v s = (s1, Ok tt) /\ ColumnStore.set 0 w s1 = (s2, Ok tt)
       /\ size s2 = 10
       /\ ColumnStore.get s2 0 = Ok w /\ ColumnStore.get s2 9 = Ok v.
Proof.
  intros s v w. split.
  - split; [apply comp_store_wf|]. split; [lia|]. split; [lia|].
    split; by vm_compute.
  - destruct (set_then_set s 9 0 v w) as (s1 & s2 & H1 & H2 & _ & Hsize & Hj & Hi);
      [apply comp_store_wf|lia|lia|by vm_compute|by vm_compute|].
    exists s1, s2. split; [exact H1|]. split; [exact H2|].
    split; [rewrite Hsize; by vm_compute|].
    split; [rewrite Hj; by vm_compute|]. rewrite Hi by lia. by vm_compute.
Defined.

(** X7.  The ways [set(index, value)] fails on a well-formed store.  A
    negative [index] throws the RangeError before anything is touched.  With
    [index >= 0] and a value one of whose fields cannot be stored, the call
    throws after the buffers may have grown and the fields before the
    offending one have been written at [index]: the store is still well
    formed, its schema and size are unchanged, and every row other than
    [index] below the size reads as before. *)
Theorem set_failure_keeps_other_rows (s : ColumnStore.t) (index : Z) (value : object) :
  Wf.store s ->
  (index < 0 ->
     ColumnStore.set index value s = (s, Throw (RangeError "Index must be non-negative")))
  /\ (0 <= index -> storable (schema s) value = false ->
      exists s' e, ColumnStore.set index value s = (s', Throw e)
        /\ Wf.store s' /\ schema s' = schema s /\ size s' = size s
        /\ forall j, j ≠ index -> j < size s ->
             ColumnStore.get s' j = ColumnStore.get s j).
Proof.
  intros Hwf. split.
  - intros Hneg. unfold ColumnStore.set. by destruct (Z.ltb_spec index 0); [|lia].
  - intros Hi Hst.
    destruct (ColumnStore.set index value s) as [s' r] eqn:Hrun.
    pose proof Hrun as Hrun0. unfold ColumnStore.set in Hrun.
    destruct (Z.ltb_spec index 0); [lia|]. unfold bind at 1 in Hrun.
    assert (Hgrow : (if capacity s <=? index then ensureCapacity (index + 1) s else (s, Ok tt))
                    = (grown (index + 1) s, Ok tt)).
    { destruct (Z.leb_spec (capacity s) index).
      - by apply ensureCapacity_spec.
      - rewrite grown_same; [done|done|lia]. }
    rewrite Hgrow in Hrun. pose proof (grown_wf s (index + 1) Hwf) as Hwf1.
    unfold bind at 1 in Hrun. cbv beta in Hrun.
    destruct (write_loop_frame index value (grown (index + 1) s)
                (JsMap.keys (schema (grown (index + 1) s))) (grown (index + 1) s))
      as (s2 & r2 & Hloop & Hdiv & Hwf2 & Hsz & Hsch & _ & Hcells); try done.
    rewrite Hloop in Hrun.
    destruct r2 as [[]|e|]; [|injection Hrun as <- <-|done].
    { exfalso. unfold modify in Hrun. injection Hrun as <- <-.
      apply set_Ok_storable in Hrun0; [congruence|done|done]. }
    exists s2, e. split; [done|]. split; [done|]. split; [done|]. split; [done|].
    intros j Hj Hlt. rewrite <- (get_grown s (index + 1)) by done.
    apply get_cells; [done|done|done|]. intros f _. by apply Hcells.
Qed.

Lemma set_failure_keeps_other_rows_witness :
  let s := after_set 0 (Examples.comp (Finite 1 0) true 10 1) (Examples.comp_store 2) in
  let bad := [("x", VNumber (Finite 5 0)); ("flag", VObject)]%string in
  Wf.store s
  /\ ColumnStore.set (-1) bad s = (s, Throw (RangeError "Index must be non-negative"))
  /\ exists s' e, ColumnStore.set 0 bad s = (s', Throw e)
       /\ size s' = size s
       /\ ColumnStore.get s' 0 ≠ ColumnStore.get s 0.
Proof.
  intros s bad.
  assert (Hwf : Wf.store s).
  { apply after_set_wf; [apply comp_store_wf|lia|by vm_compute]. }
  split; [exact Hwf|].
  destruct (set_failure_keeps_other_rows s (-1) bad Hwf) as [Hneg _].
  destruct (set_failure_keeps_other_rows s 0 bad Hwf) as [_ Hbad].
  split; [apply Hneg; lia|].
  destruct Hbad as (s' & e & Hrun & _ & _ & Hsize & _); [lia|by vm_compute|].
  exists s', e. split; [exact Hrun|]. split; [exact Hsize|].
  vm_compute in Hrun. injection Hrun as <- _. by vm_compute.
Defined.


End ColumnStoreProperties.

(** * Further properties of Archetype *)

Section ArchetypeProperties.
Import ColumnStore ComponentConstructor Wf Effects.

(** X8.  [new Archetype(ctors)], for component types with distinct type ids,
    returns an archetype that satisfies the invariant and holds no entity;
    its types are the given ones, with the type ids in the order of the
    collation; [containsTypeId] is true exactly for their ids; no entity has
    an index; and every type has its store, where every row from 0 on reads
    as the record of the defaults. *)
Theorem new_archetype_is_sorted `{CollationOrder} (ctors : list ComponentConstructor.t) :
  NoDup (map typeId ctors) -> Forall (fun c => NoDup (JsMap.keys (schema c))) ctors ->
  exists a, Archetype.new ctors = Ok a
    /\ Wf.archetype a /\ index_complete a
    /\ Archetype.size a = 0
    /\ Archetype.ctors a ≡ₚ ctors
    /\ Sorted (before localeCompare) (Archetype.typeIds a)
    /\ (forall id, Archetype.containsTypeId a id = true <-> id ∈ map typeId ctors)
    /\ (forall e, Archetype.indexOf a e = None)
    /\ forall c i, c ∈ ctors -> 0 <= i ->
         Archetype.getComponentAt a c i = Ok (default_record (schema c)).
Proof.
  intros Hnd Hsch. exists (fresh_archetype (sort by_typeId ctors)).
  split; [by apply new_archetype_spec|].
  assert (Hwf : Wf.archetype (fresh_archetype (sort by_typeId ctors))).
  { apply fresh_archetype_wf.
    - by rewrite sort_perm.
    - by rewrite sort_perm. }
  split; [done|]. split; [by intros i e|]. split; [done|].
  split; [apply sort_perm|]. split.
  { simpl. unfold by_typeId. rewrite (sort_map typeId localeCompare).
    apply sort_sorted, localeCompare_total. }
  split.
  { intros id. unfold Archetype.containsTypeId. simpl.
    rewrite bool_decide_eq_true. by rewrite sort_perm. }
  split; [done|]. intros c i Hc Hi.
  destruct (archetype_store _ c Hwf) as (st & Hst & _ & Hs & Hwfs & Hsz).
  { simpl. by rewrite sort_perm. }
  unfold Archetype.getComponentAt. rewrite Hst. simpl in *.
  rewrite get_beyond_size; [by rewrite Hs|done|].
  rewrite Hsz. unfold Archetype.size. simpl. lia.
Qed.

Lemma new_archetype_is_sorted_witness :
  (NoDup (map typeId [Examples.Velocity; Examples.Position])
   /\ Forall (fun c => NoDup (JsMap.keys (schema c))) [Examples.Velocity; Examples.Position])
  /\ exists a,
       Archetype.new (H := Examples.code_unit_collation)
         [Examples.Velocity; Examples.Position] = Ok a
       /\ Archetype.typeIds a = ["Position"; "Velocity"]%string
       /\ Archetype.getComponentAt a Examples.Velocity 0
          = Ok [("vx", VNumber (Finite 0 0)); ("vy", VNumber (Finite 0 0))]%string.
Proof.
  assert (Hnd : NoDup (map typeId [Examples.Velocity; Examples.Position]))
    by (apply (bool_decide_unpack _); by vm_compute).
  assert (Hsch : Forall (fun c => NoDup (JsMap.keys (schema c)))
                   [Examples.Velocity; Examples.Position]).
  { repeat (constructor; [apply (bool_decide_unpack _); by vm_compute|]). constructor. }
  split; [by split|].
  destruct (new_archetype_is_sorted (H := code_unit_collation_order)
              [Examples.Velocity; Examples.Position] Hnd Hsch)
    as (a & Hnew & _ & _ & _ & _ & _ & _ & _ & Hget).
  exists a. split; [exact Hnew|]. split.
  - vm_compute in Hnew. injection Hnew as <-. by vm_compute.
  - apply (Hget Examples.Velocity 0); [|lia]. apply elem_of_cons. by left.
Defined.

(** X9.  [addEntity(entity, componentValues)] on a well-formed archetype,
    with values that can be stored, returns and appends one row: the entity
    is pushed at the end, [indexOf(entity)] is the old size, the index of
    every other entity is unchanged, each component type of the archetype
    reads at the new row as what was stored for it (the value given under
    its type id, or a default instance where none is given), every older row
    reads as before, and the invariant is kept (with no entity in two rows,
    if the entity is new). *)
Theorem addEntity_appends_row (a : Archetype.t) (entity : Entity)
    (componentValues : JsMap.t string object) :
  Wf.archetype a -> all_storable componentValues a ->
  exists a', Archetype.addEntity entity componentValues a = (a', Ok tt)
    /\ Wf.archetype a'
    /\ Archetype.entityIds a' = Archetype.entityIds a ++ [entity]
    /\ Archetype.size a' = Archetype.size a + 1
    /\ Archetype.indexOf a' entity = Some (Archetype.size a)
    /\ (forall r, r ≠ entity -> Archetype.indexOf a' r = Archetype.indexOf a r)
    /\ (entity ∉ Archetype.entityIds a -> index_complete a -> index_complete a')
    /\ forall c, c ∈ Archetype.ctors a ->
         Archetype.getComponentAt a' c (Archetype.size a)
         = Ok (map (fun f => (f.1, stored_value (component_value componentValues c) f))
                   (schema c))
         /\ forall j, j < Archetype.size a ->
              Archetype.getComponentAt a' c j = Archetype.getComponentAt a c j.
Proof.
  intros Hwf Hst. exists (after_addEntity entity componentValues a).
  split; [by apply addEntity_spec|]. split; [by apply after_addEntity_wf|].
  split; [done|]. split; [by apply after_addEntity_size|].
  split; [unfold Archetype.indexOf; simpl; by rewrite get_set_eq|].
  split; [intros r Hr; unfold Archetype.indexOf; simpl; by rewrite get_set_ne|].
  split; [intros Hnew Hc; by apply index_complete_add|].
  intros c Hc. by apply getComponentAt_after_add.
Qed.

Lemma addEntity_appends_row_witness :
  let a := fresh_archetype [Examples.Position; Examples.Velocity] in
  let values := [("Position"%string, Examples.position 1 2)] in
  (Wf.archetype a /\ all_storable values a)
  /\ exists a', Archetype.addEntity 7 values a = (a', Ok tt)
       /\ Archetype.indexOf a' 7 = Some 0
       /\ Archetype.getComponentAt a' Examples.Position 0 = Ok (Examples.position 1 2)
       /\ Archetype.getComponentAt a' Examples.Velocity 0 = Ok (Examples.velocity 0 0).
Proof.
  intros a values.
  assert (Hwf : Wf.archetype a).
  { apply fresh_archetype_wf; [apply (bool_decide_unpack _); by vm_compute|].
    repeat (constructor; [apply (bool_decide_unpack _); by vm_compute|]). constructor. }
  assert (Hst : all_storable values a).
  { unfold all_storable. simpl. repeat (constructor; [by vm_compute|]). constructor. }
  split; [by split|].
  destruct (addEntity_appends_row a 7 values Hwf Hst)
    as (a' & Hrun & _ & _ & _ & Hidx & _ & _ & Hget).
  exists a'. split; [exact Hrun|]. split; [exact Hidx|]. split.
  - destruct (Hget Examples.Position) as [Hrow _]; [apply elem_of_cons; by left|].
    etrans; [exact Hrow|by vm_compute].
  - destruct (Hget Examples.Velocity) as [Hrow _].
    { apply elem_of_cons. right. apply elem_of_cons. by left. }
    etrans; [exact Hrow|by vm_compute].
Defined.

(** X10.  Adding a new entity and removing it again leaves a well-formed
    archetype as it was for an observer: the same entities in the same rows,
    the same [indexOf] for every entity, and every component of every row
    reads as before. *)
Theorem addEntity_then_removeEntity (a : Archetype.t) (entity : Entity)
    (componentValues : JsMap.t string object) :
  Wf.archetype a -> all_storable componentValues a ->
  entity ∉ Archetype.entityIds a ->
  exists a1 a2,
    Archetype.addEntity entity componentValues a = (a1, Ok tt)
    /\ Archetype.removeEntity entity a1 = (a2, Ok tt)
    /\ Wf.archetype a2
    /\ Archetype.entityIds a2 = Archetype.entityIds a
    /\ (forall r, Archetype.indexOf a2 r = Archetype.indexOf a r)
    /\ forall c j, 0 <= j < Archetype.size a ->
         Archetype.getComponentAt a2 c j = Archetype.getComponentAt a c j.
Proof.
  intros Hwf Hst Hnew.
  pose proof (after_addEntity_wf a entity componentValues Hwf Hst) as Hwf1.
  set (a1 := after_addEntity entity componentValues a) in *.
  assert (Hg : JsMap.get (Archetype.indexByEntity a1) entity = Some (Archetype.size a))
    by (simpl; by rewrite get_set_eq).
  assert (Hsize1 : Archetype.size a1 = Archetype.size a + 1)
    by apply after_addEntity_size.
  destruct (removeEntity_spec a1 entity _ Hwf1 Hg) as (le & Hle & Hrun).
  assert (Hlast : Archetype.entityIds a1 !! Z.to_nat (Archetype.size a) = Some entity).
  { simpl. unfold Archetype.size. rewrite Nat2Z.id.
    rewrite lookup_app_r by done. by rewrite Nat.sub_diag. }
  assert (le = entity) as ->.
  { rewrite Hsize1 in Hle. replace (Archetype.size a + 1 - 1) with (Archetype.size a) in Hle
      by lia. congruence. }
  assert (Hrem : removal a1 entity (Archetype.size a) entity).
  { split; [done|]. split; [done|]. by rewrite Hsize1, Z.add_simpl_r. }
  assert (Hnone : JsMap.get (Archetype.indexByEntity a) entity = None).
  { destruct (JsMap.get (Archetype.indexByEntity a) entity) as [i|] eqn:Hi; [|done].
    destruct (archetype_index _ Hwf _ _ Hi) as [_ Hrow].
    exfalso. apply Hnew. by eapply list_elem_of_lookup_2. }
  exists a1, (after_removeEntity entity (Archetype.size a) entity a1).
  split; [by apply addEntity_spec|]. split; [done|].
  split; [by apply after_removeEntity_wf|]. split.
  { simpl. unfold Archetype.size. rewrite Nat2Z.id.
    rewrite insert_app_r_alt by done. rewrite Nat.sub_diag. simpl.
    apply removelast_last. }
  split.
  { intros r. unfold Archetype.indexOf. rewrite index_after_remove.
    rewrite Hsize1. destruct (Z.eqb_spec (Archetype.size a) (Archetype.size a + 1 - 1)); [|lia].
    simpl. destruct (decide (r = entity)) as [->|Hne].
    - by rewrite get_delete_eq.
    - by rewrite get_delete_ne, get_set_ne. }
  intros c j Hj. rewrite getComponentAt_after_remove by (done || lia).
  destruct (Z.eqb_spec j (Archetype.size a)); [lia|].
  destruct (decide (typeId c ∈ Archetype.typeIds a)) as [Hin|Hout].
  - destruct (archetype_store_by_id a _ Hwf Hin) as (c' & st & Hc' & Hid & _).
    assert (Hsame : forall x, Archetype.getComponentAt x c j = Archetype.getComponentAt x c' j)
      by (intros x; unfold Archetype.getComponentAt; by rewrite Hid).
    rewrite !Hsame.
    destruct (getComponentAt_after_add a entity componentValues c' Hwf Hst Hc') as [_ Hframe].
    apply Hframe. lia.
  - unfold Archetype.getComponentAt.
    rewrite (archetype_no_store a1), (archetype_no_store a); done.
Qed.

Lemma addEntity_then_removeEntity_witness :
  let a := Examples.three_positions in
  let values := [("Position"%string, Examples.position 40 0)] in
  (Wf.archetype a /\ all_storable values a /\ 4 ∉ Archetype.entityIds a)
  /\ exists a1 a2,
       Archetype.addEntity 4 values a = (a1, Ok tt)
       /\ Archetype.removeEntity 4 a1 = (a2, Ok tt)
       /\ Archetype.entityIds a2 = [1; 2; 3]
       /\ Archetype.getComponentAt a2 Examples.Position 1 = Ok (Examples.position 20 0).
Proof.
  intros a values.
  assert (Hst : all_storable values a).
  { unfold all_storable. simpl. repeat (constructor; [by vm_compute|]). constructor. }
  assert (Hnew : 4 ∉ Archetype.entityIds a)
    by (apply (bool_decide_unpack _); by vm_compute).
  split; [split; [apply three_positions_wf|by split]|].
  destruct (addEntity_then_removeEntity a 4 values (proj1 three_positions_wf) Hst Hnew)
    as (a1 & a2 & H1 & H2 & _ & Hids & _ & Hget).
  exists a1, a2. split; [exact H1|]. split; [exact H2|]. split; [exact Hids|].
  rewrite (Hget Examples.Position 1) by (by vm_compute). by vm_compute.
Defined.

(** X11.  [getComponentAt(ctor, index)] on a well-formed archetype throws
    "Component ... not in archetype" exactly for the types [containsTypeId]
    is false for.  For a type of the archetype it makes no bounds check on
    the row: it returns a record of the schema of the type at every index
    from 0 on, the record of the defaults from [size] on. *)
Theorem getComponentAt_by_type (a : Archetype.t) (ctor : ComponentConstructor.t)
    (index : Z) :
  Wf.archetype a ->
  (Archetype.containsTypeId a (typeId ctor) = false ->
     Archetype.getComponentAt a ctor index
     = Throw (Error ("Component " ++ (typeId ctor ++ " not in archetype"))))
  /\ (Archetype.containsTypeId a (typeId ctor) = true -> 0 <= index ->
      exists c o, c ∈ Archetype.ctors a /\ typeId c = typeId ctor
        /\ Archetype.getComponentAt a ctor index = Ok o
        /\ is_record (schema c) o
        /\ (Archetype.size a <= index -> o = default_record (schema c))).
Proof.
  intros Hwf. unfold Archetype.containsTypeId. split.
  - intros Hno. apply bool_decide_eq_false in Hno.
    unfold Archetype.getComponentAt. by rewrite (archetype_no_store a).
  - intros Hin Hi. apply bool_decide_eq_true in Hin.
    destruct (archetype_store_by_id a _ Hwf Hin) as (c & st & Hc & Hid & Hst & _ & Hsch & Hwfs & Hsz).
    destruct (getComponentAt_total a c index Hwf Hc) as (o & Ho & Hrec); [by left|].
    exists c, o. split; [done|]. split; [done|].
    split; [by rewrite (getComponentAt_same_id a ctor c)|]. split; [done|].
    intros Hbeyond. unfold Archetype.getComponentAt in Ho. rewrite Hid, Hst in Ho.
    simpl in *. rewrite get_beyond_size in Ho by (done || lia). rewrite Hsch in Ho.
    by injection Ho.
Qed.

Lemma getComponentAt_by_type_witness :
  let a := Examples.three_positions in
  Wf.archetype a
  /\ Archetype.getComponentAt a Examples.Velocity 0
     = Throw (Error "Component Velocity not in archetype")
  /\ Archetype.getComponentAt a Examples.Position 3 = Ok (Examples.position 0 0).
Proof.
  intros a. pose proof (proj1 three_positions_wf) as Hwf. split; [exact Hwf|].
  destruct (getComponentAt_by_type a Examples.Velocity 0 Hwf) as [Hno _].
  destruct (getComponentAt_by_type a Examples.Position 3 Hwf) as [_ Hyes].
  split; [apply Hno; by vm_compute|].
  destruct Hyes as (c & o & _ & _ & Ho & _ & _); [by vm_compute|lia|].
  rewrite Ho. vm_compute in Ho. by injection Ho as <-.
Defined.

(** X12.  [copyEntityTo(indexSrc, target)] from a well-formed archetype, for
    a row index from 0 on, never fails and changes nothing: it returns one
    entry for each type of [target], in the order of [target], keyed by the
    type id; the value is what [getComponentAt] reads at [indexSrc] for a
    type the source has, and a default instance of the type for the
    others. *)
Theorem copyEntityTo_values (a : Archetype.t) (indexSrc : Z) (target : Archetype.t) :
  Wf.archetype a -> 0 <= indexSrc ->
  NoDup (map typeId (Archetype.ctors target)) ->
  exists out, Archetype.copyEntityTo a indexSrc target = Ok out
    /\ JsMap.keys out = map typeId (Archetype.ctors target)
    /\ forall c, c ∈ Archetype.ctors target ->
         exists v, JsMap.get out (typeId c) = Some v
           /\ if Archetype.containsTypeId a (typeId c)
              then Archetype.getComponentAt a c indexSrc = Ok v
              else v = construct c.
Proof.
  intros Hwf Hi Hnd. exists (copied_values a indexSrc target).
  split; [apply copyEntityTo_spec; auto|].
  unfold copied_values, JsMap.keys. split.
  { rewrite map_map. by apply map_ext. }
  intros c Hc. exists (copied_value a indexSrc c). split.
  - apply elem_get.
    + unfold JsMap.keys. rewrite map_map. by rewrite (map_ext _ typeId).
    + apply list_elem_of_fmap. by exists c.
  - pose proof (copied_value_spec a c indexSrc Hwf (or_introl Hi)) as Hv.
    unfold Archetype.containsTypeId. by destruct (decide (typeId c ∈ Archetype.typeIds a));
      [rewrite bool_decide_eq_true_2|rewrite bool_decide_eq_false_2].
Qed.

Lemma copyEntityTo_values_witness :
  let a := Examples.three_positions in
  let target := fresh_archetype [Examples.Health; Examples.Position] in
  (Wf.archetype a /\ 0 <= 1 /\ NoDup (map typeId (Archetype.ctors target)))
  /\ Archetype.copyEntityTo a 1 target
     = Ok [("Health", Examples.health 100); ("Position", Examples.position 20 0)]%string.
Proof.
  intros a target.
  assert (Hnd : NoDup (map typeId (Archetype.ctors target)))
    by (apply (bool_decide_unpack _); by vm_compute).
  split; [split; [apply three_positions_wf|split; [lia|exact Hnd]]|].
  destruct (copyEntityTo_values a 1 target (proj1 three_positions_wf) ltac:(lia) Hnd)
    as (out & Hrun & _).
  rewrite Hrun. vm_compute in Hrun. by injection Hrun as <-.
Defined.

(** X13.  [removeEntity] is safe to repeat.  On a well-formed archetype with
    no entity in two rows, [removeEntity(entity)] returns whether the entity
    is there or not; afterwards the entity is in no row and has no index,
    the invariant holds, and a second [removeEntity(entity)] changes
    nothing. *)
Theorem removeEntity_twice (a : Archetype.t) (entity : Entity) :
  Wf.archetype a -> index_complete a ->
  exists a', Archetype.removeEntity entity a = (a', Ok tt)
    /\ Wf.archetype a'
    /\ (entity ∉ Archetype.entityIds a')
    /\ Archetype.indexOf a' entity = None
    /\ (entity ∉ Archetype.entityIds a -> a' = a)
    /\ Archetype.removeEntity entity a' = (a', Ok tt).
Proof.
  intros Hwf Hc.
  destruct (removeEntity_gone a entity Hwf Hc) as (a' & Hrun & Hwf' & Hgone).
  assert (Hnone : Archetype.indexOf a' entity = None).
  { unfold Archetype.indexOf.
    destruct (JsMap.get (Archetype.indexByEntity a') entity) as [i|] eqn:Hi; [|done].
    destruct (archetype_index _ Hwf' _ _ Hi) as [_ Hrow].
    exfalso. apply Hgone. by eapply list_elem_of_lookup_2. }
  exists a'. split; [done|]. split; [done|]. split; [done|]. split; [done|]. split.
  - intros Hnew. unfold Archetype.removeEntity in Hrun.
    destruct (JsMap.get (Archetype.indexByEntity a) entity) as [i|] eqn:Hi.
    + destruct (archetype_index _ Hwf _ _ Hi) as [_ Hrow].
      exfalso. apply Hnew. by eapply list_elem_of_lookup_2.
    + by injection Hrun.
  - unfold Archetype.removeEntity. unfold Archetype.indexOf in Hnone. by rewrite Hnone.
Qed.

Lemma removeEntity_twice_witness :
  let a := Examples.three_positions in
  (Wf.archetype a /\ index_complete a)
  /\ exists a', Archetype.removeEntity 1 a = (a', Ok tt)
       /\ Archetype.entityIds a' = [3; 2]
       /\ Archetype.removeEntity 1 a' = (a', Ok tt).
Proof.
  intros a. split; [apply three_positions_wf|].
  destruct (removeEntity_twice a 1 (proj1 three_positions_wf) (proj2 three_positions_wf))
    as (a' & Hrun & _ & _ & _ & _ & Hagain).
  exists a'. split; [exact Hrun|]. split; [|exact Hagain].
  vm_compute in Hrun. by injection Hrun as <-.
Defined.
End ArchetypeProperties.

(** * Further properties of World *)

Section WorldProperties.
Import ComponentConstructor Wf Effects.

(** X14.  In a well-formed world where every entity sits in one row only,
    the one of the archetype the world files it under, [destroyEntity(e)]
    returns, and immediately afterwards [getComponent(e, T)] is [undefined]
    for every component type [T], and [query] over any list of component
    types returns and has no result whose entity is [e]. *)
Theorem destroyed_entity_invisible (w : World.t) (e : Entity) :
  Wf.world w -> Wf.entity_rows w ->
  exists w', World.destroyEntity e w = (w', Ok tt)
    /\ (forall T, World.getComponent w' e T = Ok None)
    /\ forall ctors, exists results,
         World.query w' ctors = Ok results /\ e ∉ map World.entity results.
Proof.
  intros [Hwf Hkeys Hrefs] Hrows. unfold World.destroyEntity.
  destruct (JsMap.get (World.entityArchetype w) e) as [r|] eqn:Hr.
  - destruct (Hrefs e r Hr) as [a Ha].
    pose proof (get_Some_elem _ _ _ Ha) as Hin.
    destruct (removeEntity_gone a e (registered_wf w r a Hwf Hin) (proj1 (Hrows r a Hin)))
      as (a' & Hrun & Hwf' & Hgone).
    unfold bind. rewrite (call_spec r _ w a a' (Ok tt) Ha Hrun). unfold modify.
    eexists. split; [done|]. split.
    + intros T. unfold World.getComponent. simpl. by rewrite get_delete_eq.
    + intros ctors. eexists. split.
      * apply query_spec. unfold Wf.archetypes. simpl. apply Forall_set; [apply Hwf|done].
      * intros He. apply query_results_entities in He as (k & a0 & Hk & He). simpl in Hk.
        apply elem_of_set in Hk as [[-> ->]|[Hne Hk]]; [done| |done].
        destruct (Hrows k a0 Hk) as [_ Hfiled]. rewrite (Hfiled e He) in Hr.
        by injection Hr.
  - exists w. split; [done|]. split.
    + intros T. unfold World.getComponent. by rewrite Hr.
    + intros ctors. eexists. split; [by apply query_spec|].
      intros He. apply query_results_entities in He as (k & a0 & Hk & He).
      destruct (Hrows k a0 Hk) as [_ Hfiled]. by rewrite (Hfiled e He) in Hr.
Qed.

Lemma destroyed_entity_invisible_witness :
  (Wf.world Examples.two_movers /\ Wf.entity_rows Examples.two_movers)
  /\ exists w', World.destroyEntity 1 Examples.two_movers = (w', Ok tt)
       /\ (forall T, World.getComponent w' 1 T = Ok None)
       /\ forall ctors, exists results,
            World.query w' ctors = Ok results /\ 1 ∉ map World.entity results.
Proof.
  split; [apply two_movers_world|].
  apply (destroyed_entity_invisible Examples.two_movers 1);
    [apply (proj1 two_movers_world)|apply (proj2 two_movers_world)].
Defined.

(** X15.  Destroying an entity leaves the others alone: in a well-formed
    world where every entity sits in one row only, after [destroyEntity(e)]
    the world is well formed again, every entity still sits in one row only,
    and [getComponent(r, T)] returns for every other entity [r] and every
    type [T] what it returned before, although the rows of the archetype of
    [e] may have moved. *)
Theorem destroyEntity_keeps_others (w : World.t) (e : Entity) :
  Wf.world w -> Wf.entity_rows w ->
  exists w', World.destroyEntity e w = (w', Ok tt)
    /\ Wf.world w' /\ Wf.entity_rows w'
    /\ forall r T, r ≠ e -> World.getComponent w' r T = World.getComponent w r T.
Proof.
  intros Hwf Hrows. pose proof Hwf as [Hars Hkeys Hrefs]. unfold World.destroyEntity.
  destruct (JsMap.get (World.entityArchetype w) e) as [k|] eqn:Hk.
  2: { exists w. split; [done|]. split; [done|]. split; [done|]. done. }
  destruct (Hrefs e k Hk) as [a Ha]. pose proof (get_Some_elem _ _ _ Ha) as Hin.
  destruct (removeEntity_others a e (registered_wf w k a Hars Hin) (proj1 (Hrows k a Hin)))
    as (a' & Hrun & Hwf' & Hc' & _ & Hids & Hmem & Hothers).
  unfold bind. rewrite (call_spec k _ w a a' (Ok tt) Ha Hrun). unfold modify.
  eexists. split; [done|]. split; [|split].
  - split; simpl.
    + unfold Wf.archetypes. simpl. by apply Forall_set.
    + by apply NoDup_keys_set.
    + intros r k' Hr. destruct (decide (e = r)) as [->|Hne].
      * by rewrite get_delete_eq in Hr.
      * rewrite get_delete_ne in Hr by done. apply is_Some_get_set. by eapply Hrefs.
  - intros k' a0 Hin'. simpl in Hin'.
    apply elem_of_set in Hin' as [[-> ->]|[Hne Hin']]; [| |done].
    + split; [done|]. intros r Hr. simpl. apply Hmem in Hr as [Hr Hre].
      rewrite get_delete_ne by done. by apply (Hrows k a Hin).
    + destruct (Hrows k' a0 Hin') as [Hc0 Hfiled]. split; [done|].
      intros r Hr. simpl. rewrite get_delete_ne; [by apply Hfiled|].
      intros <-. rewrite (Hfiled e Hr) in Hk. by injection Hk.
  - intros r T Hne. apply getComponent_ext; [done| |]; simpl.
    + by rewrite get_delete_ne.
    + intros k' a0 Hr Ha0. destruct (decide (k' = k)) as [->|Hkk].
      * assert (a0 = a) as -> by congruence.
        exists a'. rewrite get_set_eq. split; [done|]. split; [done|].
        specialize (Hothers r Hne). destruct (Archetype.indexOf a r) as [i0|]; [|done].
        destruct Hothers as (i & Hi & Hread). by exists i.
      * exists a0. rewrite get_set_ne by done. split; [done|]. split; [done|].
        destruct (Archetype.indexOf a0 r) as [i0|]; [|done]. by exists i0.
Qed.

Lemma destroyEntity_keeps_others_witness :
  (Wf.world Examples.two_movers /\ Wf.entity_rows Examples.two_movers)
  /\ exists w', World.destroyEntity 1 Examples.two_movers = (w', Ok tt)
       /\ World.getComponent w' 2 Examples.Velocity = Ok (Some (Examples.velocity 6 6)).
Proof.
  split; [apply two_movers_world|].
  destruct (destroyEntity_keeps_others Examples.two_movers 1
              (proj1 two_movers_world) (proj2 two_movers_world))
    as (w' & Hrun & _ & _ & Hothers).
  exists w'. split; [exact Hrun|].
  rewrite (Hothers 2 Examples.Velocity) by done. by vm_compute.
Defined.

(** X16.  [getComponent] never throws in a well-formed world: it returns
    [undefined] for an entity that is not filed, for one that has no row in
    its archetype, and for a type its archetype does not contain, and
    otherwise the record [getComponentAt] reads at the row of the entity. *)
Theorem getComponent_never_throws (w : World.t) (entity : Entity)
    (ctor : ComponentConstructor.t) :
  Wf.world w ->
  (JsMap.get (World.entityArchetype w) entity = None ->
     World.getComponent w entity ctor = Ok None)
  /\ forall r, JsMap.get (World.entityArchetype w) entity = Some r ->
       exists a, World.deref w r = Ok a
         /\ (Archetype.indexOf a entity = None ->
               World.getComponent w entity ctor = Ok None)
         /\ (Archetype.containsTypeId a (typeId ctor) = false ->
               World.getComponent w entity ctor = Ok None)
         /\ forall idx, Archetype.indexOf a entity = Some idx ->
              Archetype.containsTypeId a (typeId ctor) = true ->
              exists o, Archetype.getComponentAt a ctor idx = Ok o
                        /\ World.getComponent w entity ctor = Ok (Some o).
Proof.
  intros Hwf. unfold World.getComponent. split; [by intros ->|].
  intros r Hr. rewrite Hr.
  destruct (world_refs _ Hwf _ _ Hr) as [a Ha]. exists a.
  unfold World.deref. rewrite Ha. split; [done|]. simpl.
  split; [by intros ->|]. split.
  { intros ->. by destruct (Archetype.indexOf a entity). }
  intros idx Hidx Hin. rewrite Hidx, Hin. simpl.
  pose proof (registered_wf w r a (world_archetypes _ Hwf) (get_Some_elem _ _ _ Ha)) as Hwfa.
  destruct (archetype_index _ Hwfa _ _ Hidx) as [Hidx0 _].
  apply bool_decide_eq_true in Hin.
  destruct (archetype_store_by_id a _ Hwfa Hin) as (c & st & Hc & Hid & _).
  destruct (getComponentAt_total a c idx Hwfa Hc (or_introl Hidx0)) as (o & Ho & _).
  exists o. rewrite (getComponentAt_same_id a ctor c) by done. by rewrite Ho.
Qed.

Lemma getComponent_never_throws_witness :
  Wf.world Examples.two_movers
  /\ World.getComponent Examples.two_movers 9 Examples.Position = Ok None
  /\ exists a, World.deref Examples.two_movers "Position|Velocity" = Ok a
       /\ (Archetype.containsTypeId a (typeId Examples.Health) = false ->
             World.getComponent Examples.two_movers 1 Examples.Health = Ok None).
Proof.
  pose proof (proj1 two_movers_world) as Hwf. split; [exact Hwf|].
  destruct (getComponent_never_throws Examples.two_movers 9 Examples.Position Hwf)
    as [Hnone _].
  destruct (getComponent_never_throws Examples.two_movers 1 Examples.Health Hwf)
    as [_ Hsome].
  split; [apply Hnone; by vm_compute|].
  destruct (Hsome "Position|Velocity"%string) as (a & Ha & _ & Hno & _); [by vm_compute|].
  exists a. by split.
Defined.

(** X17.  [addEntityWithComponents(entity, components)] in a well-formed
    world, for classes of the program with distinct type ids and values that
    can be stored, returns and files the entity under the archetype of these
    types: [getComponent] then returns, for each type given, its value as
    stored, and [undefined] for every other type; the components of every
    other entity read as before; the world stays well formed; and if the
    entity was in no row before, every entity sits in one row only
    afterwards as before. *)
Theorem addEntityWithComponents_stores `{CollationOrder}
    (U : ComponentConstructor.t -> Prop) (w : World.t) (entity : Entity)
    (components : list (ComponentConstructor.t * object)) :
  classes U -> Wf.world w -> registry U w ->
  Forall U (map fst components) -> NoDup (map typeId (map fst components)) ->
  Forall (fun p => storable (schema p.1) p.2 = true) components ->
  exists w', World.addEntityWithComponents entity components w = (w', Ok tt)
    /\ Wf.world w' /\ registry U w'
    /\ (forall c v, (c, v) ∈ components ->
          World.getComponent w' entity c
          = Ok (Some (map (fun f => (f.1, stored_value v f)) (schema c))))
    /\ (forall T, typeId T ∉ map typeId (map fst components) ->
          World.getComponent w' entity T = Ok None)
    /\ (forall r T, r ≠ entity -> World.getComponent w' r T = World.getComponent w r T)
    /\ (Wf.entity_rows w ->
        (forall k a, (k, a) ∈ World.archetypeBySignature w ->
           entity ∉ Archetype.entityIds a) ->
        Wf.entity_rows w').
Proof.
  intros HU Hwf Hreg Hu Hnd Hst.
  destruct (addEntityWithComponents_spec U w entity components HU Hwf Hreg Hu Hnd Hst)
    as (w0 & tgt & Ht & Hwft & Hctors & Hstt & Hwf0 & Hreg0 & Hents & Hkeep & Hnew
        & Hvalue & Hrun).
  set (t := join "|" (map typeId (sort by_typeId (map fst components)))) in *.
  set (values := map (fun p => (typeId p.1, p.2)) components) in *.
  pose proof (after_addEntity_wf tgt entity values Hwft Hstt) as Hwft'.
  eexists. split; [exact Hrun|].
  assert (Hfiled : forall T,
            World.getComponent
              {| World.nextEntityId := World.nextEntityId w0;
                 World.entityArchetype := JsMap.set (World.entityArchetype w0) entity t;
                 World.archetypeBySignature :=
                   JsMap.set (World.archetypeBySignature w0) t
                     (after_addEntity entity values tgt) |} entity T
            = if Archetype.containsTypeId tgt (typeId T)
              then result_bind
                     (Archetype.getComponentAt (after_addEntity entity values tgt) T
                        (Archetype.size tgt)) (fun v => Ok (Some v))
              else Ok None).
  { intros T.
    apply (getComponent_filed _ entity t (after_addEntity entity values tgt));
      simpl; try by rewrite get_set_eq.
    unfold Archetype.indexOf. simpl. by rewrite get_set_eq. }
  assert (Hids : Archetype.typeIds tgt ≡ₚ map typeId (map fst components)).
  { rewrite (archetype_typeIds _ Hwft), Hctors. by rewrite sort_perm. }
  split; [|split; [|split; [|split; [|split]]]].
  - destruct Hwf0 as [Hars Hkeys Hrefs]. split; simpl.
    + unfold Wf.archetypes. simpl. by apply Forall_set.
    + by apply NoDup_keys_set.
    + intros e k Hk. destruct (decide (entity = e)) as [->|Hne].
      * rewrite get_set_eq in Hk. injection Hk as <-. rewrite get_set_eq. by eexists.
      * rewrite get_set_ne in Hk by done. apply is_Some_get_set. by eapply Hrefs.
  - intros k a Hin. simpl in Hin.
    apply elem_of_set in Hin as [[-> ->]|[_ Hin]]; [|by apply Hreg0|apply Hwf0].
    destruct (Hreg0 t tgt (get_Some_elem _ _ _ Ht)) as [Hsig Hut]. by split.
  - intros c v Hcv. rewrite Hfiled.
    assert (Hc : c ∈ Archetype.ctors tgt).
    { rewrite Hctors, sort_perm. by apply (list_elem_of_fmap_2 fst _ (c, v)). }
    unfold Archetype.containsTypeId. rewrite bool_decide_eq_true_2.
    + destruct (getComponentAt_after_add tgt entity values c Hwft Hstt Hc) as [-> _].
      simpl. by rewrite (Hvalue c v).
    + rewrite (archetype_typeIds _ Hwft). by apply list_elem_of_fmap_2.
  - intros T HT. rewrite Hfiled. unfold Archetype.containsTypeId.
    rewrite bool_decide_eq_false_2; [done|]. by rewrite Hids.
  - intros r T Hne. apply getComponent_ext; [done| |]; simpl.
    + by rewrite get_set_ne, Hents.
    + intros k a Hr Ha. pose proof (Hkeep _ _ Ha) as Ha0.
      destruct (decide (k = t)) as [->|Hkt].
      * assert (a = tgt) as -> by congruence.
        exists (after_addEntity entity values tgt). rewrite get_set_eq.
        split; [done|]. split; [done|].
        assert (Hix : Archetype.indexOf (after_addEntity entity values tgt) r
                      = Archetype.indexOf tgt r).
        { unfold Archetype.indexOf. simpl. by rewrite get_set_ne. }
        rewrite Hix. destruct (Archetype.indexOf tgt r) as [i0|] eqn:Hi0; [|done].
        exists i0. split; [done|]. apply getComponentAt_after_add_frame; [done|done|].
        destruct (indexed_row tgt r i0 Hwft Hi0) as [? _]. lia.
      * exists a. rewrite get_set_ne by done. split; [done|]. split; [done|].
        destruct (Archetype.indexOf a r) as [i0|]; [|done]. by exists i0.
  - intros Hrows Hfresh.
    assert (Hrows0 : forall k a, (k, a) ∈ World.archetypeBySignature w0 ->
              index_complete a
              /\ (entity ∉ Archetype.entityIds a)
              /\ forall e, e ∈ Archetype.entityIds a ->
                   JsMap.get (World.entityArchetype w) e = Some k).
    { intros k a Hin. destruct (Hnew k a Hin) as [Hold|Hempty].
      - destruct (Hrows k a Hold). split; [done|]. split; [by apply (Hfresh k a)|done].
      - split; [intros i e; by rewrite Hempty|].
        rewrite Hempty. split; [apply not_elem_of_nil|].
        intros e He. by apply elem_of_nil in He. }
    intros k a Hin. simpl in Hin.
    apply elem_of_set in Hin as [[-> ->]|[Hkt Hin]]; [| |apply Hwf0].
    + destruct (Hrows0 t tgt (get_Some_elem _ _ _ Ht)) as (Hc & Hnot & Hfiled0).
      split; [by apply index_complete_add|]. intros e He. simpl in *.
      apply elem_of_app in He as [He|He].
      * rewrite get_set_ne; [rewrite Hents; by apply Hfiled0|]. by intros <-.
      * apply list_elem_of_singleton in He. subst e. by rewrite get_set_eq.
    + destruct (Hrows0 k a Hin) as (Hc & Hnot & Hfiled0). split; [done|].
      intros e He. simpl. rewrite get_set_ne; [rewrite Hents; by apply Hfiled0|].
      by intros <-.
Qed.

Local Ltac class_member :=
  unfold Examples.is_class;
  repeat first [apply list_elem_of_here | apply list_elem_of_further].

Lemma addEntityWithComponents_stores_witness :
  let components := [(Examples.Velocity, Examples.velocity 3 4);
                     (Examples.Position, Examples.position 1 2)] in
  (classes Examples.is_class /\ Wf.world World.new /\ registry Examples.is_class World.new
   /\ Forall Examples.is_class (map fst components)
   /\ NoDup (map typeId (map fst components))
   /\ Forall (fun p => storable (schema p.1) p.2 = true) components)
  /\ exists w',
       World.addEntityWithComponents (H := Examples.code_unit_collation) 1 components
         World.new = (w', Ok tt)
       /\ World.getComponent w' 1 Examples.Position = Ok (Some (Examples.position 1 2))
       /\ World.getComponent w' 1 Examples.Health = Ok None.
Proof.
  intros components.
  assert (Hu : Forall Examples.is_class (map fst components)).
  { repeat (constructor; [class_member|]). constructor. }
  assert (Hnd : NoDup (map typeId (map fst components)))
    by (apply (bool_decide_unpack _); by vm_compute).
  assert (Hst : Forall (fun p => storable (schema p.1) p.2 = true) components).
  { repeat (constructor; [by vm_compute|]). constructor. }
  split.
  { split; [apply example_classes|]. split; [apply new_world_wf|].
    split; [apply new_world_registry|]. by split. }
  destruct (addEntityWithComponents_stores (H := code_unit_collation_order)
              Examples.is_class World.new 1 components example_classes
              (proj1 new_world_wf) (new_world_registry _) Hu Hnd Hst)
    as (w' & Hrun & _ & _ & Hget & Hnone & _).
  exists w'. split; [exact Hrun|]. split.
  - rewrite (Hget Examples.Position (Examples.position 1 2)); [by vm_compute|].
    apply elem_of_cons. right. apply elem_of_cons. by left.
  - apply Hnone. apply (bool_decide_unpack _). by vm_compute.
Defined.

(** X18.  [addComponent(entity, ctor, value)] on an entity that is not filed
    does what [addEntityWithComponents] does with the one component.  On an
    entity filed at a row of its archetype, in a well-formed world of
    classes of the program and for a value that can be stored, it returns,
    whether the entity has a component of this type already or not; then
    [getComponent(entity, ctor)] returns the value as stored, the components
    of the entity of every other type read as before, and the world stays
    well formed; and where every entity sits in one row only, this stays so
    and the components of every other entity read as before. *)
Theorem addComponent_stores `{CollationOrder} (U : ComponentConstructor.t -> Prop)
    (w : World.t) (entity : Entity) (ctor : ComponentConstructor.t) (value : object) :
  classes U -> U ctor -> Wf.world w -> registry U w ->
  storable (schema ctor) value = true ->
  (JsMap.get (World.entityArchetype w) entity = None ->
     World.addComponent entity ctor value w
     = World.addEntityWithComponents entity [(ctor, value)] w)
  /\ forall r cur idx,
       JsMap.get (World.entityArchetype w) entity = Some r ->
       JsMap.get (World.archetypeBySignature w) r = Some cur ->
       Archetype.indexOf cur entity = Some idx ->
       exists w', World.addComponent entity ctor value w = (w', Ok tt)
         /\ Wf.world w' /\ registry U w'
         /\ World.getComponent w' entity ctor
            = Ok (Some (map (fun f => (f.1, stored_value value f)) (schema ctor)))
         /\ (forall T, typeId T ≠ typeId ctor ->
               World.getComponent w' entity T = World.getComponent w entity T)
         /\ (Wf.entity_rows w ->
             Wf.entity_rows w'
             /\ forall r0 T, r0 ≠ entity ->
                  World.getComponent w' r0 T = World.getComponent w r0 T).
Proof.
  intros HU Hctor Hwf Hreg Hst. split.
  - intros Hnone. unfold World.addComponent, World.addEntityWithComponents.
    by rewrite Hnone.
  - intros r cur idx He Hr Hidx.
    destruct (addComponent_reads U w entity ctor value r cur idx HU Hctor Hwf Hreg He Hr Hidx Hst)
      as (w' & t & tgt' & idx' & Hrun & Hwf' & Hreg' & _ & _ & _ & _ & Hnew & Hold & Hframe).
    exists w'. do 5 (split; [done|]). intros Hrows.
    destruct (Hframe Hrows) as (Hrows' & Hothers & _). by split.
Qed.

Lemma addComponent_stores_witness :
  (classes Examples.is_class /\ Examples.is_class Examples.Health
   /\ Wf.world Examples.two_movers /\ registry Examples.is_class Examples.two_movers
   /\ storable (schema Examples.Health) (Examples.health 50) = true)
  /\ exists w',
       World.addComponent (H := Examples.code_unit_collation) 1 Examples.Health
         (Examples.health 50) Examples.two_movers = (w', Ok tt)
       /\ World.getComponent w' 1 Examples.Health = Ok (Some (Examples.health 50))
       /\ World.getComponent w' 1 Examples.Velocity = Ok (Some (Examples.velocity 5 5)).
Proof.
  assert (Hh : Examples.is_class Examples.Health) by class_member.
  assert (Hst : storable (schema Examples.Health) (Examples.health 50) = true)
    by (by vm_compute).
  split.
  { split; [apply example_classes|]. split; [exact Hh|]. split; [apply two_movers_world|].
    split; [apply two_movers_registry|exact Hst]. }
  destruct (addComponent_stores (H := code_unit_collation_order) Examples.is_class
              Examples.two_movers 1 Examples.Health (Examples.health 50)
              example_classes Hh (proj1 two_movers_world) two_movers_registry Hst)
    as [_ Hfiled].
  destruct (Hfiled "Position|Velocity"%string
              (Effects.after_addEntity 2
                 [("Position", Examples.position 2 2); ("Velocity", Examples.velocity 6 6)]%string
                 (Effects.after_addEntity 1
                    [("Position", Examples.position 1 1); ("Velocity", Examples.velocity 5 5)]%string
                    (Effects.fresh_archetype [Examples.Position; Examples.Velocity]))) 0)
    as (w' & Hrun & _ & _ & Hnew & Hold & _); [by vm_compute..|].
  exists w'. split; [exact Hrun|]. split; [rewrite Hnew; by vm_compute|].
  rewrite (Hold Examples.Velocity) by (by vm_compute). by vm_compute.
Defined.

(** X19.  [removeComponent(entity, ctor)] changes nothing for an entity that
    is not filed and for one whose archetype does not contain the type.  On
    an entity filed at a row of its archetype that contains the type, in a
    well-formed world of classes of the program, it returns; then
    [getComponent(entity, ctor)] is [undefined], the components of the
    entity of every other type read as before, and the world stays well
    formed; and where every entity sits in one row only, this stays so and
    the components of every other entity read as before. *)
Theorem removeComponent_removes `{CollationOrder} (U : ComponentConstructor.t -> Prop)
    (w : World.t) (entity : Entity) (ctor : ComponentConstructor.t) :
  classes U -> Wf.world w -> registry U w ->
  (JsMap.get (World.entityArchetype w) entity = None ->
     World.removeComponent entity ctor w = (w, Ok tt))
  /\ forall r cur,
       JsMap.get (World.entityArchetype w) entity = Some r ->
       JsMap.get (World.archetypeBySignature w) r = Some cur ->
       (Archetype.containsTypeId cur (typeId ctor) = false ->
          World.removeComponent entity ctor w = (w, Ok tt))
       /\ forall idx,
            Archetype.containsTypeId cur (typeId ctor) = true ->
            Archetype.indexOf cur entity = Some idx ->
            exists w', World.removeComponent entity ctor w = (w', Ok tt)
              /\ Wf.world w' /\ registry U w'
              /\ World.getComponent w' entity ctor = Ok None
              /\ (forall T, typeId T ≠ typeId ctor ->
                    World.getComponent w' entity T = World.getComponent w entity T)
              /\ (Wf.entity_rows w ->
                  Wf.entity_rows w'
                  /\ forall r0 T, r0 ≠ entity ->
                       World.getComponent w' r0 T = World.getComponent w r0 T).
Proof.
  intros HU Hwf Hreg. split.
  - intros Hnone. unfold World.removeComponent. by rewrite Hnone.
  - intros r cur He Hr. split.
    + intros Hno. unfold World.removeComponent, World.deref. rewrite He.
      unfold bind at 1. cbv beta. by rewrite Hr, Hno.
    + intros idx Hin Hidx. apply bool_decide_eq_true in Hin.
      destruct (removeComponent_reads U w entity ctor r cur idx HU Hwf Hreg He Hr Hidx Hin)
        as (w' & t & tgt' & idx' & Hrun & Hwf' & Hreg' & _ & _ & _ & _ & Hgone & Hold & Hframe).
      exists w'. do 5 (split; [done|]). intros Hrows.
      destruct (Hframe Hrows) as (Hrows' & Hothers & _). by split.
Qed.

Lemma removeComponent_removes_witness :
  (classes Examples.is_class /\ Wf.world Examples.two_movers
   /\ registry Examples.is_class Examples.two_movers)
  /\ World.removeComponent (H := Examples.code_unit_collation) 7 Examples.Velocity
       Examples.two_movers = (Examples.two_movers, Ok tt)
  /\ exists w',
       World.removeComponent (H := Examples.code_unit_collation) 1 Examples.Velocity
         Examples.two_movers = (w', Ok tt)
       /\ World.getComponent w' 1 Examples.Velocity = Ok None
       /\ World.getComponent w' 1 Examples.Position = Ok (Some (Examples.position 1 1)).
Proof.
  split.
  { split; [apply example_classes|]. split; [apply two_movers_world|].
    apply two_movers_registry. }
  destruct (removeComponent_removes (H := code_unit_collation_order) Examples.is_class
              Examples.two_movers 7 Examples.Velocity
              example_classes (proj1 two_movers_world) two_movers_registry)
    as [Hnone _].
  destruct (removeComponent_removes (H := code_unit_collation_order) Examples.is_class
              Examples.two_movers 1 Examples.Velocity
              example_classes (proj1 two_movers_world) two_movers_registry)
    as [_ Hfiled].
  split; [apply Hnone; by vm_compute|].
  destruct (Hfiled "Position|Velocity"%string
              (Effects.after_addEntity 2
                 [("Position", Examples.position 2 2); ("Velocity", Examples.velocity 6 6)]%string
                 (Effects.after_addEntity 1
                    [("Position", Examples.position 1 1); ("Velocity", Examples.velocity 5 5)]%string
                    (Effects.fresh_archetype [Examples.Position; Examples.Velocity]))))
    as [_ Hin]; [by vm_compute..|].
  destruct (Hin 0) as (w' & Hrun & _ & _ & Hgone & Hold & _); [by vm_compute..|].
  exists w'. split; [exact Hrun|]. split; [exact Hgone|].
  rewrite (Hold Examples.Position) by (by vm_compute). by vm_compute.
Defined.

(** X20.  Migration round trip: for an entity filed at a row of its
    archetype, in a well-formed world of classes of the program, adding a
    component of a type the entity does not have and removing it again both
    return, and leave [getComponent(entity, T)] returning for every type [T]
    what it returned before the round trip ([undefined] for the type added
    and removed); the world stays well formed, and the entity is filed again
    under an archetype of the types it had; and where every entity sits in
    one row only, this stays so and the components of every entity read as
    before the round trip. *)
Theorem addComponent_removeComponent_round_trip `{CollationOrder}
    (U : ComponentConstructor.t -> Prop) (w : World.t) (entity : Entity)
    (ctor : ComponentConstructor.t) (value : object) (r : World.ref)
    (cur : Archetype.t) (idx : Z) :
  classes U -> U ctor -> Wf.world w -> registry U w ->
  JsMap.get (World.entityArchetype w) entity = Some r ->
  JsMap.get (World.archetypeBySignature w) r = Some cur ->
  Archetype.indexOf cur entity = Some idx ->
  Archetype.containsTypeId cur (typeId ctor) = false ->
  storable (schema ctor) value = true ->
  exists w1 w2,
    World.addComponent entity ctor value w = (w1, Ok tt)
    /\ World.removeComponent entity ctor w1 = (w2, Ok tt)
    /\ Wf.world w2 /\ registry U w2
    /\ (forall T, World.getComponent w2 entity T = World.getComponent w entity T)
    /\ (exists t a, JsMap.get (World.entityArchetype w2) entity = Some t
          /\ JsMap.get (World.archetypeBySignature w2) t = Some a
          /\ Archetype.ctors a ≡ₚ Archetype.ctors cur)
    /\ (Wf.entity_rows w ->
        Wf.entity_rows w2
        /\ forall r0 T, World.getComponent w2 r0 T = World.getComponent w r0 T).
Proof.
  intros HU Hctor Hwf Hreg He Hr Hidx Hno Hst.
  apply bool_decide_eq_false in Hno.
  pose proof (registered_wf w r cur (world_archetypes _ Hwf) (get_Some_elem _ _ _ Hr)) as Hwfc.
  destruct (addComponent_reads U w entity ctor value r cur idx HU Hctor Hwf Hreg He Hr Hidx Hst)
    as (w1 & t1 & a1 & idx1 & Hrun1 & Hwf1 & Hreg1 & He1 & Ht1 & Hidx1 & Hperm1 & Hnew1 & Hold1
        & Hframe1).
  rewrite bool_decide_eq_false_2 in Hperm1
    by (by rewrite <- (archetype_typeIds _ Hwfc)).
  pose proof (registered_wf w1 t1 a1 (world_archetypes _ Hwf1) (get_Some_elem _ _ _ Ht1))
    as Hwfa1.
  assert (Hin1 : typeId ctor ∈ Archetype.typeIds a1).
  { rewrite (archetype_typeIds _ Hwfa1). apply list_elem_of_fmap_2. rewrite Hperm1.
    apply elem_of_app. right. apply list_elem_of_here. }
  destruct (removeComponent_reads U w1 entity ctor t1 a1 idx1 HU Hwf1 Hreg1 He1 Ht1 Hidx1 Hin1)
    as (w2 & t2 & a2 & idx2 & Hrun2 & Hwf2 & Hreg2 & He2 & Ht2 & Hidx2 & Hperm2 & Hgone2 & Hold2
        & Hframe2).
  assert (Hself : forall T, World.getComponent w2 entity T = World.getComponent w entity T).
  2: { exists w1, w2. do 4 (split; [done|]). split; [done|]. split.
       - exists t2, a2. split; [done|]. split; [done|]. rewrite Hperm2, Hperm1.
         rewrite filter_added; [done|]. by rewrite <- (archetype_typeIds _ Hwfc).
       - intros Hrows. destruct (Hframe1 Hrows) as (Hrows1 & Hsame1 & _).
         destruct (Hframe2 Hrows1) as (Hrows2 & Hsame2 & _). split; [done|].
         intros r0 T. destruct (decide (r0 = entity)) as [->|Hne]; [done|].
         by rewrite Hsame2, Hsame1. }
  { intros T. destruct (decide (typeId T = typeId ctor)) as [Hid|Hne].
    + pose proof (registered_wf w2 t2 a2 (world_archetypes _ Hwf2) (get_Some_elem _ _ _ Ht2))
        as Hwfa2.
      assert (Hout2 : typeId ctor ∉ Archetype.typeIds a2).
      { rewrite (archetype_typeIds _ Hwfa2). intros Hc.
        apply list_elem_of_fmap in Hc as (c & Hidc & Hc). rewrite Hperm2 in Hc.
        apply list_elem_of_filter in Hc as [Hne _]. by apply Hne. }
      rewrite (getComponent_filed w2 entity t2 a2 idx2) by done.
      rewrite (getComponent_filed w entity r cur idx) by done.
      unfold Archetype.containsTypeId. rewrite Hid.
      by rewrite (bool_decide_eq_false_2 (typeId ctor ∈ Archetype.typeIds a2)),
                 (bool_decide_eq_false_2 (typeId ctor ∈ Archetype.typeIds cur)).
    + by rewrite Hold2, Hold1. }
Qed.

Lemma addComponent_removeComponent_round_trip_witness :
  let cur := Effects.after_addEntity 2
               [("Position", Examples.position 2 2); ("Velocity", Examples.velocity 6 6)]%string
               (Effects.after_addEntity 1
                  [("Position", Examples.position 1 1); ("Velocity", Examples.velocity 5 5)]%string
                  (Effects.fresh_archetype [Examples.Position; Examples.Velocity])) in
  (classes Examples.is_class /\ Examples.is_class Examples.Health
   /\ Wf.world Examples.two_movers /\ registry Examples.is_class Examples.two_movers
   /\ JsMap.get (World.entityArchetype Examples.two_movers) 2 = Some "Position|Velocity"%string
   /\ JsMap.get (World.archetypeBySignature Examples.two_movers) "Position|Velocity"%string
      = Some cur
   /\ Archetype.indexOf cur 2 = Some 1
   /\ Archetype.containsTypeId cur (typeId Examples.Health) = false
   /\ storable (schema Examples.Health) (Examples.health 50) = true)
  /\ exists w1 w2,
       World.addComponent (H := Examples.code_unit_collation) 2 Examples.Health
         (Examples.health 50) Examples.two_movers = (w1, Ok tt)
       /\ World.removeComponent (H := Examples.code_unit_collation) 2 Examples.Health w1
          = (w2, Ok tt)
       /\ World.getComponent w2 2 Examples.Position = Ok (Some (Examples.position 2 2))
       /\ World.getComponent w2 2 Examples.Velocity = Ok (Some (Examples.velocity 6 6))
       /\ World.getComponent w2 2 Examples.Health = Ok None.
Proof.
  intros cur.
  assert (Hh : Examples.is_class Examples.Health) by class_member.
  split.
  { split; [apply example_classes|]. split; [exact Hh|]. split; [apply two_movers_world|].
    split; [apply two_movers_registry|]. repeat (split; [by vm_compute|]). by vm_compute. }
  destruct (addComponent_removeComponent_round_trip (H := code_unit_collation_order)
              Examples.is_class Examples.two_movers 2 Examples.Health (Examples.health 50)
              "Position|Velocity"%string cur 1
              example_classes Hh (proj1 two_movers_world) two_movers_registry)
    as (w1 & w2 & Hrun1 & Hrun2 & _ & _ & Hsame & _); [by vm_compute..|].
  exists w1, w2. split; [exact Hrun1|]. split; [exact Hrun2|].
  rewrite !Hsame. repeat (split; [by vm_compute|]). by vm_compute.
Defined.

(** X22.  [query] and [getComponent] agree.  In a well-formed world where
    every entity sits in one row only, [query] over a list of types returns;
    every result holds one component for each type asked for, and it is the
    one [getComponent] returns for the entity of the result and that type;
    no entity comes twice; and, for a list that is not empty, every entity
    [getComponent] finds a component of each of the types for is among the
    results. *)
Theorem query_agrees_with_getComponent (w : World.t)
    (ctors : list ComponentConstructor.t) :
  Wf.world w -> Wf.entity_rows w ->
  exists results, World.query w ctors = Ok results
    /\ (forall res, res ∈ results ->
          length (World.components res) = length ctors
          /\ forall n c, ctors !! n = Some c ->
               exists v, World.components res !! n = Some v
                 /\ World.getComponent w (World.entity res) c = Ok (Some v))
    /\ NoDup (map World.entity results)
    /\ (ctors ≠ [] ->
        forall e, (forall c, c ∈ ctors -> exists v, World.getComponent w e c = Ok (Some v)) ->
          e ∈ map World.entity results).
Proof.
  intros Hwf Hrows. pose proof Hwf as [Hars Hkeys Hrefs].
  exists (query_results w ctors). split; [by apply query_spec|]. split; [|split].
  - intros res Hres. unfold query_results in Hres.
    apply elem_of_concat in Hres as (rows & Hres & Hrows').
    apply list_elem_of_fmap in Hrows' as (a & -> & Ha).
    apply list_elem_of_filter in Ha as [Hm Ha].
    apply list_elem_of_fmap in Ha as ([k a'] & -> & Hin). simpl in *.
    apply row_results_elem in Hres as (i & Hi & Hcomps).
    destruct (Hrows k a' Hin) as [Hc Hfile].
    pose proof (registered_wf w k a' Hars Hin) as Hwfa.
    rewrite Hcomps. split; [by rewrite length_map|].
    intros n c Hn. rewrite list_lookup_fmap, Hn. simpl. eexists. split; [done|].
    assert (Hcin : c ∈ ctors) by (by eapply list_elem_of_lookup_2).
    rewrite (getComponent_filed w (World.entity res) k a' (Z.of_nat i)).
    + assert (Hcont : Archetype.containsTypeId a' (typeId c) = true).
      { apply bool_decide_eq_true. by apply (proj1 (matches_spec ctors a') Hm). }
      rewrite Hcont.
      pose proof (matched_read a' ctors (Z.of_nat i) c Hwfa Hm ltac:(lia) Hcin) as Hok.
      by destruct (Archetype.getComponentAt a' c (Z.of_nat i)).
    + apply Hfile. by eapply list_elem_of_lookup_2.
    + by apply elem_get.
    + by apply Hc.
  - by apply (query_entities_NoDup (JsMap.get (World.entityArchetype w))).
  - intros Hne e Hall. destruct ctors as [|c0 ctors']; [done|].
    destruct (Hall c0) as [v0 Hv0]; [apply list_elem_of_here|].
    unfold World.getComponent in Hv0.
    destruct (JsMap.get (World.entityArchetype w) e) as [k|] eqn:Hk; [|done].
    destruct (Hrefs e k Hk) as [a Ha]. unfold World.deref in Hv0. rewrite Ha in Hv0.
    simpl in Hv0. destruct (Archetype.indexOf a e) as [idx|] eqn:Hidx; [|done].
    pose proof (get_Some_elem _ _ _ Ha) as Hin.
    pose proof (registered_wf w k a Hars Hin) as Hwfa.
    destruct (archetype_index _ Hwfa _ _ Hidx) as [_ Hrow].
    assert (Hm : matches (c0 :: ctors') a = true).
    { apply matches_spec. intros c Hc. destruct (Hall c Hc) as [v Hv].
      rewrite (getComponent_filed w e k a idx) in Hv by done.
      unfold Archetype.containsTypeId in Hv. by case_bool_decide. }
    unfold query_results. apply list_elem_of_fmap.
    assert (He : e ∈ map World.entity (row_results (c0 :: ctors') a)).
    { rewrite row_results_entities. by eapply list_elem_of_lookup_2. }
    apply list_elem_of_fmap in He as (res & -> & Hres). exists res. split; [done|].
    apply list_elem_of_In, in_concat. exists (row_results (c0 :: ctors') a).
    split; [|by apply list_elem_of_In]. apply list_elem_of_In.
    apply list_elem_of_fmap_2, list_elem_of_filter. split; [done|].
    by apply (list_elem_of_fmap_2 snd _ (k, a)).
Qed.

Lemma query_agrees_with_getComponent_witness :
  (Wf.world Examples.two_movers /\ Wf.entity_rows Examples.two_movers)
  /\ exists results,
       World.query Examples.two_movers [Examples.Velocity] = Ok results
       /\ NoDup (map World.entity results)
       /\ 2 ∈ map World.entity results.
Proof.
  split; [apply two_movers_world|].
  destruct (query_agrees_with_getComponent Examples.two_movers [Examples.Velocity]
              (proj1 two_movers_world) (proj2 two_movers_world))
    as (results & Hrun & _ & Hnd & Hall).
  exists results. split; [exact Hrun|]. split; [exact Hnd|].
  apply Hall; [done|]. intros c Hc. apply list_elem_of_singleton in Hc. subst c.
  eexists. by vm_compute.
Defined.

(** X23.  [createEntity] never returns an id twice.  It returns the counter
    and increments it, touching nothing else, and no other method of [World]
    changes the counter, whether it returns or throws; so along any sequence
    of calls from any world the ids [createEntity] returns are the counter
    of the start, then the next integer, and so on: they are different, and
    none is below the counter of the start. *)
Theorem createEntity_ids_are_fresh `{Collation} (calls : list call) (w : World.t) :
  (World.createEntity w).2 = Ok (World.nextEntityId w)
  /\ World.entityArchetype (World.createEntity w).1 = World.entityArchetype w
  /\ World.archetypeBySignature (World.createEntity w).1 = World.archetypeBySignature w
  /\ (run_calls calls w).2
     = map (fun i => World.nextEntityId w + Z.of_nat i)
           (seq 0 (length (run_calls calls w).2))
  /\ World.nextEntityId (run_calls calls w).1
     = World.nextEntityId w + Z.of_nat (length (run_calls calls w).2)
  /\ NoDup (run_calls calls w).2.
Proof.
  do 3 (split; [done|]).
  assert (Hrun : forall w0,
            (run_calls calls w0).2
            = map (fun i => World.nextEntityId w0 + Z.of_nat i)
                  (seq 0 (length (run_calls calls w0).2))
            /\ World.nextEntityId (run_calls calls w0).1
               = World.nextEntityId w0 + Z.of_nat (length (run_calls calls w0).2)).
  { induction calls as [|c calls IH]; intros w0; [simpl; split; [done|lia]|].
    assert (Hother : forall w1, World.nextEntityId w1 = World.nextEntityId w0 ->
              (run_calls calls w1).2
              = map (fun i => World.nextEntityId w0 + Z.of_nat i)
                    (seq 0 (length (run_calls calls w1).2))
              /\ World.nextEntityId (run_calls calls w1).1
                 = World.nextEntityId w0 + Z.of_nat (length (run_calls calls w1).2)).
    { intros w1 Hw1. rewrite <- Hw1. apply IH. }
    destruct c as [|e comps|e c v|e c|e]; cbn [run_calls].
    - destruct (IH (World.createEntity w0).1) as [Hids Hnext].
      destruct (run_calls calls (World.createEntity w0).1) as [w' ids]. simpl in *.
      split.
      + rewrite <- seq_shift, map_map. rewrite Z.add_0_r. f_equal.
        rewrite Hids at 1. apply map_ext. intros i. lia.
      + lia.
    - apply Hother, keeps_addEntityWithComponents.
    - apply Hother, keeps_addComponent.
    - apply Hother, keeps_removeComponent.
    - apply Hother, keeps_destroyEntity. }
  destruct (Hrun w) as [Hids Hnext]. split; [done|]. split; [done|].
  rewrite Hids. apply NoDup_fmap_2; [|apply NoDup_seq].
  intros i j Hij. lia.
Qed.

(** X24.  A program that uses the methods as intended never sees an
    exception and keeps its world consistent.  The new world is consistent:
    well formed, every archetype filed under its signature and made of
    classes of the program, every entity in one row only, and every entity
    the directory files at a row of its archetype.  From a consistent world,
    along any sequence of calls of [createEntity], [addEntityWithComponents]
    (for an entity that has no components yet, distinct types and values
    that can be stored), [addComponent] (for a value that can be stored),
    [removeComponent] and [destroyEntity], every call returns and the world
    is consistent again at the end. *)
Theorem admissible_calls_keep_consistent `{CollationOrder}
    (U : ComponentConstructor.t -> Prop) (calls : list call) (w : World.t) :
  classes U ->
  consistent U World.new
  /\ (consistent U w -> admissible U calls w ->
      all_return calls w /\ consistent U (run_calls calls w).1).
Proof.
  intros HU. split; [apply consistent_new|].
  revert w. induction calls as [|c calls IH]; intros w Hcons Hadm; [by split|].
  destruct Hadm as [Hc Hrest].
  destruct (consistent_call U c w HU Hcons Hc) as [Hret Hcons'].
  destruct (IH _ Hcons' Hrest) as [Hall Hfinal].
  split; [by split|]. by rewrite run_calls_cons.
Qed.

Lemma admissible_calls_keep_consistent_witness :
  let calls :=
    [CreateEntity;
     AddEntityWithComponents 1 [(Examples.Position, Examples.position 1 2)];
     AddComponent 1 Examples.Velocity (Examples.velocity 3 4);
     CreateEntity;
     AddComponent 2 Examples.Health (Examples.health 50);
     RemoveComponent 1 Examples.Position;
     DestroyEntity 2] in
  (classes Examples.is_class
   /\ admissible (H := Examples.code_unit_collation) Examples.is_class calls World.new)
  /\ all_return (H := Examples.code_unit_collation) calls World.new
  /\ consistent Examples.is_class
       (run_calls (H := Examples.code_unit_collation) calls World.new).1.
Proof.
  intros calls.
  assert (Hadm : admissible (H := Examples.code_unit_collation) Examples.is_class calls
                   World.new).
  { unfold calls. cbn [admissible admissible_call].
    split; [done|]. split.
    { split; [done|]. split; [repeat constructor; class_member|].
      split; [apply NoDup_singleton|]. by repeat constructor. }
    split; [split; [class_member|by vm_compute]|]. split; [done|].
    split; [split; [class_member|by vm_compute]|]. by repeat split. }
  split; [split; [apply example_classes|exact Hadm]|].
  destruct (admissible_calls_keep_consistent (H := code_unit_collation_order)
              Examples.is_class calls World.new example_classes) as [Hnew Hrun].
  by apply Hrun.
Defined.
End WorldProperties.
